(** * pixmask: a shallow embedding of the sanitization pipeline

    The development follows the layout of the repository:
    - [Image]      : include/pixmask/image.h (pixel types, buffer views)
    - [ThreadPool] : common/thread_pool.{h,cpp} (chunking and scheduling)
    - [Bitdepth]   : cpu/bitdepth.cpp (ordered-dither quantizer)
    - [Resample]   : cpu/resample.cpp (cubic weight tables, two-pass resize)
    - [Dct]        : cpu/dct8x8.cpp (8x8 block transform attenuator)
    - [PixelOps]   : common/pixel_ops.h (validation and format conversion)
    - [SrLite]     : the fixed-weight regeneration network
    - [Sanitize]   : common/sanitize.cpp (the orchestrator)

    Conventions.
    - [std::size_t] values are natural numbers; where the source computes
      an allocation size, a stride or a chunk bound the 64-bit wrap-around
      is written out with [wrap].  Index expressions into a vector that
      has been allocated with the matching size stay below its length and
      are written without [wrap].
    - [float]/[double] arithmetic is an interface, [FloatOps]; the code is
      embedded once, for every implementation of the interface.  Three
      implementations are given: exact rational arithmetic ([Q], which
      evaluates), exact real arithmetic ([R], the reference semantics
      against which "within floating-point rounding" is read; it has no
      NaN and no infinity) and IEEE 754 binary32 ([Binary32], the
      arithmetic of the compiled code, which evaluates too).
    - [std::vector<float>] is [list F]; an indexed store [v[i] = x] is
      stdpp's [<[i:=x]> v].
    - [parallel_for] bodies write disjoint cells, so a stage is embedded
      with one schedule (chunks in submission order); the scheduling
      itself is modelled in [ThreadPool]. *)

From Stdlib Require Import ZArith NArith QArith Qround Reals Lra Lia Permutation.
From Stdlib Require SpecFloat Classical_Prop.
From stdpp Require Import base tactics option list relations.

(** ** Machine integers *)

(** [std::size_t] is 64 bits wide: the value of an unsigned expression is
    its mathematical value modulo [2^64]. *)
Definition size_modulus : N := (2 ^ 64)%N.

Definition wrap (n : nat) : nat := N.to_nat (N.of_nat n mod size_modulus).

(** [fits n]: the mathematical value [n] is representable as a [size_t]. *)
Definition fits (n : nat) : Prop := (N.of_nat n < size_modulus)%N.

(** ** Counted loops *)

(** [for (i = lo; i < hi; ++i) body] over a state [St]. *)
Definition for_range {St : Type} (lo hi : nat) (body : nat → St → St) (s : St) : St :=
  foldl (λ acc i, body i acc) s (seq lo (hi - lo)).

(** The same loop when the body may [break]: [None] leaves the loop. *)
Fixpoint for_break_list {St : Type} (idxs : list nat) (body : nat → St → option St)
    (s : St) : St :=
  match idxs with
  | [] => s
  | i :: rest =>
      match body i s with
      | Some s' => for_break_list rest body s'
      | None => s
      end
  end.

Definition for_break {St : Type} (lo hi : nat) (body : nat → St → option St) (s : St) : St :=
  for_break_list (seq lo (hi - lo)) body s.

(** ** Loops that store into a vector

    [updates_cells body R val]: running [body] keeps the length of the
    vector, replaces the content [v] of every cell [j] in the region [R] by
    [val j v], and leaves every other cell alone. *)
Definition updates_cells {A : Type} (body : list A → list A)
    (R : nat → Prop) (val : nat → A → A) : Prop :=
  ∀ l, length (body l) = length l ∧
       ∀ j, (R j → body l !! j = val j <$> (l !! j)) ∧
            (¬ R j → body l !! j = l !! j).

(** ** Floating-point interface *)

(** The operations the code applies to [float] and [double] values. *)
Class FloatOps (F : Type) : Type := {
  f_lit : Q → F;              (** a decimal literal such as [0.35f] *)
  f_of_Z : Z → F;             (** [static_cast<float>(n)] for an integer [n] *)
  fadd : F → F → F;
  fsub : F → F → F;
  fmul : F → F → F;
  fdiv : F → F → F;
  fabs : F → F;               (** [std::abs] *)
  fltb : F → F → bool;        (** [a < b] *)
  feqb : F → F → bool;        (** [a == b] *)
  f_floor : F → F;            (** [std::floor] *)
  f_round : F → F;            (** [std::round]: ties away from zero *)
  f_nearbyint : F → F;        (** [std::nearbyint]: ties to even *)
  f_trunc : F → Z;            (** [static_cast<int>(x)]: towards zero *)
  f_llround : F → Z;          (** [std::llround]: ties away from zero *)
}.

(** The transcendental part used by the block transform: [std::cos] and
    the two constants that the source spells as rounded decimals of [pi]
    and [sqrt(1/8)]. *)
Class TrigOps (F : Type) : Type := {
  f_cos : F → F;
  f_pi : F;
  f_sqrt_eighth : F;
}.

Section FloatDerived.
Context {F : Type} `{FloatOps F}.

Definition f0 : F := f_lit 0.
Definition f1 : F := f_lit 1.

(** [a > b] is [b < a]; [a != b] is [!(a == b)]. *)
Definition fgtb (a b : F) : bool := fltb b a.
Definition fneb (a b : F) : bool := negb (feqb a b).

(** [std::min(a, b)] returns [b] when [b < a] and [a] otherwise. *)
Definition fmin (a b : F) : F := if fltb b a then b else a.

(** [std::clamp(v, lo, hi)]. *)
Definition fclamp (v lo hi : F) : F :=
  if fltb v lo then lo else if fltb hi v then hi else v.
End FloatDerived.

(** *** Exact rational arithmetic *)

Definition Q_trunc (x : Q) : Z :=
  if Qle_bool 0 x then Qfloor x else Qceiling x.

Definition Q_round_away (x : Q) : Z :=
  if Qle_bool 0 x then Qfloor (x + (1 # 2)) else (- Qfloor (- x + (1 # 2)))%Z.

Definition Q_round_even (x : Q) : Z :=
  let f := Qfloor x in
  let d := (x - inject_Z f)%Q in
  match (d ?= (1 # 2))%Q with
  | Lt => f
  | Gt => (f + 1)%Z
  | Eq => if Z.even f then f else (f + 1)%Z
  end.

Definition Q_ltb (a b : Q) : bool :=
  match (a ?= b)%Q with Lt => true | _ => false end.

#[export] Instance Q_float : FloatOps Q := {|
  f_lit := λ q, q;
  f_of_Z := inject_Z;
  fadd := Qplus;
  fsub := Qminus;
  fmul := Qmult;
  fdiv := Qdiv;
  fabs := Qabs.Qabs;
  fltb := Q_ltb;
  feqb := Qeq_bool;
  f_floor := λ x, inject_Z (Qfloor x);
  f_round := λ x, inject_Z (Q_round_away x);
  f_nearbyint := λ x, inject_Z (Q_round_even x);
  f_trunc := Q_trunc;
  f_llround := Q_round_away;
|}.

(** *** Exact real arithmetic *)

Definition R_ltb (a b : R) : bool := if Rlt_dec a b then true else false.
Definition R_eqb (a b : R) : bool := if Req_dec_T a b then true else false.

Definition R_trunc (x : R) : Z :=
  if Rle_dec 0 x then Zfloor x else Zceil x.

Definition R_round_away (x : R) : Z :=
  if Rle_dec 0 x then Zfloor (x + / 2) else (- Zfloor (- x + / 2))%Z.

Definition R_round_even (x : R) : Z :=
  let f := Zfloor x in
  let d := (x - IZR f)%R in
  if Rlt_dec d (/ 2) then f
  else if Rlt_dec (/ 2) d then (f + 1)%Z
  else if Z.even f then f else (f + 1)%Z.

#[export] Instance R_float : FloatOps R := {|
  f_lit := Q2R;
  f_of_Z := IZR;
  fadd := Rplus;
  fsub := Rminus;
  fmul := Rmult;
  fdiv := Rdiv;
  fabs := Rabs;
  fltb := R_ltb;
  feqb := R_eqb;
  f_floor := λ x, IZR (Zfloor x);
  f_round := λ x, IZR (R_round_away x);
  f_nearbyint := λ x, IZR (R_round_even x);
  f_trunc := R_trunc;
  f_llround := R_round_away;
|}.

#[export] Instance R_trig : TrigOps R := {|
  f_cos := cos;
  f_pi := PI;
  f_sqrt_eighth := sqrt (/ 8);
|}.

(** ** include/pixmask/image.h *)

(** Values of [enum class PixelType]; [Unknown] stands for a value of the
    underlying integer type that is none of the three enumerators. *)
Inductive PixelType : Type := U8_RGB | U8_RGBA | F32_RGB | Unknown.

#[export] Instance PixelType_eq_dec : EqDecision PixelType.
Proof. solve_decision. Defined.

Definition pixel_channels (type : PixelType) : nat :=
  match type with
  | U8_RGB | F32_RGB => 3
  | U8_RGBA => 4
  | Unknown => 0
  end.

Definition bytes_per_channel (type : PixelType) : nat :=
  match type with
  | U8_RGB | U8_RGBA => 1
  | F32_RGB => 4
  | Unknown => 0
  end.

Definition bytes_per_pixel (type : PixelType) : nat :=
  pixel_channels type * bytes_per_channel type.

(** The memory a [void*] buffer points to: a run of bytes (8-bit
    formats) or a run of floats (the 32-bit format).  Floats are addressed
    in units of one float, i.e. byte offset divided by [sizeof(float)]. *)
Inductive Storage (F : Type) : Type :=
  | Bytes (b : list Z)
  | Floats (f : list F).
Arguments Bytes {F} b.
Arguments Floats {F} f.

(** [struct CpuImage]: a non-owning view.  [data = None] is [nullptr]. *)
Module CpuImage.
Record t (F : Type) : Type := mk {
  type : PixelType;
  width : nat;
  height : nat;
  stride_bytes : nat;
  data : option (Storage F);
}.
Arguments mk {F}.
Arguments type {F}.
Arguments width {F}.
Arguments height {F}.
Arguments stride_bytes {F}.
Arguments data {F}.

Definition row_bytes {F} (image : t F) : nat :=
  wrap (width image * bytes_per_pixel (type image)).

Definition is_contiguous {F} (image : t F) : bool :=
  bool_decide (stride_bytes image = row_bytes image).

(** The same view over other memory contents. *)
Definition with_data {F} (image : t F) (d : option (Storage F)) : t F :=
  mk (type image) (width image) (height image) (stride_bytes image) d.
End CpuImage.

(** [struct Image]: an owned, tightly packed float image. *)
Module Image.
Record t (F : Type) : Type := mk {
  width : nat;
  height : nat;
  pixels : list F;
}.
Arguments mk {F}.
Arguments width {F}.
Arguments height {F}.
Arguments pixels {F}.
End Image.

(** Unsigned subtraction [a - b] on [size_t]. *)
Definition wsub (a b : nat) : nat :=
  N.to_nat ((N.of_nat a + size_modulus - N.of_nat b mod size_modulus) mod size_modulus).

(** ** common/thread_pool.h, common/thread_pool.cpp *)

Module ThreadPool.

(** A chunk [[chunk_begin, chunk_end)] handed to [chunk_fn]. *)
Definition chunk : Type := nat * nat.

(** The indices a chunk makes [parallel_for]'s wrapper visit, in order:
    [for (idx = chunk_begin; idx < chunk_end; ++idx)]. *)
Definition chunk_indices (c : chunk) : list nat := seq c.1 (c.2 - c.1).

(** What [parallel_for_impl] does with a range. *)
Inductive dispatch : Type :=
  | Skip                            (** [end <= begin]: return at once *)
  | Inline (c : chunk)              (** [chunk_fn(begin, end)] on the caller *)
  | Submit (chunks : list chunk).   (** enqueue the chunks, then [wait()] *)

Definition chunks_of (d : dispatch) : list chunk :=
  match d with
  | Skip => []
  | Inline c => [c]
  | Submit cs => cs
  end.

(** The [while (chunk_begin < end)] loop.  [fuel] bounds the number of
    iterations; [None] means the bound was not enough. *)
Fixpoint chunk_loop (fuel chunk_begin end_ chunk_size : nat) : option (list chunk) :=
  if decide (chunk_begin < end_) then
    match fuel with
    | 0 => None
    | S fuel' =>
        let chunk_end := Nat.min end_ (wrap (chunk_begin + chunk_size)) in
        rest ← chunk_loop fuel' chunk_end end_ chunk_size;
        Some ((chunk_begin, chunk_end) :: rest)
    end
  else Some [].

(** [parallel_for_impl(begin, end, chunk_fn)] for a pool of [pool_size]
    workers ([pool.size()]). *)
Definition parallel_for_impl (pool_size begin end_ : nat) : option dispatch :=
  if decide (end_ ≤ begin) then Some Skip
  else
    let workers := Nat.max 1 pool_size in
    let total := end_ - begin in
    if decide (workers ≤ 1 ∨ total ≤ workers) then Some (Inline (begin, end_))
    else
      let target_chunks := wrap (workers * 4) in
      let chunk_size := wsub (wrap (total + target_chunks)) 1 / target_chunks in
      let chunk_size := Nat.max 1 chunk_size in
      Submit <$> chunk_loop total begin end_ chunk_size.

(** [parallel_for(begin, end, fn)] as the stages use it: the body is run
    on every index of every chunk, chunk after chunk. *)
Definition parallel_for {St : Type} (pool_size begin end_ : nat)
    (fn : nat → St → St) (s : St) : option St :=
  if decide (end_ ≤ begin) then Some s
  else
    d ← parallel_for_impl pool_size begin end_;
    Some (foldl (λ acc c, for_range c.1 c.2 fn acc) s (chunks_of d)).

(** *** The pool *)

(** [queues_] holds one deque per worker; [pending_tasks_] counts the
    tasks enqueued and not yet completed; [running] are the tasks a
    worker has taken and not yet completed. *)
Record pool : Type := mk_pool {
  queues : list (list chunk);
  pending_tasks : nat;
  next_queue : nat;
  running : list chunk;
}.

(** [start_workers(worker_count)] on a fresh pool. *)
Definition start_workers (worker_count : nat) : pool :=
  mk_pool (replicate worker_count []) 0 0 [].

Definition size (p : pool) : nat := length (queues p).

(** The caller thread and the pool: [todo] are the chunks the loop of
    [parallel_for_impl] still has to enqueue, [visited] the indices on
    which the body has been run so far. *)
Record system : Type := mk_system {
  todo : list chunk;
  the_pool : pool;
  visited : list nat;
}.

(** [try_pop_task(index, task)]: the front of the worker's own deque. *)
Definition try_pop_task (index : nat) (qs : list (list chunk))
    : option (chunk * list (list chunk)) :=
  match qs !! index with
  | Some (task :: rest) => Some (task, <[index := rest]> qs)
  | _ => None
  end.

(** [try_steal_task(index, task)]: the back of the first non-empty deque
    among [(index + offset) % worker_count], [offset = 1 ..]. *)
Fixpoint steal_from (targets : list nat) (qs : list (list chunk))
    : option (chunk * list (list chunk)) :=
  match targets with
  | [] => None
  | target :: others =>
      match qs !! target with
      | Some q =>
          match last q with
          | Some task => Some (task, <[target := removelast q]> qs)
          | None => steal_from others qs
          end
      | None => steal_from others qs
      end
  end.

Definition try_steal_task (index : nat) (qs : list (list chunk))
    : option (chunk * list (list chunk)) :=
  let worker_count := length qs in
  steal_from (map (λ offset, (index + offset) mod worker_count)
                  (seq 1 (worker_count - 1))) qs.

(** A worker's [try_pop_task(index, task) || try_steal_task(index, task)]. *)
Definition take_task (index : nat) (qs : list (list chunk))
    : option (chunk * list (list chunk)) :=
  match try_pop_task index qs with
  | Some r => Some r
  | None => try_steal_task index qs
  end.

(** [enqueue(task)] on a pool with deques. *)
Definition enqueue (task : chunk) (p : pool) : pool :=
  let queue_index := next_queue p mod Nat.max 1 (size p) in
  mk_pool (alter (λ q, q ++ [task]) queue_index (queues p))
          (S (pending_tasks p)) (S (next_queue p)) (running p).

Inductive step : system → system → Prop :=
  (** the caller enqueues the next chunk *)
  | step_enqueue task rest p vis :
      queues p ≠ [] →
      step (mk_system (task :: rest) p vis)
           (mk_system rest (enqueue task p) vis)
  (** [enqueue] on a pool without deques runs the task on the caller *)
  | step_enqueue_inline task rest p vis :
      queues p = [] →
      step (mk_system (task :: rest) p vis)
           (mk_system rest p (vis ++ chunk_indices task))
  (** worker [index] takes a task from a deque *)
  | step_take index task qs' td p vis :
      index < size p →
      take_task index (queues p) = Some (task, qs') →
      step (mk_system td p vis)
           (mk_system td (mk_pool qs' (pending_tasks p) (next_queue p)
                                  (task :: running p)) vis)
  (** a worker finishes its task: the body has run on the chunk, then
      [task_completed()] decrements the counter *)
  | step_complete task before after td p vis :
      running p = before ++ task :: after →
      step (mk_system td p vis)
           (mk_system td (mk_pool (queues p) (pending_tasks p - 1) (next_queue p)
                                  (before ++ after))
                      (vis ++ chunk_indices task)).

(** [wait()] may return: the loop has enqueued everything and
    [pending_tasks_ == 0]. *)
Definition wait_returns (s : system) : Prop :=
  todo s = [] ∧ pending_tasks (the_pool s) = 0.

(** The complete runs of one [parallel_for_impl] call: the list of
    indices visited when the call returns. *)
Definition completes (pool_size : nat) (d : dispatch) (vis : list nat) : Prop :=
  match d with
  | Skip => vis = []
  | Inline c => vis = chunk_indices c
  | Submit cs =>
      ∃ final, rtc step (mk_system cs (start_workers pool_size) []) final
               ∧ wait_returns final ∧ vis = visited final
  end.

(** Chunks that follow one another from [b] to [e]: each one is
    non-empty and begins where the previous one ended. *)
Fixpoint chained (b e : nat) (cs : list chunk) : Prop :=
  match cs with
  | [] => b = e
  | c :: rest => c.1 = b ∧ c.1 < c.2 ∧ c.2 ≤ e ∧ chained c.2 e rest
  end.

(** The tasks the pool holds: queued or taken by a worker. *)
Definition held (p : pool) : list chunk := running p ++ concat (queues p).

(** The indices of the chunks that are still to be run. *)
Definition outstanding (s : system) : list nat :=
  concat (map chunk_indices (held (the_pool s) ++ todo s)).

(** What every reachable state of a call over the indices [all]
    satisfies: the pool keeps its deques, [pending_tasks_] counts the
    tasks it holds, and every index is either visited or outstanding. *)
Definition pool_inv (all : list nat) (pool_size : nat) (s : system) : Prop :=
  size (the_pool s) = pool_size ∧
  pending_tasks (the_pool s) = length (held (the_pool s)) ∧
  visited s ++ outstanding s ≡ₚ all.

(** A progress measure: every [step] lowers it. *)
Definition work_left (s : system) : nat :=
  3 * length (todo s) + 2 * length (concat (queues (the_pool s)))
  + length (running (the_pool s)).

End ThreadPool.


(** ** cpu/bitdepth.cpp *)

Module Bitdepth.
Section WithFloat.
Context {F : Type} `{FloatOps F}.

Definition kBayer8x8 : list (list Z) :=
  [ [0; 48; 12; 60; 3; 51; 15; 63];
    [32; 16; 44; 28; 35; 19; 47; 31];
    [8; 56; 4; 52; 11; 59; 7; 55];
    [40; 24; 36; 20; 43; 27; 39; 23];
    [2; 50; 14; 62; 1; 49; 13; 61];
    [34; 18; 46; 30; 33; 17; 45; 29];
    [10; 58; 6; 54; 9; 57; 5; 53];
    [42; 26; 38; 22; 41; 25; 37; 21] ]%Z.

(** [kBayer8x8[matrix_y][matrix_x]]. *)
Definition bayer_at (matrix_y matrix_x : nat) : Z :=
  nth matrix_x (nth matrix_y kBayer8x8 []) 0%Z.

Definition kInvBayerScale : F := fdiv (f_lit 1) (f_lit 64).

(** [bits] is a [std::uint32_t]. *)
Definition sanitize_bits (bits : Z) : Z :=
  let bits := if (bits =? 0)%Z then 6%Z else bits in
  let bits := if (bits <? 1)%Z then 1%Z else bits in
  let bits := if (bits >? 8)%Z then 8%Z else bits in
  bits.

Definition clamp01 (value : F) : F :=
  if fltb value (f_lit 0) then f_lit 0
  else if fgtb value (f_lit 1) then f_lit 1
  else value.

(** The dither threshold of pixel [(x, y)]:
    [(float(kBayer8x8[y & 7][x & 7]) + 0.5f) * kInvBayerScale]. *)
Definition dither_threshold (y x : nat) : F :=
  let matrix_y := Nat.land y 7 in
  let matrix_x := Nat.land x 7 in
  fmul (fadd (f_of_Z (bayer_at matrix_y matrix_x)) (f_lit 0.5)) kInvBayerScale.

(** [levels = 1u << sanitized_bits]. *)
Definition levels_of (bits : Z) : Z := Z.shiftl 1 (sanitize_bits bits).

(** The body of the innermost loop: the new content of [data[idx]]. *)
Definition quantize_sample (levels : Z) (threshold value : F) : F :=
  let max_level := (levels - 1)%Z in
  let inv_levels_minus_one :=
    if (max_level >? 0)%Z then fdiv (f_lit 1) (f_of_Z max_level) else f_lit 0 in
  let clamped := clamp01 value in
  let scaled := fmul clamped (f_of_Z levels) in
  let biased := fsub (fadd scaled threshold) (f_lit 0.5) in
  let quantized := f_trunc (f_floor biased) in
  let quantized :=
    if (quantized <? 0)%Z then 0%Z
    else if (quantized >? max_level)%Z then max_level
    else quantized in
  if (max_level >? 0)%Z then fmul (f_of_Z quantized) inv_levels_minus_one
  else f_lit 0.

(** [quantize_in_place(data, width, height, channels, bits)]; [data] is
    the vector behind the pointer. *)
Definition quantize_in_place (data : list F) (width height channels : nat)
    (bits : Z) : list F :=
  if bool_decide (width = 0 ∨ height = 0 ∨ channels = 0) then data
  else
    let levels := levels_of bits in
    for_range 0 height (λ y data,
      let row_offset := y * width * channels in
      for_range 0 width (λ x data,
        let threshold := dither_threshold y x in
        for_range 0 channels (λ c data,
          let idx := row_offset + x * channels + c in
          alter (quantize_sample levels threshold) idx data) data) data) data.

Definition infer_channels (image : Image.t F) : nat :=
  if bool_decide (Image.width image = 0 ∨ Image.height image = 0) then 0
  else
    let pixels := wrap (Image.width image * Image.height image) in
    if bool_decide (pixels = 0) then 0
    else if bool_decide (Image.pixels image = [] ∨
                         length (Image.pixels image) mod pixels ≠ 0) then 0
    else length (Image.pixels image) / pixels.

Definition quantize_bitdepth (image : Image.t F) (bits : Z) : Image.t F :=
  let channels := infer_channels image in
  if bool_decide (channels = 0) then image
  else Image.mk (Image.width image) (Image.height image)
         (quantize_in_place (Image.pixels image) (Image.width image)
            (Image.height image) channels bits).

(** [pixmask_quantize_bitdepth], the C entry point on a raw array. *)
Definition pixmask_quantize_bitdepth (data : list F) (width height channels : nat)
    (bits : Z) : list F :=
  quantize_in_place data width height channels bits.

End WithFloat.

(** The bit depth as the specification words it: [bits] clamped into
    [[1, 8]]. *)
Definition clamped_bits (bits : Z) : Z := Z.max 1 (Z.min bits 8).

(** The bit depth the code works with: [0] selects the default depth 6,
    every other request is clamped into [[1, 8]]. *)
Definition effective_bits (bits : Z) : Z :=
  if (bits =? 0)%Z then 6%Z else clamped_bits bits.

End Bitdepth.

(** ** common/pixel_ops.h *)

Module PixelOps.
Section WithFloat.
Context {F : Type} `{FloatOps F}.

Definition kInv255 : F := fdiv (f_lit 1) (f_lit 255).

Definition is_null (d : option (Storage F)) : bool :=
  match d with None => true | Some _ => false end.

Definition validate_image (image : CpuImage.t F) : bool :=
  let bpp := bytes_per_pixel (CpuImage.type image) in
  if bool_decide (bpp = 0) then false
  else if bool_decide (CpuImage.width image = 0 ∨ CpuImage.height image = 0) then false
  else if bool_decide (CpuImage.stride_bytes image < CpuImage.row_bytes image) then false
  else if is_null (CpuImage.data image) then false
  else
    let channel_size := bytes_per_channel (CpuImage.type image) in
    if bool_decide (channel_size = 0 ∨
                    CpuImage.stride_bytes image mod channel_size ≠ 0) then false
    else true.

Definition float_to_u8 (value : F) : Z :=
  let value := fclamp value (f_lit 0) (f_lit 1) in
  let scaled := f_round (fmul value (f_lit 255)) in
  let clamped := fclamp scaled (f_lit 0) (f_lit 255) in
  f_trunc clamped.

(** Reads and writes through a buffer pointer.  A byte pointer plus
    [offset] addresses byte [offset]; a float pointer obtained from byte
    offset [offset] addresses float [offset / 4].  Memory of the other
    kind is not reinterpreted: reads give 0 and writes are dropped. *)
Definition load_u8 (d : option (Storage F)) (offset : nat) : Z :=
  match d with
  | Some (Bytes b) => nth offset b 0%Z
  | _ => 0%Z
  end.

Definition load_f32 (d : option (Storage F)) (offset index : nat) : F :=
  match d with
  | Some (Floats f) => nth (offset / 4 + index) f (f_lit 0)
  | _ => f_lit 0
  end.

Definition store_u8 (offset : nat) (v : Z) (d : option (Storage F))
    : option (Storage F) :=
  match d with
  | Some (Bytes b) => Some (Bytes (<[offset := v]> b))
  | _ => d
  end.

Definition store_f32 (offset index : nat) (v : F) (d : option (Storage F))
    : option (Storage F) :=
  match d with
  | Some (Floats f) => Some (Floats (<[offset / 4 + index := v]> f))
  | _ => d
  end.

(** [std::memcpy(dst + dst_offset, src + src_offset, count)]. *)
Definition memcpy (dst_offset src_offset count : nat)
    (src dst : option (Storage F)) : option (Storage F) :=
  match src with
  | Some (Bytes _) =>
      for_range 0 count (λ k d,
        store_u8 (dst_offset + k) (load_u8 src (src_offset + k)) d) dst
  | Some (Floats _) =>
      for_range 0 (count / 4) (λ k d,
        store_f32 dst_offset k (load_f32 src src_offset k) d) dst
  | None => dst
  end.

(** [copy_image_bytes(src, dst)]: the new contents of [dst.data]. *)
Definition copy_image_bytes (src dst : CpuImage.t F) : option (Storage F) :=
  let row_bytes := CpuImage.row_bytes src in
  for_range 0 (CpuImage.height src) (λ y d,
    memcpy (y * CpuImage.stride_bytes dst) (y * CpuImage.stride_bytes src)
           row_bytes (CpuImage.data src) d) (CpuImage.data dst).

(** The row loops of [convert_image]. *)
Definition convert_u8_to_f32 (src_channels : nat) (src dst : CpuImage.t F)
    : option (Storage F) :=
  for_range 0 (CpuImage.height src) (λ y d,
    let src_row := y * CpuImage.stride_bytes src in
    let dst_row := y * CpuImage.stride_bytes dst in
    for_range 0 (CpuImage.width src) (λ x d,
      let src_index := x * src_channels in
      let dst_index := x * 3 in
      let load c := fmul (f_of_Z (load_u8 (CpuImage.data src) (src_row + src_index + c)))
                         kInv255 in
      store_f32 dst_row (dst_index + 2) (load 2)
        (store_f32 dst_row (dst_index + 1) (load 1)
           (store_f32 dst_row (dst_index + 0) (load 0) d))) d) (CpuImage.data dst).

Definition convert_f32_to_u8 (dst_channels : nat) (src dst : CpuImage.t F)
    : option (Storage F) :=
  for_range 0 (CpuImage.height src) (λ y d,
    let src_row := y * CpuImage.stride_bytes src in
    let dst_row := y * CpuImage.stride_bytes dst in
    for_range 0 (CpuImage.width src) (λ x d,
      let src_index := x * 3 in
      let dst_index := x * dst_channels in
      let load c := float_to_u8 (load_f32 (CpuImage.data src) src_row (src_index + c)) in
      let d := store_u8 (dst_row + dst_index + 0) (load 0) d in
      let d := store_u8 (dst_row + dst_index + 1) (load 1) d in
      let d := store_u8 (dst_row + dst_index + 2) (load 2) d in
      if bool_decide (dst_channels = 4)
      then store_u8 (dst_row + dst_index + 3) 255%Z d
      else d) d) (CpuImage.data dst).

(** [convert_image(src, dst)]: the result and the contents of [dst.data]
    afterwards. *)
Definition convert_image (src dst : CpuImage.t F) : bool * option (Storage F) :=
  let unchanged := CpuImage.data dst in
  if negb (validate_image src) || negb (validate_image dst) then (false, unchanged)
  else if bool_decide (CpuImage.width src ≠ CpuImage.width dst ∨
                       CpuImage.height src ≠ CpuImage.height dst)
  then (false, unchanged)
  else if bool_decide (CpuImage.type src = CpuImage.type dst)
  then (true, copy_image_bytes src dst)
  else
    match CpuImage.type src with
    | U8_RGB =>
        if bool_decide (CpuImage.type dst ≠ F32_RGB) then (false, unchanged)
        else (true, convert_u8_to_f32 3 src dst)
    | U8_RGBA =>
        if bool_decide (CpuImage.type dst ≠ F32_RGB) then (false, unchanged)
        else (true, convert_u8_to_f32 4 src dst)
    | F32_RGB =>
        match CpuImage.type dst with
        | U8_RGB => (true, convert_f32_to_u8 3 src dst)
        | U8_RGBA => (true, convert_f32_to_u8 4 src dst)
        | _ => (false, unchanged)
        end
    | Unknown => (false, unchanged)
    end.

(** The pointer [v.data()] of a vector, viewed as a float buffer. *)
Definition vector_data (v : list F) : option (Storage F) :=
  match v with
  | [] => None
  | _ => Some (Floats v)
  end.

(** The floats behind a float buffer. *)
Definition floats_of (d : option (Storage F)) : list F :=
  match d with
  | Some (Floats f) => f
  | _ => []
  end.

End WithFloat.
End PixelOps.

(** ** include/pixmask/filters.h, cpu/resample.cpp *)

(** [struct CubicPhase]. *)
Module CubicPhase.
Record t (F : Type) : Type := mk {
  indices : list nat;
  weights : list F;
}.
Arguments mk {F}.
Arguments indices {F}.
Arguments weights {F}.

(** [phase.indices.push_back(i); phase.weights.push_back(w);] *)
Definition push {F} (phase : t F) (i : nat) (w : F) : t F :=
  mk (indices phase ++ [i]) (weights phase ++ [w]).

Definition empty {F} : t F := mk [] [].
End CubicPhase.

Module Resample.
Section WithFloat.
Context {F : Type} `{FloatOps F}.

(** [pool.size()] of the global pool. *)
Variable pool_size : nat.

Definition kCubicParameter : F := f_lit (-0.5).

Definition cubic_kernel (x : F) : F :=
  let x := fabs x in
  let x2 := fmul x x in
  let x3 := fmul x2 x in
  if fltb x (f_lit 1) then
    fadd (fsub (fmul (fadd kCubicParameter (f_lit 2)) x3)
               (fmul (fadd kCubicParameter (f_lit 3)) x2))
         (f_lit 1)
  else if fltb x (f_lit 2) then
    fsub (fadd (fsub (fmul kCubicParameter x3)
                     (fmul (fmul (f_lit 5) kCubicParameter) x2))
               (fmul (fmul (f_lit 8) kCubicParameter) x))
         (fmul (f_lit 4) kCubicParameter)
  else f_lit 0.

(** [mirror_index(idx, length)]; [idx] is a [std::ptrdiff_t] and [%] is
    C++'s truncating remainder. *)
Definition mirror_index (idx : Z) (length : nat) : nat :=
  if bool_decide (length = 0) then 0
  else if bool_decide (length = 1) then 0
  else
    let period := Z.of_nat (wsub (wrap (length * 2)) 2) in
    if (period =? 0)%Z then 0
    else
      let idx := Z.rem idx period in
      let idx := if (idx <? 0)%Z then (idx + period)%Z else idx in
      let idx := if (idx >=? Z.of_nat length)%Z then (period - idx)%Z else idx in
      Z.to_nat idx.

Definition compute_channels (image : Image.t F) : nat :=
  if bool_decide (Image.width image = 0 ∨ Image.height image = 0) then 0
  else
    let count := wrap (Image.width image * Image.height image) in
    if bool_decide (count = 0) then 0
    else if bool_decide (length (Image.pixels image) mod count ≠ 0) then 0
    else length (Image.pixels image) / count.

(** The [while (current < end)] loop of the downscale branch; the state
    is [(current, idx, phase, weight_sum)].  [None]: [fuel] iterations were
    not enough. *)
Fixpoint coverage_loop (fuel : nat) (src_size : nat) (scale end_ : F)
    (current : F) (idx : Z) (phase : CubicPhase.t F) (weight_sum : F)
    : option (CubicPhase.t F * F) :=
  if fltb current end_ then
    match fuel with
    | 0 => None
    | S fuel' =>
        let next_edge := f_of_Z (idx + 1) in
        let next := fmin end_ next_edge in
        let coverage := fsub next current in
        let '(phase, weight_sum) :=
          if fgtb coverage (f_lit 0) then
            let mapped := mirror_index idx src_size in
            let weight := fmul coverage scale in
            (CubicPhase.push phase mapped weight, fadd weight_sum weight)
          else (phase, weight_sum) in
        coverage_loop fuel' src_size scale end_ next (idx + 1)%Z phase weight_sum
    end
  else Some (phase, weight_sum).

(** The end of both branches: normalize the weights, or fall back to a
    single tap at the rounded position [position]. *)
Definition finish_phase (src_size : nat) (position : F)
    (phase : CubicPhase.t F) (weight_sum : F) : CubicPhase.t F :=
  if fneb weight_sum (f_lit 0) then
    let inv_sum := fdiv (f_lit 1) weight_sum in
    CubicPhase.mk (CubicPhase.indices phase)
      (map (λ weight, fmul weight inv_sum) (CubicPhase.weights phase))
  else
    let mapped := mirror_index (f_llround position) src_size in
    CubicPhase.push phase mapped (f_lit 1).

(** The four taps of the upscale branch. *)
Definition upscale_taps (src_size : nat) (src_pos : F) (base : Z)
    : CubicPhase.t F * F :=
  for_range 0 4 (λ tap '(phase, weight_sum),
    let idx := (base + Z.of_nat tap)%Z in
    let distance := fsub src_pos (f_of_Z idx) in
    let weight := cubic_kernel distance in
    if feqb weight (f_lit 0) then (phase, weight_sum)
    else
      let mapped := mirror_index idx src_size in
      (CubicPhase.push phase mapped weight, fadd weight_sum weight))
    (CubicPhase.empty, f_lit 0).

(** The body of [for (i = 0; i < dst_size; ++i)]: the phase of
    destination index [i]. *)
Definition phase_for (src_size dst_size : nat) (i : nat) : option (CubicPhase.t F) :=
  let scale := fdiv (f_of_Z (Z.of_nat dst_size)) (f_of_Z (Z.of_nat src_size)) in
  let inv_scale := fdiv (f_of_Z (Z.of_nat src_size)) (f_of_Z (Z.of_nat dst_size)) in
  let downscale := fltb scale (f_lit 1) in
  if downscale then
    let start := fmul (f_of_Z (Z.of_nat i)) inv_scale in
    let end_ := fadd start inv_scale in
    let current := start in
    let idx := f_trunc (f_floor current) in
    '(phase, weight_sum) ←
      coverage_loop (src_size + 2) src_size scale end_ current idx
                    CubicPhase.empty (f_lit 0);
    Some (finish_phase src_size start phase weight_sum)
  else
    let src_pos := fsub (fmul (fadd (f_of_Z (Z.of_nat i)) (f_lit 0.5)) inv_scale)
                        (f_lit 0.5) in
    let base := (f_trunc (f_floor src_pos) - 1)%Z in
    let '(phase, weight_sum) := upscale_taps src_size src_pos base in
    Some (finish_phase src_size src_pos phase weight_sum).

Definition build_cubic_weight_table (src_size dst_size : nat)
    : option (list (CubicPhase.t F)) :=
  if bool_decide (src_size = 0 ∨ dst_size = 0) then Some []
  else mapM (phase_for src_size dst_size) (seq 0 dst_size).

(** [accum] after the tap loop: the weighted sum of the samples
    [sample tap]. *)
Definition accumulate (phase : CubicPhase.t F) (sample : nat → F) : F :=
  let tap_count := length (CubicPhase.indices phase) in
  for_range 0 tap_count (λ tap accum,
    let src_idx := nth tap (CubicPhase.indices phase) 0 in
    let weight := nth tap (CubicPhase.weights phase) (f_lit 0) in
    let value := sample src_idx in
    fadd accum (fmul weight value)) (f_lit 0).

(** The horizontal pass: row [y] of [intermediate]. *)
Definition horizontal_row (input : Image.t F) (new_width channels : nat)
    (horizontal_weights : list (CubicPhase.t F)) (y : nat)
    (intermediate : list F) : list F :=
  let src_row := y * Image.width input * channels in
  let dst_row := y * new_width * channels in
  for_range 0 new_width (λ x intermediate,
    let phase := nth x horizontal_weights CubicPhase.empty in
    let dst_pixel := dst_row + x * channels in
    for_range 0 channels (λ c intermediate,
      let accum := accumulate phase (λ src_idx,
        nth (src_row + src_idx * channels + c) (Image.pixels input) (f_lit 0)) in
      <[dst_pixel + c := accum]> intermediate) intermediate) intermediate.

(** The vertical pass: row [y] of the output. *)
Definition vertical_row (intermediate : list F) (new_width channels : nat)
    (vertical_weights : list (CubicPhase.t F)) (y : nat)
    (pixels : list F) : list F :=
  let phase := nth y vertical_weights CubicPhase.empty in
  let dst_row := y * new_width * channels in
  for_range 0 new_width (λ x pixels,
    for_range 0 channels (λ c pixels,
      let accum := accumulate phase (λ sample_y,
        nth (sample_y * new_width * channels + x * channels + c) intermediate
            (f_lit 0)) in
      <[dst_row + x * channels + c := fclamp accum (f_lit 0) (f_lit 1)]> pixels)
      pixels) pixels.

(** [resample_cubic(input, new_width, new_height)].  [None]: a loop ran
    out of fuel. *)
Definition resample_cubic (input : Image.t F) (new_width new_height : nat)
    : option (Image.t F) :=
  let output := Image.mk new_width new_height [] in
  if bool_decide (new_width = 0 ∨ new_height = 0) then Some output
  else
    let channels := compute_channels input in
    if bool_decide (channels = 0) then Some output
    else
      let pixels := replicate (wrap (new_width * new_height * channels)) (f_lit 0) in
      let output := Image.mk new_width new_height pixels in
      if bool_decide (Image.width input = 0 ∨ Image.height input = 0) then Some output
      else
        horizontal_weights ← build_cubic_weight_table (Image.width input) new_width;
        vertical_weights ← build_cubic_weight_table (Image.height input) new_height;
        if bool_decide (horizontal_weights = [] ∨ vertical_weights = []) then Some output
        else
          let intermediate :=
            replicate (wrap (new_width * Image.height input * channels)) (f_lit 0) in
          intermediate ←
            ThreadPool.parallel_for pool_size 0 (Image.height input)
              (horizontal_row input new_width channels horizontal_weights)
              intermediate;
          pixels ←
            ThreadPool.parallel_for pool_size 0 new_height
              (vertical_row intermediate new_width channels vertical_weights)
              pixels;
          Some (Image.mk new_width new_height pixels).

End WithFloat.
End Resample.

(** ** cpu/dct8x8.cpp *)

Module Dct.
Section WithFloat.
Context {F : Type} `{FloatOps F} `{TrigOps F}.

(** [pool.size()] of the global pool. *)
Variable pool_size : nat.

(** The base quantization steps of pixmask/dct_tables.h, a header that is
    not part of the sources at hand: 64 integers, taken as a parameter. *)
Variable kQuantTableQ50 : list Z.

Definition kPi : F := f_pi.

(** [table[u][x] = cos((kPi / 8) * u * (x + 0.5))]. *)
Definition cos_table (u x : nat) : F :=
  let angle := fmul (fmul (fdiv kPi (f_lit 8)) (f_of_Z (Z.of_nat u)))
                    (fadd (f_of_Z (Z.of_nat x)) (f_lit 0.5)) in
  f_cos angle.

(** [alpha[0] = sqrt(1/8)], [alpha[i] = 0.5] for [i = 1 .. 7]. *)
Definition alphas (i : nat) : F :=
  if bool_decide (i = 0) then f_sqrt_eighth else f_lit 0.5.

(** The 8-element arrays are lists; [inp] reads the input array. *)
Definition fdct_1d (inp : nat → F) : list F :=
  map (λ u,
    let sum := for_range 0 8 (λ x sum, fadd sum (fmul (inp x) (cos_table u x)))
                         (f_lit 0) in
    fmul sum (alphas u)) (seq 0 8).

Definition idct_1d (inp : nat → F) : list F :=
  map (λ x,
    for_range 0 8 (λ u sum, fadd sum (fmul (fmul (alphas u) (inp u)) (cos_table u x)))
              (f_lit 0)) (seq 0 8).

(** An 8x8 array filled by [a[y * 8 + x] = f y x] for every [y], [x]. *)
Definition tabulate64 (f : nat → nat → F) : list F :=
  flat_map (λ y, map (λ x, f y x) (seq 0 8)) (seq 0 8).

Definition at64 (block : list F) (i : nat) : F := nth i block (f_lit 0).

Definition forward_dct (block : list F) : list F :=
  (* rows of [block] into [tmp] *)
  let tmp := tabulate64 (λ y x,
    let out_row := fdct_1d (λ k, at64 block (y * 8 + k)) in
    nth x out_row (f_lit 0)) in
  (* columns of [tmp] back into [block] *)
  tabulate64 (λ y x,
    let col_out := fdct_1d (λ k, at64 tmp (k * 8 + x)) in
    nth y col_out (f_lit 0)).

Definition inverse_dct (block : list F) : list F :=
  (* columns of [block] into [tmp] *)
  let tmp := tabulate64 (λ y x,
    let col_out := idct_1d (λ k, at64 block (k * 8 + x)) in
    nth y col_out (f_lit 0)) in
  (* rows of [tmp] back into [block] *)
  tabulate64 (λ y x,
    let row_out := idct_1d (λ k, at64 tmp (y * 8 + k)) in
    nth x row_out (f_lit 0)).

(** [quality] is an [int]; [/] is C++'s truncating division. *)
Definition build_quality_table (quality : Z) : list F :=
  let q := Z.max 1 (Z.min quality 100) in
  if (q >=? 100)%Z then replicate 64 (f_lit 1)
  else
    let scaled := if (q <? 50)%Z then (5000 ÷ q)%Z else (200 - q * 2)%Z in
    let table := map (λ i,
      let value := ((nth i kQuantTableQ50 0 * scaled + 50) ÷ 100)%Z in
      let value := Z.max 1 (Z.min value 255) in
      f_of_Z value) (seq 0 64) in
    <[0 := f_lit 1]> table.

Definition compute_channels (image : Image.t F) : nat :=
  if bool_decide (Image.width image = 0 ∨ Image.height image = 0) then 0
  else
    let count := wrap (Image.width image * Image.height image) in
    if bool_decide (count = 0) then 0
    else if bool_decide (length (Image.pixels image) mod count ≠ 0) then 0
    else length (Image.pixels image) / count.

Definition clamp_index (value limit : nat) : nat :=
  if bool_decide (limit ≤ value) then limit - 1 else value.

(** The quantization loop over the coefficients of a block. *)
Definition quantize_block (quant_table block : list F) : list F :=
  for_range 0 64 (λ i block,
    if bool_decide (i = 0) then block
    else
      let q := nth i quant_table (f_lit 0) in
      let scaled := fdiv (at64 block i) q in
      let quantized := fmul (f_nearbyint scaled) q in
      <[i := quantized]> block) block.

(** The block of channel [c] gathered around [(base_x, base_y)]. *)
Definition gather_block (src : list F) (width height channels : nat)
    (base_x base_y c : nat) : list F :=
  tabulate64 (λ yy xx,
    let src_y := clamp_index (base_y + yy) height in
    let src_x := clamp_index (base_x + xx) width in
    let idx := (src_y * width + src_x) * channels + c in
    nth idx src (f_lit 0)).

(** The write-back loops, with their two [break]s. *)
Definition scatter_block (block : list F) (width height channels : nat)
    (base_x base_y c : nat) (dst : list F) : list F :=
  for_break 0 8 (λ yy dst,
    let dst_y := base_y + yy in
    if bool_decide (height ≤ dst_y) then None
    else Some (for_break 0 8 (λ xx dst,
      let dst_x := base_x + xx in
      if bool_decide (width ≤ dst_x) then None
      else
        let idx := (dst_y * width + dst_x) * channels + c in
        Some (<[idx := at64 block (yy * 8 + xx)]> dst)) dst)) dst.

(** The body of [parallel_for(0, tile_count, ...)]. *)
Definition process_tile (src : list F) (width height channels : nat)
    (quality : Z) (quant_table : list F) (tiles_x : nat)
    (tile_index : nat) (dst : list F) : list F :=
  let tile_y := tile_index / tiles_x in
  let tile_x := tile_index mod tiles_x in
  let base_x := tile_x * 8 in
  let base_y := tile_y * 8 in
  for_range 0 channels (λ c dst,
    let block := gather_block src width height channels base_x base_y c in
    let block := forward_dct block in
    let block := if (quality <? 100)%Z then quantize_block quant_table block
                 else block in
    let block := inverse_dct block in
    scatter_block block width height channels base_x base_y c dst) dst.

(** [dct8x8_hf_attenuate(input, quality)]; [None]: the chunking loop of
    [parallel_for] ran out of fuel. *)
Definition dct8x8_hf_attenuate (input : Image.t F) (quality : Z)
    : option (Image.t F) :=
  let output := input in
  let width := Image.width output in
  let height := Image.height output in
  if bool_decide (width = 0 ∨ height = 0) then Some output
  else
    let channels := compute_channels output in
    if bool_decide (channels = 0) then Some output
    else
      let quant_table := build_quality_table quality in
      let tiles_x := wrap (width + 7) / 8 in
      let tiles_y := wrap (height + 7) / 8 in
      let tile_count := wrap (tiles_x * tiles_y) in
      pixels ←
        ThreadPool.parallel_for pool_size 0 tile_count
          (process_tile (Image.pixels input) width height channels quality
                        quant_table tiles_x)
          (Image.pixels output);
      Some (Image.mk width height pixels).

End WithFloat.
End Dct.

(** ** pixmask/sr_weights.h: the fixed weights of the regeneration network *)

Module SrWeights.
Section WithFloat.
Context {F : Type} `{FloatOps F}.

Definition kInputChannels : nat := 3.
Definition kUpscaleFactor : nat := 2.
Definition kConv1OutChannels : nat := 16.
Definition kConv2OutChannels : nat := 16.
Definition kConv3OutChannels : nat := kInputChannels * kUpscaleFactor * kUpscaleFactor.
Definition kKernelSize : nat := 3.

Definition conv_weight_count (out_channels in_channels : nat) : nat :=
  out_channels * kKernelSize * kKernelSize * in_channels.

Definition conv_index (out_channel ky kx in_channel in_channels : nat) : nat :=
  (((out_channel * kKernelSize) + ky) * kKernelSize + kx) * in_channels + in_channel.

Definition make_conv1_weights : list F :=
  let data := replicate (conv_weight_count kConv1OutChannels kInputChannels) (f_lit 0) in
  let data := for_range 0 kInputChannels (λ channel data,
    let base := channel * 5 in
    let data := <[conv_index (base + 0) 1 1 channel kInputChannels := f_lit 1]> data in
    let data := <[conv_index (base + 1) 0 1 channel kInputChannels := f_lit 1]> data in
    let data := <[conv_index (base + 2) 2 1 channel kInputChannels := f_lit 1]> data in
    let data := <[conv_index (base + 3) 1 0 channel kInputChannels := f_lit 1]> data in
    <[conv_index (base + 4) 1 2 channel kInputChannels := f_lit 1]> data) data in
  let inv3 := fdiv (f_lit 1) (f_lit 3) in
  let data := <[conv_index 15 1 1 0 kInputChannels := inv3]> data in
  let data := <[conv_index 15 1 1 1 kInputChannels := inv3]> data in
  <[conv_index 15 1 1 2 kInputChannels := inv3]> data.

Definition make_conv2_weights : list F :=
  let data := replicate (conv_weight_count kConv2OutChannels kConv1OutChannels) (f_lit 0) in
  for_range 0 kConv2OutChannels (λ channel data,
    <[conv_index channel 1 1 channel kConv1OutChannels := f_lit 1]> data) data.

Definition strong_pairs : list (list nat) := [[1; 3]; [1; 4]; [2; 3]; [2; 4]].
Definition weak_pairs : list (list nat) := [[2; 4]; [2; 3]; [1; 4]; [1; 3]].

Definition make_conv3_weights : list F :=
  let data := replicate (conv_weight_count kConv3OutChannels kConv2OutChannels) (f_lit 0) in
  let kMain := f_lit 1.2 in
  let kStrong := f_lit (-0.1) in
  let kWeak := f_lit (-0.05) in
  let kLumaBlend := f_lit 0.05 in
  for_range 0 kInputChannels (λ channel data,
    let feature_base := channel * 5 in
    for_range 0 4 (λ orientation data,
      let out_channel := channel * 4 + orientation in
      let center_index := conv_index out_channel 1 1 (feature_base + 0) kConv2OutChannels in
      let data := <[center_index := kMain]> data in
      let data := foldl (λ data idx,
        let feature := feature_base + idx in
        <[conv_index out_channel 1 1 feature kConv2OutChannels := kStrong]> data)
        data (nth orientation strong_pairs []) in
      let data := foldl (λ data idx,
        let feature := feature_base + idx in
        <[conv_index out_channel 1 1 feature kConv2OutChannels := kWeak]> data)
        data (nth orientation weak_pairs []) in
      <[conv_index out_channel 1 1 15 kConv2OutChannels := kLumaBlend]> data) data) data.

Definition kConv1Weights : list F := make_conv1_weights.
Definition kConv1Bias : list F := replicate kConv1OutChannels (f_lit 0).
Definition kConv2Weights : list F := make_conv2_weights.
Definition kConv2Bias : list F := replicate kConv2OutChannels (f_lit 0).
Definition kConv3Weights : list F := make_conv3_weights.
Definition kConv3Bias : list F := replicate kConv3OutChannels (f_lit 0).

End WithFloat.
End SrWeights.

(** ** The regeneration network and its entry point [sr_lite_refine] *)

Module SrLite.
Section WithFloat.
Context {F : Type} `{FloatOps F}.

(** [pool.size()] of the global pool. *)
Variable pool_size : nat.

Definition kInputChannels : nat := SrWeights.kInputChannels.
Definition kStage1Channels : nat := SrWeights.kConv1OutChannels.
Definition kStage2Channels : nat := SrWeights.kConv2OutChannels.
Definition kStage3Channels : nat := SrWeights.kConv3OutChannels.
Definition kUpscaleFactor : nat := SrWeights.kUpscaleFactor.

Definition mirror_index (idx : Z) (length : nat) : nat :=
  if bool_decide (length ≤ 1) then 0
  else
    let period := Z.of_nat (wsub (wrap (length * 2)) 2) in
    let value := Z.rem idx period in
    let value := if (value <? 0)%Z then (value + period)%Z else value in
    let value := if (value >=? Z.of_nat length)%Z then (period - value)%Z else value in
    Z.to_nat value.

(** The row body of [convolve3x3]. *)
Definition convolve_row (input : list F) (width height in_channels out_channels : nat)
    (weights bias : list F) (relu : bool) (y : nat) (output : list F) : list F :=
  let in_row_stride := width * in_channels in
  let out_row_stride := width * out_channels in
  let y_indices := [mirror_index (Z.of_nat y - 1) height;
                    mirror_index (Z.of_nat y) height;
                    mirror_index (Z.of_nat y + 1) height] in
  for_range 0 width (λ x output,
    let x_indices := [mirror_index (Z.of_nat x - 1) width;
                      mirror_index (Z.of_nat x) width;
                      mirror_index (Z.of_nat x + 1) width] in
    let out_base := y * out_row_stride + x * out_channels in
    for_range 0 out_channels (λ oc output,
      let acc := nth oc bias (f_lit 0) in
      let kernel := oc * 3 * 3 * in_channels in
      let acc := for_range 0 3 (λ ky acc,
        let sy := nth ky y_indices 0 in
        let row := sy * in_row_stride in
        for_range 0 3 (λ kx acc,
          let sx := nth kx x_indices 0 in
          let pixel := row + sx * in_channels in
          for_range 0 in_channels (λ ic acc,
            fadd acc (fmul (nth (kernel + (ky * 3 + kx) * in_channels + ic) weights (f_lit 0))
                           (nth (pixel + ic) input (f_lit 0)))) acc) acc) acc in
      let acc := if relu && fltb acc (f_lit 0) then f_lit 0 else acc in
      <[out_base + oc := acc]> output) output) output.

(** [convolve3x3]; a null pointer is the pointer of an empty vector. *)
Definition convolve3x3 (input output : list F) (width height in_channels out_channels : nat)
    (weights bias : list F) (relu : bool) : option (list F) :=
  if bool_decide (input = [] ∨ output = [] ∨ width = 0 ∨ height = 0) then Some output
  else
    ThreadPool.parallel_for pool_size 0 height
      (convolve_row input width height in_channels out_channels weights bias relu)
      output.

Definition shuffle_row (input : list F) (width channels : nat) (y : nat)
    (output : list F) : list F :=
  let in_channels := channels * kUpscaleFactor * kUpscaleFactor in
  let out_width := width * kUpscaleFactor in
  for_range 0 width (λ x output,
    let in_pixel := (y * width + x) * in_channels in
    for_range 0 channels (λ c output,
      let base := c * kUpscaleFactor * kUpscaleFactor in
      for_range 0 (kUpscaleFactor * kUpscaleFactor) (λ sub output,
        let oy := y * kUpscaleFactor + sub / kUpscaleFactor in
        let ox := x * kUpscaleFactor + sub mod kUpscaleFactor in
        let value := nth (in_pixel + base + sub) input (f_lit 0) in
        let value := fclamp value (f_lit 0) (f_lit 1) in
        <[(oy * out_width + ox) * channels + c := value]> output) output) output) output.

Definition pixel_shuffle_r2 (input output : list F) (width height channels : nat)
    : option (list F) :=
  if bool_decide (input = [] ∨ output = [] ∨ width = 0 ∨ height = 0) then Some output
  else
    ThreadPool.parallel_for pool_size 0 height (shuffle_row input width channels) output.

(** [sr_lite_forward(input, output, width, height)]: the contents of
    [output] afterwards. *)
Definition sr_lite_forward (input output : list F) (width height : nat)
    : option (list F) :=
  if bool_decide (input = [] ∨ output = [] ∨ width = 0 ∨ height = 0) then Some output
  else
    let stage1 := replicate (wrap (width * height * kStage1Channels)) (f_lit 0) in
    let stage2 := replicate (wrap (width * height * kStage2Channels)) (f_lit 0) in
    let stage3 := replicate (wrap (width * height * kStage3Channels)) (f_lit 0) in
    stage1 ← convolve3x3 input stage1 width height kInputChannels kStage1Channels
                SrWeights.kConv1Weights SrWeights.kConv1Bias true;
    stage2 ← convolve3x3 stage1 stage2 width height kStage1Channels kStage2Channels
                SrWeights.kConv2Weights SrWeights.kConv2Bias true;
    stage3 ← convolve3x3 stage2 stage3 width height kStage2Channels kStage3Channels
                SrWeights.kConv3Weights SrWeights.kConv3Bias false;
    pixel_shuffle_r2 stage3 output width height kInputChannels.

Definition supports_type (type : PixelType) : bool :=
  match type with
  | U8_RGB | U8_RGBA | F32_RGB => true
  | Unknown => false
  end.

(** [sr_lite_refine(input, output)]: the result and the contents of
    [output.data] afterwards. *)
Definition sr_lite_refine (input output : CpuImage.t F)
    : option (bool * option (Storage F)) :=
  let unchanged := CpuImage.data output in
  if negb (PixelOps.validate_image input) || negb (PixelOps.validate_image output)
  then Some (false, unchanged)
  else if bool_decide (CpuImage.width input = 0 ∨ CpuImage.height input = 0)
  then Some (false, unchanged)
  else if bool_decide
            (CpuImage.width output ≠ wrap (CpuImage.width input * kUpscaleFactor) ∨
             CpuImage.height output ≠ wrap (CpuImage.height input * kUpscaleFactor))
  then Some (false, unchanged)
  else if negb (supports_type (CpuImage.type input)) ||
          negb (supports_type (CpuImage.type output))
  then Some (false, unchanged)
  else
    let src_stride := wrap (CpuImage.width input * kInputChannels * 4) in
    let low_res :=
      replicate (wrap (CpuImage.width input * CpuImage.height input * kInputChannels))
                (f_lit 0) in
    let low_res_view :=
      CpuImage.mk F32_RGB (CpuImage.width input) (CpuImage.height input) src_stride
                  (PixelOps.vector_data low_res) in
    let '(ok, low_res_data) := PixelOps.convert_image input low_res_view in
    if negb ok then Some (false, unchanged)
    else
      let low_res := PixelOps.floats_of low_res_data in
      let out_width := CpuImage.width output in
      let out_height := CpuImage.height output in
      let dst_stride := wrap (out_width * kInputChannels * 4) in
      let high_res := replicate (wrap (out_width * out_height * kInputChannels)) (f_lit 0) in
      high_res ← sr_lite_forward low_res high_res (CpuImage.width input)
                    (CpuImage.height input);
      let high_res_view :=
        CpuImage.mk F32_RGB out_width out_height dst_stride
                    (PixelOps.vector_data high_res) in
      let '(ok, out_data) := PixelOps.convert_image high_res_view output in
      if negb ok then Some (false, out_data) else Some (true, out_data).

End WithFloat.
End SrLite.

(** ** common/sanitize.cpp *)

Module Sanitize.
Section WithFloat.
Context {F : Type} `{FloatOps F} `{TrigOps F}.

(** [pool.size()] of the global pool, and the table of dct_tables.h. *)
Variable pool_size : nat.
Variable kQuantTableQ50 : list Z.

(** [to_float_image(src, dst)]: the result and [dst] afterwards. *)
Definition to_float_image (src : CpuImage.t F) : bool * Image.t F :=
  if negb (PixelOps.validate_image src) then (false, Image.mk 0 0 [])
  else
    let width := CpuImage.width src in
    let height := CpuImage.height src in
    let channels := 3 in
    let expected := wrap (width * height * channels) in
    let pixels := replicate expected (f_lit 0) in
    let float_view :=
      CpuImage.mk F32_RGB width height (wrap (width * channels * 4))
                  (PixelOps.vector_data pixels) in
    let '(ok, d) := PixelOps.convert_image src float_view in
    (ok, Image.mk width height (PixelOps.floats_of d)).

(** [from_float_image(src, dst)]: the result and the contents of
    [dst.data] afterwards. *)
Definition from_float_image (src : Image.t F) (dst : CpuImage.t F)
    : bool * option (Storage F) :=
  if bool_decide (Image.width src ≠ CpuImage.width dst ∨
                  Image.height src ≠ CpuImage.height dst)
  then (false, CpuImage.data dst)
  else if bool_decide (Image.pixels src = []) then (false, CpuImage.data dst)
  else
    let float_view :=
      CpuImage.mk F32_RGB (Image.width src) (Image.height src)
                  (wrap (Image.width src * 3 * 4))
                  (PixelOps.vector_data (Image.pixels src)) in
    PixelOps.convert_image float_view dst.

Definition scaled_dimension (value : nat) (scale : F) : nat :=
  let scaled := fmul (f_of_Z (Z.of_nat value)) scale in
  let rounded := Z.to_nat (f_llround scaled) in
  if bool_decide (0 < rounded) then rounded else 1.

Definition sanitize_pixel (value : F) : F := fclamp value (f_lit 0) (f_lit 1).

Definition sanitize_image (input : Image.t F) : Image.t F :=
  Image.mk (Image.width input) (Image.height input)
           (map sanitize_pixel (Image.pixels input)).

Definition supported_type (type : PixelType) : bool :=
  bool_decide (type = U8_RGB ∨ type = F32_RGB).

(** The blend of the attenuated image with its pre-attenuation source. *)
Definition blend_low_res (filtered low_res : list F) : list F :=
  let filtered_elements := length filtered in
  for_range 0 filtered_elements (λ i filtered,
    let mixed := fadd (fmul (f_lit 0.4) (nth i filtered (f_lit 0)))
                      (fmul (f_lit 0.6) (nth i low_res (f_lit 0))) in
    <[i := sanitize_pixel mixed]> filtered) filtered.

Definition sr_weight : F := f_lit 0.15.
Definition upscaled_weight : F := f_lit 0.35.
Definition original_weight : F := fsub (fsub (f_lit 1) sr_weight) upscaled_weight.

(** The final blend, in place in [sr_output]. *)
Definition blend_final (total_elements : nat) (sr_output upscaled working : list F)
    : list F :=
  for_range 0 total_elements (λ i sr_output,
    let blended :=
      fadd (fadd (fmul sr_weight (nth i sr_output (f_lit 0)))
                 (fmul upscaled_weight (nth i upscaled (f_lit 0))))
           (fmul original_weight (nth i working (f_lit 0))) in
    <[i := sanitize_pixel blended]> sr_output) sr_output.

(** The images [sanitize] computes before it writes its output. *)
Record stages : Type := mk_stages {
  working : Image.t F;       (** the input in canonical float form *)
  low_res : Image.t F;       (** downscaled and quantized *)
  filtered : Image.t F;      (** attenuated, then blended with [low_res] *)
  upscaled : Image.t F;      (** path A: [filtered] at full resolution *)
  sr_input : Image.t F;      (** [filtered] at half resolution *)
  sr_output : list F;        (** path B: the network's output *)
  final_image : Image.t F;   (** the final blend *)
}.

(** [sanitize] up to the conversion into the output buffer.  The outer
    [option] is [None] when a loop ran out of fuel; the inner one is
    [None] when the function returns [false]. *)
Definition sanitize_stages (input output : CpuImage.t F) : option (option stages) :=
  if negb (PixelOps.validate_image input) || negb (PixelOps.validate_image output)
  then Some None
  else if negb (supported_type (CpuImage.type input)) ||
          negb (supported_type (CpuImage.type output))
  then Some None
  else if bool_decide (CpuImage.width input = 0 ∨ CpuImage.height input = 0)
  then Some None
  else if bool_decide (CpuImage.width input ≠ CpuImage.width output ∨
                       CpuImage.height input ≠ CpuImage.height output)
  then Some None
  else if bool_decide (CpuImage.width output mod 2 ≠ 0 ∨
                       CpuImage.height output mod 2 ≠ 0)
  then Some None
  else
    let '(ok, working) := to_float_image input in
    if negb ok then Some None
    else
      let down_width := scaled_dimension (Image.width working) (f_lit 0.25) in
      let down_height := scaled_dimension (Image.height working) (f_lit 0.25) in
      low_res ← Resample.resample_cubic pool_size working down_width down_height;
      if bool_decide (Image.pixels low_res = []) then Some None
      else
        let low_res := Bitdepth.quantize_bitdepth low_res 6 in
        filtered ← Dct.dct8x8_hf_attenuate pool_size kQuantTableQ50 low_res 60;
        if bool_decide (Image.pixels filtered = []) then Some None
        else
          let filtered :=
            Image.mk (Image.width filtered) (Image.height filtered)
                     (blend_low_res (Image.pixels filtered) (Image.pixels low_res)) in
          upscaled ← Resample.resample_cubic pool_size filtered
                        (CpuImage.width output) (CpuImage.height output);
          if bool_decide (Image.pixels upscaled = []) then Some None
          else
            let sr_width := CpuImage.width output / 2 in
            let sr_height := CpuImage.height output / 2 in
            if bool_decide (sr_width = 0 ∨ sr_height = 0) then Some None
            else
              sr_input ← Resample.resample_cubic pool_size filtered sr_width sr_height;
              if bool_decide (Image.pixels sr_input = []) then Some None
              else
                let sr_output :=
                  replicate (wrap (CpuImage.width output * CpuImage.height output * 3))
                            (f_lit 0) in
                let sr_input_view :=
                  CpuImage.mk F32_RGB sr_width sr_height (wrap (sr_width * 3 * 4))
                              (PixelOps.vector_data (Image.pixels sr_input)) in
                let sr_output_view :=
                  CpuImage.mk F32_RGB (CpuImage.width output) (CpuImage.height output)
                              (wrap (CpuImage.width output * 3 * 4))
                              (PixelOps.vector_data sr_output) in
                '(ok, sr_data) ← SrLite.sr_lite_refine pool_size sr_input_view
                                    sr_output_view;
                if negb ok then Some None
                else
                  let sr_output := PixelOps.floats_of sr_data in
                  let total_elements :=
                    wrap (CpuImage.width output * CpuImage.height output * 3) in
                  let final :=
                    blend_final total_elements sr_output (Image.pixels upscaled)
                                (Image.pixels working) in
                  let final_image :=
                    Image.mk (CpuImage.width output) (CpuImage.height output) final in
                  Some (Some (mk_stages working low_res filtered upscaled sr_input
                                        sr_output final_image)).

(** [sanitize(input, output)]: the result and the contents of
    [output.data] afterwards. *)
Definition sanitize (input output : CpuImage.t F)
    : option (bool * option (Storage F)) :=
  st ← sanitize_stages input output;
  match st with
  | None => Some (false, CpuImage.data output)
  | Some st =>
      let '(ok, out_data) := from_float_image (final_image st) output in
      if negb ok then Some (false, out_data) else Some (true, out_data)
  end.

(** [pixmask_sanitize]: null descriptors are rejected first. *)
Definition pixmask_sanitize (input output : option (CpuImage.t F))
    : option (bool * option (Storage F)) :=
  match input, output with
  | Some input, Some output => sanitize input output
  | _, Some output => Some (false, CpuImage.data output)
  | _, None => Some (false, None)
  end.

End WithFloat.
End Sanitize.

(** ** Vocabulary of the statements about weight tables *)

(** The sum of a list of weights, under exact real arithmetic. *)
Definition sum_weights (ws : list R) : R := foldr Rplus 0%R ws.

(** What the tap loops maintain: as many indices as weights, indices
    inside the source, and [weight_sum] equal to the sum of the weights. *)
Definition taps_inv (src_size : nat) (st : CubicPhase.t R * R) : Prop :=
  length (CubicPhase.indices st.1) = length (CubicPhase.weights st.1) ∧
  Forall (λ i, i < src_size) (CubicPhase.indices st.1) ∧
  st.2 = sum_weights (CubicPhase.weights st.1).

(** A well-formed table entry: one weight per index, at least one tap,
    valid source indices, weights summing to one. *)
Definition phase_ok (src_size : nat) (phase : CubicPhase.t R) : Prop :=
  length (CubicPhase.indices phase) = length (CubicPhase.weights phase) ∧
  CubicPhase.weights phase ≠ [] ∧
  Forall (λ i, i < src_size) (CubicPhase.indices phase) ∧
  sum_weights (CubicPhase.weights phase) = 1%R.

(** ** Vocabulary of the statements about the block transform *)

(** [cos phi + cos (2 phi) + ... + cos (n phi)]. *)
Fixpoint cos_sum (phi : R) (n : nat) : R :=
  match n with
  | 0 => 0%R
  | S k => (cos_sum phi k + cos (INR (S k) * phi))%R
  end.

(** The entry [(x', x)] of the product of the inverse and the forward
    transform matrices. *)
Definition basis_product (x' x : nat) : R :=
  foldr Rplus 0%R
    (map (λ u, Dct.alphas u * Dct.alphas u * Dct.cos_table u x' * Dct.cos_table u x)%R
         (seq 0 8)).

(** ** Vocabulary of the statements about pixel buffers *)

(** One channel value of one pixel, as stored in a buffer. *)
Inductive sample (F : Type) : Type :=
  | U8Sample (v : Z)
  | F32Sample (v : F).
Arguments U8Sample {F} v.
Arguments F32Sample {F} v.

(** The channel [c] of pixel [(x, y)] of a buffer: pixel rows are
    [stride_bytes] apart, pixels [bytes_per_pixel] apart. *)
Definition read_sample {F} (image : CpuImage.t F) (y x c : nat) : option (sample F) :=
  match CpuImage.type image, CpuImage.data image with
  | U8_RGB, Some (Bytes b) =>
      U8Sample <$> b !! (y * CpuImage.stride_bytes image + x * 3 + c)
  | U8_RGBA, Some (Bytes b) =>
      U8Sample <$> b !! (y * CpuImage.stride_bytes image + x * 4 + c)
  | F32_RGB, Some (Floats f) =>
      F32Sample <$> f !! (y * CpuImage.stride_bytes image / 4 + (x * 3 + c))
  | _, _ => None
  end.

(** A float value as [convert_image] stores it into a buffer of the given
    format. *)
Definition encode_sample {F} `{FloatOps F} (type : PixelType) (v : F) : sample F :=
  match type with
  | F32_RGB => F32Sample v
  | _ => U8Sample (PixelOps.float_to_u8 v)
  end.

(** The buffer holds every sample of the image it describes. *)
Definition backed {F} (image : CpuImage.t F) : Prop :=
  ∀ y x c, y < CpuImage.height image → x < CpuImage.width image →
           c < pixel_channels (CpuImage.type image) →
           is_Some (read_sample image y x c).

(** Two buffers of the same kind and length. *)
Definition same_shape {F} (d1 d2 : option (Storage F)) : Prop :=
  match d1, d2 with
  | None, None => True
  | Some (Bytes b1), Some (Bytes b2) => length b1 = length b2
  | Some (Floats f1), Some (Floats f2) => length f1 = length f2
  | _, _ => False
  end.

(** The byte, or the float, at index [j] of the memory behind a pointer. *)
Definition byte_at {F} (d : option (Storage F)) (j : nat) : option Z :=
  match d with
  | Some (Bytes b) => b !! j
  | _ => None
  end.

Definition float_at {F} (d : option (Storage F)) (j : nat) : option F :=
  match d with
  | Some (Floats f) => f !! j
  | _ => None
  end.

(** The pointer addresses [n] bytes, or [n] floats. *)
Definition holds_bytes {F} (n : nat) (d : option (Storage F)) : Prop :=
  ∃ b, d = Some (Bytes b) ∧ length b = n.

Definition holds_floats {F} (n : nat) (d : option (Storage F)) : Prop :=
  ∃ f, d = Some (Floats f) ∧ length f = n.

(** ** Proof automation *)

(** Steps over the checks of a run that is known to have succeeded. *)
Ltac stage_passes H :=
  cbn [mbind option_bind negb] in H;
  repeat match type of H with
  | (if ?b then _ else _) = _ => destruct b eqn:?; [discriminate|]
  end.

(** ** common/security.cpp *)

(** A [double] that may be infinite or not a number: [exceeds_pixel_cap]
    asks [std::isfinite]. *)
Inductive fp (F : Type) : Type :=
  | Finite (v : F)
  | PosInf
  | NegInf
  | NaN.
Arguments Finite {F} v.
Arguments PosInf {F}.
Arguments NegInf {F}.
Arguments NaN {F}.

(** [a <= b] on finite values. *)
Definition fleb {F : Type} `{FloatOps F} (a b : F) : bool := fltb a b || feqb a b.

Module Security.

Definition kMegapixel : Z := 1000000.

(** [std::search(begin, end, needle.begin(), needle.end())]: the offset of
    the first occurrence of [needle], [None] for [end]. *)
Fixpoint starts_with (needle data : list Z) : bool :=
  match needle, data with
  | [], _ => true
  | _ :: _, [] => false
  | c :: needle', d :: data' => (c =? d)%Z && starts_with needle' data'
  end.

Fixpoint search (data needle : list Z) : option nat :=
  if starts_with needle data then Some 0
  else
    match data with
    | [] => None
    | _ :: rest => S <$> search rest needle
    end.

(** [contains_signature(data, size, needle)]; the pointer and its size are
    an optional list of bytes. *)
Definition contains_signature (data : option (list Z)) (needle : list Z) : bool :=
  match data with
  | None => false
  | Some bytes =>
      if bool_decide (needle = []) then false
      else if bool_decide (length bytes < length needle) then false
      else bool_decide (search bytes needle ≠ None)
  end.

(** The signatures, as bytes: ["%PDF-"], ["PK\x03\x04"], ["7zXZ"],
    ["Rar!"], ["<?xml"], ["<!DOCTYPE"], ["MZ"], ["ELF"]. *)
Definition signatures : list (list Z) :=
  [ [37; 80; 68; 70; 45];
    [80; 75; 3; 4];
    [55; 122; 88; 90];
    [82; 97; 114; 33];
    [60; 63; 120; 109; 108];
    [60; 33; 68; 79; 67; 84; 89; 80; 69];
    [77; 90];
    [69; 76; 70] ]%Z.

(** [suspicious_polyglot_bytes(data, size)]: the loop returns at the first
    signature found. *)
Definition suspicious_polyglot_bytes (data : option (list Z)) : bool :=
  match data with
  | None => false
  | Some bytes =>
      if bool_decide (length bytes = 0) then false
      else existsb (contains_signature data) signatures
  end.

Section WithFloat.
Context {F : Type} `{FloatOps F}.

(** [exceeds_pixel_cap(width, height, cap_megapixels)].  The products are
    formed in [long double], not in [size_t]. *)
Definition exceeds_pixel_cap (width height : nat) (cap_megapixels : fp F) : bool :=
  if bool_decide (width = 0 ∨ height = 0) then false
  else
    match cap_megapixels with
    | NegInf => true                 (* not finite: [cap < 0.0] *)
    | PosInf | NaN => false
    | Finite cap =>
        if fleb cap (f_lit 0) then true
        else
          let limit_pixels := fmul cap (f_of_Z kMegapixel) in
          if fleb limit_pixels (f_lit 0) then true
          else
            let total_pixels :=
              fmul (f_of_Z (Z.of_nat width)) (f_of_Z (Z.of_nat height)) in
            fgtb total_pixels limit_pixels
    end.

End WithFloat.
End Security.

(** ** cpu/b_spline_prefilter.cpp *)

(** [for (i = n; i-- > 0;) body]: the indices [n - 1] down to [0]. *)
Fixpoint for_down {St : Type} (n : nat) (body : nat → St → St) (s : St) : St :=
  match n with
  | 0 => s
  | S i => for_down i body (body i s)
  end.

Module BSplinePrefilter.
Section WithFloat.
Context {F : Type} `{FloatOps F}.

Definition compute_channels (image : Image.t F) : nat :=
  if bool_decide (Image.width image = 0 ∨ Image.height image = 0) then 0
  else
    let count := wrap (Image.width image * Image.height image) in
    if bool_decide (count = 0) then 0
    else if bool_decide (length (Image.pixels image) mod count ≠ 0) then 0
    else length (Image.pixels image) / count.

(** The four local vectors of [prefilter_line]. *)
Record System : Type := mkSystem {
  diagonal : list F;
  upper : list F;
  lower : list F;
  rhs : list F;
}.

(** [v[i]] of a local vector. *)
Definition at_ (v : list F) (i : nat) : F := nth i v (f_lit 0).

(** [prefilter_line], first part: the vectors are allocated and filled.
    [line] is the offset of the pointer [line] into the pixel vector
    [data]. *)
Definition build_system (line length stride : nat) (data : list F) : System :=
  let sys := mkSystem (replicate length (f_lit 4))
                      (replicate (length - 1) (f_lit 0))
                      (replicate (length - 1) (f_lit 0))
                      (replicate length (f_lit 0)) in
  let sys := mkSystem (diagonal sys)
                      (<[0 := f_lit 2]> (upper sys))
                      (lower sys)
                      (<[0 := fmul (f_lit 6) (at_ data line)]> (rhs sys)) in
  let sys :=
    for_range 1 (length - 1) (λ i sys,
      mkSystem (diagonal sys)
               (<[i := f_lit 1]> (upper sys))
               (<[i - 1 := f_lit 1]> (lower sys))
               (<[i := fmul (f_lit 6) (at_ data (line + i * stride))]> (rhs sys)))
      sys in
  mkSystem (diagonal sys)
           (upper sys)
           (<[length - 2 := f_lit 2]> (lower sys))
           (<[length - 1 := fmul (f_lit 6) (at_ data (line + (length - 1) * stride))]>
              (rhs sys)).

(** Second part: the forward sweep. *)
Definition eliminate (length : nat) (sys : System) : System :=
  for_range 1 length (λ i sys,
    let factor := fdiv (at_ (lower sys) (i - 1)) (at_ (diagonal sys) (i - 1)) in
    mkSystem (<[i := fsub (at_ (diagonal sys) i)
                          (fmul factor (at_ (upper sys) (i - 1)))]> (diagonal sys))
             (upper sys)
             (lower sys)
             (<[i := fsub (at_ (rhs sys) i) (fmul factor (at_ (rhs sys) (i - 1)))]>
                (rhs sys))) sys.

(** Third part: the backward sweep, which stores into the line. *)
Definition back_substitute (line length stride : nat) (sys : System) (data : list F)
    : list F :=
  let data :=
    <[line + (length - 1) * stride :=
        fdiv (at_ (rhs sys) (length - 1)) (at_ (diagonal sys) (length - 1))]> data in
  for_down (length - 1) (λ i data,
    let value :=
      fdiv (fsub (at_ (rhs sys) i)
                 (fmul (at_ (upper sys) i) (at_ data (line + (i + 1) * stride))))
           (at_ (diagonal sys) i) in
    <[line + i * stride := value]> data) data.

(** [prefilter_line(line, length, stride)]: the pixel vector afterwards. *)
Definition prefilter_line (line length stride : nat) (data : list F) : list F :=
  if bool_decide (length = 0) then data
  else if bool_decide (length = 1) then data
  else
    back_substitute line length stride
      (eliminate length (build_system line length stride data)) data.

(** [b_spline_prefilter(input)]. *)
Definition b_spline_prefilter (input : Image.t F) : Image.t F :=
  let output := input in
  let width := Image.width output in
  let height := Image.height output in
  if bool_decide (width = 0 ∨ height = 0) then output
  else
    let channels := compute_channels output in
    if bool_decide (channels = 0) then output
    else
      let data := Image.pixels output in
      let data :=
        for_range 0 height (λ y data,
          let row := y * width * channels in
          for_range 0 channels (λ c data,
            prefilter_line (row + c) width channels data) data) data in
      let row_stride := wrap (width * channels) in
      let data :=
        for_range 0 width (λ x data,
          for_range 0 channels (λ c data,
            prefilter_line (x * channels + c) height row_stride data) data) data in
      Image.mk width height data.

End WithFloat.
End BSplinePrefilter.

(** *** Vocabulary for the prefilter *)

(** Sample [i] of the line that starts at offset [line] of [data] and
    whose samples are [stride] apart. *)
Definition line_at (data : list R) (line stride i : nat) : R :=
  BSplinePrefilter.at_ data (line + i * stride).

(** [x] solves the spline system of length [n] for the samples [s]:
    the rows [4 2], [1 4 1], ..., [1 4 1], [2 4] against [6 s]. *)
Definition spline_system (n : nat) (x s : nat → R) : Prop :=
  (4 * x 0%nat + 2 * x 1%nat = 6 * s 0%nat)%R
  ∧ (∀ i, 1 ≤ i → i + 1 < n →
       (x (i - 1)%nat + 4 * x i + x (i + 1)%nat = 6 * s i)%R)
  ∧ (2 * x (n - 2)%nat + 4 * x (n - 1)%nat = 6 * s (n - 1)%nat)%R.

(** The state of the loop that fills the system, before iteration [k]. *)
Definition system_filling (n : nat) (s : nat → R) (k : nat)
    (sys : BSplinePrefilter.System (F:=R)) : Prop :=
  BSplinePrefilter.diagonal sys = replicate n 4%R
  ∧ length (BSplinePrefilter.upper sys) = n - 1
  ∧ length (BSplinePrefilter.lower sys) = n - 1
  ∧ length (BSplinePrefilter.rhs sys) = n
  ∧ (∀ i, i < n - 1 →
       BSplinePrefilter.at_ (BSplinePrefilter.upper sys) i
       = if decide (i = 0) then 2%R
         else if decide (i < k) then 1%R else 0%R)
  ∧ (∀ i, i < n - 1 →
       BSplinePrefilter.at_ (BSplinePrefilter.lower sys) i
       = if decide (S i < k) then 1%R else 0%R)
  ∧ (∀ i, i < n →
       BSplinePrefilter.at_ (BSplinePrefilter.rhs sys) i
       = if decide (i = 0) then (6 * s 0%nat)%R
         else if decide (i < k) then (6 * s i)%R else 0%R).

(** The system that the first part of [prefilter_line] sets up. *)
Definition system_built (n : nat) (s : nat → R)
    (sys : BSplinePrefilter.System (F:=R)) : Prop :=
  length (BSplinePrefilter.diagonal sys) = n
  ∧ length (BSplinePrefilter.upper sys) = n - 1
  ∧ length (BSplinePrefilter.lower sys) = n - 1
  ∧ length (BSplinePrefilter.rhs sys) = n
  ∧ (∀ i, i < n → BSplinePrefilter.at_ (BSplinePrefilter.diagonal sys) i = 4%R)
  ∧ (∀ i, i < n - 1 →
       BSplinePrefilter.at_ (BSplinePrefilter.upper sys) i
       = if decide (i = 0) then 2%R else 1%R)
  ∧ (∀ i, i < n - 1 →
       BSplinePrefilter.at_ (BSplinePrefilter.lower sys) i
       = if decide (i = n - 2) then 2%R else 1%R)
  ∧ (∀ i, i < n →
       BSplinePrefilter.at_ (BSplinePrefilter.rhs sys) i = (6 * s i)%R).

(** The state of the forward sweep before iteration [k]: rows below [k]
    are reduced, the others are as built. *)
Definition system_reducing (n : nat) (sys0 : BSplinePrefilter.System (F:=R))
    (k : nat) (sys : BSplinePrefilter.System (F:=R)) : Prop :=
  let D := BSplinePrefilter.at_ (BSplinePrefilter.diagonal sys) in
  let U := BSplinePrefilter.at_ (BSplinePrefilter.upper sys0) in
  let L := BSplinePrefilter.at_ (BSplinePrefilter.lower sys0) in
  let B := BSplinePrefilter.at_ (BSplinePrefilter.rhs sys) in
  let B0 := BSplinePrefilter.at_ (BSplinePrefilter.rhs sys0) in
  BSplinePrefilter.upper sys = BSplinePrefilter.upper sys0
  ∧ BSplinePrefilter.lower sys = BSplinePrefilter.lower sys0
  ∧ length (BSplinePrefilter.diagonal sys) = n
  ∧ length (BSplinePrefilter.rhs sys) = n
  ∧ (∀ i, k ≤ i < n → D i = 4%R ∧ B i = B0 i)
  ∧ D 0 = 4%R ∧ B 0 = B0 0
  ∧ (∀ i, 1 ≤ i < k →
       D i = (4 - L (i - 1)%nat / D (i - 1)%nat * U (i - 1)%nat)%R
       ∧ B i = (B0 i - L (i - 1)%nat / D (i - 1)%nat * B (i - 1)%nat)%R)
  ∧ (∀ i, i < k → (3 <= D i <= 4)%R).

(** The state of the backward sweep when the samples [k], ..., [n - 1] of
    the line have been stored. *)
Definition line_solving (line n stride : nat) (sys : BSplinePrefilter.System (F:=R))
    (data : list R) (k : nat) (out : list R) : Prop :=
  let D := BSplinePrefilter.at_ (BSplinePrefilter.diagonal sys) in
  let U := BSplinePrefilter.at_ (BSplinePrefilter.upper sys) in
  let B := BSplinePrefilter.at_ (BSplinePrefilter.rhs sys) in
  let X := line_at out line stride in
  length out = length data
  ∧ (∀ j, (∀ i, i < n → j ≠ line + i * stride) →
          BSplinePrefilter.at_ out j = BSplinePrefilter.at_ data j)
  ∧ (D (n - 1)%nat * X (n - 1)%nat = B (n - 1)%nat)%R
  ∧ (∀ i, k ≤ i → i + 1 < n → (D i * X i + U i * X (i + 1)%nat = B i)%R).

(** The coefficients [x] of a line of samples [s]: the solution of the
    spline system; a line of fewer than two samples is its own. *)
Definition spline_coefficients (n : nat) (x s : nat → R) : Prop :=
  if decide (2 ≤ n) then spline_system n x s else ∀ i, i < n → x i = s i.

(** The state of a pass of [prefilter_line] over the lines [(a, c)],
    [a < A] and [c < ch] in lexicographic order, before line [(a0, c0)]:
    the lines before it hold their coefficients, the others their
    samples. *)
Definition lines_done (A ch n stride : nat) (line : nat → nat → nat)
    (data : list R) (a0 c0 : nat) (d : list R) : Prop :=
  length d = length data
  ∧ (∀ a c, a < A → c < ch → a < a0 ∨ (a = a0 ∧ c < c0) →
       spline_system n (line_at d (line a c) stride)
                     (line_at data (line a c) stride))
  ∧ (∀ a c i, a < A → c < ch → i < n → ¬ (a < a0 ∨ (a = a0 ∧ c < c0)) →
       line_at d (line a c) stride i = line_at data (line a c) stride i).

(** ** cpu/resample.cpp: resizing between buffers *)

Module Resize.
Section WithFloat.
Context {F : Type} `{FloatOps F}.

(** [pool.size()] of the global pool. *)
Variable pool_size : nat.

(** [ResampleMode::Cubic], as its underlying [int]. *)
Definition kCubic : Z := 0.

(** [copy_cpu_to_image(src, dst)]: the result and [dst] afterwards. *)
Definition copy_cpu_to_image (src : CpuImage.t F) (dst : Image.t F)
    : bool * Image.t F :=
  if negb (PixelOps.validate_image src) then (false, dst)
  else
    let width := CpuImage.width src in
    let height := CpuImage.height src in
    let channels := 3 in
    let pixels := replicate (wrap (width * height * channels)) (f_lit 0) in
    let from_byte index :=
      fmul (f_of_Z (PixelOps.load_u8 (CpuImage.data src) index)) PixelOps.kInv255 in
    match CpuImage.type src with
    | U8_RGB =>
        (true, Image.mk width height
          (for_range 0 (CpuImage.height src) (λ y pixels,
             let src_row := y * CpuImage.stride_bytes src in
             let dst_row := y * width * channels in
             for_range 0 (CpuImage.width src) (λ x pixels,
               let base := x * channels in
               let pixels := <[dst_row + (base + 0) := from_byte (src_row + base + 0)]> pixels in
               let pixels := <[dst_row + (base + 1) := from_byte (src_row + base + 1)]> pixels in
               <[dst_row + (base + 2) := from_byte (src_row + base + 2)]> pixels)
               pixels) pixels))
    | U8_RGBA =>
        (true, Image.mk width height
          (for_range 0 (CpuImage.height src) (λ y pixels,
             let src_row := y * CpuImage.stride_bytes src in
             let dst_row := y * width * channels in
             for_range 0 (CpuImage.width src) (λ x pixels,
               let rgba_index := x * 4 in
               let rgb_index := x * channels in
               let pixels :=
                 <[dst_row + (rgb_index + 0) := from_byte (src_row + rgba_index + 0)]> pixels in
               let pixels :=
                 <[dst_row + (rgb_index + 1) := from_byte (src_row + rgba_index + 1)]> pixels in
               <[dst_row + (rgb_index + 2) := from_byte (src_row + rgba_index + 2)]> pixels)
               pixels) pixels))
    | F32_RGB =>
        (true, Image.mk width height
          (for_range 0 (CpuImage.height src) (λ y pixels,
             let src_row := y * CpuImage.stride_bytes src in
             let dst_row := y * width * channels in
             (* std::copy_n(src_row, dst.width * channels, dst_row) *)
             for_range 0 (wrap (width * channels)) (λ k pixels,
               <[dst_row + k := PixelOps.load_f32 (CpuImage.data src) src_row k]> pixels)
               pixels) pixels))
    | Unknown => (false, Image.mk width height pixels)
    end.

(** [copy_image_to_cpu(src, dst)]: the result and the contents of
    [dst.data] afterwards. *)
Definition copy_image_to_cpu (src : Image.t F) (dst : CpuImage.t F)
    : bool * option (Storage F) :=
  if bool_decide (CpuImage.width dst ≠ Image.width src ∨
                  CpuImage.height dst ≠ Image.height src)
  then (false, CpuImage.data dst)
  else if negb (PixelOps.validate_image dst) then (false, CpuImage.data dst)
  else
    let channels := 3 in
    let sample index := nth index (Image.pixels src) (f_lit 0) in
    match CpuImage.type dst with
    | U8_RGB =>
        (true,
         for_range 0 (CpuImage.height dst) (λ y d,
           let src_row := y * Image.width src * channels in
           let dst_row := y * CpuImage.stride_bytes dst in
           for_range 0 (CpuImage.width dst) (λ x d,
             let base := x * channels in
             let d := PixelOps.store_u8 (dst_row + base + 0)
                        (PixelOps.float_to_u8 (sample (src_row + (base + 0)))) d in
             let d := PixelOps.store_u8 (dst_row + base + 1)
                        (PixelOps.float_to_u8 (sample (src_row + (base + 1)))) d in
             PixelOps.store_u8 (dst_row + base + 2)
               (PixelOps.float_to_u8 (sample (src_row + (base + 2)))) d) d)
           (CpuImage.data dst))
    | U8_RGBA =>
        (true,
         for_range 0 (CpuImage.height dst) (λ y d,
           let src_row := y * Image.width src * channels in
           let dst_row := y * CpuImage.stride_bytes dst in
           for_range 0 (CpuImage.width dst) (λ x d,
             let rgb_index := x * channels in
             let rgba_index := x * 4 in
             let d := PixelOps.store_u8 (dst_row + rgba_index + 0)
                        (PixelOps.float_to_u8 (sample (src_row + (rgb_index + 0)))) d in
             let d := PixelOps.store_u8 (dst_row + rgba_index + 1)
                        (PixelOps.float_to_u8 (sample (src_row + (rgb_index + 1)))) d in
             let d := PixelOps.store_u8 (dst_row + rgba_index + 2)
                        (PixelOps.float_to_u8 (sample (src_row + (rgb_index + 2)))) d in
             PixelOps.store_u8 (dst_row + rgba_index + 3) 255%Z d) d)
           (CpuImage.data dst))
    | F32_RGB =>
        (true,
         for_range 0 (CpuImage.height dst) (λ y d,
           let src_row := y * Image.width src * channels in
           let dst_row := y * CpuImage.stride_bytes dst in
           (* std::copy_n(src_row, dst.width * channels, dst_row) *)
           for_range 0 (wrap (CpuImage.width dst * channels)) (λ k d,
             PixelOps.store_f32 dst_row k (sample (src_row + k)) d) d)
           (CpuImage.data dst))
    | Unknown => (false, CpuImage.data dst)
    end.

(** [resize(src, dst, scale_x, scale_y, mode)]: the result and the
    contents of [dst.data] afterwards.  [mode] is the underlying [int] of the
    enumeration.  [None]: a loop of [resample_cubic] ran out of fuel. *)
Definition resize (src dst : CpuImage.t F) (scale_x scale_y : F) (mode : Z)
    : option (bool * option (Storage F)) :=
  let unchanged := CpuImage.data dst in
  if negb (PixelOps.validate_image src) || negb (PixelOps.validate_image dst)
  then Some (false, unchanged)
  else if fleb scale_x (f_lit 0) || fleb scale_y (f_lit 0) then Some (false, unchanged)
  else if bool_decide (mode ≠ kCubic) then Some (false, unchanged)
  else
    let expected_width := fmul (f_of_Z (Z.of_nat (CpuImage.width src))) scale_x in
    let expected_height := fmul (f_of_Z (Z.of_nat (CpuImage.height src))) scale_y in
    if fleb expected_width (f_lit 0) || fleb expected_height (f_lit 0)
    then Some (false, unchanged)
    else
      let target_width := Z.to_nat (f_llround expected_width) in
      let target_height := Z.to_nat (f_llround expected_height) in
      if bool_decide (target_width = 0 ∨ target_height = 0) then Some (false, unchanged)
      else if bool_decide (CpuImage.width dst ≠ target_width ∨
                           CpuImage.height dst ≠ target_height)
      then Some (false, unchanged)
      else
        let '(ok, src_image) := copy_cpu_to_image src (Image.mk 0 0 []) in
        if negb ok then Some (false, unchanged)
        else
          resized ← Resample.resample_cubic pool_size src_image target_width target_height;
          if bool_decide (Image.pixels resized = []) then Some (false, unchanged)
          else Some (copy_image_to_cpu resized dst).

End WithFloat.
End Resize.

(** *** Vocabulary for the block transform *)

(** The sum of the samples of a block. *)
Definition block_sum (block : list R) : R := foldr Rplus 0%R block.

(** The sum of eight terms. *)
Definition sum8 (f : nat → R) : R :=
  (f 0%nat + f 1%nat + f 2%nat + f 3%nat + f 4%nat + f 5%nat + f 6%nat + f 7%nat)%R.

(** Sample [c] of pixel [(x, y)] of a packed image. *)
Definition sample_at (data : list R) (width channels y x c : nat) : R :=
  nth ((y * width + x) * channels + c) data 0%R.

(** The block that [process_tile] writes back for channel [c] of the tile
    at [(base_x, base_y)]. *)
Definition attenuated_block (src : list R) (width height channels : nat)
    (quality : Z) (quant_table : list R) (base_x base_y c : nat) : list R :=
  Dct.inverse_dct
    (if (quality <? 100)%Z
     then Dct.quantize_block quant_table
            (Dct.forward_dct
               (Dct.gather_block src width height channels base_x base_y c))
     else Dct.forward_dct
            (Dct.gather_block src width height channels base_x base_y c)).

(** The sample that the attenuation stores into cell [j]: the entry of
    the block of the tile and channel the cell belongs to. *)
Definition attenuated_sample (src : list R) (width height channels : nat)
    (quality : Z) (quant_table : list R) (j : nat) : R :=
  let c := j mod channels in
  let x := j / channels mod width in
  let y := j / channels / width in
  Dct.at64 (attenuated_block src width height channels quality quant_table
              (x / 8 * 8) (y / 8 * 8) c)
           (y mod 8 * 8 + x mod 8).

(** The cells that the tile at [(base_x, base_y)] covers inside the image. *)
Definition tile_cell (width height channels base_x base_y : nat) (j : nat) : Prop :=
  ∃ c yy xx, c < channels ∧ yy < 8 ∧ xx < 8 ∧
             base_y + yy < height ∧ base_x + xx < width ∧
             j = ((base_y + yy) * width + (base_x + xx)) * channels + c.

(** The sum of channel [c] over the tile [(tx, ty)]. *)
Definition tile_sum (data : list R) (width channels ty tx c : nat) : R :=
  sum8 (λ yy, sum8 (λ xx,
    sample_at data width channels (ty * 8 + yy) (tx * 8 + xx) c)).

(** *** Vocabulary for the regeneration network *)

(** The weights of the three layers, entry by entry: [convN_weight oc ky kx ic]
    is the weight of input channel [ic] at tap [(kx, ky)] for output channel
    [oc]. *)
Definition conv1_weight {F : Type} `{FloatOps F} (oc ky kx ic : nat) : F :=
  if oc =? 15
  then if (ky =? 1) && (kx =? 1) then fdiv (f_lit 1) (f_lit 3) else f_lit 0
  else if (ic =? oc / 5)
          && (ky * 3 + kx =? nth (oc mod 5) [4; 1; 7; 3; 5] 0)
       then f_lit 1 else f_lit 0.

Definition conv2_weight {F : Type} `{FloatOps F} (oc ky kx ic : nat) : F :=
  if (ky =? 1) && (kx =? 1) && (ic =? oc) then f_lit 1 else f_lit 0.

Definition conv3_weight {F : Type} `{FloatOps F} (oc ky kx ic : nat) : F :=
  if negb ((ky =? 1) && (kx =? 1)) then f_lit 0
  else if ic =? 15 then f_lit 0.05
  else if negb (ic / 5 =? oc / 4) then f_lit 0
  else if ic mod 5 =? 0 then f_lit 1.2
  else if existsb (Nat.eqb (ic mod 5)) (nth (oc mod 4) SrWeights.strong_pairs [])
       then f_lit (-0.1)
       else f_lit (-0.05).

(** The value that [convolve3x3] stores for output channel [oc] of pixel
    [(x, y)]. *)
Definition conv_value {F : Type} `{FloatOps F} (input : list F)
    (width height in_channels : nat) (weights bias : list F) (relu : bool)
    (y x oc : nat) : F :=
  let in_row_stride := width * in_channels in
  let y_indices := [SrLite.mirror_index (Z.of_nat y - 1) height;
                    SrLite.mirror_index (Z.of_nat y) height;
                    SrLite.mirror_index (Z.of_nat y + 1) height] in
  let x_indices := [SrLite.mirror_index (Z.of_nat x - 1) width;
                    SrLite.mirror_index (Z.of_nat x) width;
                    SrLite.mirror_index (Z.of_nat x + 1) width] in
  let acc := nth oc bias (f_lit 0) in
  let kernel := oc * 3 * 3 * in_channels in
  let acc := for_range 0 3 (λ ky acc,
    let sy := nth ky y_indices 0 in
    let row := sy * in_row_stride in
    for_range 0 3 (λ kx acc,
      let sx := nth kx x_indices 0 in
      let pixel := row + sx * in_channels in
      for_range 0 in_channels (λ ic acc,
        fadd acc (fmul (nth (kernel + (ky * 3 + kx) * in_channels + ic) weights (f_lit 0))
                       (nth (pixel + ic) input (f_lit 0)))) acc) acc) acc in
  if relu && fltb acc (f_lit 0) then f_lit 0 else acc.

(** Channel [c] of the pixel of [input] at the mirrored position
    [(x, y)]. *)
Definition sr_tap (input : list R) (width height : nat) (y x : Z) (c : nat) : R :=
  nth (SrLite.mirror_index y height * (width * 3)
       + SrLite.mirror_index x width * 3 + c) input 0%R.

(** Feature [f] of pixel [(x, y)] after the first layer: for each colour
    channel the pixel and its four neighbours, rectified, and last the
    rectified mean of the three channels. *)
Definition sr_feature (input : list R) (width height : nat) (y x f : nat) : R :=
  let yc := Z.of_nat y in
  let xc := Z.of_nat x in
  let tap := sr_tap input width height in
  if f =? 15
  then Rmax 0 ((tap yc xc 0%nat + tap yc xc 1%nat + tap yc xc 2%nat) / 3)%R
  else
    let c := f / 5 in
    Rmax 0 (match f mod 5 with
            | 0 => tap yc xc c
            | 1 => tap (yc - 1)%Z xc c
            | 2 => tap (yc + 1)%Z xc c
            | 3 => tap yc (xc - 1)%Z c
            | _ => tap yc (xc + 1)%Z c
            end).

(** Output channel [c * 4 + o] of the third layer in terms of the
    features [t] of a pixel: the pixel itself, its two neighbours on the side
    of sub-pixel [o], the two on the other side, and the mean. *)
Definition sr_mix (t : nat → R) (c o : nat) : R :=
  let strong := nth o SrWeights.strong_pairs [] in
  let weak := nth o SrWeights.weak_pairs [] in
  (1.2 * t (c * 5)%nat
   - 0.1 * (t (c * 5 + nth 0 strong 0)%nat + t (c * 5 + nth 1 strong 0)%nat)
   - 0.05 * (t (c * 5 + nth 0 weak 0)%nat + t (c * 5 + nth 1 weak 0)%nat)
   + 0.05 * t 15%nat)%R.


(** ** IEEE 754 binary32

    The [float] of the code, bit for bit: 24 bits of precision, exponents
    up to 128, round to nearest with ties to even, signed zeros, infinities
    and NaN.  The arithmetic is that of [SpecFloat]; the conversions to and
    from integers follow [static_cast] and [<cmath>].  A conversion to an
    integer type of a NaN or an infinity is undefined in C++; here it yields
    0. *)
Module Binary32.

Definition prec : Z := 24.
Definition emax : Z := 128.

Definition t : Type := SpecFloat.spec_float.

(** [static_cast<float>(n)]. *)
Definition of_Z (n : Z) : t := SpecFloat.binary_normalize prec emax n 0 false.

(** A decimal literal [p/q]: the binary32 value nearest to it (numerator
    and denominator of the literals of the code are binary32 values, so the
    quotient is rounded once). *)
Definition of_Q (q : Q) : t :=
  SpecFloat.SFdiv prec emax (of_Z (Qnum q)) (of_Z (Z.pos (Qden q))).

(** The magnitude [m * 2^e] of a finite value cut at the binary point:
    its integer part, and how the rest compares with one half
    ([None]: there is no rest). *)
Definition split (m : positive) (e : Z) : Z * option comparison :=
  match e with
  | Z.neg k =>
      let unit := Z.pow 2 (Z.pos k) in
      let rest := Z.modulo (Z.pos m) unit in
      (Z.div (Z.pos m) unit,
       if (rest =? 0)%Z then None else Some (Z.compare (2 * rest) unit))
  | _ => (Z.pos m * Z.pow 2 e, None)%Z
  end.

Definition signed (s : bool) (n : Z) : Z := if s then Z.opp n else n.

(** Rounding the magnitude to an integer, in four ways. *)
Definition mag_trunc (m : positive) (e : Z) : Z := (split m e).1.

Definition mag_up (m : positive) (e : Z) : Z :=
  match split m e with
  | (n, None) => n
  | (n, Some _) => n + 1
  end.

Definition mag_half_away (m : positive) (e : Z) : Z :=
  match split m e with
  | (n, Some Lt) | (n, None) => n
  | (n, Some _) => n + 1
  end.

Definition mag_half_even (m : positive) (e : Z) : Z :=
  match split m e with
  | (n, Some Gt) => n + 1
  | (n, Some Eq) => if Z.even n then n else n + 1
  | (n, _) => n
  end.

(** An integer-valued result as a float; a zero keeps the sign of the
    argument. *)
Definition integral (s : bool) (n : Z) : t :=
  if (n =? 0)%Z then SpecFloat.S754_zero s else of_Z (signed s n).

(** [std::floor]. *)
Definition floor (x : t) : t :=
  match x with
  | SpecFloat.S754_finite s m e =>
      if (0 <=? e)%Z then x
      else integral s (if s then mag_up m e else mag_trunc m e)
  | _ => x
  end.

(** [std::round]: ties away from zero. *)
Definition round (x : t) : t :=
  match x with
  | SpecFloat.S754_finite s m e =>
      if (0 <=? e)%Z then x else integral s (mag_half_away m e)
  | _ => x
  end.

(** [std::nearbyint] in the default rounding mode: ties to even. *)
Definition nearbyint (x : t) : t :=
  match x with
  | SpecFloat.S754_finite s m e =>
      if (0 <=? e)%Z then x else integral s (mag_half_even m e)
  | _ => x
  end.

(** [static_cast<int>(x)]: towards zero. *)
Definition trunc (x : t) : Z :=
  match x with
  | SpecFloat.S754_finite s m e => signed s (mag_trunc m e)
  | _ => 0
  end.

(** [std::llround]: ties away from zero. *)
Definition llround (x : t) : Z :=
  match x with
  | SpecFloat.S754_finite s m e => signed s (mag_half_away m e)
  | _ => 0
  end.

End Binary32.

(** The instance has a low priority: where the carrier is left open, the
    exact arithmetic is meant. *)
#[export] Instance binary32 : FloatOps Binary32.t | 10 := {|
  f_lit := Binary32.of_Q;
  f_of_Z := Binary32.of_Z;
  fadd := SpecFloat.SFadd Binary32.prec Binary32.emax;
  fsub := SpecFloat.SFsub Binary32.prec Binary32.emax;
  fmul := SpecFloat.SFmul Binary32.prec Binary32.emax;
  fdiv := SpecFloat.SFdiv Binary32.prec Binary32.emax;
  fabs := SpecFloat.SFabs;
  fltb := SpecFloat.SFltb;
  feqb := SpecFloat.SFeqb;
  f_floor := Binary32.floor;
  f_round := Binary32.round;
  f_nearbyint := Binary32.nearbyint;
  f_trunc := Binary32.trunc;
  f_llround := Binary32.llround;
|}.


(** *** Vocabulary for the bodies of the parallel loops *)

(** [writes_only body R]: [body] keeps the length of the vector, stores
    into the cells of the region [R] only, and what it stores there does
    not depend on the vector it is given. *)
Definition writes_only {A : Type} (body : list A → list A) (R : nat → Prop) : Prop :=
  ∀ l, length (body l) = length l
       ∧ (∀ j, ¬ R j → body l !! j = l !! j)
       ∧ (∀ l' j, length l' = length l → R j → body l' !! j = body l !! j).

(** The body run on the indices in the order [order]. *)
Definition run_in_order {St : Type} (body : nat → St → St) (order : list nat) (s : St) : St :=
  foldl (λ acc i, body i acc) s order.

(** * Lemmas and theorems *)

(** ** Machine integers and loops *)

Lemma wrap_fits n : fits n → wrap n = n.
Proof.
  unfold fits, wrap. intros Hn. rewrite N.mod_small by exact Hn. lia.
Qed.

Lemma fits_le n m : m ≤ n → fits n → fits m.
Proof. unfold fits. lia. Qed.

Lemma wrap_le n : wrap n ≤ n.
Proof.
  unfold wrap. pose proof (N.Div0.mod_le (N.of_nat n) size_modulus). lia.
Qed.

Lemma wrap_0 : wrap 0 = 0.
Proof. reflexivity. Qed.

Lemma for_range_empty {St} lo hi (body : nat → St → St) s :
  hi ≤ lo → for_range lo hi body s = s.
Proof.
  intros Hle. unfold for_range. replace (hi - lo) with 0 by lia. reflexivity.
Qed.

Lemma for_range_snoc {St} lo hi (body : nat → St → St) s :
  lo ≤ hi → for_range lo (S hi) body s = body hi (for_range lo hi body s).
Proof.
  intros Hle. unfold for_range.
  replace (S hi - lo) with (S (hi - lo)) by lia.
  rewrite seq_S, foldl_app. simpl. f_equal. lia.
Qed.

Lemma for_range_split {St} lo mid hi (body : nat → St → St) s :
  lo ≤ mid → mid ≤ hi →
  for_range lo hi body s = for_range mid hi body (for_range lo mid body s).
Proof.
  intros H1 H2. unfold for_range.
  replace (hi - lo) with ((mid - lo) + (hi - mid)) by lia.
  rewrite seq_app, foldl_app. do 3 f_equal. lia.
Qed.

(** Loop invariants for [for_range]. *)
Lemma for_range_ind {St} (P : nat → St → Prop) lo hi (body : nat → St → St) s :
  lo ≤ hi →
  P lo s →
  (∀ i acc, lo ≤ i < hi → P i acc → P (S i) (body i acc)) →
  P hi (for_range lo hi body s).
Proof.
  intros Hle H0 Hstep. induction hi as [|hi IH].
  - assert (lo = 0) by lia. subst. exact H0.
  - destruct (decide (lo = S hi)) as [->|Hne].
    + rewrite for_range_empty by lia. exact H0.
    + rewrite for_range_snoc by lia. apply Hstep; [lia|].
      apply IH; [lia|]. intros i acc Hi. apply Hstep. lia.
Qed.

Lemma for_range_ext {St} lo hi (f g : nat → St → St) s :
  (∀ i acc, lo ≤ i < hi → f i acc = g i acc) →
  for_range lo hi f s = for_range lo hi g s.
Proof.
  intros Hfg. destruct (decide (lo ≤ hi)) as [Hle|Hgt].
  - apply (for_range_ind (λ i acc, acc = for_range lo i g s) lo hi f s Hle).
    + rewrite for_range_empty by lia. reflexivity.
    + intros i acc Hi ->. rewrite for_range_snoc by lia. apply Hfg. lia.
  - rewrite !for_range_empty by lia. reflexivity.
Qed.

(** A [break] that never fires is a plain loop. *)
Lemma for_break_no_break {St} lo hi (body : nat → St → option St) (f : nat → St → St) s :
  (∀ i acc, lo ≤ i < hi → body i acc = Some (f i acc)) →
  for_break lo hi body s = for_range lo hi f s.
Proof.
  unfold for_break, for_range. intros Hb.
  remember (hi - lo) as n eqn:Hn. revert lo s Hn Hb.
  induction n as [|n IH]; intros lo s Hn Hb; [reflexivity|].
  simpl. rewrite Hb by lia. apply IH; [lia|]. intros i acc Hi. apply Hb. lia.
Qed.

(** A loop whose body breaks from index [k] on behaves as the loop up to [k]. *)
Lemma for_break_at {St} lo k hi (body : nat → St → option St) (f : nat → St → St) s :
  lo ≤ k → k < hi →
  (∀ i acc, lo ≤ i < k → body i acc = Some (f i acc)) →
  (∀ acc, body k acc = None) →
  for_break lo hi body s = for_range lo k f s.
Proof.
  unfold for_break, for_range. intros Hlk Hkh Hb Hk.
  remember (k - lo) as n eqn:Hn. revert lo s Hn Hlk Hb.
  induction n as [|n IH]; intros lo s Hn Hlk Hb.
  - assert (k = lo) by lia. subst k.
    replace (hi - lo) with (S (hi - S lo)) by lia. simpl. rewrite Hk. reflexivity.
  - replace (hi - lo) with (S (hi - S lo)) by lia. simpl.
    rewrite Hb by lia. apply IH; [lia|lia|]. intros i acc Hi. apply Hb. lia.
Qed.

Lemma updates_cells_alter {A} (f : A → A) (i : nat) (val : nat → A → A) :
  (∀ v, val i v = f v) →
  updates_cells (alter f i) (λ j, j = i) val.
Proof.
  intros Hval l. split; [apply length_alter|]. intros j. split.
  - intros ->. rewrite list_lookup_alter_eq.
    destruct (l !! i); simpl; [rewrite Hval|]; reflexivity.
  - intros Hne. apply list_lookup_alter_ne. congruence.
Qed.

Lemma updates_cells_insert {A} (x : A) (i : nat) (val : nat → A → A) :
  (∀ v, val i v = x) →
  updates_cells (<[i:=x]>) (λ j, j = i) val.
Proof.
  intros Hval l. split; [apply length_insert|]. intros j. split.
  - intros ->. destruct (decide (i < length l)) as [Hlt|Hge].
    + rewrite list_lookup_insert_eq by exact Hlt.
      destruct (lookup_lt_is_Some_2 l i Hlt) as [v ->]. simpl. by rewrite Hval.
    + rewrite list_insert_ge by lia. rewrite (lookup_ge_None_2 l i) by lia.
      reflexivity.
  - intros Hne. apply list_lookup_insert_ne. congruence.
Qed.

Lemma updates_cells_id {A} (val : nat → A → A) :
  updates_cells (λ l : list A, l) (λ _, False) val.
Proof. intros l. split; [reflexivity|]. intros j. split; [tauto|reflexivity]. Qed.

Lemma updates_cells_iff {A} (body : list A → list A) R R' val :
  (∀ j, R j ↔ R' j) → updates_cells body R val → updates_cells body R' val.
Proof.
  intros HR Hb l. destruct (Hb l) as [Hlen Hj]. split; [exact Hlen|].
  intros j. destruct (Hj j) as [H1 H2]. split; intros HRj.
  - apply H1, HR, HRj.
  - apply H2. intros HR0. apply HRj, HR, HR0.
Qed.

(** Sequential composition over pairwise disjoint regions. *)
Lemma updates_cells_for_range {A} lo hi (body : nat → list A → list A)
    (R : nat → nat → Prop) (val : nat → A → A) :
  (∀ i, lo ≤ i < hi → updates_cells (body i) (R i) val) →
  (∀ i i' j, lo ≤ i < hi → lo ≤ i' < hi → R i j → R i' j → i = i') →
  updates_cells (for_range lo hi body) (λ j, ∃ i, lo ≤ i < hi ∧ R i j) val.
Proof.
  intros Hbody Hdisj. destruct (decide (lo ≤ hi)) as [Hle|Hgt]; cycle 1.
  { intros l. rewrite for_range_empty by lia. split; [reflexivity|].
    intros j. split; [|reflexivity]. intros (i & Hi & _). lia. }
  revert Hbody Hdisj. induction hi as [|hi IH]; intros Hbody Hdisj.
  - intros l. rewrite for_range_empty by lia. split; [reflexivity|].
    intros j. split; [|reflexivity]. intros (i & Hi & _). lia.
  - destruct (decide (lo = S hi)) as [->|Hne].
    { intros l. rewrite for_range_empty by lia. split; [reflexivity|].
      intros j. split; [|reflexivity]. intros (i & Hi & _). lia. }
    assert (Hprev : updates_cells (for_range lo hi body)
                      (λ j, ∃ i, lo ≤ i < hi ∧ R i j) val).
    { apply IH; [lia| |].
      - intros i Hi. apply Hbody. lia.
      - intros i i' j Hi Hi'. apply Hdisj; lia. }
    intros l. rewrite for_range_snoc by lia.
    destruct (Hprev l) as [Hlen Hcells].
    destruct (Hbody hi ltac:(lia) (for_range lo hi body l)) as [Hlen' Hcells'].
    split; [congruence|]. intros j.
    destruct (Hcells j) as [Hin Hout]. destruct (Hcells' j) as [Hin' Hout'].
    split.
    + intros (i & Hi & HR). destruct (decide (i = hi)) as [->|Hih].
      * rewrite Hin' by exact HR. rewrite Hout; [reflexivity|].
        intros (i' & Hi' & HR'). assert (i' = hi) by (eapply Hdisj; eauto; lia). lia.
      * rewrite Hout'.
        -- apply Hin. exists i. split; [lia|exact HR].
        -- intros HR'. apply Hih. eapply Hdisj; eauto; lia.
    + intros Hnot. rewrite Hout', Hout; [reflexivity| |].
      * intros (i & Hi & HR). apply Hnot. exists i. split; [lia|exact HR].
      * intros HR. apply Hnot. exists hi. split; [lia|exact HR].
Qed.

(** Arithmetic of the interleaved layout [(y * w + x) * ch + c]. *)
Lemma flat_index_inj w ch y x c y' x' c' :
  x < w → c < ch → x' < w → c' < ch →
  (y * w + x) * ch + c = (y' * w + x') * ch + c' →
  y = y' ∧ x = x' ∧ c = c'.
Proof.
  intros Hx Hc Hx' Hc' Heq.
  assert (Ha : y * w + x = y' * w + x' ∧ c = c').
  { assert (H1 : ((y * w + x) * ch + c) / ch = y * w + x).
    { rewrite Nat.div_add_l by lia. rewrite Nat.div_small by lia. lia. }
    assert (H2 : ((y' * w + x') * ch + c') / ch = y' * w + x').
    { rewrite Nat.div_add_l by lia. rewrite Nat.div_small by lia. lia. }
    rewrite Heq in H1. rewrite H1 in H2. split; [exact H2|].
    rewrite H2 in Heq. eapply Nat.add_cancel_l. exact Heq. }
  destruct Ha as [Ha ->].
  assert (H1 : (y * w + x) / w = y).
  { rewrite Nat.div_add_l by lia. rewrite Nat.div_small by lia. lia. }
  assert (H2 : (y' * w + x') / w = y').
  { rewrite Nat.div_add_l by lia. rewrite Nat.div_small by lia. lia. }
  rewrite Ha in H1. rewrite H1 in H2. subst y'. split; [reflexivity|].
  split; [lia|reflexivity].
Qed.

Lemma flat_index_lt h w ch y x c :
  y < h → x < w → c < ch → (y * w + x) * ch + c < h * w * ch.
Proof.
  intros Hy Hx Hc.
  assert (H1 : (y + 1) * w ≤ h * w) by (apply Nat.mul_le_mono_r; lia).
  assert (H2 : (y * w + x + 1) * ch ≤ (h * w) * ch) by (apply Nat.mul_le_mono_r; lia).
  lia.
Qed.

Lemma flat_index_decompose h w ch j :
  j < h * w * ch →
  ∃ y x c, y < h ∧ x < w ∧ c < ch ∧ j = (y * w + x) * ch + c.
Proof.
  intros Hj.
  assert (Hch : 0 < ch) by (destruct ch; lia).
  assert (Hw : 0 < w) by (destruct w; lia).
  exists ((j / ch) / w), ((j / ch) mod w), (j mod ch).
  pose proof (Nat.div_mod_eq j ch) as E1.
  pose proof (Nat.div_mod_eq (j / ch) w) as E2.
  pose proof (Nat.mod_upper_bound j ch ltac:(lia)) as B1.
  pose proof (Nat.mod_upper_bound (j / ch) w ltac:(lia)) as B2.
  assert (Hq : j / ch < h * w).
  { apply Nat.Div0.div_lt_upper_bound. lia. }
  assert (Hq2 : j / ch / w < h).
  { apply Nat.Div0.div_lt_upper_bound. lia. }
  repeat split; try assumption. rewrite (Nat.mul_comm _ w). lia.
Qed.

(** Three nested pixel loops that store one cell per iteration. *)
Lemma updates_cells_pixels {A} h w ch
    (body : nat → nat → nat → list A → list A) (val : nat → A → A) :
  (∀ y x c, y < h → x < w → c < ch →
     updates_cells (body y x c) (λ j, j = (y * w + x) * ch + c) val) →
  updates_cells
    (for_range 0 h (λ y, for_range 0 w (λ x, for_range 0 ch (λ c, body y x c))))
    (λ j, j < h * w * ch) val.
Proof.
  intros Hbody.
  eapply updates_cells_iff; cycle 1.
  - apply (updates_cells_for_range 0 h _
             (λ y j, ∃ x, 0 ≤ x < w ∧ ∃ c, 0 ≤ c < ch ∧ j = (y * w + x) * ch + c)).
    + intros y Hy.
      apply (updates_cells_for_range 0 w _
               (λ x j, ∃ c, 0 ≤ c < ch ∧ j = (y * w + x) * ch + c)).
      * intros x Hx.
        apply (updates_cells_for_range 0 ch _ (λ c j, j = (y * w + x) * ch + c)).
        -- intros c Hc. apply Hbody; lia.
        -- intros c c' j Hc Hc' -> Heq.
           eapply flat_index_inj in Heq; [|lia..]. tauto.
      * intros x x' j Hx Hx' (c & Hc & ->) (c' & Hc' & Heq).
        eapply flat_index_inj in Heq; [|lia..]. tauto.
    + intros y y' j Hy Hy' (x & Hx & c & Hc & ->) (x' & Hx' & c' & Hc' & Heq).
      eapply flat_index_inj in Heq; [|lia..]. tauto.
  - intros j. split.
    + intros (y & Hy & x & Hx & c & Hc & ->). apply flat_index_lt; lia.
    + intros Hj. destruct (flat_index_decompose h w ch j Hj)
        as (y & x & c & Hy & Hx & Hc & ->).
      exists y. split; [lia|]. exists x. split; [lia|]. exists c. split; [lia|].
      reflexivity.
Qed.

Lemma for_range_length {A} lo hi (body : nat → list A → list A) l :
  (∀ i acc, length (body i acc) = length acc) →
  length (for_range lo hi body l) = length l.
Proof.
  intros Hb. destruct (decide (lo ≤ hi)) as [Hle|Hgt].
  - apply (for_range_ind (λ _ acc, length acc = length l) lo hi body l Hle).
    + reflexivity.
    + intros i acc _ <-. apply Hb.
  - rewrite for_range_empty by lia. reflexivity.
Qed.

Lemma wsub_fits a b : b ≤ a → fits a → wsub a b = a - b.
Proof.
  unfold wsub, fits, size_modulus. intros Hle Ha.
  rewrite (N.mod_small (N.of_nat b)) by lia.
  replace (N.of_nat a + 2 ^ 64 - N.of_nat b)%N
    with (N.of_nat (a - b) + 1 * 2 ^ 64)%N by lia.
  rewrite N.Div0.mod_add. rewrite N.mod_small by lia. lia.
Qed.

(** ** Facts about the bit-depth quantizer *)

Section BitdepthFacts.
Context {F : Type} `{FloatOps F}.

Lemma sanitize_bits_range bits : (1 ≤ Bitdepth.sanitize_bits bits ≤ 8)%Z.
Proof.
  unfold Bitdepth.sanitize_bits.
  repeat match goal with
  | |- context [(?a =? ?b)%Z] => destruct (Z.eqb_spec a b)
  | |- context [(?a <? ?b)%Z] => destruct (Z.ltb_spec a b)
  | |- context [(?a >? ?b)%Z] => rewrite (Z.gtb_ltb a b)
  end; lia.
Qed.

Lemma sanitize_bits_in_range bits :
  (1 ≤ bits ≤ 8)%Z → Bitdepth.sanitize_bits bits = bits.
Proof.
  intros Hb. unfold Bitdepth.sanitize_bits.
  repeat match goal with
  | |- context [(?a =? ?b)%Z] => destruct (Z.eqb_spec a b)
  | |- context [(?a <? ?b)%Z] => destruct (Z.ltb_spec a b)
  | |- context [(?a >? ?b)%Z] => rewrite (Z.gtb_ltb a b)
  end; lia.
Qed.

Lemma levels_of_in_range bits :
  (1 ≤ bits ≤ 8)%Z → Bitdepth.levels_of bits = (2 ^ bits)%Z.
Proof.
  intros Hb. unfold Bitdepth.levels_of. rewrite sanitize_bits_in_range by exact Hb.
  rewrite Z.shiftl_1_l. reflexivity.
Qed.

Lemma land_7_mod_8 n : Nat.land n 7 = n mod 8.
Proof. exact (Nat.land_ones n 3). Qed.

(** The threshold only looks at the coordinates modulo 8. *)
Lemma dither_threshold_mod y x :
  Bitdepth.dither_threshold (F:=F) y x = Bitdepth.dither_threshold (y mod 8) (x mod 8).
Proof.
  unfold Bitdepth.dither_threshold. rewrite !land_7_mod_8.
  rewrite !Nat.Div0.mod_mod. reflexivity.
Qed.

(** The content of a cell after the three loops. *)
Lemma quantize_in_place_lookup (data : list F) width height channels bits y x c :
  y < height → x < width → c < channels →
  Bitdepth.quantize_in_place data width height channels bits
    !! ((y * width + x) * channels + c)
  = Bitdepth.quantize_sample (Bitdepth.levels_of bits) (Bitdepth.dither_threshold y x)
      <$> data !! ((y * width + x) * channels + c).
Proof.
  intros Hy Hx Hc. unfold Bitdepth.quantize_in_place.
  rewrite bool_decide_eq_false_2 by lia.
  set (val := λ (j : nat) (v : F),
    Bitdepth.quantize_sample (Bitdepth.levels_of bits)
      (Bitdepth.dither_threshold ((j / channels) / width) ((j / channels) mod width)) v).
  pose proof (updates_cells_pixels height width channels
    (λ y x c, alter (Bitdepth.quantize_sample (Bitdepth.levels_of bits)
                       (Bitdepth.dither_threshold y x))
                    (y * width * channels + x * channels + c)) val) as Hloops.
  assert (Hbody : ∀ y x c, y < height → x < width → c < channels →
    updates_cells
      (alter (Bitdepth.quantize_sample (Bitdepth.levels_of bits)
                (Bitdepth.dither_threshold y x))
             (y * width * channels + x * channels + c))
      (λ j, j = (y * width + x) * channels + c) val).
  { intros y0 x0 c0 Hy0 Hx0 Hc0.
    replace (y0 * width * channels + x0 * channels + c0)
      with ((y0 * width + x0) * channels + c0) by lia.
    apply updates_cells_alter. intros v. unfold val.
    rewrite Nat.div_add_l by lia. rewrite (Nat.div_small c0) by lia.
    rewrite Nat.add_0_r. rewrite Nat.div_add_l by lia.
    rewrite (Nat.div_small x0) by lia. rewrite Nat.add_0_r.
    rewrite (Nat.add_comm (y0 * width)), Nat.Div0.mod_add.
    rewrite Nat.mod_small by lia. reflexivity. }
  destruct (Hloops Hbody data) as [_ Hcells].
  destruct (Hcells ((y * width + x) * channels + c)) as [Hin _].
  etrans; [apply Hin, flat_index_lt; assumption|].
  unfold val.
  rewrite Nat.div_add_l by lia. rewrite (Nat.div_small c) by lia.
  rewrite Nat.add_0_r. rewrite Nat.div_add_l by lia.
  rewrite (Nat.div_small x) by lia. rewrite Nat.add_0_r.
  rewrite (Nat.add_comm (y * width)), Nat.Div0.mod_add.
  rewrite Nat.mod_small by lia. reflexivity.
Qed.

Lemma quantize_in_place_length (data : list F) width height channels bits :
  length (Bitdepth.quantize_in_place data width height channels bits) = length data.
Proof.
  unfold Bitdepth.quantize_in_place. case_bool_decide; [reflexivity|].
  apply for_range_length. intros y acc.
  apply for_range_length. intros x acc'.
  apply for_range_length. intros c acc''. apply length_alter.
Qed.

Lemma infer_channels_consistent (image : Image.t F) channels :
  Image.width image ≠ 0 → Image.height image ≠ 0 → channels ≠ 0 →
  length (Image.pixels image) = Image.height image * Image.width image * channels →
  fits (length (Image.pixels image)) →
  Bitdepth.infer_channels image = channels.
Proof.
  intros Hw Hh Hc Hlen Hfits. unfold Bitdepth.infer_channels.
  rewrite bool_decide_eq_false_2 by lia.
  assert (Hwh : wrap (Image.width image * Image.height image)
                = Image.width image * Image.height image).
  { apply wrap_fits. eapply fits_le; [|exact Hfits]. rewrite Hlen. nia. }
  rewrite Hwh.
  assert (Hpos : Image.width image * Image.height image ≠ 0) by nia.
  rewrite bool_decide_eq_false_2 by exact Hpos.
  assert (Hl : length (Image.pixels image)
               = channels * (Image.width image * Image.height image)) by lia.
  rewrite bool_decide_eq_false_2.
  - rewrite Hl. apply Nat.div_mul. exact Hpos.
  - intros [Hnil|Hmod].
    + rewrite Hnil in Hl. simpl in Hl. nia.
    + apply Hmod. rewrite Hl. apply Nat.Div0.mod_mul.
Qed.

(** The behaviour of [quantize_bitdepth] depends on [bits] through
    [sanitize_bits] only. *)
Lemma quantize_in_place_sanitized (data : list F) width height channels bits bits' :
  Bitdepth.sanitize_bits bits = Bitdepth.sanitize_bits bits' →
  Bitdepth.quantize_in_place data width height channels bits
  = Bitdepth.quantize_in_place data width height channels bits'.
Proof.
  intros Hs. unfold Bitdepth.quantize_in_place, Bitdepth.levels_of.
  rewrite Hs. reflexivity.
Qed.

End BitdepthFacts.

(** *** The quantizer under exact real arithmetic *)

Lemma Q2R_half : Q2R 0.5 = (/ 2)%R.
Proof. unfold Q2R. simpl. lra. Qed.

Lemma R_ltb_true a b : (a < b)%R → R_ltb a b = true.
Proof. intros Hlt. unfold R_ltb. destruct (Rlt_dec a b); [reflexivity|contradiction]. Qed.

Lemma R_ltb_false a b : (b <= a)%R → R_ltb a b = false.
Proof. intros Hle. unfold R_ltb. destruct (Rlt_dec a b); [lra|reflexivity]. Qed.

Lemma R_eqb_true a b : a = b → R_eqb a b = true.
Proof. intros ->. unfold R_eqb. destruct (Req_dec_T b b); [reflexivity|contradiction]. Qed.

Lemma R_eqb_false a b : a ≠ b → R_eqb a b = false.
Proof. intros Hne. unfold R_eqb. destruct (Req_dec_T a b); [contradiction|reflexivity]. Qed.

(** Every output of the innermost loop is one of the evenly spaced levels. *)
Lemma quantize_sample_is_level (bits : Z) (threshold value : R) :
  (1 ≤ bits ≤ 8)%Z →
  ∃ k : Z, (0 ≤ k ≤ 2 ^ bits - 1)%Z ∧
    Bitdepth.quantize_sample (2 ^ bits) threshold value
    = (IZR k / IZR (2 ^ bits - 1))%R.
Proof.
  intros Hb.
  assert (Hpow : (2 ≤ 2 ^ bits)%Z).
  { change 2%Z with (2 ^ 1)%Z at 1. apply Z.pow_le_mono_r; lia. }
  unfold Bitdepth.quantize_sample.
  assert (Hgt : (2 ^ bits - 1 >? 0)%Z = true) by (apply Z.gtb_lt; lia).
  rewrite Hgt.
  match goal with
  | |- context [f_trunc ?e] => set (q := f_trunc e)
  end.
  set (k := if (q <? 0)%Z then 0%Z
            else if (q >? 2 ^ bits - 1)%Z then (2 ^ bits - 1)%Z else q).
  exists k. split.
  - unfold k. destruct (Z.ltb_spec q 0); [lia|].
    rewrite Z.gtb_ltb. destruct (Z.ltb_spec (2 ^ bits - 1) q); lia.
  - simpl. rewrite RMicromega.Q2R_1. unfold Rdiv. ring.
Qed.

(** C4. For a bit depth [bits] in [[1, 8]] and an image with a consistent
    channel count, every sample of [quantize_bitdepth image bits] is
    [k / (2^bits - 1)] for an integer [k] in [[0, 2^bits - 1]], and it is
    obtained from the input sample with the dither threshold of
    [(y mod 8, x mod 8)], whatever the channel, the value and the rest of
    the image. *)
Theorem quantize_bitdepth_levels (bits : Z) (image : Image.t R)
    (channels y x c : nat) :
  (1 ≤ bits ≤ 8)%Z →
  length (Image.pixels image) = Image.height image * Image.width image * channels →
  fits (length (Image.pixels image)) →
  y < Image.height image → x < Image.width image → c < channels →
  ∃ (v : R) (k : Z),
    Image.pixels image !! ((y * Image.width image + x) * channels + c) = Some v ∧
    (0 ≤ k ≤ 2 ^ bits - 1)%Z ∧
    Image.pixels (Bitdepth.quantize_bitdepth image bits)
      !! ((y * Image.width image + x) * channels + c)
    = Some (IZR k / IZR (2 ^ bits - 1))%R ∧
    (IZR k / IZR (2 ^ bits - 1))%R
    = Bitdepth.quantize_sample (2 ^ bits)
        (Bitdepth.dither_threshold (y mod 8) (x mod 8)) v.
Proof.
  intros Hb Hlen Hfits Hy Hx Hc.
  assert (Hidx : (y * Image.width image + x) * channels + c
                 < length (Image.pixels image)).
  { rewrite Hlen. apply flat_index_lt; assumption. }
  destruct (lookup_lt_is_Some_2 _ _ Hidx) as [v Hv].
  destruct (quantize_sample_is_level bits
              (Bitdepth.dither_threshold (y mod 8) (x mod 8)) v Hb) as (k & Hk & Hq).
  exists v, k. split; [exact Hv|]. split; [exact Hk|]. split; [|symmetry; exact Hq].
  unfold Bitdepth.quantize_bitdepth.
  rewrite (infer_channels_consistent image channels) by (try assumption; lia).
  rewrite bool_decide_eq_false_2 by lia. cbn [Image.pixels].
  rewrite quantize_in_place_lookup by assumption.
  rewrite levels_of_in_range by exact Hb.
  rewrite dither_threshold_mod, Hv. exact (f_equal Some Hq).
Qed.

Lemma quantize_bitdepth_levels_witness :
  ∃ (v : R) (k : Z),
    [0.5; 0.25; 1; 0]%R !! 3 = Some v ∧
    (0 ≤ k ≤ 2 ^ 6 - 1)%Z ∧
    Image.pixels (Bitdepth.quantize_bitdepth (Image.mk 2 2 [0.5; 0.25; 1; 0]%R) 6) !! 3
    = Some (IZR k / IZR (2 ^ 6 - 1))%R ∧
    (IZR k / IZR (2 ^ 6 - 1))%R
    = Bitdepth.quantize_sample (2 ^ 6) (Bitdepth.dither_threshold (1 mod 8) (1 mod 8)) v.
Proof.
  apply (quantize_bitdepth_levels 6 (Image.mk 2 2 [0.5; 0.25; 1; 0]%R) 1 1 1 0).
  - lia.
  - reflexivity.
  - unfold fits. simpl. vm_compute. reflexivity.
  - simpl. lia.
  - simpl. lia.
  - lia.
Defined.

(** C5 as worded fails at [bits = 0]: the code quantizes to 64 levels
    where clamping into [[1, 8]] would give 2, and the outputs differ. *)
Lemma quantize_bits_zero_not_clamped :
  Bitdepth.levels_of 0 = 64%Z ∧
  (2 ^ Bitdepth.clamped_bits 0 = 2)%Z ∧
  Bitdepth.quantize_bitdepth (F:=Q) (Image.mk 1 1 [1 # 2]) 0
  ≠ Bitdepth.quantize_bitdepth (Image.mk 1 1 [1 # 2]) (Bitdepth.clamped_bits 0).
Proof.
  split; [reflexivity|]. split; [reflexivity|].
  vm_compute. intros Heq. discriminate Heq.
Qed.

(** C5, amended. [quantize_bitdepth] behaves for every [bits] as for
    [effective_bits bits]: the default 6 for a request of 0, the request
    clamped into [[1, 8]] otherwise; the number of levels is 2 to that
    power. *)
Theorem quantize_bitdepth_effective_bits {F : Type} `{FloatOps F}
    (image : Image.t F) (bits : Z) :
  (1 ≤ Bitdepth.effective_bits bits ≤ 8)%Z ∧
  Bitdepth.levels_of bits = (2 ^ Bitdepth.effective_bits bits)%Z ∧
  Bitdepth.quantize_bitdepth image bits
  = Bitdepth.quantize_bitdepth image (Bitdepth.effective_bits bits).
Proof.
  assert (Hs : Bitdepth.sanitize_bits bits = Bitdepth.effective_bits bits).
  { unfold Bitdepth.sanitize_bits, Bitdepth.effective_bits, Bitdepth.clamped_bits.
    destruct (Z.eqb_spec bits 0) as [->|Hne]; [reflexivity|].
    destruct (Z.ltb_spec bits 1).
    - simpl. lia.
    - rewrite Z.gtb_ltb. destruct (Z.ltb_spec 8 bits); lia. }
  pose proof (sanitize_bits_range bits) as Hr. rewrite Hs in Hr.
  split; [exact Hr|]. split.
  - unfold Bitdepth.levels_of. rewrite Hs, Z.shiftl_1_l. reflexivity.
  - unfold Bitdepth.quantize_bitdepth.
    case_bool_decide; [reflexivity|]. f_equal.
    apply quantize_in_place_sanitized.
    rewrite Hs. symmetry. apply sanitize_bits_in_range. exact Hr.
Qed.

(** ** Facts about the thread pool *)

Lemma wrap_overflow n :
  (size_modulus ≤ N.of_nat n < 2 * size_modulus)%N →
  N.of_nat (wrap n) = (N.of_nat n - size_modulus)%N.
Proof.
  unfold wrap, size_modulus. intros Hn. rewrite N2Nat.id.
  replace (N.of_nat n) with ((N.of_nat n - 2 ^ 64) + 1 * 2 ^ 64)%N at 1 by lia.
  rewrite N.Div0.mod_add. apply N.mod_small. lia.
Qed.

Lemma wsub_zero_one : N.of_nat (wsub 0 1) = (size_modulus - 1)%N.
Proof. unfold wsub. rewrite N2Nat.id. reflexivity. Qed.

Lemma chunk_loop_done fuel b e cs :
  ¬ b < e → ThreadPool.chunk_loop fuel b e cs = Some [].
Proof.
  intros Hbe. destruct fuel; simpl; destruct (decide (b < e)); tauto.
Qed.

(** The chunking loop, started on a multiple of the chunk size. *)
Lemma chunk_loop_chained cs e m :
  1 ≤ cs → e ≤ m * cs → fits (m * cs) →
  ∀ fuel k, k * cs ≤ e → e - k * cs ≤ fuel →
  ∃ chunks, ThreadPool.chunk_loop fuel (k * cs) e cs = Some chunks
            ∧ ThreadPool.chained (k * cs) e chunks.
Proof.
  intros Hcs Hm Hfits. induction fuel as [|fuel IH]; intros k Hk Hfuel.
  - exists []. split; [apply chunk_loop_done; lia|]. simpl. lia.
  - simpl. destruct (decide (k * cs < e)) as [Hlt|Hge]; cycle 1.
    { exists []. split; [reflexivity|]. simpl. lia. }
    assert (Hkm : k < m) by nia.
    assert (Hnext : wrap (k * cs + cs) = S k * cs).
    { rewrite wrap_fits; [lia|]. eapply fits_le; [|exact Hfits].
      replace (k * cs + cs) with (S k * cs) by lia.
      apply Nat.mul_le_mono_r. lia. }
    rewrite Hnext.
    destruct (decide (S k * cs ≤ e)) as [Hle|Hgt].
    + rewrite Nat.min_r by lia.
      destruct (IH (S k) Hle ltac:(lia)) as (rest & Hrest & Hchain).
      rewrite Hrest. simpl. eexists. split; [reflexivity|].
      simpl. repeat split; try lia. exact Hchain.
    + rewrite Nat.min_l by lia.
      rewrite chunk_loop_done by lia. simpl. eexists. split; [reflexivity|].
      simpl. repeat split; lia.
Qed.

(** Chained chunks enumerate the range once, in order. *)
Lemma chained_indices b e chunks :
  ThreadPool.chained b e chunks →
  concat (map ThreadPool.chunk_indices chunks) = seq b (e - b).
Proof.
  revert b. induction chunks as [|[cb ce] rest IH]; intros b Hch; simpl in *.
  - subst. rewrite Nat.sub_diag. reflexivity.
  - destruct Hch as (-> & Hlt & Hle & Hrest).
    rewrite (IH _ Hrest). unfold ThreadPool.chunk_indices. simpl.
    assert (Hce : ce ≤ e) by exact Hle.
    replace (e - b) with ((ce - b) + (e - ce)) by lia.
    rewrite seq_app. do 2 f_equal. lia.
Qed.

(** The chunk size of [parallel_for_impl], with the wrap-around of
    [total + target_chunks - 1] taken into account. *)
Lemma chunk_size_bounds total target :
  1 ≤ total → fits total → 8 ≤ target → fits target →
  let chunk_size := Nat.max 1 (wsub (wrap (total + target)) 1 / target) in
  1 ≤ chunk_size ∧
  ∃ m, total ≤ m * chunk_size ∧ fits (m * chunk_size).
Proof.
  intros Htot Hft Htar Hfg. unfold fits, size_modulus in *.
  set (raw := wsub (wrap (total + target)) 1).
  simpl. split; [lia|].
  destruct (N.lt_trichotomy (N.of_nat (total + target)) (2 ^ 64)) as [Hlt|[Heq|Hgt]].
  - (* no wrap-around *)
    assert (Hraw : raw = total + target - 1).
    { unfold raw. rewrite wrap_fits by exact Hlt. apply wsub_fits; [lia|exact Hlt]. }
    pose proof (Nat.div_mod_eq raw target) as Hdm.
    pose proof (Nat.mod_upper_bound raw target ltac:(lia)) as Hmod.
    assert (Hq : 1 ≤ raw / target).
    { apply Nat.div_le_lower_bound; lia. }
    rewrite Nat.max_r by exact Hq.
    exists target. split; [nia|]. unfold fits, size_modulus. nia.
  - (* [total + target] wraps to 0, and [0 - 1] to [2^64 - 1] *)
    assert (Hw : wrap (total + target) = 0).
    { unfold wrap, size_modulus. rewrite Heq. reflexivity. }
    assert (Hraw : N.of_nat raw = (2 ^ 64 - 1)%N).
    { unfold raw. rewrite Hw. exact wsub_zero_one. }
    pose proof (Nat.div_mod_eq raw target) as Hdm.
    pose proof (Nat.mod_upper_bound raw target ltac:(lia)) as Hmod.
    assert (Hq : 1 ≤ raw / target).
    { apply Nat.div_le_lower_bound; lia. }
    rewrite Nat.max_r by exact Hq.
    exists target. split; [nia|]. unfold fits, size_modulus. nia.
  - (* [total + target] wraps to a value below [target] *)
    assert (Hw : N.of_nat (wrap (total + target))
                 = (N.of_nat (total + target) - 2 ^ 64)%N).
    { apply wrap_overflow. unfold size_modulus. lia. }
    assert (Hraw : raw = wrap (total + target) - 1).
    { unfold raw. apply wsub_fits; [lia|]. unfold fits, size_modulus. lia. }
    assert (Hq : raw / target = 0).
    { apply Nat.div_small. lia. }
    rewrite Hq. rewrite Nat.max_l by lia.
    exists total. split; [lia|]. unfold fits, size_modulus. lia.
Qed.

(** What [parallel_for_impl] does on [[0, n)]. *)
Lemma parallel_for_impl_chained pool_size n :
  fits n → fits (Nat.max 1 pool_size * 4) →
  ∃ d, ThreadPool.parallel_for_impl pool_size 0 n = Some d
       ∧ ThreadPool.chained 0 n (ThreadPool.chunks_of d)
       ∧ (∀ cs, d = ThreadPool.Submit cs → 2 ≤ pool_size).
Proof.
  intros Hn Hpool. unfold ThreadPool.parallel_for_impl.
  destruct (decide (n ≤ 0)) as [Hz|Hpos].
  { exists ThreadPool.Skip. split; [reflexivity|]. split; [simpl; lia|]. discriminate. }
  rewrite Nat.sub_0_r.
  destruct (decide (Nat.max 1 pool_size ≤ 1 ∨ n ≤ Nat.max 1 pool_size)) as [Hin|Hsub].
  { exists (ThreadPool.Inline (0, n)). split; [reflexivity|].
    split; [simpl; lia|]. discriminate. }
  rewrite (wrap_fits (Nat.max 1 pool_size * 4)) by exact Hpool.
  destruct (chunk_size_bounds n (Nat.max 1 pool_size * 4)
              ltac:(lia) Hn ltac:(lia) Hpool) as (Hcs & m & Hm & Hfits).
  destruct (chunk_loop_chained _ n m Hcs Hm Hfits n 0 ltac:(lia) ltac:(lia))
    as (chunks & Hloop & Hchain).
  simpl in Hloop, Hchain. rewrite Hloop. simpl.
  exists (ThreadPool.Submit chunks). split; [reflexivity|].
  split; [exact Hchain|]. intros _ _. lia.
Qed.

(** The schedule used to embed the stages runs the body on [0 .. n-1] in
    order. *)
Lemma parallel_for_sequential {St : Type} pool_size n (fn : nat → St → St) s :
  fits n → fits (Nat.max 1 pool_size * 4) →
  ThreadPool.parallel_for pool_size 0 n fn s = Some (for_range 0 n fn s).
Proof.
  intros Hn Hpool. unfold ThreadPool.parallel_for.
  destruct (decide (n ≤ 0)) as [Hz|Hpos].
  { rewrite for_range_empty by lia. reflexivity. }
  destruct (parallel_for_impl_chained pool_size n Hn Hpool) as (d & Hd & Hch & _).
  rewrite Hd. simpl. f_equal.
  generalize (ThreadPool.chunks_of d) Hch. clear Hd Hch d.
  assert (Hgen : ∀ chunks b acc, ThreadPool.chained b n chunks →
    foldl (λ acc c, for_range c.1 c.2 fn acc) acc chunks = for_range b n fn acc).
  { induction chunks as [|[cb ce] rest IH]; intros b acc Hch; simpl in *.
    - subst. rewrite for_range_empty by lia. reflexivity.
    - destruct Hch as (-> & Hlt & Hle & Hrest).
      rewrite (IH _ _ Hrest). symmetry. apply for_range_split; lia. }
  intros chunks Hch. apply Hgen. exact Hch.
Qed.

(** *** Scheduling *)

Lemma concat_insert_perm {A} (qs : list (list A)) i q q' x :
  qs !! i = Some q → q ≡ₚ x :: q' →
  concat qs ≡ₚ x :: concat (<[i:=q']> qs).
Proof.
  revert i. induction qs as [|q0 rest IH]; intros [|i] Hi Hq; simpl in *;
    try discriminate.
  - injection Hi as ->. rewrite Hq. reflexivity.
  - rewrite (IH i Hi Hq). symmetry. apply Permutation_middle.
Qed.

Lemma concat_alter_perm {A} (qs : list (list A)) i (f : list A → list A) x :
  (∀ q, f q ≡ₚ x :: q) → i < length qs →
  concat (alter f i qs) ≡ₚ x :: concat qs.
Proof.
  intros Hf. revert i. induction qs as [|q0 rest IH]; intros [|i] Hi; simpl in *;
    try lia.
  - rewrite Hf. reflexivity.
  - rewrite (IH i ltac:(lia)). symmetry. apply Permutation_middle.
Qed.

Lemma concat_replicate_nil {A} n : concat (replicate n ([] : list A)) = [].
Proof. induction n; simpl; congruence. Qed.

Lemma try_pop_task_perm index qs task qs' :
  ThreadPool.try_pop_task index qs = Some (task, qs') →
  length qs' = length qs ∧ concat qs ≡ₚ task :: concat qs'.
Proof.
  unfold ThreadPool.try_pop_task.
  destruct (qs !! index) as [[|t rest]|] eqn:Hq; try discriminate.
  intros [= -> <-]. split; [apply length_insert|].
  eapply concat_insert_perm; [exact Hq|reflexivity].
Qed.

Lemma steal_from_perm targets qs task qs' :
  ThreadPool.steal_from targets qs = Some (task, qs') →
  length qs' = length qs ∧ concat qs ≡ₚ task :: concat qs'.
Proof.
  induction targets as [|target others IH]; simpl; [discriminate|].
  destruct (qs !! target) as [q|] eqn:Hq; [|exact IH].
  destruct (last q) as [t|] eqn:Hlast; [|exact IH].
  intros [= -> <-]. split; [apply length_insert|].
  apply last_Some in Hlast as [q' ->].
  rewrite removelast_last.
  eapply concat_insert_perm; [exact Hq|].
  symmetry. apply Permutation_cons_append.
Qed.

Lemma take_task_perm index qs task qs' :
  ThreadPool.take_task index qs = Some (task, qs') →
  length qs' = length qs ∧ concat qs ≡ₚ task :: concat qs'.
Proof.
  unfold ThreadPool.take_task.
  destruct (ThreadPool.try_pop_task index qs) as [r|] eqn:Hpop.
  - intros [= ->]. apply try_pop_task_perm in Hpop. exact Hpop.
  - apply steal_from_perm.
Qed.

(** A worker whose own deque is not empty takes a task. *)
Lemma take_task_own index qs task rest :
  qs !! index = Some (task :: rest) →
  ThreadPool.take_task index qs = Some (task, <[index := rest]> qs).
Proof.
  intros Hq. unfold ThreadPool.take_task, ThreadPool.try_pop_task.
  rewrite Hq. reflexivity.
Qed.

Lemma concat_nonempty_lookup {A} (qs : list (list A)) :
  concat qs ≠ [] → ∃ i x rest, qs !! i = Some (x :: rest).
Proof.
  induction qs as [|q qs IH]; simpl; [congruence|].
  destruct q as [|x rest].
  - intros Hne. destruct (IH Hne) as (i & x & rest & Hi).
    exists (S i), x, rest. exact Hi.
  - intros _. exists 0, x, rest. reflexivity.
Qed.

Lemma pool_inv_init n pool_size chunks :
  ThreadPool.chained 0 n chunks →
  ThreadPool.pool_inv (seq 0 n) pool_size
    (ThreadPool.mk_system chunks (ThreadPool.start_workers pool_size) []).
Proof.
  intros Hch. unfold ThreadPool.pool_inv, ThreadPool.outstanding, ThreadPool.held,
    ThreadPool.size. simpl.
  rewrite length_replicate, concat_replicate_nil. simpl.
  split; [reflexivity|]. split; [reflexivity|].
  rewrite (chained_indices 0 n chunks Hch), Nat.sub_0_r. reflexivity.
Qed.

Lemma pool_inv_step all pool_size s s' :
  1 ≤ pool_size →
  ThreadPool.pool_inv all pool_size s → ThreadPool.step s s' →
  ThreadPool.pool_inv all pool_size s'.
Proof.
  intros Hps (Hsize & Hpend & Hperm) Hstep.
  unfold ThreadPool.pool_inv, ThreadPool.outstanding, ThreadPool.held,
    ThreadPool.size in *.
  destruct Hstep as [task rest p vis Hq | task rest p vis Hq
                    | index task qs' td p vis Hidx Htake
                    | task before after td p vis Hrun]; simpl in *.
  - (* enqueue *)
    assert (Hi : ThreadPool.next_queue p `mod` Nat.max 1 (length (ThreadPool.queues p))
                 < length (ThreadPool.queues p)).
    { unfold ThreadPool.size. rewrite Nat.max_r by lia.
      apply Nat.mod_upper_bound. lia. }
    pose proof (concat_alter_perm (ThreadPool.queues p) _
                  (λ q, q ++ [task]) task
                  (λ q, Permutation_sym (Permutation_cons_append q task)) Hi) as Hc.
    unfold ThreadPool.size in Hc |- *.
    split; [rewrite length_alter; exact Hsize|]. split.
    + rewrite !length_app, Hc. rewrite Hpend, !length_app. simpl. lia.
    + rewrite <- Hperm. apply Permutation_app_head.
      rewrite !map_app, !concat_app. rewrite Hc. simpl.
      rewrite <- !(assoc_L (++)). apply Permutation_app_head.
      rewrite !(assoc_L (++)). apply Permutation_app_tail.
      apply Permutation_app_comm.
  - (* a pool without deques: excluded by the invariant *)
    rewrite Hq in Hsize. simpl in Hsize. lia.
  - (* take *)
    destruct (take_task_perm _ _ _ _ Htake) as [Hlen Hc].
    split; [congruence|]. split.
    + rewrite Hpend, !length_app, Hc. simpl. lia.
    + rewrite <- Hperm. apply Permutation_app_head.
      rewrite !map_app, !concat_app. rewrite Hc. simpl.
      rewrite <- !(assoc_L (++)).
      rewrite (Permutation_app_swap_app (ThreadPool.chunk_indices task)).
      reflexivity.
  - (* complete *)
    rewrite Hrun in *. split; [exact Hsize|]. split.
    + rewrite Hpend, !length_app. simpl. lia.
    + rewrite <- Hperm. rewrite <- (assoc_L (++)). apply Permutation_app_head.
      rewrite !map_app, !concat_app. simpl.
      rewrite <- !(assoc_L (++)).
      rewrite (Permutation_app_swap_app (ThreadPool.chunk_indices task)).
      reflexivity.
Qed.

Lemma pool_inv_reachable all pool_size s s' :
  1 ≤ pool_size →
  ThreadPool.pool_inv all pool_size s → rtc ThreadPool.step s s' →
  ThreadPool.pool_inv all pool_size s'.
Proof.
  intros Hps Hinv Hrtc. induction Hrtc as [|s1 s2 s3 Hstep _ IH]; [exact Hinv|].
  apply IH. eapply pool_inv_step; eauto.
Qed.

(** When [wait()] may return, every index has been visited. *)
Lemma pool_inv_wait_returns all pool_size s :
  ThreadPool.pool_inv all pool_size s → ThreadPool.wait_returns s →
  ThreadPool.visited s ≡ₚ all.
Proof.
  intros (_ & Hpend & Hperm) [Htodo Hzero].
  unfold ThreadPool.outstanding in Hperm.
  rewrite Hzero in Hpend. symmetry in Hpend. apply nil_length_inv in Hpend.
  rewrite Hpend, Htodo in Hperm. simpl in Hperm.
  rewrite app_nil_r in Hperm. exact Hperm.
Qed.

(** Every step lowers [work_left]. *)
Lemma step_work_left all pool_size s s' :
  1 ≤ pool_size →
  ThreadPool.pool_inv all pool_size s → ThreadPool.step s s' →
  ThreadPool.work_left s' < ThreadPool.work_left s.
Proof.
  intros Hps (Hsize & _ & _) Hstep. unfold ThreadPool.work_left, ThreadPool.size in *.
  destruct Hstep as [task rest p vis Hq | task rest p vis Hq
                    | index task qs' td p vis Hidx Htake
                    | task before after td p vis Hrun]; simpl in *.
  - assert (Hi : ThreadPool.next_queue p `mod` Nat.max 1 (length (ThreadPool.queues p))
                 < length (ThreadPool.queues p)).
    { rewrite Nat.max_r by lia. apply Nat.mod_upper_bound. lia. }
    pose proof (concat_alter_perm (ThreadPool.queues p) _
                  (λ q, q ++ [task]) task
                  (λ q, Permutation_sym (Permutation_cons_append q task)) Hi) as Hc.
    unfold ThreadPool.size. rewrite Hc. simpl. lia.
  - lia.
  - destruct (take_task_perm _ _ _ _ Htake) as [_ Hc]. rewrite Hc. simpl. lia.
  - rewrite Hrun, !length_app. simpl. lia.
Qed.

(** A state in which [wait()] may not return yet can take a step. *)
Lemma pool_progress all pool_size s :
  1 ≤ pool_size →
  ThreadPool.pool_inv all pool_size s →
  ThreadPool.wait_returns s ∨ ∃ s', ThreadPool.step s s'.
Proof.
  intros Hps (Hsize & Hpend & _).
  destruct s as [td p vis]. unfold ThreadPool.wait_returns, ThreadPool.held,
    ThreadPool.size in *. simpl in *.
  destruct td as [|task rest].
  - destruct (ThreadPool.running p) as [|t r] eqn:Hrun.
    + destruct (decide (concat (ThreadPool.queues p) = [])) as [Hnil|Hne].
      * left. rewrite Hnil in Hpend. simpl in Hpend. tauto.
      * right. destruct (concat_nonempty_lookup _ Hne) as (i & x & rest & Hi).
        eexists. eapply (ThreadPool.step_take i x).
        -- unfold ThreadPool.size. eapply lookup_lt_Some. exact Hi.
        -- apply take_task_own. exact Hi.
    + right. eexists. apply (ThreadPool.step_complete t [] r). exact Hrun.
  - right. eexists. apply ThreadPool.step_enqueue.
    intros Hq. rewrite Hq in Hsize. simpl in Hsize. lia.
Qed.

(** From every reachable state the call can run to the point where
    [wait()] returns. *)
Lemma pool_can_complete all pool_size :
  1 ≤ pool_size →
  ∀ k s, ThreadPool.work_left s ≤ k → ThreadPool.pool_inv all pool_size s →
  ∃ final, rtc ThreadPool.step s final ∧ ThreadPool.wait_returns final.
Proof.
  intros Hps. induction k as [|k IH]; intros s Hk Hinv.
  - destruct (pool_progress all pool_size s Hps Hinv) as [Hret|[s' Hstep]].
    + exists s. split; [reflexivity|exact Hret].
    + pose proof (step_work_left all pool_size s s' Hps Hinv Hstep). lia.
  - destruct (pool_progress all pool_size s Hps Hinv) as [Hret|[s' Hstep]].
    + exists s. split; [reflexivity|exact Hret].
    + pose proof (step_work_left all pool_size s s' Hps Hinv Hstep) as Hlt.
      destruct (IH s' ltac:(lia) (pool_inv_step all pool_size s s' Hps Hinv Hstep))
        as (final & Hrtc & Hret).
      exists final. split; [|exact Hret]. eapply rtc_l; eauto.
Qed.

(** C9. For a range [[0, n)] and a pool of any size, the chunks that
    [parallel_for_impl] generates follow one another from 0 to [n] (they
    are contiguous, non-empty, pairwise disjoint and cover the range), a
    call can always run to completion, and whenever the call returns --
    inline, or after [wait()] has seen [pending_tasks_ == 0] -- the body has
    been run exactly once on every index of [[0, n)] and on nothing else. *)
Theorem parallel_for_visits_each_index_once (pool_size n : nat) :
  fits n → fits (Nat.max 1 pool_size * 4) →
  ∃ d, ThreadPool.parallel_for_impl pool_size 0 n = Some d
       ∧ ThreadPool.chained 0 n (ThreadPool.chunks_of d)
       ∧ concat (map ThreadPool.chunk_indices (ThreadPool.chunks_of d)) = seq 0 n
       ∧ (∃ vis, ThreadPool.completes pool_size d vis)
       ∧ (∀ vis, ThreadPool.completes pool_size d vis → vis ≡ₚ seq 0 n).
Proof.
  intros Hn Hpool.
  destruct (parallel_for_impl_chained pool_size n Hn Hpool) as (d & Hd & Hch & Hsub).
  exists d. split; [exact Hd|]. split; [exact Hch|].
  pose proof (chained_indices 0 n _ Hch) as Hidx. rewrite Nat.sub_0_r in Hidx.
  split; [exact Hidx|].
  destruct d as [|c|chunks]; simpl in *.
  - split; [exists []; reflexivity|]. intros vis ->. rewrite <- Hidx. reflexivity.
  - rewrite app_nil_r in Hidx. split; [eexists; reflexivity|].
    intros vis ->. rewrite Hidx. reflexivity.
  - assert (Hps : 1 ≤ pool_size) by (specialize (Hsub chunks eq_refl); lia).
    pose proof (pool_inv_init n pool_size chunks Hch) as Hinit.
    split.
    + destruct (pool_can_complete (seq 0 n) pool_size Hps _ _ (Nat.le_refl _) Hinit)
        as (final & Hrtc & Hret).
      exists (ThreadPool.visited final), final. auto.
    + intros vis (final & Hrtc & Hret & ->).
      eapply pool_inv_wait_returns; [|exact Hret].
      eapply pool_inv_reachable; eauto.
Qed.

Lemma parallel_for_visits_each_index_once_witness :
  ∃ d, ThreadPool.parallel_for_impl 4 0 100 = Some d
       ∧ ThreadPool.chained 0 100 (ThreadPool.chunks_of d)
       ∧ concat (map ThreadPool.chunk_indices (ThreadPool.chunks_of d)) = seq 0 100
       ∧ (∃ vis, ThreadPool.completes 4 d vis)
       ∧ (∀ vis, ThreadPool.completes 4 d vis → vis ≡ₚ seq 0 100).
Proof.
  apply (parallel_for_visits_each_index_once 4 100);
    unfold fits, size_modulus; simpl; lia.
Defined.

(** Four workers and 100 indices: 16 target chunks, chunk size 7. *)
Example parallel_for_impl_4_100 :
  ThreadPool.parallel_for_impl 4 0 100
  = Some (ThreadPool.Submit
      [(0, 7); (7, 14); (14, 21); (21, 28); (28, 35); (35, 42); (42, 49);
       (49, 56); (56, 63); (63, 70); (70, 77); (77, 84); (84, 91); (91, 98);
       (98, 100)]).
Proof. vm_compute. reflexivity. Qed.

(** One worker, or a range no larger than the worker count: inline. *)
Example parallel_for_impl_inline :
  ThreadPool.parallel_for_impl 1 0 100 = Some (ThreadPool.Inline (0, 100))
  ∧ ThreadPool.parallel_for_impl 8 0 8 = Some (ThreadPool.Inline (0, 8))
  ∧ ThreadPool.parallel_for_impl 8 0 0 = Some ThreadPool.Skip.
Proof. vm_compute. auto. Qed.

(** ** Facts about format conversion and the orchestrator's failure paths *)

Section FailurePaths.
Context {F : Type} `{FloatOps F} `{TrigOps F}.
Variable pool_size : nat.
Variable kQuantTableQ50 : list Z.

(** [convert_image] stores into the destination only on the paths on
    which it returns [true]. *)
Lemma convert_image_false (src dst : CpuImage.t F) d :
  PixelOps.convert_image src dst = (false, d) → d = CpuImage.data dst.
Proof.
  unfold PixelOps.convert_image.
  repeat match goal with
  | |- context [if ?b then _ else _] => destruct b
  | |- context [match CpuImage.type ?i with _ => _ end] => destruct (CpuImage.type i)
  end; intros [= <-]; reflexivity.
Qed.

Lemma from_float_image_false (src : Image.t F) (dst : CpuImage.t F) d :
  Sanitize.from_float_image src dst = (false, d) → d = CpuImage.data dst.
Proof.
  unfold Sanitize.from_float_image.
  repeat case_bool_decide; try (intros [= <-]; reflexivity).
  apply convert_image_false.
Qed.

Lemma sanitize_false_unmodified_gen (input output : CpuImage.t F) d :
  Sanitize.sanitize pool_size kQuantTableQ50 input output = Some (false, d) →
  d = CpuImage.data output.
Proof.
  unfold Sanitize.sanitize.
  destruct (Sanitize.sanitize_stages pool_size kQuantTableQ50 input output)
    as [[st|]|]; simpl; try discriminate.
  - destruct (Sanitize.from_float_image (Sanitize.final_image st) output)
      as [[|] out] eqn:Hconv; simpl; intros [= <-].
    eapply from_float_image_false. exact Hconv.
  - intros [= <-]. reflexivity.
Qed.

Lemma sanitize_stages_unsupported (input output : CpuImage.t F) :
  Sanitize.supported_type (CpuImage.type input) = false ∨
  Sanitize.supported_type (CpuImage.type output) = false →
  Sanitize.sanitize_stages pool_size kQuantTableQ50 input output = Some None.
Proof.
  intros Hty. unfold Sanitize.sanitize_stages.
  destruct (negb (PixelOps.validate_image input) || negb (PixelOps.validate_image output));
    [reflexivity|].
  destruct Hty as [-> | ->]; simpl; [reflexivity|].
  rewrite orb_true_r. reflexivity.
Qed.

End FailurePaths.

(** C2. Whenever [sanitize(input, output)] returns [false] -- at
    validation or at any stage -- the memory behind [output.data] is what it
    was before the call. *)
Theorem sanitize_false_leaves_output_unmodified {F : Type} `{FloatOps F} `{TrigOps F}
    (pool_size : nat) (kQuantTableQ50 : list Z) (input output : CpuImage.t F)
    (d : option (Storage F)) :
  Sanitize.sanitize pool_size kQuantTableQ50 input output = Some (false, d) →
  d = CpuImage.data output.
Proof. apply sanitize_false_unmodified_gen. Qed.

(** A 3x2 image: the odd width makes [sanitize] return [false]. *)
Lemma sanitize_false_leaves_output_unmodified_witness :
  Some (Bytes (replicate 18 7%Z))
  = CpuImage.data (CpuImage.mk (F:=R) U8_RGB 3 2 9 (Some (Bytes (replicate 18 7%Z)))).
Proof.
  apply (sanitize_false_leaves_output_unmodified 4 (replicate 64 16%Z)
           (CpuImage.mk U8_RGB 3 2 9 (Some (Bytes (replicate 18 1%Z))))
           (CpuImage.mk U8_RGB 3 2 9 (Some (Bytes (replicate 18 7%Z))))).
  vm_compute. reflexivity.
Defined.

(** C10. [sanitize] returns [false] (and stores nothing) as soon as one of
    the two buffers is 8-bit RGBA, a format that [sr_lite_refine] accepts. *)
Theorem sanitize_rejects_rgba {F : Type} `{FloatOps F} `{TrigOps F}
    (pool_size : nat) (kQuantTableQ50 : list Z) (input output : CpuImage.t F) :
  CpuImage.type input = U8_RGBA ∨ CpuImage.type output = U8_RGBA →
  Sanitize.sanitize pool_size kQuantTableQ50 input output
  = Some (false, CpuImage.data output)
  ∧ SrLite.supports_type U8_RGBA = true
  ∧ Sanitize.supported_type U8_RGBA = false.
Proof.
  intros Hty. split; [|split; reflexivity].
  unfold Sanitize.sanitize.
  rewrite sanitize_stages_unsupported; [reflexivity|].
  destruct Hty as [-> | ->]; [left|right]; reflexivity.
Qed.

Lemma sanitize_rejects_rgba_witness :
  Sanitize.sanitize 4 (replicate 64 16%Z)
    (CpuImage.mk (F:=R) U8_RGBA 2 2 8 (Some (Bytes (replicate 16 1%Z))))
    (CpuImage.mk U8_RGB 2 2 6 (Some (Bytes (replicate 12 7%Z))))
  = Some (false, CpuImage.data
                   (CpuImage.mk (F:=R) U8_RGB 2 2 6 (Some (Bytes (replicate 12 7%Z)))))
  ∧ SrLite.supports_type U8_RGBA = true
  ∧ Sanitize.supported_type U8_RGBA = false.
Proof.
  apply (sanitize_rejects_rgba 4 (replicate 64 16%Z)).
  left. reflexivity.
Defined.

(** ** Facts about the cubic resampler, under exact real arithmetic *)

Lemma mirror_period length :
  2 ≤ length → fits (length * 2) →
  Z.of_nat (wsub (wrap (length * 2)) 2) = (2 * Z.of_nat length - 2)%Z.
Proof.
  intros Hl Hf. rewrite wrap_fits by exact Hf.
  rewrite wsub_fits by (try exact Hf; lia). lia.
Qed.

Lemma mirror_index_lt idx length :
  0 < length → fits (length * 2) → Resample.mirror_index idx length < length.
Proof.
  intros Hl Hf. unfold Resample.mirror_index.
  rewrite bool_decide_eq_false_2 by lia.
  case_bool_decide; [lia|].
  rewrite mirror_period by (try exact Hf; lia).
  set (period := (2 * Z.of_nat length - 2)%Z).
  assert (Hp : (0 < period)%Z) by (unfold period; lia).
  destruct (Z.eqb_spec period 0); [lia|].
  assert (Hrem : (- period < Z.rem idx period < period)%Z).
  { destruct (Z_le_gt_dec 0 idx).
    - pose proof (Z.rem_bound_pos idx period ltac:(lia) Hp). lia.
    - pose proof (Z.rem_bound_pos_neg idx period Hp ltac:(lia)). lia. }
  destruct (Z.ltb_spec (Z.rem idx period) 0);
    match goal with
    | |- context [(?a >=? ?b)%Z] => rewrite (Z.geb_leb a b); destruct (Z.leb_spec b a)
    end; unfold period in *; lia.
Qed.

Lemma mirror_index_id idx length :
  fits (length * 2) → (0 ≤ idx < Z.of_nat length)%Z →
  Resample.mirror_index idx length = Z.to_nat idx.
Proof.
  intros Hf Hidx. unfold Resample.mirror_index.
  rewrite bool_decide_eq_false_2 by lia.
  case_bool_decide; [lia|].
  rewrite mirror_period by (try exact Hf; lia).
  set (period := (2 * Z.of_nat length - 2)%Z).
  assert (Hp : (0 < period)%Z) by (unfold period; lia).
  destruct (Z.eqb_spec period 0); [lia|].
  rewrite Z.rem_small by (unfold period; lia).
  destruct (Z.ltb_spec idx 0); [lia|].
  rewrite Z.geb_leb. destruct (Z.leb_spec (Z.of_nat length) idx); [lia|reflexivity].
Qed.

Lemma sum_weights_snoc ws w : sum_weights (ws ++ [w]) = (sum_weights ws + w)%R.
Proof.
  unfold sum_weights. induction ws as [|a ws IH]; simpl; [lra|]. rewrite IH. lra.
Qed.

Lemma sum_weights_scale ws c :
  sum_weights (map (λ w, w * c)%R ws) = (sum_weights ws * c)%R.
Proof.
  unfold sum_weights. induction ws as [|a ws IH]; simpl; [lra|]. rewrite IH. lra.
Qed.

Lemma taps_inv_empty src_size : taps_inv src_size (CubicPhase.empty, 0%R).
Proof. repeat split. constructor. Qed.

Lemma taps_inv_push src_size phase weight_sum i w :
  taps_inv src_size (phase, weight_sum) → i < src_size →
  taps_inv src_size (CubicPhase.push phase i w, (weight_sum + w)%R).
Proof.
  intros (Hlen & Hidx & Hsum) Hi. unfold taps_inv in *. simpl in *.
  rewrite !length_app, Hlen. split; [reflexivity|]. split.
  - apply Forall_app. split; [exact Hidx|]. constructor; [exact Hi|constructor].
  - rewrite sum_weights_snoc, Hsum. reflexivity.
Qed.

(** Normalizing, or falling back to one unit tap, yields a well-formed
    entry. *)
Lemma finish_phase_ok src_size position phase weight_sum :
  0 < src_size → fits (src_size * 2) →
  taps_inv src_size (phase, weight_sum) →
  phase_ok src_size (Resample.finish_phase src_size position phase weight_sum).
Proof.
  intros Hsrc Hf (Hlen & Hidx & Hsum). simpl in *.
  unfold Resample.finish_phase, fneb. simpl. rewrite RMicromega.Q2R_0, RMicromega.Q2R_1.
  destruct (Req_dec_T weight_sum 0) as [Hz|Hnz].
  - rewrite R_eqb_true by exact Hz. simpl. unfold phase_ok. simpl.
    rewrite !length_app, Hlen. split; [reflexivity|]. split.
    { intros Hnil. apply app_eq_nil in Hnil as [_ Hnil]. discriminate. }
    split.
    + apply Forall_app. split; [exact Hidx|].
      constructor; [|constructor]. apply mirror_index_lt; assumption.
    + rewrite sum_weights_snoc, <- Hsum, Hz. lra.
  - rewrite R_eqb_false by exact Hnz. simpl. unfold phase_ok. simpl.
    rewrite length_map. split; [exact Hlen|]. split.
    { intros Hnil. apply map_eq_nil in Hnil. rewrite Hnil in Hsum.
      unfold sum_weights in Hsum. simpl in Hsum. contradiction. }
    split; [exact Hidx|].
    rewrite sum_weights_scale, <- Hsum. field. exact Hnz.
Qed.

(** The fallback on an empty tap list: a single tap of weight one. *)
Lemma finish_phase_fallback src_size position :
  Resample.finish_phase (F:=R) src_size position CubicPhase.empty 0%R
  = CubicPhase.mk [Resample.mirror_index (R_round_away position) src_size] [1%R].
Proof.
  unfold Resample.finish_phase, fneb. simpl. rewrite RMicromega.Q2R_0, RMicromega.Q2R_1.
  rewrite R_eqb_true by reflexivity. reflexivity.
Qed.

Lemma R_trunc_IZR z : R_trunc (IZR z) = z.
Proof.
  unfold R_trunc. destruct (Rle_dec 0 (IZR z)).
  - apply ZfloorZ.
  - unfold Zceil. rewrite <- opp_IZR, ZfloorZ. lia.
Qed.

(** The coverage loop of the downscale branch ends within its fuel. *)
Lemma coverage_loop_total src_size scale end_ :
  0 < src_size → fits (src_size * 2) →
  ∀ fuel current idx phase weight_sum,
    (Rmin end_ (IZR idx) <= current)%R →
    (end_ - IZR idx < INR fuel)%R →
    taps_inv src_size (phase, weight_sum) →
    ∃ phase' weight_sum',
      Resample.coverage_loop fuel src_size scale end_ current idx phase weight_sum
      = Some (phase', weight_sum')
      ∧ taps_inv src_size (phase', weight_sum').
Proof.
  intros Hsrc Hf. induction fuel as [|fuel IH];
    intros current idx phase weight_sum Hcur Hfuel Hinv.
  - simpl in Hfuel. assert (Hend : (end_ <= current)%R).
    { unfold Rmin in Hcur. destruct (Rle_dec end_ (IZR idx)); lra. }
    simpl. rewrite R_ltb_false by exact Hend. eauto.
  - cbn [Resample.coverage_loop]. cbn [fltb R_float].
    destruct (Rlt_dec current end_) as [Hlt|Hge]; cycle 1.
    { rewrite R_ltb_false by lra. eauto. }
    rewrite R_ltb_true by exact Hlt.
    set (next := fmin end_ (f_of_Z (idx + 1)%Z)).
    assert (Hnext : next = Rmin end_ (IZR (idx + 1))).
    { unfold next, fmin. cbn [fltb f_of_Z R_float]. unfold Rmin.
      destruct (Rle_dec end_ (IZR (idx + 1))).
      - rewrite R_ltb_false by lra. reflexivity.
      - rewrite R_ltb_true by lra. reflexivity. }
    rewrite S_INR in Hfuel. rewrite plus_IZR in Hnext.
    match goal with
    | |- context [if ?c then ?a else ?b] =>
        assert (Hst : taps_inv src_size (if c then a else b))
    end.
    { destruct (fgtb _ _).
      - apply taps_inv_push; [exact Hinv|]. apply mirror_index_lt; assumption.
      - exact Hinv. }
    destruct (if fgtb _ _ then _ else _) as [phase1 sum1].
    apply IH; [| |exact Hst].
    + rewrite Hnext, plus_IZR. lra.
    + rewrite plus_IZR. lra.
Qed.

(** The four-tap loop of the upscale branch. *)
Lemma upscale_taps_inv src_size src_pos base :
  0 < src_size → fits (src_size * 2) →
  taps_inv src_size (Resample.upscale_taps src_size src_pos base).
Proof.
  intros Hsrc Hf. unfold Resample.upscale_taps.
  apply (for_range_ind (λ _ st, taps_inv src_size st)); [lia| |].
  - cbv beta. cbn [f_lit R_float]. rewrite RMicromega.Q2R_0. apply taps_inv_empty.
  - intros tap [phase weight_sum] _ Hinv.
    destruct (feqb _ _); [exact Hinv|].
    apply taps_inv_push; [exact Hinv|]. apply mirror_index_lt; assumption.
Qed.

Lemma phase_for_ok src_size dst_size i :
  0 < src_size → 0 < dst_size → fits (src_size * 2) →
  ∃ phase, Resample.phase_for src_size dst_size i = Some phase
           ∧ phase_ok src_size phase.
Proof.
  intros Hsrc Hdst Hf. unfold Resample.phase_for.
  destruct (fltb _ _) eqn:Hdown.
  - set (inv_scale := fdiv (f_of_Z (Z.of_nat src_size)) (f_of_Z (Z.of_nat dst_size))).
    set (start := fmul (f_of_Z (Z.of_nat i)) inv_scale).
    assert (Hinv : (0 < inv_scale <= INR src_size)%R).
    { unfold inv_scale. cbn [fdiv f_of_Z R_float]. rewrite <- !INR_IZR_INZ.
      assert (Hs : (1 <= INR src_size)%R) by (apply (le_INR 1); lia).
      assert (Hd : (1 <= INR dst_size)%R) by (apply (le_INR 1); lia).
      split.
      - apply Rdiv_lt_0_compat; lra.
      - apply (Rmult_le_reg_r (INR dst_size)); [lra|].
        unfold Rdiv. rewrite Rmult_assoc, Rinv_l by lra. nra. }
    destruct (coverage_loop_total src_size
                (fdiv (f_of_Z (Z.of_nat dst_size)) (f_of_Z (Z.of_nat src_size)))
                (fadd start inv_scale) Hsrc Hf (src_size + 2) start
                (f_trunc (f_floor start)) CubicPhase.empty (f_lit 0))
      as (phase & weight_sum & Hloop & Hinv').
    + cbn [f_trunc f_floor R_float]. rewrite R_trunc_IZR.
      pose proof (Zfloor_bound start) as Hb.
      pose proof (Rmin_r (fadd start inv_scale) (IZR (Zfloor start))). lra.
    + cbn [f_trunc f_floor fadd R_float]. rewrite R_trunc_IZR.
      pose proof (Zfloor_bound start) as Hb.
      rewrite plus_INR. simpl. lra.
    + cbn [f_lit R_float]. rewrite RMicromega.Q2R_0. apply taps_inv_empty.
    + rewrite Hloop. simpl. eexists. split; [reflexivity|].
      apply finish_phase_ok; assumption.
  - pose proof (upscale_taps_inv src_size
      (fsub (fmul (fadd (f_of_Z (Z.of_nat i)) (f_lit 0.5))
                  (fdiv (f_of_Z (Z.of_nat src_size)) (f_of_Z (Z.of_nat dst_size))))
            (f_lit 0.5))
      (f_trunc (f_floor
         (fsub (fmul (fadd (f_of_Z (Z.of_nat i)) (f_lit 0.5))
                     (fdiv (f_of_Z (Z.of_nat src_size)) (f_of_Z (Z.of_nat dst_size))))
               (f_lit 0.5))) - 1)%Z Hsrc Hf) as Hinv.
    destruct (Resample.upscale_taps _ _ _) as [phase weight_sum].
    eexists. split; [reflexivity|]. apply finish_phase_ok; assumption.
Qed.

(** C7. For non-empty source and destination, [build_cubic_weight_table]
    returns one entry per destination index; every entry has valid source
    indices, at least one tap, and weights that sum to one; and the
    degenerate fallback on an empty tap list is a single tap of weight
    one. *)
Theorem build_cubic_weight_table_normalized (src_size dst_size : nat) :
  0 < src_size → 0 < dst_size → fits (src_size * 2) →
  (∃ table, Resample.build_cubic_weight_table src_size dst_size = Some table
            ∧ length table = dst_size
            ∧ Forall (phase_ok src_size) table)
  ∧ (∀ position,
       Resample.finish_phase (F:=R) src_size position CubicPhase.empty 0%R
       = CubicPhase.mk [Resample.mirror_index (R_round_away position) src_size] [1%R]
       ∧ Resample.mirror_index (R_round_away position) src_size < src_size).
Proof.
  intros Hsrc Hdst Hf. split.
  - unfold Resample.build_cubic_weight_table.
    rewrite bool_decide_eq_false_2 by lia.
    assert (Hall : Forall (is_Some ∘ Resample.phase_for src_size dst_size) (seq 0 dst_size)).
    { apply Forall_forall. intros i _.
      destruct (phase_for_ok src_size dst_size i Hsrc Hdst Hf) as (p & Hp & _).
      simpl. rewrite Hp. eauto. }
    apply mapM_is_Some_2 in Hall. destruct Hall as [table Htable].
    exists table. split; [exact Htable|]. split.
    + apply length_mapM in Htable. rewrite length_seq in Htable. lia.
    + apply mapM_Some_1 in Htable.
      induction Htable as [|i p l k Hp _ IH]; constructor; [|exact IH].
      destruct (phase_for_ok src_size dst_size i Hsrc Hdst Hf) as (p' & Hp' & Hok).
      rewrite Hp in Hp'. injection Hp' as ->. exact Hok.
  - intros position. split; [apply finish_phase_fallback|].
    apply mirror_index_lt; assumption.
Qed.

Lemma build_cubic_weight_table_normalized_witness :
  (∃ table, Resample.build_cubic_weight_table 8 2 = Some table
            ∧ length table = 2
            ∧ Forall (phase_ok 8) table)
  ∧ (∀ position,
       Resample.finish_phase (F:=R) 8 position CubicPhase.empty 0%R
       = CubicPhase.mk [Resample.mirror_index (R_round_away position) 8] [1%R]
       ∧ Resample.mirror_index (R_round_away position) 8 < 8).
Proof.
  apply (build_cubic_weight_table_normalized 8 2).
  - lia.
  - lia.
  - unfold fits, size_modulus. simpl. lia.
Defined.

(** The same table under rational arithmetic: two box-filter entries
    (weights shown in lowest terms). *)
Example build_cubic_weight_table_8_2 :
  fmap (M:=list) (λ p, (CubicPhase.indices p, map Qred (CubicPhase.weights p)))
    <$> Resample.build_cubic_weight_table (F:=Q) 8 2
  = Some [([0; 1; 2; 3], [(1 # 4)%Q; (1 # 4)%Q; (1 # 4)%Q; (1 # 4)%Q]);
          ([4; 5; 6; 7], [(1 # 4)%Q; (1 # 4)%Q; (1 # 4)%Q; (1 # 4)%Q])].
Proof. vm_compute. reflexivity. Qed.

(** *** Resizing to the same size *)

Lemma cubic_kernel_0 : Resample.cubic_kernel (F:=R) 0%R = 1%R.
Proof.
  unfold Resample.cubic_kernel, Resample.kCubicParameter. cbn [fabs fmul fadd fsub fltb f_lit R_float].
  rewrite Rabs_R0.
  rewrite R_ltb_true by (unfold Q2R; simpl; lra).
  unfold Q2R; simpl. lra.
Qed.
Lemma cubic_kernel_1 : Resample.cubic_kernel (F:=R) 1%R = 0%R.
Proof.
  unfold Resample.cubic_kernel, Resample.kCubicParameter. cbn [fabs fmul fadd fsub fltb f_lit R_float].
  rewrite Rabs_R1.
  rewrite R_ltb_false by (unfold Q2R; simpl; lra).
  rewrite R_ltb_true by (unfold Q2R; simpl; lra).
  unfold Q2R; simpl. lra.
Qed.
Lemma cubic_kernel_m1 : Resample.cubic_kernel (F:=R) (-1)%R = 0%R.
Proof.
  unfold Resample.cubic_kernel, Resample.kCubicParameter. cbn [fabs fmul fadd fsub fltb f_lit R_float].
  rewrite (Rabs_left (-1)) by lra.
  rewrite R_ltb_false by (unfold Q2R; simpl; lra).
  rewrite R_ltb_true by (unfold Q2R; simpl; lra).
  unfold Q2R; simpl. lra.
Qed.
Lemma cubic_kernel_m2 : Resample.cubic_kernel (F:=R) (-2)%R = 0%R.
Proof.
  unfold Resample.cubic_kernel, Resample.kCubicParameter. cbn [fabs fmul fadd fsub fltb f_lit R_float].
  rewrite (Rabs_left (-2)) by lra.
  rewrite R_ltb_false by (unfold Q2R; simpl; lra).
  rewrite R_ltb_false by (unfold Q2R; simpl; lra).
  apply RMicromega.Q2R_0.
Qed.

Lemma tap_distance (i : Z) (tap : nat) :
  (IZR i - IZR (i - 1 + Z.of_nat tap))%R = (1 - INR tap)%R.
Proof. rewrite plus_IZR, minus_IZR, <- INR_IZR_INZ. lra. Qed.

Lemma upscale_taps_unit n i :
  i < n → fits (n * 2) →
  Resample.upscale_taps (F:=R) n (IZR (Z.of_nat i)) (Z.of_nat i - 1)
  = (CubicPhase.mk [i] [1%R], 1%R).
Proof.
  intros Hi Hf. unfold Resample.upscale_taps, for_range. simpl seq. cbn [foldl].
  cbn [fsub f_of_Z f_lit feqb fadd R_float].
  rewrite !tap_distance. simpl INR.
  replace (1 - 0)%R with 1%R by lra.
  replace (1 - 1)%R with 0%R by lra.
  replace (1 - (1 + 1))%R with (-1)%R by lra.
  replace (1 - (1 + 1 + 1))%R with (-2)%R by lra.
  rewrite cubic_kernel_0, cubic_kernel_1, cubic_kernel_m1, cubic_kernel_m2.
  rewrite RMicromega.Q2R_0.
  rewrite (R_eqb_true 0 0) by reflexivity.
  rewrite (R_eqb_false 1 0) by lra.
  unfold CubicPhase.push, CubicPhase.empty; simpl.
  rewrite mirror_index_id by (try assumption; lia).
  replace (Z.to_nat (Z.of_nat i - 1 + Z.of_nat 1)) with i by lia.
  f_equal. lra.
Qed.

Lemma phase_for_identity n i :
  i < n → fits (n * 2) →
  Resample.phase_for (F:=R) n n i = Some (CubicPhase.mk [i] [1%R]).
Proof.
  intros Hi Hf. unfold Resample.phase_for.
  cbn [fdiv fsub fmul fadd f_of_Z f_lit fltb f_trunc f_floor R_float].
  assert (Hn : (IZR (Z.of_nat n) <> 0)%R).
  { apply not_0_IZR. lia. }
  assert (Hscale : (IZR (Z.of_nat n) / IZR (Z.of_nat n))%R = 1%R) by (field; exact Hn).
  rewrite Hscale, RMicromega.Q2R_1.
  rewrite R_ltb_false by lra.
  rewrite Q2R_half.
  replace ((IZR (Z.of_nat i) + / 2) * 1 - / 2)%R with (IZR (Z.of_nat i)) by lra.
  rewrite ZfloorZ, R_trunc_IZR.
  rewrite upscale_taps_unit by assumption.
  f_equal. unfold Resample.finish_phase, fneb.
  cbn [feqb f_lit fdiv fmul R_float]. rewrite RMicromega.Q2R_0, RMicromega.Q2R_1.
  rewrite R_eqb_false by lra. simpl. do 2 f_equal. field.
Qed.

Lemma build_cubic_weight_table_identity n :
  0 < n → fits (n * 2) →
  Resample.build_cubic_weight_table (F:=R) n n
  = Some (map (λ i, CubicPhase.mk [i] [1%R]) (seq 0 n)).
Proof.
  intros Hn Hf. unfold Resample.build_cubic_weight_table.
  rewrite bool_decide_eq_false_2 by lia.
  apply mapM_Some_2. apply Forall2_fmap_r, Forall_Forall2_diag, Forall_forall.
  intros i Hi. apply elem_of_seq in Hi. apply phase_for_identity; [lia|exact Hf].
Qed.


(** A loop nest that stores [nth j target] into every cell [j] produces
    [target]. *)
Lemma updates_cells_all {A} (body : list A → list A) (target : list A) (d : A) l0 :
  updates_cells body (λ j, j < length target) (λ j _, nth j target d) →
  length l0 = length target → body l0 = target.
Proof.
  intros Hb Hlen. destruct (Hb l0) as [Hl Hcells].
  apply list_eq. intros j. destruct (Hcells j) as [Hin Hout].
  destruct (decide (j < length target)) as [Hj|Hj].
  - rewrite Hin by exact Hj.
    destruct (lookup_lt_is_Some_2 l0 j ltac:(lia)) as [v ->]. simpl.
    destruct (lookup_lt_is_Some_2 target j Hj) as [t Ht].
    rewrite Ht. f_equal. apply nth_lookup_Some. exact Ht.
  - rewrite (lookup_ge_None_2 target) by lia.
    apply lookup_ge_None_2. lia.
Qed.

Lemma accumulate_unit (i : nat) (sample : nat → R) :
  Resample.accumulate (CubicPhase.mk [i] [1%R]) sample = sample i.
Proof.
  unfold Resample.accumulate, for_range. simpl.
  rewrite RMicromega.Q2R_0. lra.
Qed.

Lemma fclamp_unit_interval (v : R) :
  (0 <= v <= 1)%R → fclamp v (f_lit 0) (f_lit 1) = v.
Proof.
  intros Hv. unfold fclamp. cbn [fltb f_lit R_float].
  rewrite RMicromega.Q2R_0, RMicromega.Q2R_1.
  rewrite !R_ltb_false by lra. reflexivity.
Qed.

Lemma resample_compute_channels (image : Image.t R) channels :
  Image.width image ≠ 0 → Image.height image ≠ 0 → channels ≠ 0 →
  length (Image.pixels image) = Image.height image * Image.width image * channels →
  fits (length (Image.pixels image)) →
  Resample.compute_channels image = channels.
Proof.
  intros Hw Hh Hc Hlen Hfits. unfold Resample.compute_channels.
  rewrite bool_decide_eq_false_2 by lia.
  assert (Hwh : wrap (Image.width image * Image.height image)
                = Image.width image * Image.height image).
  { apply wrap_fits. eapply fits_le; [|exact Hfits]. rewrite Hlen. nia. }
  rewrite Hwh.
  assert (Hpos : Image.width image * Image.height image ≠ 0) by nia.
  rewrite bool_decide_eq_false_2 by exact Hpos.
  assert (Hl : length (Image.pixels image)
               = channels * (Image.width image * Image.height image)) by lia.
  rewrite bool_decide_eq_false_2.
  - rewrite Hl. apply Nat.div_mul. exact Hpos.
  - intros Hmod. apply Hmod. rewrite Hl. apply Nat.Div0.mod_mul.
Qed.

Lemma unit_table_nth n x :
  x < n →
  nth x (map (λ i, CubicPhase.mk [i] [1%R]) (seq 0 n)) CubicPhase.empty
  = CubicPhase.mk [x] [1%R].
Proof.
  intros Hx. rewrite (nth_indep _ _ (CubicPhase.mk [0] [1%R]))
    by (rewrite length_map, length_seq; exact Hx).
  rewrite (map_nth (λ i, CubicPhase.mk [i] [1%R])). rewrite seq_nth by exact Hx.
  reflexivity.
Qed.

(** With unit taps the horizontal pass copies the input. *)
Lemma horizontal_pass_identity (input : Image.t R) channels l0 :
  length (Image.pixels input) = Image.height input * Image.width input * channels →
  length l0 = length (Image.pixels input) →
  for_range 0 (Image.height input)
    (Resample.horizontal_row input (Image.width input) channels
       (map (λ i, CubicPhase.mk [i] [1%R]) (seq 0 (Image.width input)))) l0
  = Image.pixels input.
Proof.
  intros Hlen Hl0.
  apply (updates_cells_all _ (Image.pixels input) (f_lit 0)); [|exact Hl0].
  rewrite Hlen.
  apply (updates_cells_pixels (Image.height input) (Image.width input) channels
    (λ y x c, <[y * Image.width input * channels + x * channels + c :=
       Resample.accumulate
         (nth x (map (λ i, CubicPhase.mk [i] [1%R]) (seq 0 (Image.width input)))
              CubicPhase.empty)
         (λ src_idx, nth (y * Image.width input * channels + src_idx * channels + c)
                         (Image.pixels input) (f_lit 0))]>)).
  intros y x c Hy Hx Hc.
  replace (y * Image.width input * channels + x * channels + c)
    with ((y * Image.width input + x) * channels + c) by lia.
  apply updates_cells_insert. intros _.
  rewrite unit_table_nth by exact Hx. rewrite accumulate_unit.
  f_equal. lia.
Qed.

(** With unit taps the vertical pass copies the intermediate image, up to
    the final clamp. *)
Lemma vertical_pass_identity (pixels : list R) width height channels l0 :
  length pixels = height * width * channels →
  Forall (λ v, 0 <= v <= 1)%R pixels →
  length l0 = length pixels →
  for_range 0 height
    (Resample.vertical_row pixels width channels
       (map (λ i, CubicPhase.mk [i] [1%R]) (seq 0 height))) l0
  = pixels.
Proof.
  intros Hlen Hrange Hl0.
  apply (updates_cells_all _ pixels (f_lit 0)); [|exact Hl0].
  rewrite Hlen.
  apply (updates_cells_pixels height width channels
    (λ y x c, <[y * width * channels + x * channels + c :=
       fclamp
         (Resample.accumulate
            (nth y (map (λ i, CubicPhase.mk [i] [1%R]) (seq 0 height)) CubicPhase.empty)
            (λ sample_y, nth (sample_y * width * channels + x * channels + c)
                             pixels (f_lit 0)))
         (f_lit 0) (f_lit 1)]>)).
  intros y x c Hy Hx Hc.
  replace (y * width * channels + x * channels + c)
    with ((y * width + x) * channels + c) by lia.
  apply updates_cells_insert. intros _.
  rewrite unit_table_nth by exact Hy. rewrite accumulate_unit.
  replace (y * width * channels + x * channels + c)
    with ((y * width + x) * channels + c) by lia.
  symmetry. apply fclamp_unit_interval.
  assert (Hidx : (y * width + x) * channels + c < length pixels).
  { rewrite Hlen. apply flat_index_lt; assumption. }
  destruct (lookup_lt_is_Some_2 _ _ Hidx) as [v Hv].
  rewrite (nth_lookup_Some _ _ _ _ Hv).
  exact (Forall_lookup_1 _ _ _ _ Hrange Hv).
Qed.

(** C8 (amended). Resizing an image with samples in [[0, 1]] and with
    dimensions of at most [8388608 = 2^23] to its own dimensions returns the
    image: both weight tables consist of one unit-weight tap at the
    destination index itself.  Up to that size every [i + 0.5] is a binary32
    value, so the source position of the exact arithmetic used here is the
    one the code computes; beyond it the code departs from the claim. *)
Theorem resample_cubic_same_size (pool_size : nat) (img : Image.t R) (channels : nat) :
  Image.width img ≠ 0 → Image.height img ≠ 0 → 0 < channels →
  (Z.of_nat (Image.width img) ≤ 8388608)%Z →
  (Z.of_nat (Image.height img) ≤ 8388608)%Z →
  length (Image.pixels img) = Image.height img * Image.width img * channels →
  fits (length (Image.pixels img) * 4) →
  fits (Nat.max 1 pool_size * 4) →
  Forall (λ v, 0 <= v <= 1)%R (Image.pixels img) →
  Resample.resample_cubic pool_size img (Image.width img) (Image.height img) = Some img
  ∧ Resample.build_cubic_weight_table (Image.width img) (Image.width img)
    = Some (map (λ i, CubicPhase.mk [i] [1%R]) (seq 0 (Image.width img)))
  ∧ Resample.build_cubic_weight_table (Image.height img) (Image.height img)
    = Some (map (λ i, CubicPhase.mk [i] [1%R]) (seq 0 (Image.height img))).
Proof.
  intros Hw Hh Hc _ _ Hlen Hfits Hpool Hrange.
  destruct img as [w h pixels]. simpl in *.
  assert (Hhc : 1 ≤ h * channels) by (destruct h, channels; simpl; lia).
  assert (Hwc : 1 ≤ w * channels) by (destruct w, channels; simpl; lia).
  assert (Hwl : w ≤ length pixels).
  { pose proof (Nat.mul_le_mono_l 1 (h * channels) w Hhc). lia. }
  assert (Hhl : h ≤ length pixels).
  { pose proof (Nat.mul_le_mono_l 1 (w * channels) h Hwc). lia. }
  assert (Hfw : fits (w * 2)) by (eapply fits_le; [|exact Hfits]; lia).
  assert (Hfh : fits (h * 2)) by (eapply fits_le; [|exact Hfits]; lia).
  assert (Hfl : fits (length pixels)) by (eapply fits_le; [|exact Hfits]; lia).
  pose proof (build_cubic_weight_table_identity w ltac:(lia) Hfw) as Htw.
  pose proof (build_cubic_weight_table_identity h ltac:(lia) Hfh) as Hth.
  split; [|split; assumption].
  unfold Resample.resample_cubic. cbn [Image.width Image.height Image.pixels].
  rewrite bool_decide_eq_false_2 by lia.
  rewrite (resample_compute_channels (Image.mk w h pixels) channels)
    by (simpl; try assumption; lia).
  rewrite bool_decide_eq_false_2 by lia.
  rewrite Htw, Hth. cbn [mbind option_bind].
  rewrite bool_decide_eq_false_2; cycle 1.
  { intros [Hnil|Hnil]; apply map_eq_nil in Hnil;
      apply (f_equal length) in Hnil; rewrite length_seq in Hnil; simpl in Hnil; lia. }
  rewrite !wrap_fits by (eapply fits_le; [|exact Hfl]; lia).
  rewrite parallel_for_sequential
    by first [exact Hpool | eapply fits_le; [|exact Hfl]; lia].
  cbn [mbind option_bind].
  rewrite (horizontal_pass_identity (Image.mk w h pixels) channels)
    by (simpl; rewrite ?length_replicate; lia).
  cbn [Image.pixels].
  rewrite parallel_for_sequential
    by first [exact Hpool | eapply fits_le; [|exact Hfl]; lia].
  cbn [mbind option_bind].
  rewrite vertical_pass_identity
    by (rewrite ?length_replicate; try assumption; lia).
  reflexivity.
Qed.

Lemma resample_cubic_same_size_witness :
  Resample.resample_cubic 4 (Image.mk 2 1 [0.5; 0.25]%R) 2 1
  = Some (Image.mk 2 1 [0.5; 0.25]%R)
  ∧ Resample.build_cubic_weight_table 2 2
    = Some (map (λ i, CubicPhase.mk [i] [1%R]) (seq 0 2))
  ∧ Resample.build_cubic_weight_table 1 1
    = Some (map (λ i, CubicPhase.mk [i] [1%R]) (seq 0 1)).
Proof.
  apply (resample_cubic_same_size 4 (Image.mk 2 1 [0.5; 0.25]%R) 1).
  - simpl. lia.
  - simpl. lia.
  - lia.
  - simpl. lia.
  - simpl. lia.
  - reflexivity.
  - unfold fits, size_modulus. simpl. lia.
  - unfold fits, size_modulus. simpl. lia.
  - simpl. repeat constructor; lra.
Defined.

(** ** Facts about the block transform, under exact real arithmetic *)

(** Lagrange's identity for a sum of cosines. *)
Lemma cos_sum_telescope (phi : R) (n : nat) :
  (2 * sin (phi / 2) * cos_sum phi n
   = sin ((INR n + / 2) * phi) - sin (phi / 2))%R.
Proof.
  induction n as [|n IH].
  - simpl. replace ((0 + / 2) * phi)%R with (phi / 2)%R by lra. lra.
  - cbn [cos_sum]. rewrite Rmult_plus_distr_l, IH.
    rewrite !S_INR.
    replace ((INR n + 1 + / 2) * phi)%R with ((INR n + 1) * phi + phi / 2)%R by lra.
    replace ((INR n + / 2) * phi)%R with ((INR n + 1) * phi - phi / 2)%R by lra.
    rewrite sin_plus, sin_minus. lra.
Qed.

Lemma sin_nat_PI (m : nat) : sin (INR m * PI) = 0%R.
Proof.
  induction m as [|m IH].
  - simpl. rewrite Rmult_0_l. apply sin_0.
  - rewrite S_INR. replace ((INR m + 1) * PI)%R with (INR m * PI + PI)%R by lra.
    rewrite neg_sin, IH. lra.
Qed.

Lemma cos_nat_PI (m : nat) :
  cos (INR m * PI) = if Nat.even m then 1%R else (-1)%R.
Proof.
  induction m as [|m IH].
  - simpl. rewrite Rmult_0_l. apply cos_0.
  - rewrite S_INR. replace ((INR m + 1) * PI)%R with (INR m * PI + PI)%R by lra.
    rewrite neg_cos, IH. rewrite Nat.even_succ, <- Nat.negb_even.
    destruct (Nat.even m); simpl; lra.
Qed.

(** The seven-term sums that occur in the transform. *)
Lemma cos_sum_7 (m : nat) :
  0 < m < 16 →
  cos_sum (INR m * (PI / 8)) 7 = if Nat.even m then (-1)%R else 0%R.
Proof.
  intros Hm.
  pose proof (cos_sum_telescope (INR m * (PI / 8)) 7) as Ht.
  set (psi := (INR m * (PI / 8) / 2)%R) in *.
  assert (Hpsi : (0 < psi < PI)%R).
  { unfold psi. pose proof PI_RGT_0.
    assert (0 < INR m)%R by (apply lt_0_INR; lia).
    pose proof (lt_INR m 16 ltac:(lia)) as H16. simpl in H16.
    split; [|nra]. apply Rdiv_lt_0_compat; [|lra].
    apply Rmult_lt_0_compat; lra. }
  pose proof (sin_gt_0 psi (proj1 Hpsi) (proj2 Hpsi)) as Hsin.
  replace ((INR 7 + / 2) * (INR m * (PI / 8)))%R with (INR m * PI - psi)%R in Ht
    by (unfold psi; simpl; lra).
  rewrite sin_minus, sin_nat_PI, cos_nat_PI in Ht.
  destruct (Nat.even m); nra.
Qed.

Lemma cos_sum_zero n : cos_sum 0 n = INR n.
Proof.
  induction n as [|n IH]; [reflexivity|].
  cbn [cos_sum]. rewrite IH, Rmult_0_r, cos_0, S_INR. reflexivity.
Qed.

Lemma cos_sum_opp phi n : cos_sum (- phi) n = cos_sum phi n.
Proof.
  induction n as [|n IH]; [reflexivity|].
  cbn [cos_sum]. rewrite IH. f_equal.
  replace (INR (S n) * - phi)%R with (- (INR (S n) * phi))%R by lra.
  apply cos_neg.
Qed.

Lemma cos_table_R u x :
  Dct.cos_table u x = cos (INR u * (PI / 8 * (INR x + / 2))).
Proof.
  unfold Dct.cos_table, Dct.kPi.
  cbn [f_cos f_pi R_trig fmul fdiv fadd f_of_Z f_lit R_float].
  rewrite <- !INR_IZR_INZ, Q2R_half. f_equal.
  replace (Q2R 8) with 8%R by (unfold Q2R; simpl; lra). lra.
Qed.

Lemma alphas_sq u :
  u < 8 →
  (Dct.alphas u * Dct.alphas u)%R = if decide (u = 0) then (/ 8)%R else (/ 4)%R.
Proof.
  intros Hu. unfold Dct.alphas. destruct (decide (u = 0)) as [->|Hne].
  - rewrite bool_decide_eq_true_2 by reflexivity.
    cbn [f_sqrt_eighth R_trig]. apply sqrt_sqrt. lra.
  - rewrite bool_decide_eq_false_2 by exact Hne.
    cbn [f_lit R_float]. rewrite Q2R_half. lra.
Qed.

Lemma cos_product (u : nat) (a' a : R) :
  (cos (INR u * a') * cos (INR u * a))%R
  = ((cos (INR u * (a' - a)) + cos (INR u * (a' + a))) / 2)%R.
Proof.
  replace (INR u * (a' - a))%R with (INR u * a' - INR u * a)%R by lra.
  replace (INR u * (a' + a))%R with (INR u * a' + INR u * a)%R by lra.
  rewrite cos_minus, cos_plus. lra.
Qed.

Lemma basis_product_cos_sum x' x :
  basis_product x' x
  = (/ 8 + / 8 * (cos_sum (PI / 8 * (INR x' + / 2) - PI / 8 * (INR x + / 2)) 7
                  + cos_sum (PI / 8 * (INR x' + / 2) + PI / 8 * (INR x + / 2)) 7))%R.
Proof.
  unfold basis_product. cbn [seq map foldr].
  rewrite !Rmult_assoc.
  rewrite <- !(Rmult_assoc (Dct.alphas _) (Dct.alphas _)).
  rewrite !alphas_sq by lia. cbn [decide_rel Nat.eq_dec].
  repeat match goal with
  | |- context [decide (?a = ?b)] => destruct (decide (a = b)); [lia||idtac|lia||idtac]
  end.
  rewrite !cos_table_R. rewrite !cos_product.
  cbn [cos_sum].
  change (INR 0) with 0%R. rewrite !Rmult_0_l, cos_0. lra.
Qed.

(** The basis of the transform is orthonormal. *)
Lemma basis_product_delta x' x :
  x' < 8 → x < 8 →
  basis_product x' x = if decide (x' = x) then 1%R else 0%R.
Proof.
  intros Hx' Hx. rewrite basis_product_cos_sum.
  replace (PI / 8 * (INR x' + / 2) + PI / 8 * (INR x + / 2))%R
    with (INR (x' + x + 1) * (PI / 8))%R
    by (rewrite !plus_INR; simpl; lra).
  rewrite (cos_sum_7 (x' + x + 1)) by lia.
  destruct (decide (x' = x)) as [->|Hne].
  - replace (PI / 8 * (INR x + / 2) - PI / 8 * (INR x + / 2))%R with 0%R by lra.
    rewrite cos_sum_zero.
    replace (x + x + 1) with (S (2 * x)) by lia.
    rewrite Nat.even_succ, Nat.odd_even. simpl. lra.
  - destruct (decide (x < x')) as [Hlt|Hge].
    + replace (PI / 8 * (INR x' + / 2) - PI / 8 * (INR x + / 2))%R
        with (INR (x' - x) * (PI / 8))%R
        by (rewrite minus_INR by lia; lra).
      rewrite (cos_sum_7 (x' - x)) by lia.
      replace (x' + x + 1) with (S (x' - x + 2 * x)) by lia.
      rewrite Nat.even_succ, Nat.odd_add_even by (exists x; lia).
      rewrite <- Nat.negb_even. destruct (Nat.even (x' - x)); simpl; lra.
    + replace (PI / 8 * (INR x' + / 2) - PI / 8 * (INR x + / 2))%R
        with (- (INR (x - x') * (PI / 8)))%R
        by (rewrite minus_INR by lia; lra).
      rewrite cos_sum_opp, (cos_sum_7 (x - x')) by lia.
      replace (x' + x + 1) with (S (x - x' + 2 * x')) by lia.
      rewrite Nat.even_succ, Nat.odd_add_even by (exists x'; lia).
      rewrite <- Nat.negb_even. destruct (Nat.even (x - x')); simpl; lra.
Qed.

Lemma nth_map_seq {A} (g : nat → A) (n i : nat) (d : A) :
  i < n → nth i (map g (seq 0 n)) d = g i.
Proof.
  intros Hi. rewrite (nth_indep _ d (g 0)) by (rewrite length_map, length_seq; exact Hi).
  rewrite (map_nth g), seq_nth by exact Hi. reflexivity.
Qed.

(** The inverse 1-D transform undoes the forward one. *)
Lemma idct_fdct_1d (v : nat → R) (x : nat) :
  x < 8 →
  nth x (Dct.idct_1d (λ u, nth u (Dct.fdct_1d v) (f_lit 0))) (f_lit 0) = v x.
Proof.
  intros Hx. unfold Dct.idct_1d. rewrite nth_map_seq by exact Hx.
  unfold Dct.fdct_1d, for_range.
  cbn [seq map nth foldl Nat.sub fadd fmul f_lit R_float].
  rewrite RMicromega.Q2R_0.
  transitivity (v 0%nat * basis_product 0 x + v 1%nat * basis_product 1 x
                + v 2%nat * basis_product 2 x + v 3%nat * basis_product 3 x
                + v 4%nat * basis_product 4 x + v 5%nat * basis_product 5 x
                + v 6%nat * basis_product 6 x + v 7%nat * basis_product 7 x)%R.
  - unfold basis_product. cbn [seq map foldr]. ring.
  - rewrite !basis_product_delta by lia.
    repeat (destruct x as [|x]; [simpl; lra|]). lia.
Qed.

Lemma at64_tabulate64 (f : nat → nat → R) y x :
  y < 8 → x < 8 → Dct.at64 (Dct.tabulate64 f) (y * 8 + x) = f y x.
Proof.
  intros Hy Hx. unfold Dct.at64, Dct.tabulate64.
  do 8 (destruct y as [|y];
        [do 8 (destruct x as [|x]; [reflexivity|]); lia|]).
  lia.
Qed.

Lemma tabulate64_ext (f g : nat → nat → R) :
  (∀ y x, y < 8 → x < 8 → f y x = g y x) → Dct.tabulate64 f = Dct.tabulate64 g.
Proof.
  intros Hfg. unfold Dct.tabulate64. cbn [seq flat_map map app].
  rewrite !Hfg by lia. reflexivity.
Qed.

Lemma idct_1d_ext (f g : nat → R) :
  (∀ k, k < 8 → f k = g k) → Dct.idct_1d f = Dct.idct_1d g.
Proof.
  intros Hfg. unfold Dct.idct_1d, for_range. cbn [seq map foldl Nat.sub].
  rewrite !Hfg by lia. reflexivity.
Qed.

Lemma fdct_1d_ext (f g : nat → R) :
  (∀ k, k < 8 → f k = g k) → Dct.fdct_1d f = Dct.fdct_1d g.
Proof.
  intros Hfg. unfold Dct.fdct_1d, for_range. cbn [seq map foldl Nat.sub].
  rewrite !Hfg by lia. reflexivity.
Qed.

(** The inverse 2-D transform undoes the forward one. *)
Lemma inverse_forward_dct (g : nat → nat → R) :
  Dct.inverse_dct (Dct.forward_dct (Dct.tabulate64 g)) = Dct.tabulate64 g.
Proof.
  unfold Dct.inverse_dct, Dct.forward_dct.
  apply tabulate64_ext. intros y x Hy Hx.
  rewrite (idct_1d_ext _ (λ k, nth k (Dct.fdct_1d (λ k', g y k')) (f_lit 0))).
  { rewrite idct_fdct_1d by exact Hx. reflexivity. }
  intros k Hk. rewrite at64_tabulate64 by assumption.
  rewrite (idct_1d_ext _
    (λ k0, nth k0 (Dct.fdct_1d (λ k',
       nth k (Dct.fdct_1d (λ k'', g k' k'')) (f_lit 0))) (f_lit 0))).
  { rewrite idct_fdct_1d by exact Hy. reflexivity. }
  intros k0 Hk0. rewrite at64_tabulate64 by assumption.
  f_equal. apply fdct_1d_ext. intros k' Hk'.
  rewrite at64_tabulate64 by assumption.
  f_equal. apply fdct_1d_ext. intros k'' Hk''.
  apply at64_tabulate64; assumption.
Qed.

Lemma insert_nth_id {A} (l : list A) (i : nat) (d : A) : <[i := nth i l d]> l = l.
Proof.
  destruct (decide (i < length l)) as [Hlt|Hge].
  - destruct (lookup_lt_is_Some_2 l i Hlt) as [v Hv].
    rewrite (nth_lookup_Some _ _ _ _ Hv). apply list_insert_id. exact Hv.
  - apply list_insert_ge. lia.
Qed.

(** Invariants of loops with [break]. *)
Lemma for_break_inv {St} (P : St → Prop) lo hi (body : nat → St → option St) s :
  P s →
  (∀ i acc acc', lo ≤ i < hi → P acc → body i acc = Some acc' → P acc') →
  P (for_break lo hi body s).
Proof.
  intros Hs Hbody. unfold for_break.
  assert (Hall : Forall (λ i, lo ≤ i < hi) (seq lo (hi - lo))).
  { apply Forall_forall. intros i Hi. apply elem_of_seq in Hi. lia. }
  revert Hall. generalize (seq lo (hi - lo)). intros idxs. revert s Hs.
  induction idxs as [|i idxs IH]; intros s Hs Hall; simpl; [exact Hs|].
  apply Forall_cons in Hall as [Hi Hall].
  destruct (body i s) as [s'|] eqn:Hb; [|exact Hs].
  apply IH; [|exact Hall]. eapply Hbody; eauto.
Qed.

Lemma clamp_index_lt value limit :
  value < limit → Dct.clamp_index value limit = value.
Proof.
  intros Hlt. unfold Dct.clamp_index.
  rewrite bool_decide_eq_false_2 by lia. reflexivity.
Qed.

(** Writing a gathered block back changes nothing. *)
Lemma scatter_gather_id (src : list R) width height channels base_x base_y c :
  Dct.scatter_block (Dct.gather_block src width height channels base_x base_y c)
    width height channels base_x base_y c src = src.
Proof.
  unfold Dct.scatter_block.
  apply (for_break_inv (λ dst, dst = src)); [reflexivity|].
  intros yy dst dst' Hyy -> Hbody.
  case_bool_decide as Hy; [discriminate|]. injection Hbody as <-.
  apply (for_break_inv (λ dst, dst = src)); [reflexivity|].
  intros xx dst dst' Hxx -> Hbody.
  case_bool_decide as Hx; [discriminate|]. injection Hbody as <-.
  unfold Dct.gather_block. rewrite at64_tabulate64 by lia.
  rewrite !clamp_index_lt by lia. apply insert_nth_id.
Qed.

(** A tile processed without quantization is left as it was. *)
Lemma process_tile_identity (src : list R) width height channels quality
    quant_table tiles_x tile_index :
  (100 ≤ quality)%Z →
  Dct.process_tile src width height channels quality quant_table tiles_x
    tile_index src = src.
Proof.
  intros Hq. unfold Dct.process_tile.
  apply (for_range_ind (λ _ dst, dst = src)); [lia|reflexivity|].
  intros c dst _ ->.
  destruct (Z.ltb_spec quality 100) as [Hlt|_]; [lia|].
  unfold Dct.gather_block at 1. rewrite inverse_forward_dct.
  apply scatter_gather_id.
Qed.

Lemma fits_wrap n : fits (wrap n).
Proof.
  unfold fits, wrap. rewrite N2Nat.id. apply N.mod_upper_bound.
  unfold size_modulus. lia.
Qed.



(** ** The orchestrator: every stage returns *)

Section Generic.
Context {F : Type} `{FloatOps F}.

(** *** Shapes are preserved by stores *)

Lemma same_shape_refl (d : option (Storage F)) : same_shape d d.
Proof. destruct d as [[b|f]|]; simpl; auto. Qed.

Lemma same_shape_trans (d1 d2 d3 : option (Storage F)) :
  same_shape d1 d2 → same_shape d2 d3 → same_shape d1 d3.
Proof.
  destruct d1 as [[b1|f1]|], d2 as [[b2|f2]|], d3 as [[b3|f3]|]; simpl;
    try tauto; congruence.
Qed.

Lemma store_u8_shape offset v (d : option (Storage F)) : same_shape d (PixelOps.store_u8 offset v d).
Proof. destruct d as [[b|f]|]; simpl; auto. rewrite length_insert. reflexivity. Qed.

Lemma store_f32_shape offset index v (d : option (Storage F)) :
  same_shape d (PixelOps.store_f32 offset index v d).
Proof. destruct d as [[b|f]|]; simpl; auto. rewrite length_insert. reflexivity. Qed.

Lemma for_range_shape lo hi (body : nat → option (Storage F) → option (Storage F)) d :
  (∀ i acc, same_shape acc (body i acc)) →
  same_shape d (for_range lo hi body d).
Proof.
  intros Hb. destruct (decide (lo ≤ hi)) as [Hle|Hgt].
  - apply (for_range_ind (λ _ acc, same_shape d acc)); [exact Hle| |].
    + apply same_shape_refl.
    + intros i acc _ Hacc. eapply same_shape_trans; [exact Hacc|apply Hb].
  - rewrite for_range_empty by lia. apply same_shape_refl.
Qed.

Lemma memcpy_shape dst_offset src_offset count (src dst : option (Storage F)) :
  same_shape dst (PixelOps.memcpy dst_offset src_offset count src dst).
Proof.
  unfold PixelOps.memcpy. destruct src as [[b|f]|].
  - apply for_range_shape. intros. apply store_u8_shape.
  - apply for_range_shape. intros. apply store_f32_shape.
  - apply same_shape_refl.
Qed.

Lemma copy_image_bytes_shape (src dst : CpuImage.t F) :
  same_shape (CpuImage.data dst) (PixelOps.copy_image_bytes src dst).
Proof.
  unfold PixelOps.copy_image_bytes. apply for_range_shape.
  intros. apply memcpy_shape.
Qed.

Lemma convert_u8_to_f32_shape n (src dst : CpuImage.t F) :
  same_shape (CpuImage.data dst) (PixelOps.convert_u8_to_f32 n src dst).
Proof.
  unfold PixelOps.convert_u8_to_f32. apply for_range_shape. intros y d.
  apply for_range_shape. intros x d'.
  eapply same_shape_trans; [|apply store_f32_shape].
  eapply same_shape_trans; [|apply store_f32_shape].
  apply store_f32_shape.
Qed.

Lemma convert_f32_to_u8_shape n (src dst : CpuImage.t F) :
  same_shape (CpuImage.data dst) (PixelOps.convert_f32_to_u8 n src dst).
Proof.
  unfold PixelOps.convert_f32_to_u8. apply for_range_shape. intros y d.
  apply for_range_shape. intros x d'.
  case_bool_decide.
  - eapply same_shape_trans; [|apply store_u8_shape].
    eapply same_shape_trans; [|apply store_u8_shape].
    eapply same_shape_trans; [|apply store_u8_shape].
    apply store_u8_shape.
  - eapply same_shape_trans; [|apply store_u8_shape].
    eapply same_shape_trans; [|apply store_u8_shape].
    apply store_u8_shape.
Qed.

(** [convert_image] keeps the kind and the length of the destination. *)
Lemma convert_image_shape (src dst : CpuImage.t F) :
  same_shape (CpuImage.data dst) (PixelOps.convert_image src dst).2.
Proof.
  unfold PixelOps.convert_image.
  repeat match goal with
  | |- context [if ?b then _ else _] => destruct b
  | |- context [match CpuImage.type ?i with _ => _ end] => destruct (CpuImage.type i)
  end; simpl;
  first [apply same_shape_refl | apply copy_image_bytes_shape
        | apply convert_u8_to_f32_shape | apply convert_f32_to_u8_shape].
Qed.

Lemma same_shape_vector (v : list F) (d : option (Storage F)) :
  same_shape (PixelOps.vector_data v) d →
  length (PixelOps.floats_of d) = length v.
Proof.
  destruct v as [|a v]; destruct d as [[b|f]|]; simpl; try tauto; lia.
Qed.


(** *** Validation *)

Lemma validate_image_true (image : CpuImage.t F) :
  PixelOps.validate_image image = true ↔
  bytes_per_pixel (CpuImage.type image) ≠ 0 ∧
  CpuImage.width image ≠ 0 ∧ CpuImage.height image ≠ 0 ∧
  CpuImage.row_bytes image ≤ CpuImage.stride_bytes image ∧
  CpuImage.data image ≠ None ∧
  bytes_per_channel (CpuImage.type image) ≠ 0 ∧
  CpuImage.stride_bytes image mod bytes_per_channel (CpuImage.type image) = 0.
Proof.
  unfold PixelOps.validate_image, PixelOps.is_null.
  repeat case_bool_decide; destruct (CpuImage.data image);
    split; try discriminate; try (intros; repeat split; (lia || congruence)); intros Hall;
    try reflexivity; exfalso; destruct Hall as (? & ? & ? & ? & ? & ? & ?);
    first [lia | congruence | tauto].
Qed.

(** The float view that [sanitize] and [sr_lite_refine] lay over a
    vector. *)
Lemma validate_float_view width height (v : list F) :
  width ≠ 0 → height ≠ 0 → v ≠ [] → fits (width * 12) →
  PixelOps.validate_image
    (CpuImage.mk F32_RGB width height (wrap (width * 3 * 4)) (PixelOps.vector_data v))
  = true.
Proof.
  intros Hw Hh Hv Hf. apply validate_image_true.
  unfold CpuImage.row_bytes.
  cbn [CpuImage.type CpuImage.width CpuImage.height CpuImage.stride_bytes CpuImage.data].
  change (bytes_per_pixel F32_RGB) with 12.
  change (bytes_per_channel F32_RGB) with 4.
  replace (width * 3 * 4) with (width * 12) by lia.
  rewrite !wrap_fits by exact Hf.
  repeat split; try lia.
  - destruct v; [contradiction|discriminate].
  - replace (width * 12) with (width * 3 * 4) by lia. apply Nat.Div0.mod_mul.
Qed.

(** When [convert_image] returns [true]. *)
Lemma convert_image_true (src dst : CpuImage.t F) :
  PixelOps.validate_image src = true → PixelOps.validate_image dst = true →
  CpuImage.width src = CpuImage.width dst →
  CpuImage.height src = CpuImage.height dst →
  CpuImage.type src = CpuImage.type dst ∨
  (CpuImage.type src = U8_RGB ∧ CpuImage.type dst = F32_RGB) ∨
  (CpuImage.type src = F32_RGB ∧ CpuImage.type dst = U8_RGB) →
  (PixelOps.convert_image src dst).1 = true.
Proof.
  intros Hs Hd Hw Hh Hty. unfold PixelOps.convert_image.
  rewrite Hs, Hd. simpl.
  rewrite bool_decide_eq_false_2 by (intros [?|?]; congruence).
  case_bool_decide as Heq; [reflexivity|].
  destruct Hty as [Hty|[[-> ->]|[-> ->]]]; [contradiction| |reflexivity].
  rewrite bool_decide_eq_false_2 by (intros Hne; apply Hne; reflexivity).
  reflexivity.
Qed.


(** *** Stage by stage: every stage returns, with the expected size *)

Lemma quantize_bitdepth_dims (image : Image.t F) bits :
  Image.width (Bitdepth.quantize_bitdepth image bits) = Image.width image ∧
  Image.height (Bitdepth.quantize_bitdepth image bits) = Image.height image ∧
  length (Image.pixels (Bitdepth.quantize_bitdepth image bits))
  = length (Image.pixels image).
Proof.
  unfold Bitdepth.quantize_bitdepth. case_bool_decide; simpl; [auto|].
  rewrite quantize_in_place_length. auto.
Qed.

Lemma for_break_length {A} lo hi (body : nat → list A → option (list A)) l :
  (∀ i acc acc', body i acc = Some acc' → length acc' = length acc) →
  length (for_break lo hi body l) = length l.
Proof.
  intros Hb. apply (for_break_inv (λ acc, length acc = length l)); [reflexivity|].
  intros i acc acc' _ Hacc Hbody. rewrite (Hb _ _ _ Hbody). exact Hacc.
Qed.

Lemma horizontal_row_length (input : Image.t F) new_width channels table y l :
  length (Resample.horizontal_row input new_width channels table y l) = length l.
Proof.
  unfold Resample.horizontal_row. apply for_range_length. intros x acc.
  apply for_range_length. intros c acc'. apply length_insert.
Qed.

Lemma vertical_row_length (intermediate : list F) new_width channels table y l :
  length (Resample.vertical_row intermediate new_width channels table y l) = length l.
Proof.
  unfold Resample.vertical_row. apply for_range_length. intros x acc.
  apply for_range_length. intros c acc'. apply length_insert.
Qed.

Lemma blend_low_res_length (filtered low_res : list F) :
  length (Sanitize.blend_low_res filtered low_res) = length filtered.
Proof.
  unfold Sanitize.blend_low_res. apply for_range_length. intros. apply length_insert.
Qed.

Lemma blend_final_length total (sr_output upscaled working : list F) :
  length (Sanitize.blend_final total sr_output upscaled working) = length sr_output.
Proof.
  unfold Sanitize.blend_final. apply for_range_length. intros. apply length_insert.
Qed.

Section WithPool.
Variable pool_size : nat.
Hypothesis Hpool : fits (Nat.max 1 pool_size * 4).

Lemma parallel_for_length {A} n (fn : nat → list A → list A) l :
  fits n → (∀ i acc, length (fn i acc) = length acc) →
  ∃ l', ThreadPool.parallel_for pool_size 0 n fn l = Some l' ∧ length l' = length l.
Proof.
  intros Hn Hfn. rewrite parallel_for_sequential by assumption.
  eexists. split; [reflexivity|]. apply for_range_length. exact Hfn.
Qed.

Lemma convolve3x3_ok (input output : list F) width height in_channels out_channels
    weights bias relu :
  fits height →
  ∃ out, SrLite.convolve3x3 pool_size input output width height in_channels
           out_channels weights bias relu = Some out
         ∧ length out = length output.
Proof.
  intros Hh. unfold SrLite.convolve3x3. case_bool_decide; [eauto|].
  apply parallel_for_length; [exact Hh|]. intros y acc.
  unfold SrLite.convolve_row. apply for_range_length. intros x acc'.
  apply for_range_length. intros oc acc''. apply length_insert.
Qed.

Lemma pixel_shuffle_r2_ok (input output : list F) width height channels :
  fits height →
  ∃ out, SrLite.pixel_shuffle_r2 pool_size input output width height channels = Some out
         ∧ length out = length output.
Proof.
  intros Hh. unfold SrLite.pixel_shuffle_r2. case_bool_decide; [eauto|].
  apply parallel_for_length; [exact Hh|]. intros y acc.
  unfold SrLite.shuffle_row. apply for_range_length. intros x acc'.
  apply for_range_length. intros c acc''.
  apply for_range_length. intros sub acc3. apply length_insert.
Qed.

Lemma sr_lite_forward_ok (input output : list F) width height :
  fits height →
  ∃ out, SrLite.sr_lite_forward pool_size input output width height = Some out
         ∧ length out = length output.
Proof.
  intros Hh. unfold SrLite.sr_lite_forward. case_bool_decide; [eauto|].
  destruct (convolve3x3_ok input
              (replicate (wrap (width * height * SrLite.kStage1Channels)) (f_lit 0))
              width height SrLite.kInputChannels SrLite.kStage1Channels
              SrWeights.kConv1Weights SrWeights.kConv1Bias true Hh) as (s1 & -> & _).
  cbn [mbind option_bind].
  destruct (convolve3x3_ok s1
              (replicate (wrap (width * height * SrLite.kStage2Channels)) (f_lit 0))
              width height SrLite.kStage1Channels SrLite.kStage2Channels
              SrWeights.kConv2Weights SrWeights.kConv2Bias true Hh) as (s2 & -> & _).
  cbn [mbind option_bind].
  destruct (convolve3x3_ok s2
              (replicate (wrap (width * height * SrLite.kStage3Channels)) (f_lit 0))
              width height SrLite.kStage2Channels SrLite.kStage3Channels
              SrWeights.kConv3Weights SrWeights.kConv3Bias false Hh) as (s3 & -> & _).
  cbn [mbind option_bind].
  apply pixel_shuffle_r2_ok. exact Hh.
Qed.


Lemma replicate_nonempty {A} n (x : A) : n ≠ 0 → replicate n x ≠ [].
Proof. destruct n; [contradiction|discriminate]. Qed.

Lemma length_nonempty {A} (l : list A) : length l ≠ 0 → l ≠ [].
Proof. destruct l; simpl; [contradiction|discriminate]. Qed.

(** [sr_lite_refine] on the two float views that [sanitize] builds. *)
Lemma sr_lite_refine_ok sr_width sr_height (v_in v_out : list F) :
  sr_width ≠ 0 → sr_height ≠ 0 → v_in ≠ [] → v_out ≠ [] →
  fits (sr_width * 2 * (sr_height * 2) * 12) →
  ∃ d, SrLite.sr_lite_refine pool_size
         (CpuImage.mk F32_RGB sr_width sr_height (wrap (sr_width * 3 * 4))
                      (PixelOps.vector_data v_in))
         (CpuImage.mk F32_RGB (sr_width * 2) (sr_height * 2)
                      (wrap (sr_width * 2 * 3 * 4)) (PixelOps.vector_data v_out))
       = Some (true, d)
       ∧ same_shape (PixelOps.vector_data v_out) d.
Proof.
  intros Hw Hh Hin Hout Hfits.
  assert (Hf : ∀ n, n ≤ sr_width * 2 * (sr_height * 2) * 12 → fits n).
  { intros n Hn. eapply fits_le; eauto. }
  assert (Hsh : 1 ≤ sr_height) by lia. assert (Hsw : 1 ≤ sr_width) by lia.
  assert (Harea : 1 ≤ sr_width * sr_height) by nia.
  unfold SrLite.sr_lite_refine.
  rewrite !validate_float_view by first [assumption | lia | apply Hf; nia].
  cbn [negb orb CpuImage.width CpuImage.height CpuImage.type CpuImage.data].
  rewrite bool_decide_eq_false_2 by lia.
  change SrLite.kUpscaleFactor with 2. change SrLite.kInputChannels with 3.
  rewrite !(wrap_fits (_ * 2)) by (apply Hf; nia).
  rewrite bool_decide_eq_false_2 by lia.
  cbn [SrLite.supports_type negb orb].
  set (low_res := replicate (wrap (sr_width * sr_height * 3)) (f_lit 0)).
  assert (Hlow : low_res ≠ []).
  { apply replicate_nonempty. rewrite wrap_fits by (apply Hf; nia). lia. }
  match goal with
  | |- context [PixelOps.convert_image ?a ?b] =>
      pose proof (convert_image_true a b) as Hc1;
      destruct (PixelOps.convert_image a b) as [ok1 d1]
  end.
  simpl in Hc1. rewrite Hc1; cycle 1.
  { apply validate_float_view; try assumption; apply Hf; nia. }
  { apply validate_float_view; try assumption; apply Hf; nia. }
  { reflexivity. }
  { reflexivity. }
  { left. reflexivity. }
  cbn [negb].
  set (high_res := replicate (wrap (sr_width * 2 * (sr_height * 2) * 3)) (f_lit 0)).
  destruct (sr_lite_forward_ok (PixelOps.floats_of d1) high_res sr_width sr_height
              ltac:(apply Hf; nia)) as (hr & -> & Hlen).
  cbn [mbind option_bind].
  assert (Hhr : hr ≠ []).
  { apply length_nonempty. rewrite Hlen. unfold high_res.
    rewrite length_replicate, wrap_fits by (apply Hf; nia). nia. }
  match goal with
  | |- context [PixelOps.convert_image ?a ?b] =>
      pose proof (convert_image_true a b) as Hc2;
      pose proof (convert_image_shape a b) as Hs2;
      destruct (PixelOps.convert_image a b) as [ok2 d2]
  end.
  simpl in Hc2, Hs2. rewrite Hc2; cycle 1.
  { apply validate_float_view; try assumption; try lia; apply Hf; nia. }
  { apply validate_float_view; try assumption; try lia; apply Hf; nia. }
  { reflexivity. }
  { reflexivity. }
  { left. reflexivity. }
  cbn [negb]. exists d2. split; [reflexivity|exact Hs2].
Qed.

(** [to_float_image] on a validated buffer of a supported format. *)
Lemma to_float_image_ok (input : CpuImage.t F) :
  PixelOps.validate_image input = true →
  Sanitize.supported_type (CpuImage.type input) = true →
  fits (CpuImage.width input * CpuImage.height input * 12) →
  ∃ pixels,
    Sanitize.to_float_image input
    = (true, Image.mk (CpuImage.width input) (CpuImage.height input) pixels)
    ∧ length pixels = CpuImage.height input * CpuImage.width input * 3.
Proof.
  intros Hval Hsup Hfits.
  pose proof (proj1 (validate_image_true input) Hval) as (_ & Hw & Hh & _).
  assert (Hf : ∀ n, n ≤ CpuImage.width input * CpuImage.height input * 12 → fits n).
  { intros n Hn. eapply fits_le; eauto. }
  assert (Harea : 1 ≤ CpuImage.width input * CpuImage.height input) by nia.
  unfold Sanitize.to_float_image. rewrite Hval. cbn [negb].
  set (pixels := replicate (wrap (CpuImage.width input * CpuImage.height input * 3))
                           (f_lit 0)).
  assert (Hlen0 : length pixels = CpuImage.height input * CpuImage.width input * 3).
  { unfold pixels. rewrite length_replicate, wrap_fits by (apply Hf; lia). lia. }
  assert (Hne : pixels ≠ []) by (apply length_nonempty; nia).
  set (view := CpuImage.mk F32_RGB (CpuImage.width input) (CpuImage.height input)
                 (wrap (CpuImage.width input * 3 * 4)) (PixelOps.vector_data pixels)).
  assert (Hview : PixelOps.validate_image view = true).
  { apply validate_float_view; try assumption. apply Hf. nia. }
  pose proof (convert_image_true input view Hval Hview eq_refl eq_refl) as Hc.
  pose proof (convert_image_shape input view) as Hs.
  destruct (PixelOps.convert_image input view) as [ok d]. simpl in Hc, Hs.
  rewrite Hc; cycle 1.
  { unfold Sanitize.supported_type in Hsup. apply bool_decide_eq_true in Hsup.
    destruct Hsup as [-> | ->]; [right; left; split; reflexivity|left; reflexivity]. }
  eexists. split; [reflexivity|].
  rewrite (same_shape_vector pixels d Hs). exact Hlen0.
Qed.

End WithPool.
End Generic.

Section GenericTrig.
Context {F : Type} `{FloatOps F} `{TrigOps F}.
Variable pool_size : nat.
Hypothesis Hpool : fits (Nat.max 1 pool_size * 4).

Lemma scatter_block_length (block : list F) width height channels base_x base_y c dst :
  length (Dct.scatter_block block width height channels base_x base_y c dst)
  = length dst.
Proof.
  unfold Dct.scatter_block. apply for_break_length. intros yy acc acc'.
  case_bool_decide; [discriminate|]. intros [= <-].
  apply for_break_length. intros xx acc2 acc2'.
  case_bool_decide; [discriminate|]. intros [= <-]. apply length_insert.
Qed.

(** [dct8x8_hf_attenuate] returns an image of the same size. *)
Lemma dct8x8_hf_attenuate_ok kQuantTableQ50 (input : Image.t F) quality :
  ∃ out, Dct.dct8x8_hf_attenuate pool_size kQuantTableQ50 input quality = Some out
         ∧ Image.width out = Image.width input
         ∧ Image.height out = Image.height input
         ∧ length (Image.pixels out) = length (Image.pixels input).
Proof.
  unfold Dct.dct8x8_hf_attenuate.
  case_bool_decide; [eauto|]. case_bool_decide; [eauto|].
  match goal with
  | |- context [ThreadPool.parallel_for _ _ ?n ?fn ?l] =>
      destruct (parallel_for_length pool_size Hpool n fn l) as (l' & -> & Hlen)
  end.
  - apply fits_wrap.
  - intros tile acc. unfold Dct.process_tile. apply for_range_length.
    intros c acc'. apply scatter_block_length.
  - cbn [mbind option_bind]. eexists. split; [reflexivity|]. simpl. auto.
Qed.

End GenericTrig.

(** *** The resampler and the orchestrator under exact real arithmetic *)

(** Every entry of a weight table is well formed. *)
Lemma build_cubic_weight_table_ok (src_size dst_size : nat) :
  0 < src_size → 0 < dst_size → fits (src_size * 2) →
  ∃ table, Resample.build_cubic_weight_table (F:=R) src_size dst_size = Some table
           ∧ length table = dst_size
           ∧ Forall (phase_ok src_size) table.
Proof.
  intros Hsrc Hdst Hf. unfold Resample.build_cubic_weight_table.
  rewrite bool_decide_eq_false_2 by lia.
  assert (Hall : Forall (is_Some ∘ Resample.phase_for src_size dst_size) (seq 0 dst_size)).
  { apply Forall_forall. intros i _.
    destruct (phase_for_ok src_size dst_size i Hsrc Hdst Hf) as (p & Hp & _).
    simpl. rewrite Hp. eauto. }
  apply mapM_is_Some_2 in Hall. destruct Hall as [table Htable].
  exists table. split; [exact Htable|]. split.
  - apply length_mapM in Htable. rewrite length_seq in Htable. lia.
  - apply mapM_Some_1 in Htable.
    induction Htable as [|i p l k Hp _ IH]; constructor; [|exact IH].
    destruct (phase_for_ok src_size dst_size i Hsrc Hdst Hf) as (p' & Hp' & Hok).
    rewrite Hp in Hp'. injection Hp' as ->. exact Hok.
Qed.

Section RealStages.
Variable pool_size : nat.
Hypothesis Hpool : fits (Nat.max 1 pool_size * 4).

(** [resample_cubic] on a three-channel image returns an image of the
    requested size. *)
Lemma resample_cubic_ok (input : Image.t R) new_width new_height :
  Image.width input ≠ 0 → Image.height input ≠ 0 →
  new_width ≠ 0 → new_height ≠ 0 →
  length (Image.pixels input) = Image.height input * Image.width input * 3 →
  fits (length (Image.pixels input) * 2) →
  fits (new_width * new_height * 3) →
  fits (new_width * Image.height input * 3) →
  ∃ out, Resample.resample_cubic pool_size input new_width new_height = Some out
         ∧ Image.width out = new_width
         ∧ Image.height out = new_height
         ∧ length (Image.pixels out) = new_height * new_width * 3.
Proof.
  intros Hw Hh Hnw Hnh Hlen Hfl Hfo Hfi.
  assert (Hwl : Image.width input * 2 ≤ length (Image.pixels input) * 2).
  { rewrite Hlen. nia. }
  assert (Hhl : Image.height input * 2 ≤ length (Image.pixels input) * 2).
  { rewrite Hlen. nia. }
  unfold Resample.resample_cubic.
  rewrite bool_decide_eq_false_2 by lia.
  rewrite (resample_compute_channels input 3)
    by first [assumption | lia | eapply fits_le; [|exact Hfl]; lia].
  rewrite bool_decide_eq_false_2 by lia.
  rewrite bool_decide_eq_false_2 by lia.
  destruct (build_cubic_weight_table_ok (Image.width input) new_width
              ltac:(lia) ltac:(lia) ltac:(eapply fits_le; [|exact Hfl]; lia))
    as (ht & -> & Hhtl & _).
  destruct (build_cubic_weight_table_ok (Image.height input) new_height
              ltac:(lia) ltac:(lia) ltac:(eapply fits_le; [|exact Hfl]; lia))
    as (vt & -> & Hvtl & _).
  cbn [mbind option_bind].
  rewrite bool_decide_eq_false_2; cycle 1.
  { intros [->| ->]; simpl in *; lia. }
  match goal with
  | |- context [ThreadPool.parallel_for _ _ ?n ?fn ?l] =>
      destruct (parallel_for_length pool_size Hpool n fn l) as (inter & -> & Hil)
  end.
  { eapply fits_le; [|exact Hfl]. lia. }
  { intros. apply horizontal_row_length. }
  cbn [mbind option_bind].
  match goal with
  | |- context [ThreadPool.parallel_for _ _ ?n ?fn ?l] =>
      destruct (parallel_for_length pool_size Hpool n fn l) as (out & -> & Hol)
  end.
  { eapply fits_le; [|exact Hfo]. nia. }
  { intros. apply vertical_row_length. }
  cbn [mbind option_bind]. eexists. split; [reflexivity|]. simpl.
  split; [reflexivity|]. split; [reflexivity|].
  rewrite Hol, length_replicate, wrap_fits by exact Hfo. lia.
Qed.

Lemma scaled_dimension_quarter (value : nat) :
  1 ≤ value →
  1 ≤ Sanitize.scaled_dimension (F:=R) value (f_lit 0.25)
  ∧ Sanitize.scaled_dimension (F:=R) value (f_lit 0.25) ≤ value.
Proof.
  intros Hv. unfold Sanitize.scaled_dimension.
  case_bool_decide as Hpos; [|lia]. split; [lia|].
  cbn [fmul f_of_Z f_lit f_llround R_float].
  unfold R_round_away.
  assert (Hq : Q2R 0.25 = (/ 4)%R) by (unfold Q2R; simpl; lra).
  rewrite Hq. rewrite <- INR_IZR_INZ.
  assert (Hge : (1 <= INR value)%R) by (apply (le_INR 1); lia).
  destruct (Rle_dec 0 (INR value * / 4)) as [_|Hneg]; [|lra].
  assert (Hfl : (Zfloor (INR value * / 4 + / 2) ≤ Z.of_nat value)%Z).
  { pose proof (Zfloor_bound (INR value * / 4 + / 2)) as [Hlo _].
    apply le_IZR. rewrite <- INR_IZR_INZ. lra. }
  lia.
Qed.

End RealStages.

(** *** Loops that write cells of a store *)

(** A loop whose iteration [i] writes [val j] into the cells [j] with
    [R i j] and keeps the others, writes [val j] into every cell some
    iteration covers and keeps the rest. *)
Lemma for_range_writes {St A} (get : St → nat → option A) (Inv : St → Prop)
    lo hi (body : nat → St → St) (R : nat → nat → Prop) (val : nat → A) s :
  (∀ i j, R i j ∨ ¬ R i j) →
  Inv s →
  (∀ i acc, lo ≤ i < hi → Inv acc →
     Inv (body i acc) ∧
     ∀ j, (R i j → get (body i acc) j = Some (val j)) ∧
          (¬ R i j → get (body i acc) j = get acc j)) →
  Inv (for_range lo hi body s) ∧
  ∀ j, ((∃ i, lo ≤ i < hi ∧ R i j) → get (for_range lo hi body s) j = Some (val j)) ∧
       ((∀ i, lo ≤ i < hi → ¬ R i j) → get (for_range lo hi body s) j = get s j).
Proof.
  intros Hdec Hs Hbody. destruct (decide (lo ≤ hi)) as [Hle|Hgt]; cycle 1.
  { rewrite for_range_empty by lia. split; [exact Hs|]. intros j. split.
    - intros (i & Hi & _). lia.
    - reflexivity. }
  apply (for_range_ind
           (λ k acc, Inv acc ∧
              ∀ j, ((∃ i, lo ≤ i < k ∧ R i j) → get acc j = Some (val j)) ∧
                   ((∀ i, lo ≤ i < k → ¬ R i j) → get acc j = get s j))
           lo hi body s Hle).
  - split; [exact Hs|]. intros j. split.
    + intros (i & Hi & _). lia.
    + reflexivity.
  - intros k acc Hk [Hinv Hacc]. destruct (Hbody k acc Hk Hinv) as [Hinv' Hstep].
    split; [exact Hinv'|]. intros j.
    destruct (Hstep j) as [Hin Hout]. destruct (Hacc j) as [Hwritten Hkept]. split.
    + intros (i & Hi & HR). destruct (Hdec k j) as [HRk|HRk].
      * apply Hin, HRk.
      * rewrite (Hout HRk). apply Hwritten. exists i. split; [|exact HR].
        assert (i ≠ k) by (intros ->; contradiction). lia.
    + intros Hnone. rewrite Hout by (apply Hnone; lia).
      apply Hkept. intros i Hi. apply Hnone. lia.
Qed.

Section StoreCells.
Context {F : Type} `{FloatOps F}.

Lemma supported_type_cases type :
  Sanitize.supported_type type = true → type = U8_RGB ∨ type = F32_RGB.
Proof. unfold Sanitize.supported_type. intros Hs. exact (bool_decide_eq_true_1 _ Hs). Qed.

Lemma store_u8_cell n offset v (d : option (Storage F)) :
  holds_bytes n d → offset < n →
  holds_bytes n (PixelOps.store_u8 offset v d) ∧
  byte_at (PixelOps.store_u8 offset v d) offset = Some v ∧
  ∀ j, j ≠ offset → byte_at (PixelOps.store_u8 offset v d) j = byte_at d j.
Proof.
  intros (b & -> & Hlen) Hlt. simpl. split; [|split].
  - exists (<[offset := v]> b). split; [reflexivity|]. rewrite length_insert. exact Hlen.
  - apply list_lookup_insert_eq. lia.
  - intros j Hj. apply list_lookup_insert_ne. congruence.
Qed.

Lemma store_f32_cell n offset index v (d : option (Storage F)) :
  holds_floats n d → offset / 4 + index < n →
  holds_floats n (PixelOps.store_f32 offset index v d) ∧
  float_at (PixelOps.store_f32 offset index v d) (offset / 4 + index) = Some v ∧
  ∀ j, j ≠ offset / 4 + index →
       float_at (PixelOps.store_f32 offset index v d) j = float_at d j.
Proof.
  intros (f & -> & Hlen) Hlt. cbn [PixelOps.store_f32 float_at]. split; [|split].
  - exists (<[offset / 4 + index := v]> f). split; [reflexivity|].
    rewrite length_insert. exact Hlen.
  - apply list_lookup_insert_eq. lia.
  - intros j Hj. apply list_lookup_insert_ne. congruence.
Qed.

Lemma row_cell_div stride y r : r < stride → (y * stride + r) / stride = y.
Proof.
  intros Hr. symmetry. apply (Nat.div_unique _ _ _ r); [exact Hr|]. lia.
Qed.

Lemma row_cell_mod stride y r : r < stride → (y * stride + r) mod stride = r.
Proof.
  intros Hr. symmetry. apply (Nat.mod_unique _ _ y r); [exact Hr|]. lia.
Qed.

(** The float-to-byte row loops write every channel of every pixel. *)
Lemma convert_f32_to_u8_cells (src dst : CpuImage.t F) n :
  holds_bytes n (CpuImage.data dst) →
  CpuImage.width src * 3 ≤ CpuImage.stride_bytes dst →
  (∀ y x c, y < CpuImage.height src → x < CpuImage.width src → c < 3 →
            y * CpuImage.stride_bytes dst + x * 3 + c < n) →
  ∀ y x c, y < CpuImage.height src → x < CpuImage.width src → c < 3 →
    byte_at (PixelOps.convert_f32_to_u8 3 src dst)
            (y * CpuImage.stride_bytes dst + x * 3 + c)
    = Some (PixelOps.float_to_u8
              (PixelOps.load_f32 (CpuImage.data src)
                 (y * CpuImage.stride_bytes src) (x * 3 + c))).
Proof.
  intros Hd Hstride Hin.
  set (s := CpuImage.stride_bytes dst) in *.
  set (val := λ j, PixelOps.float_to_u8
                     (PixelOps.load_f32 (CpuImage.data src)
                        (j / s * CpuImage.stride_bytes src) (j mod s))).
  set (cell := λ y x j, y * s + x * 3 ≤ j < y * s + x * 3 + 3).
  assert (Hrows :
    ∀ y (acc : option (Storage F)), y < CpuImage.height src → holds_bytes n acc →
      let acc' :=
        for_range 0 (CpuImage.width src) (λ x d,
          let src_index := x * 3 in
          let dst_index := x * 3 in
          let load c := PixelOps.float_to_u8
                          (PixelOps.load_f32 (CpuImage.data src)
                             (y * CpuImage.stride_bytes src) (src_index + c)) in
          let d := PixelOps.store_u8 (y * s + dst_index + 0) (load 0) d in
          let d := PixelOps.store_u8 (y * s + dst_index + 1) (load 1) d in
          let d := PixelOps.store_u8 (y * s + dst_index + 2) (load 2) d in
          if bool_decide (3 = 4)
          then PixelOps.store_u8 (y * s + dst_index + 3) 255%Z d
          else d) acc in
      holds_bytes n acc' ∧
      ∀ j, ((∃ x, 0 ≤ x < CpuImage.width src ∧ cell y x j) →
              byte_at acc' j = Some (val j)) ∧
           ((∀ x, 0 ≤ x < CpuImage.width src → ¬ cell y x j) →
              byte_at acc' j = byte_at acc j)).
  { intros y acc Hy Hacc. cbv zeta.
    apply (for_range_writes byte_at (holds_bytes (F:=F) n)).
    - intros x j. unfold cell. lia.
    - exact Hacc.
    - intros x d [_ Hx] Hdn. rewrite bool_decide_eq_false_2 by lia.
      pose proof (Hin y x 0 Hy Hx ltac:(lia)) as H0.
      pose proof (Hin y x 1 Hy Hx ltac:(lia)) as H1.
      pose proof (Hin y x 2 Hy Hx ltac:(lia)) as H2.
      destruct (store_u8_cell n (y * s + x * 3 + 0)
                  (PixelOps.float_to_u8
                     (PixelOps.load_f32 (CpuImage.data src)
                        (y * CpuImage.stride_bytes src) (x * 3 + 0))) d Hdn H0)
        as (Hd0 & Hw0 & Hk0).
      set (d0 := PixelOps.store_u8 (y * s + x * 3 + 0) _ d) in *.
      destruct (store_u8_cell n (y * s + x * 3 + 1)
                  (PixelOps.float_to_u8
                     (PixelOps.load_f32 (CpuImage.data src)
                        (y * CpuImage.stride_bytes src) (x * 3 + 1))) d0 Hd0 H1)
        as (Hd1 & Hw1 & Hk1).
      set (d1 := PixelOps.store_u8 (y * s + x * 3 + 1) _ d0) in *.
      destruct (store_u8_cell n (y * s + x * 3 + 2)
                  (PixelOps.float_to_u8
                     (PixelOps.load_f32 (CpuImage.data src)
                        (y * CpuImage.stride_bytes src) (x * 3 + 2))) d1 Hd1 H2)
        as (Hd2 & Hw2 & Hk2).
      split; [exact Hd2|]. intros j. split.
      + intros Hc. unfold cell in Hc.
        assert (Hval : ∀ c, c < 3 → val (y * s + x * 3 + c)
                  = PixelOps.float_to_u8
                      (PixelOps.load_f32 (CpuImage.data src)
                         (y * CpuImage.stride_bytes src) (x * 3 + c))).
        { intros c Hc3. unfold val.
          rewrite <- Nat.add_assoc, row_cell_div, row_cell_mod by lia. reflexivity. }
        destruct (decide (j = y * s + x * 3 + 2)) as [->|Hj2].
        { rewrite Hw2, Hval by lia. reflexivity. }
        rewrite Hk2 by exact Hj2.
        destruct (decide (j = y * s + x * 3 + 1)) as [->|Hj1].
        { rewrite Hw1, Hval by lia. reflexivity. }
        rewrite Hk1 by exact Hj1.
        assert (j = y * s + x * 3 + 0) as -> by lia.
        rewrite Hw0, Hval by lia. reflexivity.
      + intros Hc. unfold cell in Hc.
        rewrite Hk2, Hk1, Hk0 by lia. reflexivity. }
  intros y x c Hy Hx Hc.
  unfold PixelOps.convert_f32_to_u8. fold s.
  destruct (for_range_writes byte_at (holds_bytes (F:=F) n) 0 (CpuImage.height src)
              (λ y d,
                 for_range 0 (CpuImage.width src) (λ x d,
                   let src_index := x * 3 in
                   let dst_index := x * 3 in
                   let load c := PixelOps.float_to_u8
                                   (PixelOps.load_f32 (CpuImage.data src)
                                      (y * CpuImage.stride_bytes src) (src_index + c)) in
                   let d := PixelOps.store_u8 (y * s + dst_index + 0) (load 0) d in
                   let d := PixelOps.store_u8 (y * s + dst_index + 1) (load 1) d in
                   let d := PixelOps.store_u8 (y * s + dst_index + 2) (load 2) d in
                   if bool_decide (3 = 4)
                   then PixelOps.store_u8 (y * s + dst_index + 3) 255%Z d
                   else d) d)
              (λ y j, ∃ x, 0 ≤ x < CpuImage.width src ∧ cell y x j)
              val (CpuImage.data dst)) as [_ Hall].
  - intros y' j. unfold cell.
    destruct (decide (y' * s ≤ j < y' * s + CpuImage.width src * 3)) as [Hr|Hr].
    + left. exists ((j - y' * s) / 3). 
      pose proof (Nat.div_mod (j - y' * s) 3 ltac:(lia)).
      pose proof (Nat.mod_upper_bound (j - y' * s) 3 ltac:(lia)).
      assert ((j - y' * s) / 3 < CpuImage.width src).
      { apply Nat.Div0.div_lt_upper_bound. lia. }
      lia.
    + right. intros (x' & Hx' & Hc'). lia.
  - exact Hd.
  - intros y' acc [_ Hy'] Hacc. destruct (Hrows y' acc Hy' Hacc) as [Hinv Hcells].
    split; [exact Hinv|]. intros j. destruct (Hcells j) as [Hw Hk]. split.
    + exact Hw.
    + intros Hno. apply Hk. intros x' Hx' Hc'. apply Hno. exists x'. done.
  - destruct (Hall (y * s + x * 3 + c)) as [Hw _].
    etrans; [apply Hw; exists y; split; [lia|]; exists x; unfold cell; lia|].
    unfold val. rewrite <- Nat.add_assoc, row_cell_div, row_cell_mod by lia.
    reflexivity.
Qed.

Lemma row_offset_floats stride y :
  stride mod 4 = 0 → y * stride / 4 = y * (stride / 4).
Proof.
  intros Hm. pose proof (Nat.div_mod stride 4 ltac:(lia)) as Hs.
  rewrite Hm, Nat.add_0_r in Hs.
  rewrite Hs at 1. replace (y * (4 * (stride / 4))) with (y * (stride / 4) * 4) by lia.
  apply Nat.div_mul. lia.
Qed.

(** The row copies between float buffers write every float of every row. *)
Lemma copy_image_bytes_cells (src dst : CpuImage.t F) n fs :
  CpuImage.data src = Some (Floats fs) →
  holds_floats n (CpuImage.data dst) →
  CpuImage.stride_bytes dst mod 4 = 0 →
  CpuImage.row_bytes src / 4 ≤ CpuImage.stride_bytes dst / 4 →
  (∀ y k, y < CpuImage.height src → k < CpuImage.row_bytes src / 4 →
          y * CpuImage.stride_bytes dst / 4 + k < n) →
  ∀ y k, y < CpuImage.height src → k < CpuImage.row_bytes src / 4 →
    float_at (PixelOps.copy_image_bytes src dst)
             (y * CpuImage.stride_bytes dst / 4 + k)
    = Some (PixelOps.load_f32 (CpuImage.data src) (y * CpuImage.stride_bytes src) k).
Proof.
  intros Hsrc Hd Hmod Hstride Hin.
  set (s4 := CpuImage.stride_bytes dst / 4) in *.
  set (count := CpuImage.row_bytes src / 4) in *.
  set (val := λ j, PixelOps.load_f32 (CpuImage.data src)
                     (j / s4 * CpuImage.stride_bytes src) (j mod s4)).
  assert (Hoff : ∀ y, y * CpuImage.stride_bytes dst / 4 = y * s4).
  { intros y. apply row_offset_floats, Hmod. }
  intros y k Hy Hk. unfold PixelOps.copy_image_bytes.
  destruct (for_range_writes float_at (holds_floats (F:=F) n) 0 (CpuImage.height src)
              (λ y d,
                 PixelOps.memcpy (y * CpuImage.stride_bytes dst)
                   (y * CpuImage.stride_bytes src) (CpuImage.row_bytes src)
                   (CpuImage.data src) d)
              (λ y j, y * s4 ≤ j < y * s4 + count)
              val (CpuImage.data dst)) as [_ Hall].
  - intros y' j. lia.
  - exact Hd.
  - intros y' acc [_ Hy'] Hacc. unfold PixelOps.memcpy. rewrite Hsrc. fold count.
    destruct (for_range_writes float_at (holds_floats (F:=F) n) 0 count
                (λ k d,
                   PixelOps.store_f32 (y' * CpuImage.stride_bytes dst) k
                     (PixelOps.load_f32 (Some (Floats fs))
                        (y' * CpuImage.stride_bytes src) k) d)
                (λ k j, j = y' * s4 + k)
                val acc) as [Hinv Hcells].
    + intros k' j. lia.
    + exact Hacc.
    + intros k' d [_ Hk'] Hdn.
      destruct (store_f32_cell n (y' * CpuImage.stride_bytes dst) k'
                  (PixelOps.load_f32 (Some (Floats fs))
                     (y' * CpuImage.stride_bytes src) k') d Hdn)
        as (Hd' & Hw & Hkeep).
      { apply Hin; assumption. }
      split; [exact Hd'|]. intros j. rewrite Hoff in Hw, Hkeep. split.
      * intros ->. rewrite Hw. unfold val.
        rewrite row_cell_div, row_cell_mod, Hsrc by lia. reflexivity.
      * intros Hne. apply Hkeep, Hne.
    + split; [exact Hinv|]. intros j. destruct (Hcells j) as [Hw Hkeep]. split.
      * intros Hr. apply Hw. exists (j - y' * s4). lia.
      * intros Hr. apply Hkeep. intros k' Hk'. lia.
  - destruct (Hall (y * CpuImage.stride_bytes dst / 4 + k)) as [Hw _].
    etrans; [apply Hw; exists y; rewrite Hoff; lia|].
    unfold val. rewrite Hoff, row_cell_div, row_cell_mod by lia. reflexivity.
Qed.

Lemma convert_image_same_type (src dst : CpuImage.t F) :
  PixelOps.validate_image src = true → PixelOps.validate_image dst = true →
  CpuImage.width src = CpuImage.width dst →
  CpuImage.height src = CpuImage.height dst →
  CpuImage.type src = CpuImage.type dst →
  PixelOps.convert_image src dst = (true, PixelOps.copy_image_bytes src dst).
Proof.
  intros Hs Hd Hw Hh Ht. unfold PixelOps.convert_image.
  rewrite Hs, Hd. cbn [negb orb].
  rewrite bool_decide_eq_false_2 by tauto.
  rewrite bool_decide_eq_true_2 by exact Ht. reflexivity.
Qed.

Lemma convert_image_f32_to_u8 (src dst : CpuImage.t F) :
  PixelOps.validate_image src = true → PixelOps.validate_image dst = true →
  CpuImage.width src = CpuImage.width dst →
  CpuImage.height src = CpuImage.height dst →
  CpuImage.type src = F32_RGB → CpuImage.type dst = U8_RGB →
  PixelOps.convert_image src dst = (true, PixelOps.convert_f32_to_u8 3 src dst).
Proof.
  intros Hs Hd Hw Hh Hts Htd. unfold PixelOps.convert_image.
  rewrite Hs, Hd. cbn [negb orb].
  rewrite bool_decide_eq_false_2 by tauto.
  rewrite bool_decide_eq_false_2 by congruence.
  rewrite Hts, Htd. reflexivity.
Qed.

Lemma packed_row_offset width y : fits (width * 12) →
  y * wrap (width * 3 * 4) / 4 = y * width * 3.
Proof.
  intros Hf. rewrite wrap_fits by (eapply fits_le; [|exact Hf]; lia).
  replace (y * (width * 3 * 4)) with (y * width * 3 * 4) by lia.
  apply Nat.div_mul. lia.
Qed.

(** [from_float_image] into a valid buffer of a supported format returns
    true and stores every channel of every pixel. *)
Lemma from_float_image_ok (img : Image.t F) (output : CpuImage.t F) :
  PixelOps.validate_image output = true →
  Sanitize.supported_type (CpuImage.type output) = true →
  Image.width img = CpuImage.width output →
  Image.height img = CpuImage.height output →
  length (Image.pixels img) = CpuImage.height output * CpuImage.width output * 3 →
  fits (CpuImage.width output * CpuImage.height output * 12) →
  ∃ d', Sanitize.from_float_image img output = (true, d')
        ∧ same_shape (CpuImage.data output) d'
        ∧ (backed output →
           ∀ y x c, y < CpuImage.height output → x < CpuImage.width output → c < 3 →
             read_sample (CpuImage.with_data output d') y x c
             = Some (encode_sample (CpuImage.type output)
                       (nth ((y * CpuImage.width output + x) * 3 + c)
                            (Image.pixels img) (f_lit 0)))).
Proof.
  intros Hvo Hso Hw Hh Hlen Hfits.
  pose proof (proj1 (validate_image_true output) Hvo)
    as (_ & Hw0 & Hh0 & Hrow & _ & _ & Hmod).
  assert (Hfw : fits (CpuImage.width output * 12)).
  { eapply fits_le; [|exact Hfits]. nia. }
  assert (Hne : Image.pixels img ≠ []).
  { apply length_nonempty. rewrite Hlen. nia. }
  unfold Sanitize.from_float_image.
  rewrite bool_decide_eq_false_2 by tauto.
  rewrite bool_decide_eq_false_2 by exact Hne.
  rewrite Hw, Hh.
  set (view := CpuImage.mk F32_RGB (CpuImage.width output) (CpuImage.height output)
                 (wrap (CpuImage.width output * 3 * 4))
                 (PixelOps.vector_data (Image.pixels img))).
  assert (Hvv : PixelOps.validate_image view = true).
  { apply validate_float_view; assumption. }
  assert (Hvd : CpuImage.data view = Some (Floats (Image.pixels img))).
  { simpl. destruct (Image.pixels img); [contradiction|reflexivity]. }
  assert (Hload : ∀ y x c, x < CpuImage.width output → c < 3 →
            PixelOps.load_f32 (CpuImage.data view) (y * CpuImage.stride_bytes view)
                              (x * 3 + c)
            = nth ((y * CpuImage.width output + x) * 3 + c) (Image.pixels img)
                  (f_lit 0)).
  { intros y x c Hx Hc. rewrite Hvd. cbn [PixelOps.load_f32 CpuImage.stride_bytes view].
    rewrite packed_row_offset by exact Hfw. f_equal. lia. }
  unfold CpuImage.row_bytes in Hrow.
  destruct (supported_type_cases _ Hso) as [Ht|Ht].
  - (* 8-bit RGB output *)
    rewrite (convert_image_f32_to_u8 view output) by first [assumption|reflexivity].
    eexists. split; [reflexivity|].
    split; [apply convert_f32_to_u8_shape|].
    intros Hback y x c Hy Hx Hc.
    rewrite Ht in Hrow. change (bytes_per_pixel U8_RGB) with 3 in Hrow.
    rewrite wrap_fits in Hrow by (eapply fits_le; [|exact Hfw]; lia).
    assert (Hbytes : ∃ b, CpuImage.data output = Some (Bytes b) ∧
              ∀ y x c, y < CpuImage.height output → x < CpuImage.width output →
                       c < 3 → y * CpuImage.stride_bytes output + x * 3 + c < length b).
    { pose proof (Hback 0 0 0 ltac:(lia) ltac:(lia) ltac:(rewrite Ht; simpl; lia)) as H0.
      unfold read_sample in H0. rewrite Ht in H0.
      destruct (CpuImage.data output) as [[b|f]|] eqn:Hdata;
        try (destruct H0 as [? H0]; discriminate).
      exists b. split; [reflexivity|]. intros y' x' c' Hy' Hx' Hc'.
      pose proof (Hback y' x' c' Hy' Hx' ltac:(rewrite Ht; simpl; lia)) as H1.
      unfold read_sample in H1. rewrite Ht, Hdata in H1.
      destruct H1 as [v H1]. apply fmap_Some in H1 as (z & Hz & _).
      apply lookup_lt_Some in Hz. exact Hz. }
    destruct Hbytes as (b & Hdata & Hbound).
    pose proof (convert_f32_to_u8_cells view output (length b)
                  ltac:(exists b; split; [exact Hdata|reflexivity])
                  Hrow Hbound y x c Hy Hx Hc) as Hcell.
    rewrite Hload in Hcell by assumption.
    unfold read_sample. cbn [CpuImage.with_data CpuImage.type CpuImage.data
                             CpuImage.stride_bytes].
    rewrite Ht. unfold byte_at in Hcell.
    destruct (PixelOps.convert_f32_to_u8 3 view output) as [[b'|f']|];
      try discriminate.
    rewrite Hcell. reflexivity.
  - (* float output *)
    rewrite (convert_image_same_type view output)
      by first [assumption|reflexivity|symmetry; exact Ht].
    eexists. split; [reflexivity|].
    split; [apply copy_image_bytes_shape|].
    intros Hback y x c Hy Hx Hc.
    rewrite Ht in Hrow, Hmod. change (bytes_per_pixel F32_RGB) with 12 in Hrow.
    change (bytes_per_channel F32_RGB) with 4 in Hmod.
    rewrite wrap_fits in Hrow by exact Hfw.
    assert (Hcount : CpuImage.row_bytes view / 4 = CpuImage.width output * 3).
    { unfold CpuImage.row_bytes. cbn [CpuImage.width CpuImage.type view].
      change (bytes_per_pixel F32_RGB) with 12. rewrite wrap_fits by exact Hfw.
      replace (CpuImage.width output * 12) with (CpuImage.width output * 3 * 4) by lia.
      apply Nat.div_mul. lia. }
    assert (Hfloats : ∃ f, CpuImage.data output = Some (Floats f) ∧
              ∀ y x c, y < CpuImage.height output → x < CpuImage.width output →
                       c < 3 →
                       y * CpuImage.stride_bytes output / 4 + (x * 3 + c) < length f).
    { pose proof (Hback 0 0 0 ltac:(lia) ltac:(lia) ltac:(rewrite Ht; simpl; lia)) as H0.
      unfold read_sample in H0. rewrite Ht in H0.
      destruct (CpuImage.data output) as [[b|f]|] eqn:Hdata;
        try (destruct H0 as [? H0]; discriminate).
      exists f. split; [reflexivity|]. intros y' x' c' Hy' Hx' Hc'.
      pose proof (Hback y' x' c' Hy' Hx' ltac:(rewrite Ht; simpl; lia)) as H1.
      unfold read_sample in H1. rewrite Ht, Hdata in H1.
      destruct H1 as [v H1]. apply fmap_Some in H1 as (z & Hz & _).
      apply lookup_lt_Some in Hz. exact Hz. }
    destruct Hfloats as (f & Hdata & Hbound).
    pose proof (copy_image_bytes_cells view output (length f) (Image.pixels img)
                  Hvd ltac:(exists f; split; [exact Hdata|reflexivity]) Hmod) as Hcells.
    rewrite Hcount in Hcells.
    assert (Hs4 : CpuImage.width output * 3 ≤ CpuImage.stride_bytes output / 4).
    { replace (CpuImage.width output * 3)
        with (CpuImage.width output * 3 * 4 / 4) by (apply Nat.div_mul; lia).
      apply Nat.Div0.div_le_mono. lia. }
    specialize (Hcells Hs4).
    assert (Hb2 : ∀ y k, y < CpuImage.height view → k < CpuImage.width output * 3 →
               y * CpuImage.stride_bytes output / 4 + k < length f).
    { intros y' k Hy' Hk.
      pose proof (Nat.div_mod k 3 ltac:(lia)) as Hdm.
      pose proof (Nat.mod_upper_bound k 3 ltac:(lia)) as Hub.
      replace k with (k / 3 * 3 + k mod 3) by lia.
      apply Hbound; [exact Hy'| |exact Hub].
      apply Nat.Div0.div_lt_upper_bound. lia. }
    pose proof (Hcells Hb2 y (x * 3 + c) Hy ltac:(lia)) as Hcell.
    rewrite Hload in Hcell by assumption.
    unfold read_sample. cbn [CpuImage.with_data CpuImage.type CpuImage.data
                             CpuImage.stride_bytes].
    rewrite Ht. unfold float_at in Hcell.
    destruct (PixelOps.copy_image_bytes view output) as [[b'|f']|];
      try discriminate.
    rewrite Hcell. reflexivity.
Qed.

End StoreCells.

(** *** The whole pipeline under exact real arithmetic *)

Section RealSanitize.
Variable pool_size : nat.
Variable kQuantTableQ50 : list Z.
Hypothesis Hpool : fits (Nat.max 1 pool_size * 4).

(** On valid buffers of supported formats and equal, even dimensions every
    stage of [sanitize] returns a non-empty image. *)
Lemma sanitize_stages_ok (input output : CpuImage.t R) :
  PixelOps.validate_image input = true →
  PixelOps.validate_image output = true →
  Sanitize.supported_type (CpuImage.type input) = true →
  Sanitize.supported_type (CpuImage.type output) = true →
  CpuImage.width input = CpuImage.width output →
  CpuImage.height input = CpuImage.height output →
  CpuImage.width output mod 2 = 0 →
  CpuImage.height output mod 2 = 0 →
  fits (CpuImage.width output * CpuImage.height output * 12) →
  ∃ st, Sanitize.sanitize_stages pool_size kQuantTableQ50 input output = Some (Some st)
        ∧ Image.width (Sanitize.final_image st) = CpuImage.width output
        ∧ Image.height (Sanitize.final_image st) = CpuImage.height output
        ∧ length (Image.pixels (Sanitize.final_image st))
          = CpuImage.height output * CpuImage.width output * 3.
Proof.
  intros Hvi Hvo Hsi Hso Hw Hh Hwe Hhe Hfits.
  assert (Hf : ∀ n, n ≤ CpuImage.width output * CpuImage.height output * 12 → fits n).
  { intros n Hn. eapply fits_le; [exact Hn|exact Hfits]. }
  pose proof (proj1 (validate_image_true output) Hvo) as (_ & Hw0 & Hh0 & _).
  unfold Sanitize.sanitize_stages.
  rewrite Hvi, Hvo, Hsi, Hso. cbn [negb orb].
  rewrite bool_decide_eq_false_2 by lia.
  rewrite bool_decide_eq_false_2 by lia.
  rewrite bool_decide_eq_false_2 by lia.
  destruct (to_float_image_ok input Hvi Hsi) as (wp & -> & Hwl).
  { rewrite Hw, Hh. exact Hfits. }
  cbn [negb Image.width Image.height].
  rewrite Hw, Hh in *.
  set (W := CpuImage.width output) in *. set (H := CpuImage.height output) in *.
  destruct (scaled_dimension_quarter W ltac:(lia)) as [Hdw1 Hdw2].
  destruct (scaled_dimension_quarter H ltac:(lia)) as [Hdh1 Hdh2].
  set (dw := Sanitize.scaled_dimension W (f_lit 0.25)) in *.
  set (dh := Sanitize.scaled_dimension H (f_lit 0.25)) in *.
  assert (Hdd : dw * dh ≤ W * H) by (apply Nat.mul_le_mono; lia).
  assert (Hdh : W * dh ≤ W * H) by (apply Nat.mul_le_mono; lia).
  assert (Hdw : dw * H ≤ W * H) by (apply Nat.mul_le_mono; lia).
  assert (Hpos : 1 ≤ dw * dh) by nia.
  destruct (resample_cubic_ok pool_size Hpool (Image.mk W H wp) dw dh)
    as (low & -> & Hlw & Hlh & Hll); cbn [Image.width Image.height Image.pixels];
    try lia; try (apply Hf; rewrite ?Hwl; lia).
  cbn [mbind option_bind].
  rewrite bool_decide_eq_false_2 by (apply length_nonempty; rewrite Hll; nia).
  destruct (quantize_bitdepth_dims low 6) as (Hqw & Hqh & Hql).
  set (lowq := Bitdepth.quantize_bitdepth low 6) in *.
  destruct (dct8x8_hf_attenuate_ok pool_size Hpool kQuantTableQ50 lowq 60)
    as (filt & -> & Hfw & Hfh & Hfl).
  cbn [mbind option_bind].
  rewrite bool_decide_eq_false_2
    by (apply length_nonempty; rewrite Hfl, Hql, Hll; nia).
  set (filtered := Image.mk (Image.width filt) (Image.height filt)
                    (Sanitize.blend_low_res (Image.pixels filt) (Image.pixels lowq))).
  assert (Hbl : length (Image.pixels filtered)
                = Image.height filtered * Image.width filtered * 3).
  { simpl. rewrite blend_low_res_length, Hfl, Hql, Hll, Hfw, Hfh, Hqw, Hqh, Hlw, Hlh.
    reflexivity. }
  assert (Hbw : Image.width filtered = dw) by (simpl; congruence).
  assert (Hbh : Image.height filtered = dh) by (simpl; congruence).
  destruct (resample_cubic_ok pool_size Hpool filtered W H)
    as (up & -> & Huw & Huh & Hul);
    try lia; try (apply Hf; rewrite ?Hbl, ?Hbw, ?Hbh; nia).
  cbn [mbind option_bind].
  rewrite bool_decide_eq_false_2 by (apply length_nonempty; rewrite Hul; nia).
  assert (Hw2 : W = W / 2 * 2).
  { pose proof (Nat.div_mod W 2 ltac:(lia)). lia. }
  assert (Hh2 : H = H / 2 * 2).
  { pose proof (Nat.div_mod H 2 ltac:(lia)). lia. }
  assert (Hsw0 : W / 2 ≠ 0) by (intros E; rewrite E in Hw2; lia).
  assert (Hsh0 : H / 2 ≠ 0) by (intros E; rewrite E in Hh2; lia).
  rewrite bool_decide_eq_false_2 by tauto.
  destruct (resample_cubic_ok pool_size Hpool filtered (W / 2) (H / 2))
    as (sri & -> & Hsw & Hsh & Hsl);
    try lia; try (apply Hf; rewrite ?Hbl, ?Hbw, ?Hbh; nia).
  cbn [mbind option_bind].
  rewrite bool_decide_eq_false_2 by (apply length_nonempty; rewrite Hsl; nia).
  assert (Hwr : wrap (W * H * 3) = W * H * 3) by (apply wrap_fits, Hf; lia).
  rewrite Hwr.
  destruct (sr_lite_refine_ok pool_size Hpool (W / 2) (H / 2) (Image.pixels sri)
              (replicate (W * H * 3) (f_lit 0)))
    as (d & Hd & Hds).
  { lia. } { lia. }
  { apply length_nonempty. rewrite Hsl. nia. }
  { apply replicate_nonempty. nia. }
  { apply Hf. nia. }
  rewrite <- Hw2, <- Hh2 in Hd. rewrite Hd.
  cbn [mbind option_bind negb].
  eexists. split; [reflexivity|]. simpl.
  split; [reflexivity|]. split; [reflexivity|].
  rewrite blend_final_length, (same_shape_vector _ _ Hds), length_replicate. lia.
Qed.

End RealSanitize.

(** *** What a successful call has computed *)


Section Blend.
Context {F : Type} `{FloatOps F} `{TrigOps F}.
Variable pool_size : nat.
Variable kQuantTableQ50 : list Z.

Lemma updates_cells_insert_nth {A} (g : A → A) (i : nat) (d : A) (val : nat → A → A) :
  (∀ v, val i v = g v) →
  updates_cells (λ acc, <[i := g (nth i acc d)]> acc) (λ j, j = i) val.
Proof.
  intros Hval l. split; [apply length_insert|]. intros j. split.
  - intros ->. destruct (decide (i < length l)) as [Hlt|Hge].
    + rewrite list_lookup_insert_eq by exact Hlt.
      destruct (lookup_lt_is_Some_2 l i Hlt) as [x Hx].
      rewrite Hx. simpl. rewrite Hval. do 2 f_equal. apply nth_lookup_Some with (d := d).
      exact Hx.
    + rewrite !lookup_ge_None_2; [reflexivity|lia|rewrite length_insert; lia].
  - intros Hne. apply list_lookup_insert_ne. congruence.
Qed.

(** The final blend stores, at every index below [total_elements], the
    clamped mix of the three images at that index. *)
Lemma blend_final_cells total (sr_output upscaled working : list F) i :
  i < total → i < length sr_output →
  Sanitize.blend_final total sr_output upscaled working !! i
  = Some (Sanitize.sanitize_pixel
            (fadd (fadd (fmul Sanitize.sr_weight (nth i sr_output (f_lit 0)))
                        (fmul Sanitize.upscaled_weight (nth i upscaled (f_lit 0))))
                  (fmul Sanitize.original_weight (nth i working (f_lit 0))))).
Proof.
  intros Hi Hlen. unfold Sanitize.blend_final.
  set (g := λ i v, Sanitize.sanitize_pixel
                     (fadd (fadd (fmul Sanitize.sr_weight v)
                                 (fmul Sanitize.upscaled_weight (nth i upscaled (f_lit 0))))
                           (fmul Sanitize.original_weight (nth i working (f_lit 0))))).
  pose proof (updates_cells_for_range 0 total
                (λ i acc, <[i := g i (nth i acc (f_lit 0))]> acc)
                (λ i j, j = i) g) as Hloop.
  destruct (Hloop ltac:(intros k _; apply updates_cells_insert_nth; reflexivity)
                  ltac:(intros; congruence) sr_output) as [_ Hcells].
  destruct (Hcells i) as [Hin _].
  etrans; [apply Hin; exists i; lia|].
  destruct (lookup_lt_is_Some_2 sr_output i Hlen) as [x Hx].
  rewrite Hx, (nth_lookup_Some _ _ (f_lit 0) _ Hx). reflexivity.
Qed.

Lemma sr_lite_refine_shape (input output : CpuImage.t F) ok d :
  SrLite.sr_lite_refine pool_size input output = Some (ok, d) →
  same_shape (CpuImage.data output) d.
Proof.
  unfold SrLite.sr_lite_refine.
  repeat match goal with
  | |- (if ?b then _ else _) = _ → _ => destruct b
  end; try (intros [= <- <-]; apply same_shape_refl).
  destruct (PixelOps.convert_image input _) as [ok1 d1].
  destruct (negb ok1); [intros [= <- <-]; apply same_shape_refl|].
  destruct (SrLite.sr_lite_forward _ _ _ _ _) as [high|]; [|discriminate].
  cbn [mbind option_bind].
  match goal with
  | |- context [PixelOps.convert_image ?a ?b] =>
      pose proof (convert_image_shape a b) as Hs;
      destruct (PixelOps.convert_image a b) as [ok2 d2]
  end.
  simpl in Hs. destruct (negb ok2); intros [= <- <-]; exact Hs.
Qed.

(** The stages of a call that reaches the output conversion. *)
Lemma sanitize_stages_inv (input output : CpuImage.t F) st :
  Sanitize.sanitize_stages pool_size kQuantTableQ50 input output = Some (Some st) →
  Sanitize.to_float_image input = (true, Sanitize.working st) ∧
  Resample.resample_cubic pool_size (Sanitize.filtered st)
    (CpuImage.width output) (CpuImage.height output) = Some (Sanitize.upscaled st) ∧
  (∃ sr_data,
     SrLite.sr_lite_refine pool_size
       (CpuImage.mk F32_RGB (CpuImage.width output / 2) (CpuImage.height output / 2)
          (wrap (CpuImage.width output / 2 * 3 * 4))
          (PixelOps.vector_data (Image.pixels (Sanitize.sr_input st))))
       (CpuImage.mk F32_RGB (CpuImage.width output) (CpuImage.height output)
          (wrap (CpuImage.width output * 3 * 4))
          (PixelOps.vector_data
             (replicate (wrap (CpuImage.width output * CpuImage.height output * 3))
                        (f_lit 0))))
     = Some (true, sr_data) ∧
     Sanitize.sr_output st = PixelOps.floats_of sr_data) ∧
  Sanitize.final_image st
  = Image.mk (CpuImage.width output) (CpuImage.height output)
      (Sanitize.blend_final
         (wrap (CpuImage.width output * CpuImage.height output * 3))
         (Sanitize.sr_output st) (Image.pixels (Sanitize.upscaled st))
         (Image.pixels (Sanitize.working st))).
Proof.
  unfold Sanitize.sanitize_stages. intros Hst. stage_passes Hst.
  destruct (Sanitize.to_float_image input) as [ok working] eqn:Hto.
  destruct ok; [|discriminate]. stage_passes Hst.
  destruct (Resample.resample_cubic pool_size working _ _) as [low|] eqn:Hlow;
    [|discriminate].
  stage_passes Hst.
  destruct (Dct.dct8x8_hf_attenuate _ _ _ _) as [filt|] eqn:Hfilt; [|discriminate].
  stage_passes Hst.
  destruct (Resample.resample_cubic pool_size _ (CpuImage.width output) _)
    as [up|] eqn:Hup; [|discriminate].
  stage_passes Hst.
  destruct (Resample.resample_cubic pool_size _ (CpuImage.width output / 2) _)
    as [sri|] eqn:Hsri; [|discriminate].
  stage_passes Hst.
  destruct (SrLite.sr_lite_refine _ _ _) as [[ok sr_data]|] eqn:Hsr; [|discriminate].
  stage_passes Hst.
  destruct ok; [|discriminate]. stage_passes Hst.
  injection Hst as <-. cbn [Sanitize.working Sanitize.filtered Sanitize.upscaled
    Sanitize.sr_input Sanitize.sr_output Sanitize.final_image].
  split; [reflexivity|]. split; [exact Hup|]. split; [|reflexivity].
  exists sr_data. split; [exact Hsr|reflexivity].
Qed.

(** A call on an odd width or height returns false. *)
Lemma sanitize_stages_odd (input output : CpuImage.t F) :
  CpuImage.width output mod 2 ≠ 0 ∨ CpuImage.height output mod 2 ≠ 0 →
  Sanitize.sanitize_stages pool_size kQuantTableQ50 input output = Some None.
Proof.
  intros Hodd. unfold Sanitize.sanitize_stages.
  rewrite (bool_decide_eq_true_2 _ Hodd).
  repeat match goal with
  | |- (if ?b then Some None else _) = _ => destruct b; [reflexivity|]
  end.
  reflexivity.
Qed.

End Blend.

(** *** The pipeline on valid buffers *)

Lemma sanitize_pixel_R (v : R) :
  Sanitize.sanitize_pixel v = Rmax 0 (Rmin 1 v).
Proof.
  unfold Sanitize.sanitize_pixel, fclamp. cbn [fltb f_lit R_float].
  rewrite RMicromega.Q2R_0, RMicromega.Q2R_1.
  unfold R_ltb, Rmax, Rmin.
  destruct (Rlt_dec v 0), (Rlt_dec 1 v), (Rle_dec 1 v);
    try destruct (Rle_dec 0 1); try destruct (Rle_dec 0 v); lra.
Qed.

Lemma blend_weights_R :
  Sanitize.sr_weight = 0.15%R ∧ Sanitize.upscaled_weight = 0.35%R ∧
  Sanitize.original_weight = 0.5%R.
Proof.
  unfold Sanitize.original_weight, Sanitize.sr_weight, Sanitize.upscaled_weight.
  cbn [fsub f_lit R_float]. unfold Q2R. simpl. repeat split; lra.
Qed.

Section RealPipeline.
Variable pool_size : nat.
Variable kQuantTableQ50 : list Z.
Hypothesis Hpool : fits (Nat.max 1 pool_size * 4).

(** On valid buffers of supported formats and equal, even dimensions
    [sanitize] returns true, and the output buffer then holds the final
    image, converted to the output format. *)
Lemma sanitize_ok (input output : CpuImage.t R) :
  PixelOps.validate_image input = true →
  PixelOps.validate_image output = true →
  Sanitize.supported_type (CpuImage.type input) = true →
  Sanitize.supported_type (CpuImage.type output) = true →
  CpuImage.width input = CpuImage.width output →
  CpuImage.height input = CpuImage.height output →
  CpuImage.width output mod 2 = 0 →
  CpuImage.height output mod 2 = 0 →
  fits (CpuImage.width output * CpuImage.height output * 12) →
  ∃ d' st,
    Sanitize.sanitize_stages pool_size kQuantTableQ50 input output = Some (Some st)
    ∧ Sanitize.sanitize pool_size kQuantTableQ50 input output = Some (true, d')
    ∧ same_shape (CpuImage.data output) d'
    ∧ (backed output →
       ∀ y x c, y < CpuImage.height output → x < CpuImage.width output → c < 3 →
         read_sample (CpuImage.with_data output d') y x c
         = Some (encode_sample (CpuImage.type output)
                   (nth ((y * CpuImage.width output + x) * 3 + c)
                        (Image.pixels (Sanitize.final_image st)) (f_lit 0)))).
Proof.
  intros Hvi Hvo Hsi Hso Hw Hh Hwe Hhe Hfits.
  destruct (sanitize_stages_ok pool_size kQuantTableQ50 Hpool input output
              Hvi Hvo Hsi Hso Hw Hh Hwe Hhe Hfits) as (st & Hst & Hfw & Hfh & Hfl).
  destruct (from_float_image_ok (Sanitize.final_image st) output
              Hvo Hso Hfw Hfh Hfl Hfits) as (d' & Hfrom & Hshape & Hcells).
  exists d', st. split; [exact Hst|]. split; [|split; [exact Hshape|exact Hcells]].
  unfold Sanitize.sanitize. rewrite Hst. cbn [mbind option_bind].
  rewrite Hfrom. reflexivity.
Qed.

End RealPipeline.

(** C1. For buffers of equal dimensions: when both pass validation, both
    formats are supported and width and height are even, [sanitize]
    returns true and every channel of every pixel of the output buffer
    holds the corresponding sample of the final image, converted to the
    output format; when the width or the height is odd, [sanitize]
    returns false and the output is as before.  Arithmetic is exact real
    arithmetic, and the image is assumed to fit the address space
    ([width * height * 12] bytes, the size of its float form). *)
Theorem sanitize_even_true_odd_false (pool_size : nat) (kQuantTableQ50 : list Z)
    (input output : CpuImage.t R) :
  CpuImage.width input = CpuImage.width output →
  CpuImage.height input = CpuImage.height output →
  (fits (Nat.max 1 pool_size * 4) →
   fits (CpuImage.width output * CpuImage.height output * 12) →
   PixelOps.validate_image input = true →
   PixelOps.validate_image output = true →
   Sanitize.supported_type (CpuImage.type input) = true →
   Sanitize.supported_type (CpuImage.type output) = true →
   CpuImage.width output mod 2 = 0 →
   CpuImage.height output mod 2 = 0 →
   ∃ d' st,
     Sanitize.sanitize_stages pool_size kQuantTableQ50 input output = Some (Some st)
     ∧ Sanitize.sanitize pool_size kQuantTableQ50 input output = Some (true, d')
     ∧ same_shape (CpuImage.data output) d'
     ∧ (backed output →
        ∀ y x c, y < CpuImage.height output → x < CpuImage.width output → c < 3 →
          read_sample (CpuImage.with_data output d') y x c
          = Some (encode_sample (CpuImage.type output)
                    (nth ((y * CpuImage.width output + x) * 3 + c)
                         (Image.pixels (Sanitize.final_image st)) (f_lit 0)))))
  ∧ (CpuImage.width output mod 2 ≠ 0 ∨ CpuImage.height output mod 2 ≠ 0 →
     Sanitize.sanitize pool_size kQuantTableQ50 input output
     = Some (false, CpuImage.data output)).
Proof.
  intros Hw Hh. split.
  - intros Hpool Hfits Hvi Hvo Hsi Hso Hwe Hhe.
    apply sanitize_ok; assumption.
  - intros Hodd. unfold Sanitize.sanitize.
    rewrite sanitize_stages_odd by exact Hodd. reflexivity.
Qed.

Lemma sanitize_even_true_odd_false_witness :
  (∃ d', Sanitize.sanitize 4 (replicate 64 16%Z)
           (CpuImage.mk U8_RGB 2 2 6
              (Some (Bytes [255; 0; 0; 0; 255; 0; 0; 0; 255; 128; 128; 128]%Z)))
           (CpuImage.mk U8_RGB 2 2 6 (Some (Bytes (replicate 12 0%Z))))
         = Some (true, d')
         ∧ ∀ y x c, y < 2 → x < 2 → c < 3 →
             is_Some (read_sample
                        (CpuImage.mk (F:=R) U8_RGB 2 2 6 d') y x c))
  ∧ Sanitize.sanitize 4 (replicate 64 16%Z)
      (CpuImage.mk (F:=R) U8_RGB 3 2 9 (Some (Bytes (replicate 18 7%Z))))
      (CpuImage.mk U8_RGB 3 2 9 (Some (Bytes (replicate 18 0%Z))))
    = Some (false, Some (Bytes (replicate 18 0%Z))).
Proof.
  split.
  - destruct (proj1 (sanitize_even_true_odd_false 4 (replicate 64 16%Z)
                       (CpuImage.mk U8_RGB 2 2 6
                          (Some (Bytes [255; 0; 0; 0; 255; 0; 0; 0; 255;
                                        128; 128; 128]%Z)))
                       (CpuImage.mk U8_RGB 2 2 6 (Some (Bytes (replicate 12 0%Z))))
                       eq_refl eq_refl))
      as (d' & st & _ & Hs & _ & Hcells).
    + unfold fits, size_modulus. simpl. lia.
    + unfold fits, size_modulus. simpl. lia.
    + reflexivity.
    + reflexivity.
    + reflexivity.
    + reflexivity.
    + reflexivity.
    + reflexivity.
    + exists d'. split; [exact Hs|]. intros y x c Hy Hx Hc.
      eexists. apply Hcells; [|exact Hy|exact Hx|exact Hc].
      intros y' x' c' Hy' Hx' Hc'. simpl in Hy', Hx', Hc'.
      destruct y' as [|[|y']]; [| |lia];
        (destruct x' as [|[|x']]; [| |lia]);
        (destruct c' as [|[|[|c']]]; [| | |lia]); simpl; eauto.
  - apply (proj2 (sanitize_even_true_odd_false 4 (replicate 64 16%Z)
                    (CpuImage.mk U8_RGB 3 2 9 (Some (Bytes (replicate 18 7%Z))))
                    (CpuImage.mk U8_RGB 3 2 9 (Some (Bytes (replicate 18 0%Z))))
                    eq_refl eq_refl)).
    left. simpl. lia.
Defined.

(** C3. After a successful call, every sample of the final float image,
    the one handed to the output conversion, is
    [clamp(0.15 * B + 0.35 * A + 0.5 * O, 0, 1)]: [B] the output of the
    regeneration network, [A] the cubic upscale of the blended
    low-resolution image, [O] the float form of the input, at the same
    index.  Arithmetic is exact real arithmetic. *)
Theorem sanitize_final_blend (pool_size : nat) (kQuantTableQ50 : list Z)
    (input output : CpuImage.t R) (d' : option (Storage R)) :
  Sanitize.sanitize pool_size kQuantTableQ50 input output = Some (true, d') →
  ∃ st,
    Sanitize.sanitize_stages pool_size kQuantTableQ50 input output = Some (Some st)
    ∧ Sanitize.from_float_image (Sanitize.final_image st) output = (true, d')
    ∧ Sanitize.to_float_image input = (true, Sanitize.working st)
    ∧ Resample.resample_cubic pool_size (Sanitize.filtered st)
        (CpuImage.width output) (CpuImage.height output)
      = Some (Sanitize.upscaled st)
    ∧ (∃ sr_data,
         SrLite.sr_lite_refine pool_size
           (CpuImage.mk F32_RGB (CpuImage.width output / 2) (CpuImage.height output / 2)
              (wrap (CpuImage.width output / 2 * 3 * 4))
              (PixelOps.vector_data (Image.pixels (Sanitize.sr_input st))))
           (CpuImage.mk F32_RGB (CpuImage.width output) (CpuImage.height output)
              (wrap (CpuImage.width output * 3 * 4))
              (PixelOps.vector_data
                 (replicate (wrap (CpuImage.width output * CpuImage.height output * 3))
                            (f_lit 0))))
         = Some (true, sr_data)
         ∧ Sanitize.sr_output st = PixelOps.floats_of sr_data)
    ∧ length (Image.pixels (Sanitize.final_image st))
      = wrap (CpuImage.width output * CpuImage.height output * 3)
    ∧ ∀ i, i < length (Image.pixels (Sanitize.final_image st)) →
        Image.pixels (Sanitize.final_image st) !! i
        = Some (Rmax 0 (Rmin 1
                  (0.15 * nth i (Sanitize.sr_output st) 0
                   + 0.35 * nth i (Image.pixels (Sanitize.upscaled st)) 0
                   + 0.5 * nth i (Image.pixels (Sanitize.working st)) 0)))%R.
Proof.
  intros Hs. unfold Sanitize.sanitize in Hs.
  destruct (Sanitize.sanitize_stages pool_size kQuantTableQ50 input output)
    as [[st|]|] eqn:Hst; cbn [mbind option_bind] in Hs; try discriminate.
  destruct (Sanitize.from_float_image (Sanitize.final_image st) output)
    as [ok d''] eqn:Hfrom.
  destruct ok; cbn [negb] in Hs; [|discriminate]. injection Hs as <-.
  exists st.
  destruct (sanitize_stages_inv pool_size kQuantTableQ50 input output st Hst)
    as (Hto & Hup & (sr_data & Hsr & Hso) & Hfinal).
  assert (Hlen : length (Sanitize.sr_output st)
                 = wrap (CpuImage.width output * CpuImage.height output * 3)).
  { rewrite Hso.
    rewrite (same_shape_vector _ _ (sr_lite_refine_shape pool_size _ _ _ _ Hsr)).
    apply length_replicate. }
  split; [reflexivity|]. split; [exact Hfrom|]. split; [exact Hto|].
  split; [exact Hup|]. split; [exists sr_data; split; [exact Hsr|exact Hso]|].
  rewrite Hfinal. cbn [Image.pixels]. rewrite blend_final_length.
  split; [exact Hlen|]. intros i Hi.
  rewrite blend_final_cells by lia.
  rewrite sanitize_pixel_R.
  destruct blend_weights_R as (-> & -> & ->).
  cbn [fadd fmul f_lit R_float]. rewrite RMicromega.Q2R_0. reflexivity.
Qed.

Lemma sanitize_final_blend_witness :
  ∃ d' st,
    Sanitize.sanitize 4 (replicate 64 16%Z)
      (CpuImage.mk U8_RGB 2 2 6
         (Some (Bytes [255; 0; 0; 0; 255; 0; 0; 0; 255; 128; 128; 128]%Z)))
      (CpuImage.mk F32_RGB 2 2 24 (Some (Floats (replicate 12 0%R))))
    = Some (true, d')
    ∧ length (Image.pixels (Sanitize.final_image st)) = 12
    ∧ ∀ i, i < 12 →
        Image.pixels (Sanitize.final_image st) !! i
        = Some (Rmax 0 (Rmin 1
                  (0.15 * nth i (Sanitize.sr_output st) 0
                   + 0.35 * nth i (Image.pixels (Sanitize.upscaled st)) 0
                   + 0.5 * nth i (Image.pixels (Sanitize.working st)) 0)))%R.
Proof.
  destruct (sanitize_ok 4 (replicate 64 16%Z)
              ltac:(unfold fits, size_modulus; simpl; lia)
              (CpuImage.mk U8_RGB 2 2 6
                 (Some (Bytes [255; 0; 0; 0; 255; 0; 0; 0; 255; 128; 128; 128]%Z)))
              (CpuImage.mk F32_RGB 2 2 24 (Some (Floats (replicate 12 0%R))))
              eq_refl eq_refl eq_refl eq_refl eq_refl eq_refl eq_refl eq_refl
              ltac:(unfold fits, size_modulus; simpl; lia))
    as (d' & st0 & _ & Hs & _).
  destruct (sanitize_final_blend 4 (replicate 64 16%Z) _ _ d' Hs)
    as (st & _ & _ & _ & _ & _ & Hlen & Hcells).
  exists d', st. split; [exact Hs|].
  change (wrap (2 * 2 * 3)) with 12 in Hlen.
  split; [exact Hlen|]. intros i Hi. apply Hcells. rewrite Hlen. exact Hi.
Defined.

(** ** Facts about the security helpers *)

Lemma starts_with_app needle data :
  Security.starts_with needle data = true ↔ ∃ post, data = needle ++ post.
Proof.
  revert data. induction needle as [|c needle IH]; intros data; simpl.
  - split; [eauto|reflexivity].
  - destruct data as [|d data].
    + split; [discriminate|]. intros (post & Hp). discriminate.
    + rewrite andb_true_iff, IH, Z.eqb_eq. split.
      * intros (-> & post & ->). eauto.
      * intros (post & [= -> ->]). eauto.
Qed.

Lemma search_found data needle :
  Security.search data needle ≠ None ↔ ∃ pre post, data = pre ++ needle ++ post.
Proof.
  induction data as [|d data IH]; simpl.
  - destruct (Security.starts_with needle []) eqn:Hs.
    + apply starts_with_app in Hs as (post & Hp). split; [|done].
      intros _. exists [], post. exact Hp.
    + split; [done|]. intros (pre & post & Hp).
      destruct pre; [|discriminate]. simpl in Hp.
      assert (Security.starts_with needle [] = true) by (apply starts_with_app; eauto).
      congruence.
  - destruct (Security.starts_with needle (d :: data)) eqn:Hs.
    + apply starts_with_app in Hs as (post & Hp). split; [|done].
      intros _. exists [], post. exact Hp.
    + split.
      * intros Hf. destruct (Security.search data needle) eqn:Hsd; [|done].
        destruct (proj1 IH ltac:(done)) as (pre & post & ->).
        exists (d :: pre), post. reflexivity.
      * intros (pre & post & Hp). destruct pre as [|p pre].
        { assert (Security.starts_with needle (d :: data) = true)
            by (apply starts_with_app; eauto).
          congruence. }
        injection Hp as -> ->.
        destruct (Security.search (pre ++ needle ++ post) needle) eqn:Hsd; [done|].
        exfalso. apply (proj2 IH); [eauto|reflexivity].
Qed.

Lemma contains_signature_spec bytes needle :
  Security.contains_signature (Some bytes) needle = true ↔
  needle ≠ [] ∧ ∃ pre post, bytes = pre ++ needle ++ post.
Proof.
  unfold Security.contains_signature.
  case_bool_decide as Hn; [split; [discriminate|tauto]|].
  case_bool_decide as Hl.
  - split; [discriminate|]. intros (_ & pre & post & ->).
    rewrite !length_app in Hl. lia.
  - rewrite bool_decide_eq_true, search_found. tauto.
Qed.

(** X1. [suspicious_polyglot_bytes] answers true exactly when the buffer
    holds one of the eight signatures as a run of consecutive bytes; a
    null pointer is never flagged. *)
Theorem suspicious_polyglot_bytes_spec (bytes : list Z) :
  (Security.suspicious_polyglot_bytes (Some bytes) = true ↔
   ∃ sig pre post, sig ∈ Security.signatures ∧ bytes = pre ++ sig ++ post)
  ∧ Security.suspicious_polyglot_bytes None = false.
Proof.
  split; [|reflexivity]. unfold Security.suspicious_polyglot_bytes.
  case_bool_decide as Hlen.
  - split; [discriminate|]. intros (sig & pre & post & Hsig & ->).
    rewrite !length_app in Hlen.
    assert (length sig ≠ 0); [|lia].
    unfold Security.signatures in Hsig.
    repeat (apply elem_of_cons in Hsig as [->|Hsig]; [simpl; lia|]).
    apply elem_of_nil in Hsig. contradiction.
  - rewrite existsb_exists. split.
    + intros (sig & Hin & Hc). apply contains_signature_spec in Hc as (_ & pre & post & ->).
      exists sig, pre, post. split; [|reflexivity]. apply list_elem_of_In. exact Hin.
    + intros (sig & pre & post & Hsig & ->). exists sig. split.
      * apply list_elem_of_In. exact Hsig.
      * apply contains_signature_spec. split; [|eauto].
        unfold Security.signatures in Hsig.
        repeat (apply elem_of_cons in Hsig as [->|Hsig]; [discriminate|]).
        apply elem_of_nil in Hsig. contradiction.
Qed.

Lemma fleb_R (a b : R) : fleb a b = true ↔ (a <= b)%R.
Proof.
  unfold fleb. cbn [fltb feqb R_float]. unfold R_ltb, R_eqb.
  destruct (Rlt_dec a b), (Req_dec_T a b); simpl; split; intros; try lra; done.
Qed.

(** X2. [exceeds_pixel_cap] under exact arithmetic: an image with a zero
    dimension never exceeds the cap; a cap that is not a number or is
    positive infinity is never exceeded; a finite cap is exceeded exactly
    when it is not positive or [width * height] is above the cap times one
    million. *)
Theorem exceeds_pixel_cap_spec (width height : nat) (cap : R) :
  (Security.exceeds_pixel_cap width height (Finite cap) = true ↔
   width ≠ 0 ∧ height ≠ 0 ∧
   (cap <= 0 ∨ cap * 1000000 < INR width * INR height)%R)
  ∧ Security.exceeds_pixel_cap (F:=R) width height NaN = false
  ∧ Security.exceeds_pixel_cap (F:=R) width height PosInf = false
  ∧ (Security.exceeds_pixel_cap (F:=R) width height NegInf = true ↔
     width ≠ 0 ∧ height ≠ 0).
Proof.
  unfold Security.exceeds_pixel_cap.
  case_bool_decide as Hz.
  - repeat split; try discriminate; intros; lia.
  - split; [|repeat split; try done; lia].
    destruct (fleb cap (f_lit 0)) eqn:Hc.
    + apply fleb_R in Hc. cbn [f_lit R_float] in Hc. rewrite RMicromega.Q2R_0 in Hc.
      split; [|done]. intros _. repeat split; try lia. left. exact Hc.
    + assert (Hpos : (0 < cap)%R).
      { destruct (Rlt_dec 0 cap) as [Hlt|Hge]; [exact Hlt|].
        assert (fleb cap (f_lit 0) = true); [|congruence].
        apply fleb_R. cbn [f_lit R_float]. rewrite RMicromega.Q2R_0. lra. }
      destruct (fleb (fmul cap (f_of_Z Security.kMegapixel)) (f_lit 0)) eqn:Hl.
      { apply fleb_R in Hl. cbn [f_lit fmul f_of_Z R_float] in Hl.
        rewrite RMicromega.Q2R_0 in Hl. unfold Security.kMegapixel in Hl. lra. }
      unfold fgtb. cbn [fltb fmul f_of_Z R_float]. unfold Security.kMegapixel.
      rewrite <- !INR_IZR_INZ. unfold R_ltb.
      destruct (Rlt_dec (cap * 1000000) (INR width * INR height)).
      * split; [|done]. intros _. repeat split; try lia. right. assumption.
      * split; [discriminate|]. intros (_ & _ & [Hle|Hlt]); lra.
Qed.

(** ** More facts about format conversion *)

Lemma Zfloor_IZR_half (n : Z) : Zfloor (IZR n + / 2) = n.
Proof. apply Zfloor_eq. lra. Qed.

Lemma Zfloor_IZR (n : Z) : Zfloor (IZR n) = n.
Proof. apply Zfloor_eq. lra. Qed.

Lemma R_round_away_IZR (n : Z) : R_round_away (IZR n) = n.
Proof.
  unfold R_round_away. destruct (Rle_dec 0 (IZR n)).
  - apply Zfloor_IZR_half.
  - rewrite <- opp_IZR, Zfloor_IZR_half. lia.
Qed.

Lemma R_round_away_bounds (x : R) (lo hi : Z) :
  (IZR lo <= x <= IZR hi)%R → (lo ≤ R_round_away x ≤ hi)%Z.
Proof.
  intros [Hlo Hhi]. unfold R_round_away. destruct (Rle_dec 0 x).
  - pose proof (Zfloor_bound (x + / 2)) as [H1 H2]. split.
    + apply Z.lt_succ_r, lt_IZR. rewrite succ_IZR. lra.
    + apply Z.lt_succ_r, lt_IZR. rewrite succ_IZR. lra.
  - pose proof (Zfloor_bound (- x + / 2)) as [H1 H2]. split.
    + apply Z.lt_succ_r, lt_IZR. rewrite succ_IZR, opp_IZR. lra.
    + apply Z.lt_succ_r, lt_IZR. rewrite succ_IZR, opp_IZR. lra.
Qed.

Lemma fclamp_R_bounds (v lo hi : R) :
  (lo <= hi)%R → (lo <= fclamp v lo hi <= hi)%R.
Proof.
  intros Hle. unfold fclamp. cbn [fltb R_float]. unfold R_ltb.
  destruct (Rlt_dec v lo); [lra|]. destruct (Rlt_dec hi v); lra.
Qed.

Lemma fclamp_unit_interval_gen (v lo hi : R) :
  (lo <= v <= hi)%R → fclamp v lo hi = v.
Proof.
  intros Hv. unfold fclamp. cbn [fltb R_float]. unfold R_ltb.
  destruct (Rlt_dec v lo); [lra|]. destruct (Rlt_dec hi v); [lra|reflexivity].
Qed.

Lemma float_to_u8_R (v : R) :
  PixelOps.float_to_u8 v
  = R_round_away (fclamp v 0 1 * 255)%R.
Proof.
  unfold PixelOps.float_to_u8. cbn [f_lit f_round f_trunc fmul R_float].
  rewrite RMicromega.Q2R_0, RMicromega.Q2R_1.
  replace (Q2R 255) with 255%R by (unfold Q2R; simpl; lra).
  pose proof (fclamp_R_bounds v 0 1 ltac:(lra)) as Hv.
  assert (Hr : (0 ≤ R_round_away (fclamp v 0 1 * 255)%R ≤ 255)%Z).
  { apply R_round_away_bounds. lra. }
  set (r := R_round_away (fclamp v 0 1 * 255)%R) in *.
  rewrite (fclamp_unit_interval_gen (IZR r) 0 255)%R; cycle 1.
  { split; apply IZR_le; lia. }
  unfold R_trunc. destruct (Rle_dec 0 (IZR r)) as [_|Hn].
  - apply Zfloor_IZR.
  - exfalso. apply Hn. apply IZR_le. lia.
Qed.

(** X3. [float_to_u8] under exact arithmetic: the result is a byte
    whatever the input, values at or below 0 give 0 and values at or above
    1 give 255, and converting a byte to float ([b * kInv255]) and back
    returns the byte. *)
Theorem float_to_u8_byte_round_trip (v : R) (b : Z) :
  (0 ≤ PixelOps.float_to_u8 v ≤ 255)%Z
  ∧ ((v <= 0)%R → PixelOps.float_to_u8 v = 0%Z)
  ∧ ((1 <= v)%R → PixelOps.float_to_u8 v = 255%Z)
  ∧ ((0 ≤ b ≤ 255)%Z →
     PixelOps.float_to_u8 (fmul (f_of_Z b) PixelOps.kInv255) = b).
Proof.
  rewrite !float_to_u8_R. split; [|split; [|split]].
  - apply R_round_away_bounds. pose proof (fclamp_R_bounds v 0 1 ltac:(lra)). lra.
  - intros Hv. unfold fclamp. cbn [fltb R_float]. unfold R_ltb.
    destruct (Rlt_dec v 0).
    + rewrite Rmult_0_l. apply (R_round_away_IZR 0).
    + destruct (Rlt_dec 1 v); [lra|]. replace v with 0%R by lra.
      rewrite Rmult_0_l. apply (R_round_away_IZR 0).
  - intros Hv. unfold fclamp. cbn [fltb R_float]. unfold R_ltb.
    destruct (Rlt_dec v 0); [lra|].
    destruct (Rlt_dec 1 v).
    + rewrite Rmult_1_l. apply (R_round_away_IZR 255).
    + replace v with 1%R by lra. rewrite Rmult_1_l. apply (R_round_away_IZR 255).
  - intros Hb.
    unfold PixelOps.kInv255. cbn [fmul fdiv f_of_Z f_lit R_float].
    rewrite RMicromega.Q2R_1.
    replace (Q2R 255) with 255%R by (unfold Q2R; simpl; lra).
    assert (H0 : (0 <= IZR b)%R) by (apply IZR_le; lia).
    assert (H1 : (IZR b <= 255)%R) by (apply IZR_le; lia).
    rewrite (fclamp_unit_interval_gen (IZR b * (1 / 255)) 0 1)%R by lra.
    replace (IZR b * (1 / 255) * 255)%R with (IZR b) by field.
    apply R_round_away_IZR.
Qed.

(** ** More facts about the cubic kernel and the mirrored index *)

(** [cubic_kernel] under exact arithmetic, as a function of [|x|]. *)
Lemma cubic_kernel_R (x : R) :
  Resample.cubic_kernel x
  = (if Rlt_dec (Rabs x) 1
     then 3 / 2 * Rabs x ^ 3 - 5 / 2 * Rabs x ^ 2 + 1
     else if Rlt_dec (Rabs x) 2
          then - / 2 * Rabs x ^ 3 + 5 / 2 * Rabs x ^ 2 - 4 * Rabs x + 2
          else 0)%R.
Proof.
  unfold Resample.cubic_kernel, Resample.kCubicParameter.
  cbn [fabs fmul fadd fsub fltb f_lit R_float]. unfold R_ltb.
  rewrite RMicromega.Q2R_0, RMicromega.Q2R_1.
  replace (Q2R 2) with 2%R by (unfold Q2R; simpl; lra).
  replace (Q2R 3) with 3%R by (unfold Q2R; simpl; lra).
  replace (Q2R 4) with 4%R by (unfold Q2R; simpl; lra).
  replace (Q2R 5) with 5%R by (unfold Q2R; simpl; lra).
  replace (Q2R 8) with 8%R by (unfold Q2R; simpl; lra).
  replace (Q2R (-0.5)) with (- / 2)%R by (unfold Q2R; simpl; lra).
  destruct (Rlt_dec (Rabs x) 1); [lra|].
  destruct (Rlt_dec (Rabs x) 2); lra.
Qed.

(** X4. The cubic kernel under exact arithmetic is even, vanishes from
    distance 2 on, is 1 at 0 and 0 at every other integer (the resampler
    interpolates), and the weights of the four taps around any position
    sum to one. *)
Theorem cubic_kernel_interpolates (x t : R) (n : Z) :
  Resample.cubic_kernel (- x)%R = Resample.cubic_kernel x
  ∧ ((2 <= Rabs x)%R → Resample.cubic_kernel x = 0%R)
  ∧ Resample.cubic_kernel (IZR n) = (if (n =? 0)%Z then 1 else 0)%R
  ∧ ((0 <= t < 1)%R →
     (Resample.cubic_kernel (t + 1) + Resample.cubic_kernel t
      + Resample.cubic_kernel (t - 1) + Resample.cubic_kernel (t - 2) = 1)%R).
Proof.
  split; [|split; [|split]].
  - rewrite !cubic_kernel_R, Rabs_Ropp. reflexivity.
  - intros Hx. rewrite cubic_kernel_R.
    destruct (Rlt_dec (Rabs x) 1); [lra|]. destruct (Rlt_dec (Rabs x) 2); [lra|reflexivity].
  - rewrite cubic_kernel_R, <- abs_IZR.
    destruct (Z.eqb_spec n 0) as [->|Hn].
    + change (Z.abs 0) with 0%Z. destruct (Rlt_dec 0 1); lra.
    + destruct (Rlt_dec (IZR (Z.abs n)) 1) as [H1|H1].
      { apply lt_IZR in H1. lia. }
      destruct (Rlt_dec (IZR (Z.abs n)) 2) as [H2|H2]; [|reflexivity].
      apply lt_IZR in H2. replace (Z.abs n) with 1%Z by lia. lra.
  - intros Ht. rewrite !cubic_kernel_R.
    rewrite (Rabs_right (t + 1)), (Rabs_right t) by lra.
    rewrite (Rabs_left1 (t - 1)), (Rabs_left1 (t - 2)) by lra.
    destruct (Rlt_dec (t + 1) 1); [lra|].
    destruct (Rlt_dec (t + 1) 2); [|lra].
    destruct (Rlt_dec t 1); [|lra].
    destruct (Rlt_dec (- (t - 1)) 1), (Rlt_dec (- (t - 1)) 2),
             (Rlt_dec (- (t - 2)) 1), (Rlt_dec (- (t - 2)) 2); try lra;
      try (replace t with 0%R by lra; lra).
Qed.

(** X5. [mirror_index] maps every signed index into the source, keeps the
    indices that are already inside, and reflects about the first and the
    last sample without repeating them: [-i] goes to [i] and
    [length - 1 + i] to [length - 1 - i]. *)
Theorem mirror_index_reflects (length : nat) (idx i : Z) :
  0 < length → fits (length * 2) →
  Resample.mirror_index idx length < length
  ∧ ((0 ≤ i < Z.of_nat length)%Z →
     Resample.mirror_index i length = Z.to_nat i
     ∧ Resample.mirror_index (- i) length = Z.to_nat i
     ∧ Resample.mirror_index (Z.of_nat length - 1 + i) length
       = Z.to_nat (Z.of_nat length - 1 - i)).
Proof.
  intros Hl Hf. split; [apply mirror_index_lt; assumption|]. intros Hi.
  split; [apply mirror_index_id; assumption|].
  unfold Resample.mirror_index.
  rewrite bool_decide_eq_false_2 by lia.
  case_bool_decide as H1; [split; lia|].
  rewrite mirror_period by (try exact Hf; lia).
  set (period := (2 * Z.of_nat length - 2)%Z).
  assert (Hp : (0 < period)%Z) by (unfold period; lia).
  destruct (Z.eqb_spec period 0); [lia|]. split.
  - rewrite Z.rem_opp_l by lia.
    assert (Hrem : Z.rem i period = i ∨ (i = period ∧ Z.rem i period = 0%Z)).
    { destruct (decide (i < period)%Z).
      - left. apply Z.rem_small. lia.
      - right. assert (i = period) as -> by (unfold period in *; lia).
        split; [reflexivity|]. apply Z.rem_same. lia. }
    destruct Hrem as [->|[-> ->]].
    + destruct (Z.ltb_spec (- i) 0).
      * rewrite Z.geb_leb.
        destruct (Z.leb_spec (Z.of_nat length) (- i + period)); f_equal;
          unfold period in *; lia.
      * rewrite Z.geb_leb.
        destruct (Z.leb_spec (Z.of_nat length) (- i)); f_equal; lia.
    + simpl. rewrite Z.geb_leb.
      destruct (Z.leb_spec (Z.of_nat length) 0); unfold period in *; lia.
  - assert (Hrem : Z.rem (Z.of_nat length - 1 + i) period
                   = (if (i =? Z.of_nat length - 1)%Z then 0
                      else Z.of_nat length - 1 + i)%Z).
    { destruct (Z.eqb_spec i (Z.of_nat length - 1)) as [->|Hne].
      - replace (Z.of_nat length - 1 + (Z.of_nat length - 1))%Z with period
          by (unfold period; lia).
        apply Z.rem_same. lia.
      - apply Z.rem_small. unfold period. lia. }
    rewrite Hrem. destruct (Z.eqb_spec i (Z.of_nat length - 1)) as [->|Hne].
    + simpl. rewrite Z.geb_leb.
      destruct (Z.leb_spec (Z.of_nat length) 0); f_equal; lia.
    + destruct (Z.ltb_spec (Z.of_nat length - 1 + i) 0); [lia|].
      rewrite Z.geb_leb.
      destruct (Z.leb_spec (Z.of_nat length) (Z.of_nat length - 1 + i)); f_equal;
        unfold period; lia.
Qed.

Lemma mirror_index_reflects_witness :
  Resample.mirror_index (-7) 5 < 5
  ∧ Resample.mirror_index 3 5 = 3
  ∧ Resample.mirror_index (-3) 5 = 3
  ∧ Resample.mirror_index 7 5 = 1.
Proof.
  destruct (mirror_index_reflects 5 (-7) 3) as [Hlt Hrefl].
  - lia.
  - unfold fits, size_modulus. simpl. lia.
  - destruct (Hrefl ltac:(lia)) as (H1 & H2 & H3).
    split; [exact Hlt|]. split; [exact H1|]. split; [exact H2|exact H3].
Defined.

(** ** More facts about the resampler *)

Lemma accumulate_sum (phase : CubicPhase.t R) (sample : nat → R) (v : R) n :
  n ≤ length (CubicPhase.weights phase) →
  (∀ tap, tap < n → sample (nth tap (CubicPhase.indices phase) 0) = v) →
  for_range 0 n (λ tap accum,
    fadd accum (fmul (nth tap (CubicPhase.weights phase) (f_lit 0))
                     (sample (nth tap (CubicPhase.indices phase) 0)))) (f_lit 0)
  = (sum_weights (take n (CubicPhase.weights phase)) * v)%R.
Proof.
  induction n as [|n IH]; intros Hn Hs.
  - rewrite for_range_empty by lia. cbn [f_lit R_float].
    rewrite RMicromega.Q2R_0. simpl. lra.
  - rewrite for_range_snoc by lia. rewrite IH by (try lia; intros; apply Hs; lia).
    cbn [fadd fmul R_float]. rewrite Hs by lia.
    destruct (lookup_lt_is_Some_2 (CubicPhase.weights phase) n ltac:(lia)) as [w Hw].
    rewrite (take_S_r _ _ _ Hw), sum_weights_snoc.
    rewrite (nth_lookup_Some _ _ _ _ Hw). lra.
Qed.

(** A well-formed entry applied to samples that all equal [v] gives [v]. *)
Lemma accumulate_constant src_size (phase : CubicPhase.t R) (sample : nat → R) (v : R) :
  phase_ok src_size phase →
  (∀ i, i < src_size → sample i = v) →
  Resample.accumulate phase sample = v.
Proof.
  intros (Hlen & _ & Hidx & Hsum) Hs. unfold Resample.accumulate.
  rewrite (accumulate_sum phase sample v) by
    first [ lia
          | intros tap Htap; apply Hs;
            destruct (lookup_lt_is_Some_2 (CubicPhase.indices phase) tap Htap) as [i Hi];
            rewrite (nth_lookup_Some _ _ _ _ Hi);
            exact (Forall_lookup_1 _ _ _ _ Hidx Hi) ].
  rewrite Hlen, firstn_all, Hsum. lra.
Qed.

Lemma nth_replicate_lt {A} (v d : A) n i : i < n → nth i (replicate n v) d = v.
Proof.
  intros Hi. apply nth_lookup_Some. apply lookup_replicate_2. exact Hi.
Qed.

Lemma table_entry_ok src_size (table : list (CubicPhase.t R)) i :
  Forall (phase_ok src_size) table → i < length table →
  phase_ok src_size (nth i table CubicPhase.empty).
Proof.
  intros Hall Hi. destruct (lookup_lt_is_Some_2 table i Hi) as [p Hp].
  rewrite (nth_lookup_Some _ _ _ _ Hp). exact (Forall_lookup_1 _ _ _ _ Hall Hp).
Qed.

(** X6. Resampling a flat image -- every sample equal to one value [v] in
    [[0, 1]] -- to any size gives the flat image of that size: the weights
    of every table entry sum to one. *)
Theorem resample_cubic_flat (pool_size width height channels new_width new_height : nat)
    (v : R) :
  width ≠ 0 → height ≠ 0 → channels ≠ 0 → new_width ≠ 0 → new_height ≠ 0 →
  (0 <= v <= 1)%R →
  fits (height * width * channels * 2) →
  fits (new_height * new_width * channels) →
  fits (height * new_width * channels) →
  fits (Nat.max 1 pool_size * 4) →
  Resample.resample_cubic pool_size
    (Image.mk width height (replicate (height * width * channels) v))
    new_width new_height
  = Some (Image.mk new_width new_height
            (replicate (new_height * new_width * channels) v)).
Proof.
  intros Hw Hh Hc Hnw Hnh Hv Hfl Hfo Hfi Hpool.
  assert (Hhc : 1 ≤ height * channels) by nia.
  assert (Hwc : 1 ≤ width * channels) by nia.
  assert (Hf : ∀ n, n ≤ height * width * channels * 2 → fits n).
  { intros n Hn. eapply fits_le; [exact Hn|exact Hfl]. }
  unfold Resample.resample_cubic. cbn [Image.width Image.height Image.pixels].
  rewrite bool_decide_eq_false_2 by lia.
  rewrite (resample_compute_channels _ channels)
    by (cbn [Image.width Image.height Image.pixels]; rewrite ?length_replicate;
        first [assumption | reflexivity | apply Hf; lia]).
  rewrite bool_decide_eq_false_2 by lia.
  rewrite bool_decide_eq_false_2 by lia.
  destruct (build_cubic_weight_table_ok width new_width
              ltac:(lia) ltac:(lia) ltac:(apply Hf; nia))
    as (ht & -> & Hhtl & Hht).
  destruct (build_cubic_weight_table_ok height new_height
              ltac:(lia) ltac:(lia) ltac:(apply Hf; nia))
    as (vt & -> & Hvtl & Hvt).
  cbn [mbind option_bind].
  rewrite bool_decide_eq_false_2; cycle 1.
  { intros [->| ->]; simpl in *; lia. }
  replace (new_width * new_height * channels)
    with (new_height * new_width * channels) by lia.
  replace (new_width * height * channels)
    with (height * new_width * channels) by lia.
  rewrite !wrap_fits by assumption.
  rewrite parallel_for_sequential by first [exact Hpool | apply Hf; nia].
  cbn [mbind option_bind].
  assert (Hinter :
    for_range 0 height
      (Resample.horizontal_row
         (Image.mk width height (replicate (height * width * channels) v))
         new_width channels ht)
      (replicate (height * new_width * channels) (f_lit 0))
    = replicate (height * new_width * channels) v).
  { apply (updates_cells_all _ _ (f_lit 0)); [|rewrite !length_replicate; reflexivity].
    rewrite length_replicate.
    apply (updates_cells_pixels height new_width channels
      (λ y x c, <[y * new_width * channels + x * channels + c :=
         Resample.accumulate (nth x ht CubicPhase.empty)
           (λ src_idx, nth (y * width * channels + src_idx * channels + c)
                           (replicate (height * width * channels) v) (f_lit 0))]>)).
    intros y x c Hy Hx Hcc.
    replace (y * new_width * channels + x * channels + c)
      with ((y * new_width + x) * channels + c) by lia.
    apply updates_cells_insert. intros _.
    rewrite nth_replicate_lt by (apply flat_index_lt; assumption).
    symmetry. apply (accumulate_constant width).
    - apply table_entry_ok; [exact Hht|lia].
    - intros i Hi. apply nth_replicate_lt.
      replace (y * width * channels + i * channels + c)
        with ((y * width + i) * channels + c) by lia.
      apply flat_index_lt; assumption. }
  rewrite Hinter.
  assert (Hnwc : 1 ≤ new_width * channels) by nia.
  assert (Hnhle : new_height ≤ new_height * new_width * channels).
  { pose proof (Nat.mul_le_mono_l 1 (new_width * channels) new_height Hnwc). lia. }
  rewrite parallel_for_sequential
    by first [exact Hpool | eapply fits_le; [exact Hnhle|exact Hfo]].
  cbn [mbind option_bind]. do 2 f_equal.
  apply (updates_cells_all _ _ (f_lit 0)); [|rewrite !length_replicate; reflexivity].
  rewrite length_replicate.
  apply (updates_cells_pixels new_height new_width channels
    (λ y x c, <[y * new_width * channels + x * channels + c :=
       fclamp
         (Resample.accumulate (nth y vt CubicPhase.empty)
            (λ sample_y, nth (sample_y * new_width * channels + x * channels + c)
                             (replicate (height * new_width * channels) v) (f_lit 0)))
         (f_lit 0) (f_lit 1)]>)).
  intros y x c Hy Hx Hcc.
  replace (y * new_width * channels + x * channels + c)
    with ((y * new_width + x) * channels + c) by lia.
  apply updates_cells_insert. intros _.
  rewrite nth_replicate_lt by (apply flat_index_lt; assumption).
  rewrite (accumulate_constant height _ _ v).
  - symmetry. apply fclamp_unit_interval. exact Hv.
  - apply table_entry_ok; [exact Hvt|lia].
  - intros i Hi. apply nth_replicate_lt.
    replace (i * new_width * channels + x * channels + c)
      with ((i * new_width + x) * channels + c) by lia.
    apply flat_index_lt; assumption.
Qed.

Lemma resample_cubic_flat_witness :
  Resample.resample_cubic 4 (Image.mk 4 2 (replicate (2 * 4 * 3) (/ 2)%R)) 2 6
  = Some (Image.mk 2 6 (replicate (6 * 2 * 3) (/ 2)%R)).
Proof.
  apply (resample_cubic_flat 4 4 2 3 2 6 (/ 2)%R); try lia; try lra;
    unfold fits, size_modulus; simpl; lia.
Defined.

Lemma for_range_Forall {A} (P : A → Prop) lo hi (body : nat → list A → list A) l :
  (∀ i acc, Forall P acc → Forall P (body i acc)) →
  Forall P l → Forall P (for_range lo hi body l).
Proof.
  intros Hb Hl. destruct (decide (lo ≤ hi)) as [Hle|Hgt].
  - apply (for_range_ind (λ _ acc, Forall P acc) lo hi body l Hle Hl).
    intros i acc _ Hacc. apply Hb, Hacc.
  - rewrite for_range_empty by lia. exact Hl.
Qed.

Lemma vertical_row_unit_interval (intermediate : list R) new_width channels table y l :
  Forall (λ v, 0 <= v <= 1)%R l →
  Forall (λ v, 0 <= v <= 1)%R
         (Resample.vertical_row intermediate new_width channels table y l).
Proof.
  intros Hl. unfold Resample.vertical_row.
  apply for_range_Forall; [|exact Hl]. intros x acc Hacc.
  apply for_range_Forall; [|exact Hacc]. intros c acc' Hacc'.
  apply Forall_insert; [exact Hacc'|].
  cbn [f_lit R_float]. rewrite RMicromega.Q2R_0, RMicromega.Q2R_1.
  apply fclamp_R_bounds. lra.
Qed.

(** [resample_cubic] to a target without zero dimension: the size and
    the range of the result. *)
Lemma resample_cubic_normalized (pool_size : nat) (input : Image.t R)
    (channels new_width new_height : nat) :
  Image.width input ≠ 0 → Image.height input ≠ 0 → channels ≠ 0 →
  length (Image.pixels input) = Image.height input * Image.width input * channels →
  fits (length (Image.pixels input) * 2) →
  fits (new_width * new_height * channels) →
  fits (new_width * Image.height input * channels) →
  fits (Nat.max 1 pool_size * 4) →
  new_width ≠ 0 → new_height ≠ 0 →
  ∃ pixels,
    Resample.resample_cubic pool_size input new_width new_height
    = Some (Image.mk new_width new_height pixels)
    ∧ length pixels = new_height * new_width * channels
    ∧ Forall (λ v, 0 <= v <= 1)%R pixels.
Proof.
  intros Hw Hh Hc Hlen Hfl Hfo Hfi Hpool Hnw Hnh.
  assert (Hhc : 1 ≤ Image.height input * channels) by nia.
  assert (Hwc : 1 ≤ Image.width input * channels) by nia.
  assert (Hwl : Image.width input * 2 ≤ length (Image.pixels input) * 2).
  { rewrite Hlen.
    pose proof (Nat.mul_le_mono_l 1 _ (Image.width input) Hhc). lia. }
  assert (Hhl : Image.height input * 2 ≤ length (Image.pixels input) * 2).
  { rewrite Hlen.
    pose proof (Nat.mul_le_mono_l 1 _ (Image.height input) Hwc). lia. }
  unfold Resample.resample_cubic.
  rewrite bool_decide_eq_false_2 by lia.
  rewrite (resample_compute_channels input channels)
    by first [assumption | lia | eapply fits_le; [|exact Hfl]; lia].
  rewrite bool_decide_eq_false_2 by lia.
  rewrite bool_decide_eq_false_2 by lia.
  destruct (build_cubic_weight_table_ok (Image.width input) new_width
              ltac:(lia) ltac:(lia) ltac:(eapply fits_le; [|exact Hfl]; lia))
    as (ht & -> & Hhtl & _).
  destruct (build_cubic_weight_table_ok (Image.height input) new_height
              ltac:(lia) ltac:(lia) ltac:(eapply fits_le; [|exact Hfl]; lia))
    as (vt & -> & Hvtl & _).
  cbn [mbind option_bind].
  rewrite bool_decide_eq_false_2; cycle 1.
  { intros [->| ->]; simpl in *; lia. }
  rewrite parallel_for_sequential
    by first [exact Hpool | eapply fits_le; [|exact Hfl]; lia].
  cbn [mbind option_bind].
  assert (Hnwc : 1 ≤ new_width * channels) by nia.
  assert (Hnhle : new_height ≤ new_width * new_height * channels).
  { pose proof (Nat.mul_le_mono_l 1 (new_width * channels) new_height Hnwc). lia. }
  rewrite parallel_for_sequential
    by first [exact Hpool | eapply fits_le; [exact Hnhle|exact Hfo]].
  cbn [mbind option_bind]. eexists. split; [reflexivity|]. split.
  - rewrite for_range_length by (intros; apply vertical_row_length).
    rewrite length_replicate, wrap_fits by exact Hfo. lia.
  - apply for_range_Forall; [intros; apply vertical_row_unit_interval; assumption|].
    apply Forall_replicate. cbn [f_lit R_float]. rewrite RMicromega.Q2R_0. lra.
Qed.

(** X7. [resample_cubic] on an image with a consistent channel count and
    samples in [[0, 1]] returns an image of the requested size whose samples
    all lie in [[0, 1]], although the cubic weights have negative lobes; a
    zero target dimension or an inconsistent channel count gives an image
    without pixels.  (The samples are real numbers here; the [std::clamp] of
    the code would hand a NaN on.) *)
Theorem resample_cubic_unit_interval (pool_size : nat) (input : Image.t R)
    (channels new_width new_height : nat) :
  Image.width input ≠ 0 → Image.height input ≠ 0 → channels ≠ 0 →
  length (Image.pixels input) = Image.height input * Image.width input * channels →
  Forall (λ v, 0 <= v <= 1)%R (Image.pixels input) →
  fits (length (Image.pixels input) * 2) →
  fits (new_width * new_height * channels) →
  fits (new_width * Image.height input * channels) →
  fits (Nat.max 1 pool_size * 4) →
  (new_width ≠ 0 → new_height ≠ 0 →
   ∃ pixels,
     Resample.resample_cubic pool_size input new_width new_height
     = Some (Image.mk new_width new_height pixels)
     ∧ length pixels = new_height * new_width * channels
     ∧ Forall (λ v, 0 <= v <= 1)%R pixels)
  ∧ (new_width = 0 ∨ new_height = 0 →
     Resample.resample_cubic pool_size input new_width new_height
     = Some (Image.mk new_width new_height []))
  ∧ (∀ other : Image.t R,
       Resample.compute_channels other = 0 →
       Resample.resample_cubic pool_size other new_width new_height
       = Some (Image.mk new_width new_height [])).
Proof.
  intros Hw Hh Hc Hlen _ Hfl Hfo Hfi Hpool.
  split; [|split].
  - intros Hnw Hnh.
    apply (resample_cubic_normalized pool_size input channels); assumption.
  - intros Hz. unfold Resample.resample_cubic.
    rewrite bool_decide_eq_true_2 by exact Hz. reflexivity.
  - intros other Hother. unfold Resample.resample_cubic.
    case_bool_decide; [reflexivity|]. rewrite Hother.
    rewrite bool_decide_eq_true_2 by reflexivity. reflexivity.
Qed.

Lemma resample_cubic_unit_interval_witness :
  (∃ pixels,
     Resample.resample_cubic 4 (Image.mk 2 2 [1; 0; 0.5; 0.25]%R) 3 1
     = Some (Image.mk 3 1 pixels)
     ∧ length pixels = 3
     ∧ Forall (λ v, 0 <= v <= 1)%R pixels)
  ∧ Resample.resample_cubic 4 (Image.mk 2 2 [1; 0; 0.5; 0.25]%R) 0 1
    = Some (Image.mk 0 1 []).
Proof.
  assert (Hrange : Forall (λ v, 0 <= v <= 1)%R [1; 0; 0.5; 0.25]%R)
    by (repeat constructor; lra).
  destruct (resample_cubic_unit_interval 4 (Image.mk 2 2 [1; 0; 0.5; 0.25]%R) 1 3 1)
    as (Hsome & _ & _); try exact Hrange; try (simpl; lia); try reflexivity;
    try (unfold fits, size_modulus; simpl; lia).
  destruct (resample_cubic_unit_interval 4 (Image.mk 2 2 [1; 0; 0.5; 0.25]%R) 1 0 1)
    as (_ & Hzero & _); try exact Hrange; try (simpl; lia); try reflexivity;
    try (unfold fits, size_modulus; simpl; lia).
  split; [apply Hsome; lia|apply Hzero; left; reflexivity].
Defined.

(** ** More facts about the bit-depth quantizer *)

Lemma bayer_at_range my mx : my < 8 → mx < 8 → (0 ≤ Bitdepth.bayer_at my mx ≤ 63)%Z.
Proof.
  intros Hy Hx.
  assert (Hall : forallb (λ y, forallb (λ x,
            (0 <=? Bitdepth.bayer_at y x)%Z && (Bitdepth.bayer_at y x <=? 63)%Z)
            (seq 0 8)) (seq 0 8) = true) by (vm_compute; reflexivity).
  rewrite forallb_forall in Hall.
  specialize (Hall my ltac:(apply in_seq; lia)).
  rewrite forallb_forall in Hall.
  specialize (Hall mx ltac:(apply in_seq; lia)).
  apply andb_true_iff in Hall as [H1 H2]. lia.
Qed.

Lemma dither_threshold_bounds y x :
  (0 < Bitdepth.dither_threshold (F:=R) y x < 1)%R.
Proof.
  unfold Bitdepth.dither_threshold, Bitdepth.kInvBayerScale. rewrite !land_7_mod_8.
  cbn [fmul fadd fdiv f_of_Z f_lit R_float].
  rewrite Q2R_half, RMicromega.Q2R_1.
  replace (Q2R 64) with 64%R by (unfold Q2R; simpl; lra).
  pose proof (bayer_at_range (y mod 8) (x mod 8)
                ltac:(apply Nat.mod_upper_bound; lia)
                ltac:(apply Nat.mod_upper_bound; lia)) as [Hlo Hhi].
  apply IZR_le in Hlo, Hhi. lra.
Qed.

Lemma levels_of_range bits : (2 ≤ Bitdepth.levels_of bits ≤ 256)%Z.
Proof.
  unfold Bitdepth.levels_of. pose proof (sanitize_bits_range bits) as Hs.
  rewrite Z.shiftl_1_l. split.
  - change 2%Z with (2 ^ 1)%Z at 1. apply Z.pow_le_mono_r; lia.
  - change 256%Z with (2 ^ 8)%Z. apply Z.pow_le_mono_r; lia.
Qed.

Lemma clamp01_R (v : R) : Bitdepth.clamp01 v = Rmax 0 (Rmin 1 v).
Proof.
  unfold Bitdepth.clamp01, fgtb. cbn [fltb f_lit R_float].
  rewrite RMicromega.Q2R_0, RMicromega.Q2R_1. unfold R_ltb, Rmax, Rmin.
  destruct (Rlt_dec v 0), (Rlt_dec 1 v), (Rle_dec 1 v);
    try destruct (Rle_dec 0 1); try destruct (Rle_dec 0 v); lra.
Qed.

Lemma unit_clamp_low (v : R) : (v <= 0)%R → Rmax 0 (Rmin 1 v) = 0%R.
Proof.
  intros Hv. unfold Rmin. destruct (Rle_dec 1 v); [lra|].
  unfold Rmax. destruct (Rle_dec 0 v); lra.
Qed.

Lemma unit_clamp_high (v : R) : (1 <= v)%R → Rmax 0 (Rmin 1 v) = 1%R.
Proof.
  intros Hv. unfold Rmin. destruct (Rle_dec 1 v); [|lra].
  unfold Rmax. destruct (Rle_dec 0 1); lra.
Qed.

Lemma unit_clamp_mono (v1 v2 : R) :
  (v1 <= v2)%R → (Rmax 0 (Rmin 1 v1) <= Rmax 0 (Rmin 1 v2))%R.
Proof.
  intros Hv. unfold Rmin. destruct (Rle_dec 1 v1), (Rle_dec 1 v2);
    unfold Rmax;
    repeat match goal with
    | |- context [Rle_dec ?a ?b] => destruct (Rle_dec a b)
    end; lra.
Qed.

Lemma unit_clamp_range (v : R) : (0 <= Rmax 0 (Rmin 1 v) <= 1)%R.
Proof.
  unfold Rmin. destruct (Rle_dec 1 v); unfold Rmax;
    repeat match goal with
    | |- context [Rle_dec ?a ?b] => destruct (Rle_dec a b)
    end; lra.
Qed.

(** The innermost loop body under exact arithmetic. *)
Lemma quantize_sample_R (levels : Z) (threshold value : R) :
  (2 ≤ levels)%Z →
  Bitdepth.quantize_sample levels threshold value
  = (IZR (Z.max 0 (Z.min (levels - 1)
                     (Zfloor (Rmax 0 (Rmin 1 value) * IZR levels + threshold - / 2))))
     / IZR (levels - 1))%R.
Proof.
  intros Hl. unfold Bitdepth.quantize_sample.
  assert (Hgt : (levels - 1 >? 0)%Z = true) by (apply Z.gtb_lt; lia).
  rewrite Hgt, clamp01_R.
  cbn [fmul fadd fsub fdiv f_of_Z f_lit f_trunc f_floor R_float].
  rewrite R_trunc_IZR, Q2R_half, RMicromega.Q2R_1.
  set (q := Zfloor _).
  replace (if (q <? 0)%Z then 0%Z
           else if (q >? levels - 1)%Z then (levels - 1)%Z else q)
    with (Z.max 0 (Z.min (levels - 1) q)).
  - unfold Rdiv. ring.
  - destruct (Z.ltb_spec q 0); [lia|]. rewrite Z.gtb_ltb.
    destruct (Z.ltb_spec (levels - 1) q); lia.
Qed.

(** X8. With a consistent channel count, for every requested depth and
    every pixel, [quantize_bitdepth] keeps black and white: a sample at or
    below 0 becomes 0, a sample at or above 1 becomes 1, every output
    sample lies in [[0, 1]], and at one pixel a larger input never gives a
    smaller output. *)
Theorem quantize_bitdepth_keeps_black_and_white (bits : Z) (image : Image.t R)
    (channels y x c : nat) :
  length (Image.pixels image) = Image.height image * Image.width image * channels →
  fits (length (Image.pixels image)) →
  y < Image.height image → x < Image.width image → c < channels →
  ∃ v out : R,
    Image.pixels image !! ((y * Image.width image + x) * channels + c) = Some v
    ∧ Image.pixels (Bitdepth.quantize_bitdepth image bits)
        !! ((y * Image.width image + x) * channels + c) = Some out
    ∧ out = Bitdepth.quantize_sample (Bitdepth.levels_of bits)
              (Bitdepth.dither_threshold y x) v
    ∧ (0 <= out <= 1)%R
    ∧ ((v <= 0)%R → out = 0%R)
    ∧ ((1 <= v)%R → out = 1%R)
    ∧ (∀ v1 v2 : R, (v1 <= v2)%R →
         (Bitdepth.quantize_sample (Bitdepth.levels_of bits)
            (Bitdepth.dither_threshold y x) v1
          <= Bitdepth.quantize_sample (Bitdepth.levels_of bits)
               (Bitdepth.dither_threshold y x) v2)%R).
Proof.
  intros Hlen Hfits Hy Hx Hc.
  assert (Hidx : (y * Image.width image + x) * channels + c
                 < length (Image.pixels image)).
  { rewrite Hlen. apply flat_index_lt; assumption. }
  destruct (lookup_lt_is_Some_2 _ _ Hidx) as [v Hv].
  pose proof (levels_of_range bits) as Hl.
  pose proof (dither_threshold_bounds y x) as Ht.
  set (L := Bitdepth.levels_of bits) in *.
  set (t := Bitdepth.dither_threshold y x) in *.
  assert (HL : (2 <= IZR L)%R) by (apply IZR_le; lia).
  assert (HL1 : (0 < IZR (L - 1))%R) by (apply IZR_lt; lia).
  exists v, (Bitdepth.quantize_sample L t v).
  split; [exact Hv|]. split; [|split; [reflexivity|]].
  { unfold Bitdepth.quantize_bitdepth.
    rewrite (infer_channels_consistent image channels) by (try assumption; lia).
    rewrite bool_decide_eq_false_2 by lia. cbn [Image.pixels].
    rewrite quantize_in_place_lookup by assumption.
    rewrite Hv. reflexivity. }
  assert (Hmono : ∀ v1 v2 : R, (v1 <= v2)%R →
            (Bitdepth.quantize_sample L t v1 <= Bitdepth.quantize_sample L t v2)%R).
  { intros v1 v2 Hle. rewrite !quantize_sample_R by lia.
    apply Rmult_le_compat_r; [left; apply Rinv_0_lt_compat; exact HL1|].
    apply IZR_le. apply Z.max_le_compat_l, Z.min_le_compat_l, Zfloor_le.
    pose proof (unit_clamp_mono v1 v2 Hle).
    pose proof (unit_clamp_range v1). nra. }
  assert (H0 : Bitdepth.quantize_sample L t 0%R = 0%R).
  { rewrite quantize_sample_R by lia.
    rewrite unit_clamp_low by lra.
    assert (Hf : (Zfloor (0 * IZR L + t - / 2) ≤ 0)%Z).
    { apply Z.lt_succ_r, lt_IZR. rewrite succ_IZR.
      pose proof (Zfloor_bound (0 * IZR L + t - / 2)). lra. }
    replace (Z.max 0 (Z.min (L - 1) (Zfloor (0 * IZR L + t - / 2)))) with 0%Z by lia.
    unfold Rdiv. apply Rmult_0_l. }
  assert (H1 : Bitdepth.quantize_sample L t 1%R = 1%R).
  { rewrite quantize_sample_R by lia.
    rewrite unit_clamp_high by lra.
    assert (Hf : (L - 1 ≤ Zfloor (1 * IZR L + t - / 2))%Z).
    { apply Z.lt_succ_r, lt_IZR. rewrite succ_IZR, minus_IZR.
      pose proof (Zfloor_bound (1 * IZR L + t - / 2)). lra. }
    replace (Z.max 0 (Z.min (L - 1) (Zfloor (1 * IZR L + t - / 2)))) with (L - 1)%Z by lia.
    field. lra. }
  assert (Hlow : ∀ u : R, (u <= 0)%R → Bitdepth.quantize_sample L t u = 0%R).
  { intros u Hu. rewrite !quantize_sample_R in * by lia.
    rewrite (unit_clamp_low u) by exact Hu.
    rewrite (unit_clamp_low 0%R) in H0 by lra. exact H0. }
  assert (Hhigh : ∀ u : R, (1 <= u)%R → Bitdepth.quantize_sample L t u = 1%R).
  { intros u Hu. rewrite !quantize_sample_R in * by lia.
    rewrite (unit_clamp_high u) by exact Hu.
    rewrite (unit_clamp_high 1%R) in H1 by lra. exact H1. }
  split; [|split; [apply Hlow|split; [apply Hhigh|exact Hmono]]].
  destruct (Rle_dec v 0) as [Hv0|Hv0]; [rewrite Hlow by exact Hv0; lra|].
  destruct (Rle_dec 1 v) as [Hv1|Hv1]; [rewrite Hhigh by exact Hv1; lra|].
  pose proof (Hmono 0%R v ltac:(lra)). pose proof (Hmono v 1%R ltac:(lra)). lra.
Qed.

Lemma quantize_bitdepth_keeps_black_and_white_witness :
  ∃ v out : R,
    [0.5; 0.25; 1; 0]%R !! 2 = Some v
    ∧ Image.pixels (Bitdepth.quantize_bitdepth (Image.mk 2 2 [0.5; 0.25; 1; 0]%R) 3) !! 2
      = Some out
    ∧ ((1 <= v)%R → out = 1%R).
Proof.
  destruct (quantize_bitdepth_keeps_black_and_white 3
              (Image.mk 2 2 [0.5; 0.25; 1; 0]%R) 1 1 0 0)
    as (v & out & Hv & Hout & _ & _ & _ & Hwhite & _).
  - reflexivity.
  - unfold fits. simpl. vm_compute. reflexivity.
  - simpl. lia.
  - simpl. lia.
  - lia.
  - exists v, out. split; [exact Hv|]. split; [exact Hout|exact Hwhite].
Defined.

(** ** More facts about the block transform *)

Lemma sin_difference (a b : R) :
  (sin (a + b) - sin (a - b) = 2 * cos a * sin b)%R.
Proof. rewrite sin_plus, sin_minus. ring. Qed.

(** The cosines of one row of the basis, other than the first, sum to zero. *)
Lemma cos_row_sum (u : nat) :
  0 < u < 8 →
  (Dct.cos_table u 0 + Dct.cos_table u 1 + Dct.cos_table u 2 + Dct.cos_table u 3
   + Dct.cos_table u 4 + Dct.cos_table u 5 + Dct.cos_table u 6 + Dct.cos_table u 7
   = 0)%R.
Proof.
  intros Hu. rewrite !cos_table_R.
  set (theta := (INR u * (PI / 8))%R).
  assert (Hterm : ∀ x : nat,
            (2 * cos (INR u * (PI / 8 * (INR x + / 2))) * sin (theta / 2)
             = sin (theta * (INR x + 1)) - sin (theta * INR x))%R).
  { intros x. rewrite <- sin_difference. unfold theta. f_equal; f_equal; lra. }
  assert (Hsin : (0 < sin (theta / 2))%R).
  { assert (Hu0 : (1 <= INR u)%R) by (apply (le_INR 1); lia).
    assert (Hu8 : (INR u <= 7)%R).
    { replace 7%R with (INR 7) by (simpl; lra). apply le_INR. lia. }
    pose proof PI_RGT_0.
    apply sin_gt_0; unfold theta; nra. }
  assert (Hend : sin (theta * (INR 7 + 1)) = 0%R).
  { replace (theta * (INR 7 + 1))%R with (INR u * PI)%R
      by (unfold theta; simpl; lra).
    apply sin_nat_PI. }
  assert (Hstart : sin (theta * INR 0) = 0%R).
  { simpl. rewrite Rmult_0_r. apply sin_0. }
  apply (Rmult_eq_reg_r (2 * sin (theta / 2))); [|lra].
  rewrite Rmult_0_l.
  pose proof (Hterm 0) as H0. pose proof (Hterm 1) as H1.
  pose proof (Hterm 2) as H2. pose proof (Hterm 3) as H3.
  pose proof (Hterm 4) as H4. pose proof (Hterm 5) as H5.
  pose proof (Hterm 6) as H6. pose proof (Hterm 7) as H7.
  replace (INR 0 + 1)%R with (INR 1) in H0 by (simpl; lra).
  replace (INR 1 + 1)%R with (INR 2) in H1 by (simpl; lra).
  replace (INR 2 + 1)%R with (INR 3) in H2 by (simpl; lra).
  replace (INR 3 + 1)%R with (INR 4) in H3 by (simpl; lra).
  replace (INR 4 + 1)%R with (INR 5) in H4 by (simpl; lra).
  replace (INR 5 + 1)%R with (INR 6) in H5 by (simpl; lra).
  replace (INR 6 + 1)%R with (INR 7) in H6 by (simpl; lra).
  lra.
Qed.

Lemma cos_table_first (x : nat) : Dct.cos_table 0 x = 1%R.
Proof. rewrite cos_table_R. simpl. rewrite Rmult_0_l. apply cos_0. Qed.

(** The 1-D transform of a constant row has no alternating part. *)
Lemma fdct_1d_flat (v : R) (u : nat) :
  u < 8 →
  nth u (Dct.fdct_1d (λ _, v)) (f_lit 0)
  = if decide (u = 0) then (8 * v * Dct.alphas 0)%R else 0%R.
Proof.
  intros Hu. unfold Dct.fdct_1d. rewrite nth_map_seq by exact Hu.
  unfold for_range. cbn [seq foldl Nat.sub fadd fmul f_lit R_float].
  rewrite RMicromega.Q2R_0.
  destruct (decide (u = 0)) as [->|Hne].
  - rewrite !cos_table_first. ring.
  - pose proof (cos_row_sum u ltac:(lia)) as Hsum.
    transitivity (v * (Dct.cos_table u 0 + Dct.cos_table u 1 + Dct.cos_table u 2
                       + Dct.cos_table u 3 + Dct.cos_table u 4 + Dct.cos_table u 5
                       + Dct.cos_table u 6 + Dct.cos_table u 7) * Dct.alphas u)%R.
    + ring.
    + rewrite Hsum. ring.
Qed.

(** The 2-D transform of a flat block: everything but the first
    coefficient is zero. *)
Lemma forward_dct_flat (v : R) (y x : nat) :
  y < 8 → x < 8 → (y ≠ 0 ∨ x ≠ 0) →
  Dct.at64 (Dct.forward_dct (Dct.tabulate64 (λ _ _, v))) (y * 8 + x) = 0%R.
Proof.
  intros Hy Hx Hne. unfold Dct.forward_dct.
  rewrite at64_tabulate64 by assumption.
  rewrite (fdct_1d_ext _
             (λ _, if decide (x = 0) then (8 * v * Dct.alphas 0)%R else 0%R)).
  - rewrite fdct_1d_flat by exact Hy.
    destruct (decide (y = 0)) as [->|_]; [|reflexivity].
    destruct (decide (x = 0)) as [->|_]; [tauto|]. ring.
  - intros k Hk. rewrite at64_tabulate64 by assumption.
    rewrite (fdct_1d_ext _ (λ _, v)).
    + apply fdct_1d_flat. exact Hx.
    + intros k' Hk'. apply at64_tabulate64; assumption.
Qed.

Lemma R_round_even_0 : R_round_even 0 = 0%Z.
Proof.
  unfold R_round_even. rewrite (ZfloorZ 0).
  destruct (Rlt_dec (0 - 0) (/ 2)); [reflexivity|lra].
Qed.

(** Quantization leaves a block alone when every coefficient but the
    first is zero. *)
Lemma quantize_block_no_ac (quant_table block : list R) :
  (∀ i, 1 ≤ i < 64 → Dct.at64 block i = 0%R) →
  Dct.quantize_block quant_table block = block.
Proof.
  intros Hac. unfold Dct.quantize_block.
  apply (for_range_ind (λ _ acc, acc = block)); [lia|reflexivity|].
  intros i acc Hi ->. case_bool_decide as Hi0; [reflexivity|].
  cbn [fdiv fmul f_nearbyint R_float].
  rewrite Hac by lia. unfold Rdiv. rewrite Rmult_0_l, R_round_even_0, Rmult_0_l.
  rewrite <- (Hac i) at 1 by lia. unfold Dct.at64. apply insert_nth_id.
Qed.

Lemma dct_compute_channels (image : Image.t R) channels :
  Image.width image ≠ 0 → Image.height image ≠ 0 → channels ≠ 0 →
  length (Image.pixels image) = Image.height image * Image.width image * channels →
  fits (length (Image.pixels image)) →
  Dct.compute_channels image = channels.
Proof.
  intros Hw Hh Hc Hlen Hfits. unfold Dct.compute_channels.
  rewrite bool_decide_eq_false_2 by lia.
  assert (Hhc : 1 ≤ channels) by lia.
  assert (Hle : Image.width image * Image.height image ≤ length (Image.pixels image)).
  { rewrite Hlen.
    pose proof (Nat.mul_le_mono_l 1 channels (Image.height image * Image.width image) Hhc).
    lia. }
  rewrite wrap_fits by (eapply fits_le; [exact Hle|exact Hfits]).
  assert (Hpos : Image.width image * Image.height image ≠ 0) by nia.
  rewrite bool_decide_eq_false_2 by exact Hpos.
  assert (Hl : length (Image.pixels image)
               = channels * (Image.width image * Image.height image)) by lia.
  rewrite bool_decide_eq_false_2.
  - rewrite Hl. apply Nat.div_mul. exact Hpos.
  - intros Hmod. apply Hmod. rewrite Hl. apply Nat.Div0.mod_mul.
Qed.

Lemma clamp_index_bound value limit : 0 < limit → Dct.clamp_index value limit < limit.
Proof. intros Hl. unfold Dct.clamp_index. case_bool_decide; lia. Qed.



Lemma quantize_block_first (quant_table block : list R) :
  Dct.at64 (Dct.quantize_block quant_table block) 0 = Dct.at64 block 0.
Proof.
  unfold Dct.quantize_block.
  apply (for_range_ind (λ _ acc, Dct.at64 acc 0 = Dct.at64 block 0));
    [lia|reflexivity|].
  intros i acc _ Hacc. case_bool_decide as Hi; [exact Hacc|].
  rewrite <- Hacc. unfold Dct.at64.
  destruct acc as [|a acc]; [reflexivity|].
  destruct i as [|i]; [contradiction|reflexivity].
Qed.

Lemma quantize_block_length (quant_table block : list R) :
  length (Dct.quantize_block quant_table block) = length block.
Proof.
  unfold Dct.quantize_block. apply for_range_length.
  intros i acc. case_bool_decide; [reflexivity|apply length_insert].
Qed.

(** X10. Whatever the quality and the base table, [build_quality_table]
    gives 64 steps, each an integer between 1 and 255 (never zero), the
    first one equal to 1; from quality 100 on every step is 1; and the
    quantization loop keeps the first coefficient and the size of a
    block. *)
Theorem build_quality_table_steps (kQuantTableQ50 : list Z) (quality : Z)
    (block : list R) :
  length (Dct.build_quality_table (F:=R) kQuantTableQ50 quality) = 64
  ∧ Forall (λ step : R, ∃ q : Z, (1 ≤ q ≤ 255)%Z ∧ step = IZR q)
           (Dct.build_quality_table kQuantTableQ50 quality)
  ∧ nth 0 (Dct.build_quality_table kQuantTableQ50 quality) 0%R = 1%R
  ∧ ((100 ≤ quality)%Z →
     Dct.build_quality_table kQuantTableQ50 quality = replicate 64 1%R)
  ∧ Dct.at64 (Dct.quantize_block
                (Dct.build_quality_table kQuantTableQ50 quality) block) 0
    = Dct.at64 block 0
  ∧ length (Dct.quantize_block
              (Dct.build_quality_table kQuantTableQ50 quality) block)
    = length block.
Proof.
  assert (Hone : f_lit (F:=R) 1 = 1%R) by apply RMicromega.Q2R_1.
  split; [|split; [|split; [|split; [|split]]]].
  - unfold Dct.build_quality_table. destruct (_ >=? 100)%Z.
    + apply length_replicate.
    + rewrite length_insert, length_map, length_seq. reflexivity.
  - unfold Dct.build_quality_table. destruct (_ >=? 100)%Z.
    + apply Forall_replicate. exists 1%Z. split; [lia|exact Hone].
    + apply Forall_insert.
      * apply Forall_map, Forall_forall. intros i _. eexists. split; [|reflexivity]. lia.
      * exists 1%Z. split; [lia|exact Hone].
  - unfold Dct.build_quality_table. destruct (_ >=? 100)%Z.
    + simpl. exact Hone.
    + cbn [seq map]. simpl. exact Hone.
  - intros Hq. unfold Dct.build_quality_table.
    replace (Z.max 1 (Z.min quality 100)) with 100%Z by lia.
    replace (100 >=? 100)%Z with true by reflexivity.
    rewrite Hone. reflexivity.
  - apply quantize_block_first.
  - apply quantize_block_length.
Qed.

(** *** The sum of a block *)

Lemma block_sum_tabulate64 (f : nat → nat → R) :
  block_sum (Dct.tabulate64 f) = sum8 (λ y, sum8 (λ x, f y x)).
Proof.
  unfold block_sum, Dct.tabulate64, sum8. cbn [seq flat_map map app foldr]. ring.
Qed.

Lemma sum8_ext (f g : nat → R) :
  (∀ k, k < 8 → f k = g k) → sum8 f = sum8 g.
Proof. intros Hfg. unfold sum8. rewrite !Hfg by lia. reflexivity. Qed.

Lemma sum8_scale (a : R) (f : nat → R) :
  sum8 (λ k, a * f k)%R = (a * sum8 f)%R.
Proof. unfold sum8. ring. Qed.

(** The samples of an inverse 1-D transform add up to the first
    coefficient, scaled. *)
Lemma idct_1d_sum (f : nat → R) :
  sum8 (λ x, nth x (Dct.idct_1d f) (f_lit 0)) = (8 * Dct.alphas 0 * f 0%nat)%R.
Proof.
  unfold sum8, Dct.idct_1d. rewrite !nth_map_seq by lia.
  unfold for_range. cbn [seq foldl Nat.sub fadd fmul f_lit R_float].
  rewrite RMicromega.Q2R_0.
  pose proof (cos_row_sum 1 ltac:(lia)) as H1.
  pose proof (cos_row_sum 2 ltac:(lia)) as H2.
  pose proof (cos_row_sum 3 ltac:(lia)) as H3.
  pose proof (cos_row_sum 4 ltac:(lia)) as H4.
  pose proof (cos_row_sum 5 ltac:(lia)) as H5.
  pose proof (cos_row_sum 6 ltac:(lia)) as H6.
  pose proof (cos_row_sum 7 ltac:(lia)) as H7.
  rewrite !cos_table_first.
  transitivity
    (8 * Dct.alphas 0 * f 0%nat
     + Dct.alphas 1 * f 1%nat
       * (Dct.cos_table 1 0 + Dct.cos_table 1 1 + Dct.cos_table 1 2 + Dct.cos_table 1 3
          + Dct.cos_table 1 4 + Dct.cos_table 1 5 + Dct.cos_table 1 6 + Dct.cos_table 1 7)
     + Dct.alphas 2 * f 2%nat
       * (Dct.cos_table 2 0 + Dct.cos_table 2 1 + Dct.cos_table 2 2 + Dct.cos_table 2 3
          + Dct.cos_table 2 4 + Dct.cos_table 2 5 + Dct.cos_table 2 6 + Dct.cos_table 2 7)
     + Dct.alphas 3 * f 3%nat
       * (Dct.cos_table 3 0 + Dct.cos_table 3 1 + Dct.cos_table 3 2 + Dct.cos_table 3 3
          + Dct.cos_table 3 4 + Dct.cos_table 3 5 + Dct.cos_table 3 6 + Dct.cos_table 3 7)
     + Dct.alphas 4 * f 4%nat
       * (Dct.cos_table 4 0 + Dct.cos_table 4 1 + Dct.cos_table 4 2 + Dct.cos_table 4 3
          + Dct.cos_table 4 4 + Dct.cos_table 4 5 + Dct.cos_table 4 6 + Dct.cos_table 4 7)
     + Dct.alphas 5 * f 5%nat
       * (Dct.cos_table 5 0 + Dct.cos_table 5 1 + Dct.cos_table 5 2 + Dct.cos_table 5 3
          + Dct.cos_table 5 4 + Dct.cos_table 5 5 + Dct.cos_table 5 6 + Dct.cos_table 5 7)
     + Dct.alphas 6 * f 6%nat
       * (Dct.cos_table 6 0 + Dct.cos_table 6 1 + Dct.cos_table 6 2 + Dct.cos_table 6 3
          + Dct.cos_table 6 4 + Dct.cos_table 6 5 + Dct.cos_table 6 6 + Dct.cos_table 6 7)
     + Dct.alphas 7 * f 7%nat
       * (Dct.cos_table 7 0 + Dct.cos_table 7 1 + Dct.cos_table 7 2 + Dct.cos_table 7 3
          + Dct.cos_table 7 4 + Dct.cos_table 7 5 + Dct.cos_table 7 6 + Dct.cos_table 7 7))%R.
  - ring.
  - rewrite H1, H2, H3, H4, H5, H6, H7. ring.
Qed.

(** The first coefficient of a forward 1-D transform is the scaled sum of
    the samples. *)
Lemma fdct_1d_first (f : nat → R) :
  nth 0 (Dct.fdct_1d f) (f_lit 0) = (Dct.alphas 0 * sum8 f)%R.
Proof.
  unfold Dct.fdct_1d. rewrite nth_map_seq by lia.
  unfold for_range, sum8. cbn [seq foldl Nat.sub fadd fmul f_lit R_float].
  rewrite RMicromega.Q2R_0, !cos_table_first. ring.
Qed.

Lemma inverse_dct_sum (coefficients : list R) :
  block_sum (Dct.inverse_dct coefficients) = (8 * Dct.at64 coefficients 0)%R.
Proof.
  unfold Dct.inverse_dct. rewrite block_sum_tabulate64.
  rewrite (sum8_ext _ (λ y, 8 * Dct.alphas 0
                            * nth y (Dct.idct_1d (λ k, Dct.at64 coefficients (k * 8 + 0)))
                                  (f_lit 0))%R).
  - rewrite sum8_scale, idct_1d_sum.
    pose proof (alphas_sq 0 ltac:(lia)) as Ha.
    rewrite decide_True in Ha by reflexivity.
    change (0 * 8 + 0) with 0.
    transitivity (64 * (Dct.alphas 0 * Dct.alphas 0) * Dct.at64 coefficients 0)%R;
      [ring|]. rewrite Ha. field.
  - intros y Hy. rewrite idct_1d_sum.
    rewrite (at64_tabulate64 _ y 0) by lia. reflexivity.
Qed.

Lemma forward_dct_first (g : nat → nat → R) :
  Dct.at64 (Dct.forward_dct (Dct.tabulate64 g)) 0
  = (/ 8 * block_sum (Dct.tabulate64 g))%R.
Proof.
  unfold Dct.forward_dct.
  rewrite (at64_tabulate64 _ 0 0) by lia.
  rewrite fdct_1d_first, block_sum_tabulate64.
  rewrite (sum8_ext _ (λ k, Dct.alphas 0 * sum8 (λ j, g k j))%R).
  - rewrite sum8_scale.
    pose proof (alphas_sq 0 ltac:(lia)) as Ha.
    rewrite decide_True in Ha by reflexivity.
    rewrite <- Rmult_assoc, Ha. reflexivity.
  - intros k Hk. rewrite (at64_tabulate64 _ k 0) by lia.
    rewrite fdct_1d_first. f_equal. apply sum8_ext.
    intros j Hj. apply at64_tabulate64; assumption.
Qed.

(** The attenuation of a block keeps the sum of its samples: the
    quantization loop never touches the first coefficient, and only that one
    contributes to the sum of the inverse transform. *)
Lemma attenuation_keeps_block_sum (quant_table : list R) (quality : Z)
    (g : nat → nat → R) :
  block_sum
    (Dct.inverse_dct
       (if (quality <? 100)%Z
        then Dct.quantize_block quant_table (Dct.forward_dct (Dct.tabulate64 g))
        else Dct.forward_dct (Dct.tabulate64 g)))
  = block_sum (Dct.tabulate64 g).
Proof.
  rewrite inverse_dct_sum.
  assert (Hfirst : Dct.at64
                     (if (quality <? 100)%Z
                      then Dct.quantize_block quant_table
                             (Dct.forward_dct (Dct.tabulate64 g))
                      else Dct.forward_dct (Dct.tabulate64 g)) 0
                   = Dct.at64 (Dct.forward_dct (Dct.tabulate64 g)) 0).
  { destruct (quality <? 100)%Z; [apply quantize_block_first|reflexivity]. }
  rewrite Hfirst, forward_dct_first. field.
Qed.

(** ** More facts about the regeneration network *)

(** X11. [sr_lite_refine] stores into the output only when it returns
    true: after every false return the memory behind [output.data] is what
    it was.  It returns false, in particular, when the output is not
    exactly twice as wide and twice as high as the input. *)
Theorem sr_lite_refine_false_unmodified {F : Type} `{FloatOps F} (pool_size : nat)
    (input output : CpuImage.t F) :
  (∀ d, SrLite.sr_lite_refine pool_size input output = Some (false, d) →
        d = CpuImage.data output)
  ∧ (CpuImage.width output ≠ wrap (CpuImage.width input * 2) ∨
     CpuImage.height output ≠ wrap (CpuImage.height input * 2) →
     SrLite.sr_lite_refine pool_size input output
     = Some (false, CpuImage.data output)).
Proof.
  split.
  - intros d. unfold SrLite.sr_lite_refine.
    repeat match goal with
    | |- (if ?b then _ else _) = _ → _ => destruct b
    end; try (intros [= <-]; reflexivity).
    destruct (PixelOps.convert_image input _) as [ok1 d1].
    destruct (negb ok1); [intros [= <-]; reflexivity|].
    destruct (SrLite.sr_lite_forward _ _ _ _ _) as [high|]; [|discriminate].
    cbn [mbind option_bind].
    match goal with
    | |- context [PixelOps.convert_image ?a ?b] =>
        pose proof (convert_image_false a b) as Hf;
        destruct (PixelOps.convert_image a b) as [ok2 d2]
    end.
    destruct ok2; cbn [negb]; [discriminate|].
    intros [= <-]. apply Hf. reflexivity.
  - intros Hdims. unfold SrLite.sr_lite_refine.
    repeat match goal with
    | |- (if ?b then Some (false, ?u) else _) = _ =>
        lazymatch b with
        | bool_decide (CpuImage.width output ≠ _ ∨ _) =>
            rewrite (bool_decide_eq_true_2 _ Hdims); reflexivity
        | _ => destruct b; [reflexivity|]
        end
    end.
Qed.

Lemma tight_view_backed {F : Type} width height (v : list F) :
  width ≠ 0 → height ≠ 0 → fits (width * 12) →
  length v = height * width * 3 →
  backed (CpuImage.mk F32_RGB width height (wrap (width * 3 * 4))
                      (PixelOps.vector_data v)).
Proof.
  intros Hw Hh Hf Hlen y x c Hy Hx Hc.
  cbn [CpuImage.height CpuImage.width CpuImage.type pixel_channels] in Hy, Hx, Hc.
  unfold read_sample.
  cbn [CpuImage.type CpuImage.data CpuImage.stride_bytes].
  assert (Hne : v ≠ []) by (apply length_nonempty; nia).
  destruct v as [|a v']; [contradiction|]. cbn [PixelOps.vector_data].
  rewrite packed_row_offset by exact Hf.
  apply fmap_is_Some, lookup_lt_is_Some_2. rewrite Hlen.
  replace (y * width * 3 + (x * 3 + c)) with ((y * width + x) * 3 + c) by lia.
  apply flat_index_lt; assumption.
Qed.

(** Converting one tightly packed float image into another of the same
    size copies every float. *)
Lemma convert_image_tight {F : Type} `{FloatOps F} width height (v_src v_dst : list F) :
  width ≠ 0 → height ≠ 0 → fits (width * height * 12) →
  length v_src = height * width * 3 →
  length v_dst = height * width * 3 →
  PixelOps.convert_image
    (CpuImage.mk F32_RGB width height (wrap (width * 3 * 4)) (PixelOps.vector_data v_src))
    (CpuImage.mk F32_RGB width height (wrap (width * 3 * 4)) (PixelOps.vector_data v_dst))
  = (true, Some (Floats v_src)).
Proof.
  intros Hw Hh Hf Hls Hld.
  assert (Hfw : fits (width * 12)) by (eapply fits_le; [|exact Hf]; nia).
  assert (Hns : v_src ≠ []) by (apply length_nonempty; nia).
  assert (Hnd : v_dst ≠ []) by (apply length_nonempty; nia).
  set (output := CpuImage.mk F32_RGB width height (wrap (width * 3 * 4))
                   (PixelOps.vector_data v_dst)).
  destruct (from_float_image_ok (Image.mk width height v_src) output)
    as (d' & Hfrom & Hshape & Hcells); try reflexivity; try assumption.
  { apply validate_float_view; assumption. }
  unfold Sanitize.from_float_image in Hfrom.
  cbn [Image.width Image.height Image.pixels CpuImage.width CpuImage.height output]
    in Hfrom.
  rewrite bool_decide_eq_false_2 in Hfrom by tauto.
  rewrite bool_decide_eq_false_2 in Hfrom by exact Hns.
  fold output. rewrite Hfrom. f_equal.
  specialize (Hcells (tight_view_backed width height v_dst Hw Hh Hfw Hld)).
  cbn [CpuImage.data output] in Hshape.
  destruct v_dst as [|b v_dst']; [contradiction|]. cbn [PixelOps.vector_data] in Hshape.
  destruct d' as [[bs|f']|]; simpl in Hshape; try contradiction.
  simpl in Hld.
  do 2 f_equal. apply list_eq. intros j.
  destruct (decide (j < height * width * 3)) as [Hj|Hj]; cycle 1.
  { rewrite !lookup_ge_None_2 by lia. reflexivity. }
  destruct (flat_index_decompose height width 3 j Hj) as (y & x & c & Hy & Hx & Hc & ->).
  specialize (Hcells y x c Hy Hx Hc).
  unfold read_sample in Hcells.
  cbn [CpuImage.with_data CpuImage.type CpuImage.data CpuImage.stride_bytes
       CpuImage.width output encode_sample Image.pixels] in Hcells.
  rewrite packed_row_offset in Hcells by exact Hfw.
  replace (y * width * 3 + (x * 3 + c)) with ((y * width + x) * 3 + c) in Hcells by lia.
  destruct (f' !! ((y * width + x) * 3 + c)) as [w|] eqn:Hw'; [|discriminate].
  injection Hcells as ->.
  assert (Hlt : (y * width + x) * 3 + c < length v_src).
  { rewrite Hls. apply flat_index_lt; assumption. }
  destruct (lookup_lt_is_Some_2 v_src _ Hlt) as [w Hw''].
  rewrite Hw''. f_equal. exact (nth_lookup_Some _ _ _ _ Hw'').
Qed.

Lemma shuffle_row_unit_interval (input : list R) width channels y output :
  Forall (λ v, 0 <= v <= 1)%R output →
  Forall (λ v, 0 <= v <= 1)%R (SrLite.shuffle_row input width channels y output).
Proof.
  intros Hout. unfold SrLite.shuffle_row.
  apply for_range_Forall; [|exact Hout]. intros x acc Hacc.
  apply for_range_Forall; [|exact Hacc]. intros c acc' Hacc'.
  apply for_range_Forall; [|exact Hacc']. intros sub acc3 Hacc3.
  apply Forall_insert; [exact Hacc3|].
  cbn [f_lit R_float]. rewrite RMicromega.Q2R_0, RMicromega.Q2R_1.
  apply fclamp_R_bounds. lra.
Qed.

Lemma sr_lite_forward_unit_interval pool_size (input output : list R) width height :
  fits (Nat.max 1 pool_size * 4) → fits height →
  Forall (λ v, 0 <= v <= 1)%R output →
  ∃ out, SrLite.sr_lite_forward pool_size input output width height = Some out
         ∧ length out = length output
         ∧ Forall (λ v, 0 <= v <= 1)%R out.
Proof.
  intros Hpool Hh Hout. unfold SrLite.sr_lite_forward.
  case_bool_decide; [eauto|].
  destruct (convolve3x3_ok pool_size Hpool input
              (replicate (wrap (width * height * SrLite.kStage1Channels)) (f_lit 0))
              width height SrLite.kInputChannels SrLite.kStage1Channels
              SrWeights.kConv1Weights SrWeights.kConv1Bias true Hh) as (s1 & -> & _).
  cbn [mbind option_bind].
  destruct (convolve3x3_ok pool_size Hpool s1
              (replicate (wrap (width * height * SrLite.kStage2Channels)) (f_lit 0))
              width height SrLite.kStage1Channels SrLite.kStage2Channels
              SrWeights.kConv2Weights SrWeights.kConv2Bias true Hh) as (s2 & -> & _).
  cbn [mbind option_bind].
  destruct (convolve3x3_ok pool_size Hpool s2
              (replicate (wrap (width * height * SrLite.kStage3Channels)) (f_lit 0))
              width height SrLite.kStage2Channels SrLite.kStage3Channels
              SrWeights.kConv3Weights SrWeights.kConv3Bias false Hh) as (s3 & -> & _).
  cbn [mbind option_bind].
  unfold SrLite.pixel_shuffle_r2. case_bool_decide; [eauto|].
  rewrite parallel_for_sequential by assumption.
  eexists. split; [reflexivity|]. split.
  - apply for_range_length. intros y acc.
    unfold SrLite.shuffle_row. apply for_range_length. intros x acc'.
    apply for_range_length. intros c acc''.
    apply for_range_length. intros sub acc3. apply length_insert.
  - apply for_range_Forall; [|exact Hout].
    intros y acc Hacc. apply shuffle_row_unit_interval. exact Hacc.
Qed.

(** X12. [sr_lite_refine] between two tightly packed float images, the
    input with samples in [[0, 1]] and the output twice as wide and twice as
    high, returns true and replaces the whole output by the result of the
    network, every sample of which lies in [[0, 1]].  (The samples are real
    numbers here; the comparisons and the [std::clamp] of the code would
    hand a NaN on.) *)
Theorem sr_lite_refine_unit_interval (pool_size sr_width sr_height : nat)
    (v_in v_out : list R) :
  sr_width ≠ 0 → sr_height ≠ 0 →
  length v_in = sr_height * sr_width * 3 →
  length v_out = sr_height * 2 * (sr_width * 2) * 3 →
  Forall (λ v, 0 <= v <= 1)%R v_in →
  fits (sr_width * 2 * (sr_height * 2) * 12) →
  fits (Nat.max 1 pool_size * 4) →
  ∃ high_res,
    SrLite.sr_lite_forward pool_size v_in
      (replicate (sr_height * 2 * (sr_width * 2) * 3) 0%R) sr_width sr_height
    = Some high_res
    ∧ SrLite.sr_lite_refine pool_size
        (CpuImage.mk F32_RGB sr_width sr_height (wrap (sr_width * 3 * 4))
                     (PixelOps.vector_data v_in))
        (CpuImage.mk F32_RGB (sr_width * 2) (sr_height * 2)
                     (wrap (sr_width * 2 * 3 * 4)) (PixelOps.vector_data v_out))
      = Some (true, Some (Floats high_res))
    ∧ length high_res = length v_out
    ∧ Forall (λ v, 0 <= v <= 1)%R high_res.
Proof.
  intros Hw Hh Hlin Hlout _ Hfits Hpool.
  assert (Hf : ∀ n, n ≤ sr_width * 2 * (sr_height * 2) * 12 → fits n).
  { intros n Hn. eapply fits_le; eauto. }
  assert (Harea : 1 ≤ sr_width * sr_height) by nia.
  assert (Hin : v_in ≠ []) by (apply length_nonempty; nia).
  assert (Hout : v_out ≠ []) by (apply length_nonempty; nia).
  destruct (sr_lite_forward_unit_interval pool_size v_in
              (replicate (sr_height * 2 * (sr_width * 2) * 3) 0%R) sr_width sr_height
              Hpool ltac:(apply Hf; nia))
    as (hr & Hforward & Hlen & Hunit).
  { apply Forall_replicate. lra. }
  rewrite length_replicate in Hlen.
  exists hr. split; [exact Hforward|]. split; [|split; [lia|exact Hunit]].
  unfold SrLite.sr_lite_refine.
  rewrite !validate_float_view by first [assumption | lia | apply Hf; nia].
  cbn [negb orb CpuImage.width CpuImage.height CpuImage.type CpuImage.data].
  rewrite bool_decide_eq_false_2 by lia.
  change SrLite.kUpscaleFactor with 2. change SrLite.kInputChannels with 3.
  rewrite !(wrap_fits (_ * 2)) by (apply Hf; nia).
  rewrite bool_decide_eq_false_2 by lia.
  cbn [SrLite.supports_type negb orb].
  rewrite (wrap_fits (sr_width * sr_height * 3)) by (apply Hf; nia).
  rewrite (convert_image_tight sr_width sr_height v_in)
    by first [assumption | apply Hf; nia | rewrite length_replicate; lia].
  cbn [negb PixelOps.floats_of].
  rewrite (wrap_fits (sr_width * 2 * (sr_height * 2) * 3)) by (apply Hf; nia).
  replace (sr_width * 2 * (sr_height * 2) * 3)
    with (sr_height * 2 * (sr_width * 2) * 3) by lia.
  cbn [f_lit R_float]. rewrite RMicromega.Q2R_0.
  rewrite Hforward. cbn [mbind option_bind].
  rewrite (convert_image_tight (sr_width * 2) (sr_height * 2) hr v_out)
    by first [assumption | lia | apply Hf; nia].
  reflexivity.
Qed.

Lemma sr_lite_refine_unit_interval_witness :
  ∃ high_res,
    SrLite.sr_lite_refine 4
      (CpuImage.mk F32_RGB 1 1 (wrap (1 * 3 * 4)) (PixelOps.vector_data [1; 0.5; 0]%R))
      (CpuImage.mk F32_RGB (1 * 2) (1 * 2) (wrap (1 * 2 * 3 * 4))
                   (PixelOps.vector_data (replicate 12 7%R)))
    = Some (true, Some (Floats high_res))
    ∧ length high_res = 12
    ∧ Forall (λ v, 0 <= v <= 1)%R high_res.
Proof.
  destruct (sr_lite_refine_unit_interval 4 1 1 [1; 0.5; 0]%R (replicate 12 7%R))
    as (hr & _ & Hrefine & Hlen & Hunit);
    try lia; try reflexivity; try (unfold fits, size_modulus; simpl; lia).
  { repeat constructor; lra. }
  exists hr. split; [exact Hrefine|]. split; [exact Hlen|exact Hunit].
Defined.

(** ** More facts about the thread pool *)

Lemma ceil_div_lt n cs k :
  1 ≤ cs → (k * cs < n ↔ k < (n + cs - 1) / cs).
Proof.
  intros Hcs. split.
  - intros Hlt. apply (Nat.div_le_lower_bound (n + cs - 1) cs (S k)); [lia|]. nia.
  - intros Hlt.
    assert (Hle : cs * S k ≤ n + cs - 1).
    { etrans; [|apply (Nat.Div0.mul_div_le _ cs)].
      apply Nat.mul_le_mono_l. lia. }
    nia.
Qed.

(** The chunking loop in closed form. *)
Lemma chunk_loop_closed_form cs n :
  1 ≤ cs → fits ((n + cs - 1) / cs * cs) →
  ∀ fuel k, k ≤ (n + cs - 1) / cs → (n + cs - 1) / cs - k ≤ fuel →
  ThreadPool.chunk_loop fuel (k * cs) n cs
  = Some (map (λ j, (j * cs, Nat.min (S j * cs) n))
              (seq k ((n + cs - 1) / cs - k))).
Proof.
  intros Hcs Hfits. set (count := (n + cs - 1) / cs) in *.
  induction fuel as [|fuel IH]; intros k Hk Hfuel.
  - replace (count - k) with 0 by lia.
    apply chunk_loop_done. intros Hlt. apply ceil_div_lt in Hlt; [|exact Hcs].
    fold count in Hlt. lia.
  - simpl. destruct (decide (k * cs < n)) as [Hlt|Hge].
    + pose proof (proj1 (ceil_div_lt n cs k Hcs) Hlt) as Hkc. fold count in Hkc.
      assert (Hnext : wrap (k * cs + cs) = S k * cs).
      { rewrite wrap_fits; [lia|]. eapply fits_le; [|exact Hfits].
        replace (k * cs + cs) with (S k * cs) by lia.
        apply Nat.mul_le_mono_r. lia. }
      rewrite Hnext.
      replace (count - k) with (S (count - S k)) by lia. cbn [seq map].
      destruct (decide (S k * cs ≤ n)) as [Hle|Hgt].
      * rewrite (Nat.min_r n) by lia. rewrite (Nat.min_l _ n) by lia.
        rewrite (IH (S k)) by lia. reflexivity.
      * rewrite (Nat.min_l n) by lia. rewrite (Nat.min_r _ n) by lia.
        rewrite chunk_loop_done by lia.
        assert (count = S k).
        { destruct (decide (S k < count)) as [Hmore|]; [|lia].
          apply ceil_div_lt in Hmore; [lia|exact Hcs]. }
        replace (count - S k) with 0 by lia. reflexivity.
    + replace (count - k) with 0; [reflexivity|].
      destruct (decide (k < count)) as [Hkc|]; [|lia].
      apply ceil_div_lt in Hkc; [contradiction|exact Hcs].
Qed.

(** X13. With at least two workers and more indices than workers,
    [parallel_for_impl] submits the chunks
    [[j * chunk_size, min((j + 1) * chunk_size, n))] for
    [chunk_size = ceil(n / (4 * workers))]: every chunk but the last has
    [chunk_size] indices, and there are at most [4 * workers] chunks. *)
Theorem parallel_for_impl_chunk_count (pool_size n : nat) :
  2 ≤ pool_size → pool_size < n → fits (n + pool_size * 4) →
  let target_chunks := pool_size * 4 in
  let chunk_size := (n + target_chunks - 1) / target_chunks in
  let count := (n + chunk_size - 1) / chunk_size in
  ThreadPool.parallel_for_impl pool_size 0 n
  = Some (ThreadPool.Submit
            (map (λ j, (j * chunk_size, Nat.min (S j * chunk_size) n)) (seq 0 count)))
  ∧ 1 ≤ chunk_size ∧ 1 ≤ count ≤ target_chunks.
Proof.
  intros Hp Hn Hfits target_chunks chunk_size count.
  assert (Hcs : 1 ≤ chunk_size).
  { apply (Nat.div_le_lower_bound _ target_chunks 1); unfold target_chunks; lia. }
  assert (Htc : target_chunks * chunk_size ≤ n + target_chunks - 1).
  { apply Nat.Div0.mul_div_le. }
  assert (Hcount : count ≤ target_chunks).
  { destruct (decide (count ≤ target_chunks)) as [|Hgt]; [assumption|].
    assert (Hlt : target_chunks < count) by lia.
    apply ceil_div_lt in Hlt; [|exact Hcs].
    pose proof (Nat.div_mod_eq (n + target_chunks - 1) target_chunks) as Hdm.
    pose proof (Nat.mod_upper_bound (n + target_chunks - 1) target_chunks
                  ltac:(unfold target_chunks; lia)) as Hmod.
    fold chunk_size in Hdm. lia. }
  assert (Hcount1 : 1 ≤ count).
  { apply (proj1 (ceil_div_lt n chunk_size 0 Hcs)). lia. }
  split; [|lia].
  unfold ThreadPool.parallel_for_impl.
  destruct (decide (n ≤ 0)) as [Hz|_]; [lia|].
  rewrite Nat.sub_0_r. rewrite (Nat.max_r 1 pool_size) by lia.
  destruct (decide (pool_size ≤ 1 ∨ n ≤ pool_size)) as [Hin|_]; [lia|].
  fold target_chunks.
  rewrite (wrap_fits target_chunks) by (eapply fits_le; [|exact Hfits]; lia).
  rewrite (wrap_fits (n + target_chunks)) by exact Hfits.
  rewrite wsub_fits by first [lia | exact Hfits].
  fold chunk_size. rewrite (Nat.max_r 1 chunk_size) by exact Hcs.
  pose proof (chunk_loop_closed_form chunk_size n Hcs) as Hloop.
  fold count in Hloop.
  assert (Hfc : fits (count * chunk_size)).
  { eapply fits_le; [|exact Hfits].
    etrans; [apply Nat.mul_le_mono_r; exact Hcount|]. lia. }
  specialize (Hloop Hfc n 0 ltac:(lia)).
  rewrite Nat.sub_0_r in Hloop. simpl (0 * chunk_size) in Hloop.
  rewrite Hloop; [reflexivity|].
  pose proof (Nat.Div0.div_le_upper_bound (n + chunk_size - 1) chunk_size n).
  assert (count * 1 ≤ count * chunk_size) by (apply Nat.mul_le_mono_l; exact Hcs).
  destruct (decide (count ≤ n)) as [|Hgt]; [assumption|].
  assert (Hlt : n < count) by lia.
  apply ceil_div_lt in Hlt; [|exact Hcs]. nia.
Qed.

Lemma parallel_for_impl_chunk_count_witness :
  ThreadPool.parallel_for_impl 2 0 20
  = Some (ThreadPool.Submit [(0, 3); (3, 6); (6, 9); (9, 12); (12, 15); (15, 18); (18, 20)])
  ∧ 1 ≤ 3 ∧ 1 ≤ 7 ≤ 8.
Proof.
  apply (parallel_for_impl_chunk_count 2 20).
  - lia.
  - lia.
  - unfold fits, size_modulus. simpl. lia.
Defined.

(** ** Round trips through the canonical float form *)

Section FloatForm.
Context {F : Type} `{FloatOps F}.

(** The byte-to-float row loops write every channel of every pixel. *)
Lemma convert_u8_to_f32_cells (src dst : CpuImage.t F) n :
  holds_floats n (CpuImage.data dst) →
  CpuImage.stride_bytes dst mod 4 = 0 →
  CpuImage.width src * 3 ≤ CpuImage.stride_bytes dst / 4 →
  (∀ y x c, y < CpuImage.height src → x < CpuImage.width src → c < 3 →
            y * CpuImage.stride_bytes dst / 4 + (x * 3 + c) < n) →
  ∀ y x c, y < CpuImage.height src → x < CpuImage.width src → c < 3 →
    float_at (PixelOps.convert_u8_to_f32 3 src dst)
             (y * CpuImage.stride_bytes dst / 4 + (x * 3 + c))
    = Some (fmul (f_of_Z (PixelOps.load_u8 (CpuImage.data src)
                            (y * CpuImage.stride_bytes src + x * 3 + c)))
                 PixelOps.kInv255).
Proof.
  intros Hd Hmod Hstride Hin.
  set (s4 := CpuImage.stride_bytes dst / 4) in *.
  assert (Hoff : ∀ y, y * CpuImage.stride_bytes dst / 4 = y * s4).
  { intros y. apply row_offset_floats, Hmod. }
  set (val := λ j, fmul (f_of_Z (PixelOps.load_u8 (CpuImage.data src)
                                   (j / s4 * CpuImage.stride_bytes src + j mod s4)))
                        PixelOps.kInv255).
  set (cell := λ y x j, y * s4 + x * 3 ≤ j < y * s4 + x * 3 + 3).
  set (row := λ (y : nat) (d : option (Storage F)),
    for_range 0 (CpuImage.width src) (λ x d,
      let src_index := x * 3 in
      let dst_index := x * 3 in
      let load c := fmul (f_of_Z (PixelOps.load_u8 (CpuImage.data src)
                                    (y * CpuImage.stride_bytes src + src_index + c)))
                         PixelOps.kInv255 in
      PixelOps.store_f32 (y * CpuImage.stride_bytes dst) (dst_index + 2) (load 2)
        (PixelOps.store_f32 (y * CpuImage.stride_bytes dst) (dst_index + 1) (load 1)
           (PixelOps.store_f32 (y * CpuImage.stride_bytes dst) (dst_index + 0) (load 0)
              d))) d).
  assert (Hrows :
    ∀ y (acc : option (Storage F)), y < CpuImage.height src → holds_floats n acc →
      holds_floats n (row y acc) ∧
      ∀ j, ((∃ x, 0 ≤ x < CpuImage.width src ∧ cell y x j) →
              float_at (row y acc) j = Some (val j)) ∧
           ((∀ x, 0 ≤ x < CpuImage.width src → ¬ cell y x j) →
              float_at (row y acc) j = float_at acc j)).
  { intros y acc Hy Hacc. unfold row.
    apply (for_range_writes float_at (holds_floats (F:=F) n)).
    - intros x j. unfold cell. lia.
    - exact Hacc.
    - intros x d [_ Hx] Hdn. cbv zeta.
      pose proof (Hin y x 0 Hy Hx ltac:(lia)) as H0.
      pose proof (Hin y x 1 Hy Hx ltac:(lia)) as H1.
      pose proof (Hin y x 2 Hy Hx ltac:(lia)) as H2.
      destruct (store_f32_cell n (y * CpuImage.stride_bytes dst) (x * 3 + 0)
                  (fmul (f_of_Z (PixelOps.load_u8 (CpuImage.data src)
                                   (y * CpuImage.stride_bytes src + x * 3 + 0)))
                        PixelOps.kInv255) d Hdn H0)
        as (Hd0 & Hw0 & Hk0).
      set (d0 := PixelOps.store_f32 _ (x * 3 + 0) _ d) in *.
      destruct (store_f32_cell n (y * CpuImage.stride_bytes dst) (x * 3 + 1)
                  (fmul (f_of_Z (PixelOps.load_u8 (CpuImage.data src)
                                   (y * CpuImage.stride_bytes src + x * 3 + 1)))
                        PixelOps.kInv255) d0 Hd0 H1)
        as (Hd1 & Hw1 & Hk1).
      set (d1 := PixelOps.store_f32 _ (x * 3 + 1) _ d0) in *.
      destruct (store_f32_cell n (y * CpuImage.stride_bytes dst) (x * 3 + 2)
                  (fmul (f_of_Z (PixelOps.load_u8 (CpuImage.data src)
                                   (y * CpuImage.stride_bytes src + x * 3 + 2)))
                        PixelOps.kInv255) d1 Hd1 H2)
        as (Hd2 & Hw2 & Hk2).
      rewrite Hoff in Hw0, Hk0, Hw1, Hk1, Hw2, Hk2.
      split; [exact Hd2|]. intros j. split.
      + intros Hc. unfold cell in Hc.
        assert (Hval : ∀ c, c < 3 → val (y * s4 + (x * 3 + c))
                  = fmul (f_of_Z (PixelOps.load_u8 (CpuImage.data src)
                                    (y * CpuImage.stride_bytes src + x * 3 + c)))
                         PixelOps.kInv255).
        { intros c Hc3. unfold val.
          rewrite row_cell_div, row_cell_mod by lia. do 3 f_equal. lia. }
        destruct (decide (j = y * s4 + (x * 3 + 2))) as [->|Hj2].
        { rewrite Hw2, Hval by lia. reflexivity. }
        rewrite Hk2 by exact Hj2.
        destruct (decide (j = y * s4 + (x * 3 + 1))) as [->|Hj1].
        { rewrite Hw1, Hval by lia. reflexivity. }
        rewrite Hk1 by exact Hj1.
        assert (j = y * s4 + (x * 3 + 0)) as -> by lia.
        rewrite Hw0, Hval by lia. reflexivity.
      + intros Hc. unfold cell in Hc.
        rewrite Hk2, Hk1, Hk0 by lia. reflexivity. }
  intros y x c Hy Hx Hc.
  unfold PixelOps.convert_u8_to_f32.
  destruct (for_range_writes float_at (holds_floats (F:=F) n) 0 (CpuImage.height src)
              row
              (λ y j, ∃ x, 0 ≤ x < CpuImage.width src ∧ cell y x j)
              val (CpuImage.data dst)) as [_ Hall].
  - intros y' j. unfold cell.
    destruct (decide (y' * s4 ≤ j < y' * s4 + CpuImage.width src * 3)) as [Hr|Hr].
    + left. exists ((j - y' * s4) / 3).
      pose proof (Nat.div_mod (j - y' * s4) 3 ltac:(lia)).
      pose proof (Nat.mod_upper_bound (j - y' * s4) 3 ltac:(lia)).
      assert ((j - y' * s4) / 3 < CpuImage.width src).
      { apply Nat.Div0.div_lt_upper_bound. lia. }
      lia.
    + right. intros (x' & Hx' & Hc'). lia.
  - exact Hd.
  - intros y' acc [_ Hy'] Hacc. destruct (Hrows y' acc Hy' Hacc) as [Hinv Hcells].
    split; [exact Hinv|]. intros j. destruct (Hcells j) as [Hw Hk]. split.
    + exact Hw.
    + intros Hno. apply Hk. intros x' Hx' Hc'. apply Hno. exists x'. done.
  - destruct (Hall (y * CpuImage.stride_bytes dst / 4 + (x * 3 + c))) as [Hw _].
    etrans; [apply Hw; exists y; split; [lia|]; exists x; unfold cell; rewrite Hoff; lia|].
    unfold val. rewrite Hoff, row_cell_div, row_cell_mod by lia.
    do 4 f_equal. lia.
Qed.

End FloatForm.

Section FloatFormContents.
Context {F : Type} `{FloatOps F}.

(** [to_float_image] of a byte RGB buffer: sample [c] of pixel [(x, y)]
    of the float image is the byte of the buffer times [kInv255], rows
    being read [stride_bytes] apart and written tightly. *)
Lemma to_float_image_u8_pixels (input : CpuImage.t F) :
  PixelOps.validate_image input = true →
  CpuImage.type input = U8_RGB →
  fits (CpuImage.width input * CpuImage.height input * 12) →
  ∃ pixels,
    Sanitize.to_float_image input
    = (true, Image.mk (CpuImage.width input) (CpuImage.height input) pixels)
    ∧ length pixels = CpuImage.height input * CpuImage.width input * 3
    ∧ ∀ y x c, y < CpuImage.height input → x < CpuImage.width input → c < 3 →
        nth ((y * CpuImage.width input + x) * 3 + c) pixels (f_lit 0)
        = fmul (f_of_Z (PixelOps.load_u8 (CpuImage.data input)
                          (y * CpuImage.stride_bytes input + x * 3 + c)))
               PixelOps.kInv255.
Proof.
  intros Hval Hty Hfits.
  pose proof (proj1 (validate_image_true input) Hval) as (_ & Hw & Hh & _).
  assert (Hf : ∀ n, n ≤ CpuImage.width input * CpuImage.height input * 12 → fits n).
  { intros n Hn. eapply fits_le; eauto. }
  assert (Harea : 1 ≤ CpuImage.width input * CpuImage.height input) by nia.
  unfold Sanitize.to_float_image. rewrite Hval. cbn [negb]. cbv zeta.
  rewrite (wrap_fits (CpuImage.width input * CpuImage.height input * 3))
    by (apply Hf; lia).
  rewrite (wrap_fits (CpuImage.width input * 3 * 4)) by (apply Hf; nia).
  set (pixels := replicate (CpuImage.width input * CpuImage.height input * 3)
                           (f_lit 0)).
  assert (Hlen0 : length pixels = CpuImage.height input * CpuImage.width input * 3).
  { unfold pixels. rewrite length_replicate. lia. }
  assert (Hne : pixels ≠ []) by (apply length_nonempty; nia).
  set (view := CpuImage.mk F32_RGB (CpuImage.width input) (CpuImage.height input)
                 (CpuImage.width input * 3 * 4) (PixelOps.vector_data pixels)).
  assert (Hview : PixelOps.validate_image view = true).
  { pose proof (validate_float_view (CpuImage.width input) (CpuImage.height input)
                  pixels Hw Hh Hne ltac:(apply Hf; nia)) as Hv.
    rewrite (wrap_fits (CpuImage.width input * 3 * 4)) in Hv by (apply Hf; nia).
    exact Hv. }
  assert (Hconv : PixelOps.convert_image input view
                  = (true, PixelOps.convert_u8_to_f32 3 input view)).
  { unfold PixelOps.convert_image. rewrite Hval, Hview. cbn [negb orb].
    rewrite bool_decide_eq_false_2 by (intros [Hn|Hn]; apply Hn; reflexivity).
    rewrite Hty. cbn [CpuImage.type view].
    rewrite bool_decide_eq_false_2 by discriminate.
    rewrite bool_decide_eq_false_2 by (intros Hn; apply Hn; reflexivity).
    reflexivity. }
  rewrite Hconv.
  assert (Hd : holds_floats (CpuImage.height input * CpuImage.width input * 3)
                 (CpuImage.data view)).
  { exists pixels. split; [|exact Hlen0]. cbn [CpuImage.data view].
    unfold PixelOps.vector_data. destruct pixels; [contradiction|reflexivity]. }
  assert (Hs4 : CpuImage.stride_bytes view / 4 = CpuImage.width input * 3).
  { cbn [CpuImage.stride_bytes view]. apply Nat.div_mul. lia. }
  assert (Hm4 : CpuImage.stride_bytes view mod 4 = 0).
  { cbn [CpuImage.stride_bytes view]. apply Nat.Div0.mod_mul. }
  assert (Hoff : ∀ y, y * CpuImage.stride_bytes view / 4
                      = y * (CpuImage.width input * 3)).
  { intros y. rewrite (row_offset_floats _ _ Hm4), Hs4. reflexivity. }
  pose proof (convert_u8_to_f32_shape 3 input view) as Hshape.
  pose proof (convert_u8_to_f32_cells input view _ Hd Hm4 ltac:(lia)) as Hcells.
  eexists. split; [reflexivity|]. split.
  - rewrite (same_shape_vector pixels _ Hshape). exact Hlen0.
  - intros y x c Hy Hx Hc.
    specialize (Hcells ltac:(intros y' x' c' ? ? ?; rewrite Hoff; nia) y x c Hy Hx Hc).
    rewrite Hoff in Hcells.
    replace ((y * CpuImage.width input + x) * 3 + c)
      with (y * (CpuImage.width input * 3) + (x * 3 + c)) by lia.
    destruct (PixelOps.convert_u8_to_f32 3 input view) as [[b|f]|];
      cbn [float_at] in Hcells; try discriminate.
    cbn [PixelOps.floats_of]. apply nth_lookup_Some. exact Hcells.
Qed.

End FloatFormContents.

Lemma float_to_u8_of_byte (b : Z) :
  (0 ≤ b ≤ 255)%Z →
  PixelOps.float_to_u8 (fmul (f_of_Z b) PixelOps.kInv255 : R) = b.
Proof.
  intros Hb. rewrite float_to_u8_R.
  unfold PixelOps.kInv255. cbn [fmul fdiv f_of_Z f_lit R_float].
  rewrite RMicromega.Q2R_1.
  replace (Q2R 255) with 255%R by (unfold Q2R; simpl; lra).
  assert (H0 : (0 <= IZR b)%R) by (apply IZR_le; lia).
  assert (H1 : (IZR b <= 255)%R) by (apply IZR_le; lia).
  rewrite (fclamp_unit_interval_gen (IZR b * (1 / 255)) 0 1)%R by lra.
  replace (IZR b * (1 / 255) * 255)%R with (IZR b) by field.
  apply R_round_away_IZR.
Qed.

(** X15. Bytes survive the canonical float form.  Under exact arithmetic,
    for valid byte RGB buffers [input] and [output] of equal dimensions
    whose buffers hold all their samples (strides may differ and rows may be
    padded), [to_float_image] followed by [from_float_image] succeeds and
    leaves in [output] exactly the samples of [input]. *)
Theorem float_image_round_trip (input output : CpuImage.t R) (bytes : list Z) :
  PixelOps.validate_image input = true →
  PixelOps.validate_image output = true →
  CpuImage.type input = U8_RGB → CpuImage.type output = U8_RGB →
  CpuImage.width input = CpuImage.width output →
  CpuImage.height input = CpuImage.height output →
  CpuImage.data input = Some (Bytes bytes) →
  Forall (λ b, (0 ≤ b ≤ 255)%Z) bytes →
  backed input → backed output →
  fits (CpuImage.width input * CpuImage.height input * 12) →
  ∃ img d',
    Sanitize.to_float_image input = (true, img)
    ∧ Sanitize.from_float_image img output = (true, d')
    ∧ same_shape (CpuImage.data output) d'
    ∧ ∀ y x c, y < CpuImage.height input → x < CpuImage.width input → c < 3 →
        read_sample (CpuImage.with_data output d') y x c
        = read_sample input y x c.
Proof.
  intros Hvi Hvo Hti Hto Hw Hh Hdata Hbytes Hbi Hbo Hfits.
  destruct (to_float_image_u8_pixels input Hvi Hti Hfits) as (pixels & Hto_f & Hlen & Hpix).
  destruct (from_float_image_ok
              (Image.mk (CpuImage.width input) (CpuImage.height input) pixels) output)
    as (d' & Hfrom & Hshape & Hcells).
  - exact Hvo.
  - rewrite Hto. reflexivity.
  - exact Hw.
  - exact Hh.
  - cbn [Image.pixels]. rewrite <- Hw, <- Hh. exact Hlen.
  - rewrite <- Hw, <- Hh. exact Hfits.
  - exists (Image.mk (CpuImage.width input) (CpuImage.height input) pixels), d'.
    split; [exact Hto_f|]. split; [exact Hfrom|]. split; [exact Hshape|].
    intros y x c Hy Hx Hc.
    rewrite (Hcells Hbo y x c) by lia.
    cbn [Image.pixels]. rewrite <- Hw, Hpix by assumption.
    rewrite Hto. cbn [encode_sample].
    destruct (Hbi y x c Hy Hx ltac:(rewrite Hti; exact Hc)) as [s Hs].
    rewrite Hs. unfold read_sample in Hs. rewrite Hti, Hdata in Hs.
    rewrite Hdata. cbn [PixelOps.load_u8].
    destruct (bytes !! (y * CpuImage.stride_bytes input + x * 3 + c)) as [b|] eqn:Hb;
      [|discriminate].
    rewrite (nth_lookup_Some _ _ 0%Z _ Hb).
    rewrite float_to_u8_of_byte.
    + cbn in Hs. congruence.
    + eapply (proj1 (Forall_lookup _ _) Hbytes); exact Hb.
Qed.

Lemma float_image_round_trip_witness :
  ∃ img d',
    Sanitize.to_float_image
      (CpuImage.mk U8_RGB 2 1 6 (Some (Bytes [0; 127; 255; 1; 2; 254]%Z)) : CpuImage.t R)
    = (true, img)
    ∧ Sanitize.from_float_image img
        (CpuImage.mk U8_RGB 2 1 8 (Some (Bytes (replicate 8 9%Z))))
      = (true, d')
    ∧ ∀ y x c, y < 1 → x < 2 → c < 3 →
        read_sample (CpuImage.mk U8_RGB 2 1 8 d') y x c
        = read_sample
            (CpuImage.mk U8_RGB 2 1 6 (Some (Bytes [0; 127; 255; 1; 2; 254]%Z))
               : CpuImage.t R) y x c.
Proof.
  destruct (float_image_round_trip
              (CpuImage.mk U8_RGB 2 1 6 (Some (Bytes [0; 127; 255; 1; 2; 254]%Z)))
              (CpuImage.mk U8_RGB 2 1 8 (Some (Bytes (replicate 8 9%Z))))
              [0; 127; 255; 1; 2; 254]%Z
              eq_refl eq_refl eq_refl eq_refl eq_refl eq_refl eq_refl)
    as (img & d' & Hto_f & Hfrom & _ & Hcells).
  - repeat constructor; lia.
  - intros y x c Hy Hx Hc. cbn in Hy, Hx, Hc.
    assert (y = 0) as -> by lia.
    destruct x as [|[|x]]; [| |lia];
      (destruct c as [|[|[|c]]]; [| | |lia]); cbn; eexists; reflexivity.
  - intros y x c Hy Hx Hc. cbn in Hy, Hx, Hc.
    assert (y = 0) as -> by lia.
    destruct x as [|[|x]]; [| |lia];
      (destruct c as [|[|[|c]]]; [| | |lia]); cbn; eexists; reflexivity.
  - unfold fits, size_modulus; simpl; lia.
  - exists img, d'. split; [exact Hto_f|]. split; [exact Hfrom|]. exact Hcells.
Defined.

(** ** The B-spline prefilter *)

Lemma for_down_ind {St} (P : nat → St → Prop) n (body : nat → St → St) s :
  P n s →
  (∀ i acc, i < n → P (S i) acc → P i (body i acc)) →
  P 0 (for_down n body s).
Proof.
  revert s. induction n as [|n IH]; intros s H0 Hstep; [exact H0|].
  simpl. apply IH.
  - apply Hstep; [lia|exact H0].
  - intros i acc Hi. apply Hstep. lia.
Qed.

Lemma at_insert (l : list R) i j x :
  i < length l →
  BSplinePrefilter.at_ (<[i := x]> l) j
  = if decide (j = i) then x else BSplinePrefilter.at_ l j.
Proof.
  intros Hi. unfold BSplinePrefilter.at_. destruct (decide (j = i)) as [->|Hne].
  - apply nth_lookup_Some. apply list_lookup_insert_eq. exact Hi.
  - destruct (decide (j < length l)) as [Hj|Hj].
    + destruct (lookup_lt_is_Some_2 l j Hj) as [v Hv].
      rewrite (nth_lookup_Some _ _ _ _ Hv). apply nth_lookup_Some.
      rewrite list_lookup_insert_ne by congruence. exact Hv.
    + rewrite !nth_overflow by (rewrite ?length_insert; lia). reflexivity.
Qed.

Lemma at_insert_ne (l : list R) i j x :
  j ≠ i → BSplinePrefilter.at_ (<[i := x]> l) j = BSplinePrefilter.at_ l j.
Proof.
  intros Hne. unfold BSplinePrefilter.at_.
  destruct (decide (j < length l)) as [Hj|Hj].
  - destruct (lookup_lt_is_Some_2 l j Hj) as [v Hv].
    rewrite (nth_lookup_Some _ _ _ _ Hv). apply nth_lookup_Some.
    rewrite list_lookup_insert_ne by congruence. exact Hv.
  - rewrite !nth_overflow by (rewrite ?length_insert; lia). reflexivity.
Qed.

Lemma at_replicate n (x : R) i :
  i < n → BSplinePrefilter.at_ (replicate n x) i = x.
Proof.
  intros Hi. unfold BSplinePrefilter.at_. apply nth_lookup_Some.
  apply lookup_replicate_2. exact Hi.
Qed.

Lemma Q2R_lit (z : Z) : Q2R (inject_Z z) = IZR z.
Proof. unfold Q2R. simpl. lra. Qed.

Section Line.
Variables (line n stride : nat) (data : list R).
Hypothesis Hn : 2 ≤ n.

Lemma build_system_spec :
  system_built n (line_at data line stride)
    (BSplinePrefilter.build_system line n stride data).
Proof.
  unfold BSplinePrefilter.build_system. cbv zeta.
  cbn [BSplinePrefilter.diagonal BSplinePrefilter.upper BSplinePrefilter.lower
       BSplinePrefilter.rhs].
  cbn [f_lit fmul R_float].
  change 4%Q with (inject_Z 4). change 2%Q with (inject_Z 2).
  change 1%Q with (inject_Z 1). change 0%Q with (inject_Z 0).
  change 6%Q with (inject_Z 6). rewrite !Q2R_lit.
  match goal with
  | |- context [for_range 1 (n - 1) ?body ?init] =>
      set (loop := for_range 1 (n - 1) body init);
      assert (Hloop : system_filling n (line_at data line stride) (n - 1) loop)
  end.
  { apply for_range_ind; [lia| |]; unfold system_filling.
    - cbn [BSplinePrefilter.diagonal BSplinePrefilter.upper BSplinePrefilter.lower
           BSplinePrefilter.rhs].
      rewrite !length_insert, !length_replicate.
      split; [reflexivity|]. split; [reflexivity|]. split; [reflexivity|].
      split; [reflexivity|]. split; [|split].
      + intros i Hi. rewrite at_insert by (rewrite length_replicate; lia).
        destruct (decide (i = 0)); [reflexivity|].
        rewrite at_replicate by lia. destruct (decide (i < 1)); [lia|reflexivity].
      + intros i Hi. rewrite at_replicate by lia.
        destruct (decide (S i < 1)); [lia|reflexivity].
      + intros i Hi. rewrite at_insert by (rewrite length_replicate; lia).
        destruct (decide (i = 0)) as [->|Hne].
        * unfold line_at. rewrite Nat.mul_0_l, Nat.add_0_r. reflexivity.
        * rewrite at_replicate by lia. destruct (decide (i < 1)); [lia|reflexivity].
    - intros k acc Hk (Hd & Hlu & Hll & Hlr & Hu & Hl & Hr).
      cbn [BSplinePrefilter.diagonal BSplinePrefilter.upper BSplinePrefilter.lower
           BSplinePrefilter.rhs].
      rewrite !length_insert.
      split; [exact Hd|]. split; [exact Hlu|]. split; [exact Hll|].
      split; [exact Hlr|]. split; [|split].
      + intros i Hi. rewrite at_insert by lia. rewrite Hu by exact Hi.
        destruct (decide (i = k)), (decide (i = 0)), (decide (i < k)),
          (decide (i < S k)); try lia; reflexivity.
      + intros i Hi. rewrite at_insert by lia. rewrite Hl by exact Hi.
        destruct (decide (i = k - 1)), (decide (S i < k)), (decide (S i < S k));
          try lia; reflexivity.
      + intros i Hi. rewrite at_insert by lia. rewrite Hr by exact Hi.
        destruct (decide (i = k)) as [->|?].
        * destruct (decide (k = 0)), (decide (k < k)), (decide (k < S k));
            try lia; reflexivity.
        * destruct (decide (i = 0)), (decide (i < k)), (decide (i < S k));
            try lia; reflexivity. }
  destruct Hloop as (Hd & Hlu & Hll & Hlr & Hu & Hl & Hr).
  unfold system_built.
  cbn [BSplinePrefilter.diagonal BSplinePrefilter.upper BSplinePrefilter.lower
       BSplinePrefilter.rhs].
  rewrite !length_insert, Hd, length_replicate.
  split; [reflexivity|]. split; [exact Hlu|]. split; [exact Hll|].
  split; [exact Hlr|]. split; [|split; [|split]].
  - intros i Hi. apply at_replicate. exact Hi.
  - intros i Hi. rewrite Hu by exact Hi.
    destruct (decide (i = 0)); [reflexivity|].
    destruct (decide (i < n - 1)); [reflexivity|lia].
  - intros i Hi. rewrite at_insert by lia. rewrite Hl by exact Hi.
    destruct (decide (i = n - 2)); [reflexivity|].
    destruct (decide (S i < n - 1)); [reflexivity|lia].
  - intros i Hi. rewrite at_insert by lia.
    destruct (decide (i = n - 1)) as [->|Hne]; [reflexivity|].
    rewrite Hr by exact Hi. destruct (decide (i = 0)) as [->|?]; [reflexivity|].
    destruct (decide (i < n - 1)); [reflexivity|lia].
Qed.

Lemma eliminate_spec (sys0 : BSplinePrefilter.System (F:=R)) :
  system_built n (line_at data line stride) sys0 →
  system_reducing n sys0 n (BSplinePrefilter.eliminate n sys0).
Proof.
  intros (Hld & Hlu & Hll & Hlr & Hd & Hu & Hl & Hr).
  unfold BSplinePrefilter.eliminate.
  apply (for_range_ind (system_reducing n sys0) 1 n); [lia| |].
  - unfold system_reducing. cbv zeta.
    split; [reflexivity|]. split; [reflexivity|]. split; [exact Hld|].
    split; [exact Hlr|]. split; [|split; [|split; [|split]]].
    + intros i Hi. split; [apply Hd; lia|reflexivity].
    + apply Hd. lia.
    + reflexivity.
    + intros i Hi. lia.
    + intros i Hi. assert (i = 0) as -> by lia. rewrite Hd by lia. lra.
  - intros k acc Hk. unfold system_reducing. cbv zeta.
    intros (Eu & El & Hlen_d & Hlen_r & Hrest & Hd0 & Hb0 & Hrec & Hbound).
    cbn [BSplinePrefilter.diagonal BSplinePrefilter.upper BSplinePrefilter.lower
         BSplinePrefilter.rhs].
    cbn [fdiv fsub fmul R_float]. rewrite Eu, El, !length_insert.
    split; [reflexivity|]. split; [reflexivity|]. split; [exact Hlen_d|].
    split; [exact Hlen_r|].
    destruct (Hrest k ltac:(lia)) as [Hdk Hbk].
    assert (Hprev : (3 <= BSplinePrefilter.at_ (BSplinePrefilter.diagonal acc) (k - 1)
                     <= 4)%R) by (apply Hbound; lia).
    split; [|split; [|split; [|split]]].
    + intros i Hi. rewrite !at_insert_ne by lia. apply Hrest. lia.
    + rewrite at_insert_ne by lia. exact Hd0.
    + rewrite at_insert_ne by lia. exact Hb0.
    + intros i Hi. destruct (decide (i = k)) as [->|Hne].
      * rewrite !at_insert by lia.
        destruct (decide (k = k)) as [_|?]; [|congruence].
        destruct (decide (k - 1 = k)) as [?|_]; [lia|].
        rewrite Hdk, Hbk. split; reflexivity.
      * rewrite !at_insert_ne by lia. apply Hrec. lia.
    + intros i Hi. rewrite at_insert by lia.
      destruct (decide (i = k)) as [->|Hne]; [|apply Hbound; lia].
      rewrite Hdk.
      set (d := BSplinePrefilter.at_ (BSplinePrefilter.diagonal acc) (k - 1)) in *.
      assert (Hinv : (/ 4 <= / d <= / 3)%R).
      { split; apply Rinv_le_contravar; lra. }
      rewrite Hu, Hl by lia.
      destruct (decide (k - 1 = 0)) as [E0|E0].
      * assert (d = 4%R) as -> by (unfold d; rewrite E0; exact Hd0).
        destruct (decide (k - 1 = n - 2)); lra.
      * destruct (decide (k - 1 = n - 2)); unfold Rdiv; lra.
Qed.

Lemma line_cells_distinct i j :
  stride ≠ 0 → i ≠ j → line + i * stride ≠ line + j * stride.
Proof.
  intros Hs Hne E. apply Hne.
  apply (Nat.mul_cancel_r i j stride Hs). lia.
Qed.

Lemma back_substitute_spec (sys : BSplinePrefilter.System (F:=R)) :
  stride ≠ 0 →
  line + (n - 1) * stride < length data →
  (∀ i, i < n → BSplinePrefilter.at_ (BSplinePrefilter.diagonal sys) i ≠ 0%R) →
  line_solving line n stride sys data 0
    (BSplinePrefilter.back_substitute line n stride sys data).
Proof.
  intros Hs Hrange Hnz. unfold BSplinePrefilter.back_substitute. cbv zeta.
  cbn [fdiv fsub fmul R_float].
  assert (Hin : ∀ i, i < n → line + i * stride < length data).
  { intros i Hi. assert (i * stride ≤ (n - 1) * stride); [|lia].
    apply Nat.mul_le_mono_r. lia. }
  apply (for_down_ind (line_solving line n stride sys data)).
  - unfold line_solving. cbv zeta. split; [apply length_insert|].
    split; [|split].
    + intros j Hj. apply at_insert_ne. apply Hj. lia.
    + unfold line_at. rewrite at_insert by (apply Hin; lia).
      rewrite decide_True by reflexivity. field. apply Hnz. lia.
    + intros i Hi Hi'. lia.
  - intros i acc Hi. unfold line_solving. cbv zeta.
    intros (Hlen & Hframe & Hlast & Hrows).
    split; [rewrite length_insert; exact Hlen|]. split; [|split].
    + intros j Hj. rewrite at_insert_ne by (apply Hj; lia). apply Hframe, Hj.
    + unfold line_at in *. rewrite at_insert_ne; [exact Hlast|].
      apply line_cells_distinct; [exact Hs|lia].
    + intros j Hj Hj'. unfold line_at in *.
      destruct (decide (j = i)) as [->|Hne].
      * rewrite at_insert by (rewrite Hlen; apply Hin; lia).
        rewrite decide_True by reflexivity.
        rewrite at_insert_ne by (apply line_cells_distinct; [exact Hs|lia]).
        field. apply Hnz. lia.
      * rewrite !at_insert_ne by (apply line_cells_distinct; [exact Hs|lia]).
        apply Hrows; lia.
Qed.

(** The line after [prefilter_line] solves the spline system for the line
    before it. *)
Lemma prefilter_line_solves :
  stride ≠ 0 →
  line + (n - 1) * stride < length data →
  length (BSplinePrefilter.prefilter_line line n stride data) = length data
  ∧ (∀ j, (∀ i, i < n → j ≠ line + i * stride) →
          BSplinePrefilter.at_ (BSplinePrefilter.prefilter_line line n stride data) j
          = BSplinePrefilter.at_ data j)
  ∧ spline_system n
      (line_at (BSplinePrefilter.prefilter_line line n stride data) line stride)
      (line_at data line stride).
Proof.
  intros Hs Hrange. unfold BSplinePrefilter.prefilter_line.
  rewrite !bool_decide_eq_false_2 by lia.
  pose proof build_system_spec as Hbuilt.
  set (sys0 := BSplinePrefilter.build_system line n stride data) in *.
  pose proof (eliminate_spec sys0 Hbuilt) as Hred.
  set (sys := BSplinePrefilter.eliminate n sys0) in *.
  destruct Hbuilt as (_ & _ & _ & _ & _ & Hu & Hl & Hr).
  unfold system_reducing in Hred. cbv zeta in Hred.
  destruct Hred as (Eu & El & _ & _ & _ & Hd0 & Hb0 & Hrec & Hbound).
  assert (Hnz : ∀ i, i < n →
            BSplinePrefilter.at_ (BSplinePrefilter.diagonal sys) i ≠ 0%R).
  { intros i Hi. specialize (Hbound i Hi). lra. }
  pose proof (back_substitute_spec sys Hs Hrange Hnz) as Hsolve.
  set (out := BSplinePrefilter.back_substitute line n stride sys data) in *.
  unfold line_solving in Hsolve. cbv zeta in Hsolve. rewrite Eu in Hsolve.
  destruct Hsolve as (Hlen & Hframe & Hlast & Hrows).
  split; [exact Hlen|]. split; [exact Hframe|].
  unfold spline_system. split; [|split].
  - pose proof (Hrows 0 ltac:(lia) ltac:(lia)) as H0.
    rewrite Hd0, Hb0, Hu, Hr in H0 by lia.
    rewrite decide_True in H0 by reflexivity. exact H0.
  - intros i Hi Hi'.
    pose proof (Hrows (i - 1) ltac:(lia) ltac:(lia)) as Hp.
    pose proof (Hrows i ltac:(lia) ltac:(lia)) as Hc.
    destruct (Hrec i ltac:(lia)) as [Hdi Hbi].
    replace (i - 1 + 1) with i in Hp by lia.
    rewrite Hdi, Hbi in Hc. rewrite (Hu i), (Hl (i - 1)), Hr in Hc by lia.
    rewrite decide_False in Hc by lia. rewrite decide_False in Hc by lia.
    pose proof (Hbound (i - 1) ltac:(lia)) as Hb.
    set (d := BSplinePrefilter.at_ (BSplinePrefilter.diagonal sys) (i - 1)) in *.
    set (u := BSplinePrefilter.at_ (BSplinePrefilter.upper sys0) (i - 1)) in *.
    set (b := BSplinePrefilter.at_ (BSplinePrefilter.rhs sys) (i - 1)) in *.
    assert (Hf : (/ d * d = 1)%R) by (apply Rinv_l; lra).
    assert (E : (/ d * b = line_at out line stride (i - 1)
                           + / d * u * line_at out line stride i)%R).
    { rewrite <- Hp.
      replace (/ d * (d * line_at out line stride (i - 1)
                      + u * line_at out line stride i))%R
        with ((/ d * d) * line_at out line stride (i - 1)
              + / d * u * line_at out line stride i)%R by ring.
      rewrite Hf. ring. }
    unfold Rdiv in Hc. lra.
  - pose proof (Hrows (n - 2) ltac:(lia) ltac:(lia)) as Hp.
    destruct (Hrec (n - 1) ltac:(lia)) as [Hdi Hbi].
    replace (n - 2 + 1) with (n - 1) in Hp by lia.
    replace (n - 1 - 1) with (n - 2) in Hdi, Hbi by lia.
    rewrite Hdi, Hbi in Hlast. rewrite (Hl (n - 2)), Hr in Hlast by lia.
    rewrite decide_True in Hlast by reflexivity.
    pose proof (Hbound (n - 2) ltac:(lia)) as Hb.
    set (d := BSplinePrefilter.at_ (BSplinePrefilter.diagonal sys) (n - 2)) in *.
    set (u := BSplinePrefilter.at_ (BSplinePrefilter.upper sys0) (n - 2)) in *.
    set (b := BSplinePrefilter.at_ (BSplinePrefilter.rhs sys) (n - 2)) in *.
    assert (Hf : (/ d * d = 1)%R) by (apply Rinv_l; lra).
    assert (E : (/ d * b = line_at out line stride (n - 2)
                           + / d * u * line_at out line stride (n - 1))%R).
    { rewrite <- Hp.
      replace (/ d * (d * line_at out line stride (n - 2)
                      + u * line_at out line stride (n - 1)))%R
        with ((/ d * d) * line_at out line stride (n - 2)
              + / d * u * line_at out line stride (n - 1))%R by ring.
      rewrite Hf. ring. }
    unfold Rdiv in Hlast. lra.
Qed.

End Line.

(** Some index carries the largest absolute value. *)
Lemma max_abs_index (n : nat) (e : nat → R) :
  0 < n → ∃ m, m < n ∧ ∀ i, i < n → (Rabs (e i) <= Rabs (e m))%R.
Proof.
  induction n as [|n IH]; [lia|]. intros _.
  destruct n as [|n].
  - exists 0. split; [lia|]. intros i Hi. assert (i = 0) as -> by lia. lra.
  - destruct (IH ltac:(lia)) as (m & Hm & Hmax).
    destruct (Rle_dec (Rabs (e (S n))) (Rabs (e m))) as [Hle|Hgt].
    + exists m. split; [lia|]. intros i Hi.
      destruct (decide (i = S n)) as [->|Hne]; [exact Hle|]. apply Hmax. lia.
    + exists (S n). split; [lia|]. intros i Hi.
      destruct (decide (i = S n)) as [->|Hne]; [lra|].
      specialize (Hmax i ltac:(lia)). lra.
Qed.

(** The spline system is strictly diagonally dominant: its only solution
    for zero samples is zero. *)
Lemma spline_system_zero (n : nat) (e : nat → R) :
  2 ≤ n → spline_system n e (λ _, 0%R) → ∀ i, i < n → e i = 0%R.
Proof.
  intros Hn (Hfirst & Hmid & Hlast).
  destruct (max_abs_index n e ltac:(lia)) as (m & Hm & Hmax).
  assert (Hzero : Rabs (e m) = 0%R).
  { destruct (decide (m = 0)) as [->|Hm0].
    - pose proof (Hmax 1 ltac:(lia)) as H1. revert H1 Hfirst.
      unfold Rabs. repeat destruct Rcase_abs; lra.
    - destruct (decide (m = n - 1)) as [->|Hml].
      + pose proof (Hmax (n - 2) ltac:(lia)) as H1. revert H1 Hlast.
        unfold Rabs. repeat destruct Rcase_abs; lra.
      + pose proof (Hmax (m - 1) ltac:(lia)) as H1.
        pose proof (Hmax (m + 1) ltac:(lia)) as H2.
        pose proof (Hmid m ltac:(lia) ltac:(lia)) as H3. revert H1 H2 H3.
        unfold Rabs. repeat destruct Rcase_abs; lra. }
  intros i Hi. specialize (Hmax i Hi). rewrite Hzero in Hmax.
  revert Hmax. unfold Rabs. destruct Rcase_abs; lra.
Qed.

Lemma spline_system_unique (n : nat) (x x' s : nat → R) :
  2 ≤ n → spline_system n x s → spline_system n x' s →
  ∀ i, i < n → x i = x' i.
Proof.
  intros Hn (H1 & H2 & H3) (H1' & H2' & H3') i Hi.
  assert (Hz : (x i - x' i = 0)%R); [|lra].
  apply (spline_system_zero n (λ i, x i - x' i)%R Hn); [|exact Hi].
  split; [lra|]. split; [|lra].
  intros j Hj Hj'. specialize (H2 j Hj Hj'). specialize (H2' j Hj Hj'). lra.
Qed.

Lemma spline_system_constant (n : nat) (v : R) :
  spline_system n (λ _, v) (λ _, v).
Proof. split; [lra|]. split; [intros; lra|lra]. Qed.



Lemma for_down_length {A} n (body : nat → list A → list A) l :
  (∀ i acc, length (body i acc) = length acc) →
  length (for_down n body l) = length l.
Proof.
  intros Hb. revert l. induction n as [|n IH]; intros l; [reflexivity|].
  simpl. rewrite IH. apply Hb.
Qed.

Lemma for_range_fix {St} lo hi (body : nat → St → St) s :
  (∀ i, lo ≤ i < hi → body i s = s) → for_range lo hi body s = s.
Proof.
  intros Hb. destruct (decide (lo ≤ hi)) as [Hle|Hgt].
  - apply (for_range_ind (λ _ acc, acc = s) lo hi body s Hle); [reflexivity|].
    intros i acc Hi ->. apply Hb. exact Hi.
  - apply for_range_empty. lia.
Qed.

Section PrefilterShape.
Context {F : Type} `{FloatOps F}.

Lemma prefilter_line_length (line n stride : nat) (data : list F) :
  length (BSplinePrefilter.prefilter_line line n stride data) = length data.
Proof.
  unfold BSplinePrefilter.prefilter_line.
  repeat case_bool_decide; try reflexivity.
  unfold BSplinePrefilter.back_substitute. cbv zeta.
  rewrite for_down_length by (intros; apply length_insert).
  apply length_insert.
Qed.

Lemma prefilter_line_short (line n stride : nat) (data : list F) :
  n ≤ 1 → BSplinePrefilter.prefilter_line line n stride data = data.
Proof.
  intros Hn. unfold BSplinePrefilter.prefilter_line.
  destruct (decide (n = 0)) as [->|Hn0]; [reflexivity|].
  rewrite bool_decide_eq_false_2 by exact Hn0.
  rewrite bool_decide_eq_true_2 by lia. reflexivity.
Qed.

(** X17. [b_spline_prefilter] keeps the shape of every image: width,
    height and number of samples are those of the input.  An image with a
    zero dimension, or whose sample count is not a positive multiple of
    [width * height], is returned as it is, and so is an image of one
    pixel. *)
Theorem b_spline_prefilter_keeps_shape (input : Image.t F) :
  Image.width (BSplinePrefilter.b_spline_prefilter input) = Image.width input
  ∧ Image.height (BSplinePrefilter.b_spline_prefilter input) = Image.height input
  ∧ length (Image.pixels (BSplinePrefilter.b_spline_prefilter input))
    = length (Image.pixels input)
  ∧ (Image.width input = 0 ∨ Image.height input = 0
     ∨ length (Image.pixels input) mod wrap (Image.width input * Image.height input) ≠ 0
     ∨ length (Image.pixels input) < wrap (Image.width input * Image.height input)
     ∨ wrap (Image.width input * Image.height input) = 0 →
     BSplinePrefilter.b_spline_prefilter input = input)
  ∧ (Image.width input = 1 ∧ Image.height input = 1 →
     BSplinePrefilter.b_spline_prefilter input = input).
Proof.
  unfold BSplinePrefilter.b_spline_prefilter. cbv zeta.
  split; [|split; [|split; [|split]]].
  - repeat case_bool_decide; reflexivity.
  - repeat case_bool_decide; reflexivity.
  - repeat case_bool_decide; try reflexivity. cbn [Image.pixels].
    rewrite for_range_length.
    + apply for_range_length. intros y acc. apply for_range_length.
      intros c acc'. apply prefilter_line_length.
    + intros x acc. apply for_range_length.
      intros c acc'. apply prefilter_line_length.
  - intros Hdeg. case_bool_decide as Hz; [reflexivity|].
    assert (Hch : BSplinePrefilter.compute_channels input = 0).
    { unfold BSplinePrefilter.compute_channels. cbv zeta.
      rewrite bool_decide_eq_false_2 by exact Hz.
      case_bool_decide as Hc; [reflexivity|].
      case_bool_decide as Hm; [reflexivity|].
      destruct Hdeg as [?|[?|[?|[Hlt|?]]]]; try tauto.
      apply Nat.div_small. exact Hlt. }
    rewrite bool_decide_eq_true_2 by exact Hch. reflexivity.
  - intros [Hw Hh]. repeat case_bool_decide; try reflexivity.
    rewrite Hw, Hh.
    rewrite (for_range_fix 0 1); cycle 1.
    { intros y _. apply for_range_fix. intros c _. apply prefilter_line_short. lia. }
    rewrite (for_range_fix 0 1); cycle 1.
    { intros x _. apply for_range_fix. intros c _. apply prefilter_line_short. lia. }
    destruct input as [w h p]. cbn in *. subst. reflexivity.
Qed.

End PrefilterShape.

(** A line of a constant vector is left constant. *)
Lemma prefilter_line_flat (line n stride N : nat) (v : R) :
  stride ≠ 0 → (2 ≤ n → line + (n - 1) * stride < N) →
  BSplinePrefilter.prefilter_line line n stride (replicate N v) = replicate N v.
Proof.
  intros Hs Hrange. destruct (decide (n ≤ 1)) as [Hn|Hn].
  { apply prefilter_line_short. exact Hn. }
  assert (Hn2 : 2 ≤ n) by lia. specialize (Hrange Hn2).
  destruct (prefilter_line_solves line n stride (replicate N v) Hn2 Hs)
    as (Hlen & Hframe & Hsys).
  { rewrite length_replicate. exact Hrange. }
  set (out := BSplinePrefilter.prefilter_line line n stride (replicate N v)) in *.
  assert (Hin : ∀ i, i < n → line + i * stride < N).
  { intros i Hi. assert (i * stride ≤ (n - 1) * stride); [|lia].
    apply Nat.mul_le_mono_r. lia. }
  assert (Hconst : spline_system n (λ _, v) (line_at (replicate N v) line stride)).
  { destruct (spline_system_constant n v) as (H1 & H2 & H3).
    unfold spline_system, line_at. rewrite !at_replicate by (apply Hin; lia).
    split; [exact H1|]. split; [|exact H3].
    intros i Hi Hi'. rewrite at_replicate by (apply Hin; lia). apply (H2 i); assumption. }
  pose proof (spline_system_unique n _ _ _ Hn2 Hsys Hconst) as Hline.
  apply (nth_ext _ _ (f_lit 0) (f_lit 0)); [exact Hlen|].
  intros j Hj. rewrite Hlen, length_replicate in Hj.
  change (BSplinePrefilter.at_ out j = BSplinePrefilter.at_ (replicate N v) j).
  destruct (decide (line ≤ j ∧ (j - line) mod stride = 0 ∧ (j - line) / stride < n))
    as [(Hle & Hmod & Hdiv)|Hoff].
  - pose proof (Nat.div_mod (j - line) stride Hs) as Hdm.
    rewrite Hmod, Nat.add_0_r in Hdm.
    assert (Ej : j = line + (j - line) / stride * stride) by lia.
    rewrite Ej at 1. rewrite at_replicate by exact Hj.
    apply (Hline _ Hdiv).
  - apply Hframe. intros i Hi ->. apply Hoff.
    replace (line + i * stride - line) with (i * stride) by lia.
    rewrite Nat.Div0.mod_mul, Nat.div_mul by exact Hs. split; [lia|]. split; [reflexivity|exact Hi].
Qed.

Lemma bsp_compute_channels {F} `{FloatOps F} width height channels (pixels : list F) :
  width ≠ 0 → height ≠ 0 → fits (width * height) →
  length pixels = height * width * channels →
  BSplinePrefilter.compute_channels (Image.mk width height pixels) = channels.
Proof.
  intros Hw Hh Hf Hlen. unfold BSplinePrefilter.compute_channels. cbv zeta.
  cbn [Image.width Image.height Image.pixels].
  rewrite bool_decide_eq_false_2 by tauto.
  rewrite wrap_fits by exact Hf.
  assert (Hc : width * height ≠ 0) by nia.
  rewrite bool_decide_eq_false_2 by exact Hc.
  replace (length pixels) with (channels * (width * height)) by lia.
  rewrite Nat.Div0.mod_mul, Nat.div_mul by exact Hc.
  rewrite bool_decide_eq_false_2 by (intros Hn; apply Hn; reflexivity).
  reflexivity.
Qed.

Lemma row_line_in_range width height channels y c :
  y < height → c < channels → width ≠ 0 →
  y * width * channels + c + (width - 1) * channels < height * width * channels.
Proof.
  intros Hy Hc Hw.
  assert (H1 : (width - 1) * channels + channels = width * channels).
  { replace width with (S (width - 1)) at 2 by lia. simpl. lia. }
  assert (H2 : (y + 1) * (width * channels) ≤ height * (width * channels)).
  { apply Nat.mul_le_mono_r. lia. }
  lia.
Qed.

Lemma column_line_in_range width height channels x c :
  x < width → c < channels → height ≠ 0 →
  x * channels + c + (height - 1) * (width * channels) < height * width * channels.
Proof.
  intros Hx Hc Hh.
  assert (H1 : (height - 1) * (width * channels) + width * channels
               = height * width * channels).
  { replace height with (S (height - 1)) at 2 by lia. simpl. lia. }
  assert (H2 : (x + 1) * channels ≤ width * channels).
  { apply Nat.mul_le_mono_r. lia. }
  lia.
Qed.



Lemma spline_system_ext (n : nat) (x x' s s' : nat → R) :
  2 ≤ n → (∀ i, i < n → x i = x' i) → (∀ i, i < n → s i = s' i) →
  spline_system n x s → spline_system n x' s'.
Proof.
  intros Hn Hx Hs (H1 & H2 & H3). unfold spline_system.
  rewrite <- !Hx, <- !Hs by lia. split; [exact H1|]. split; [|exact H3].
  intros i Hi Hi'. rewrite <- !Hx, <- Hs by lia. apply H2; assumption.
Qed.

(** A pass of [prefilter_line] over lines that share no cell. *)
Section LinesPass.
Variables (A ch n stride : nat) (line : nat → nat → nat) (data : list R).
Hypothesis Hn : 2 ≤ n.
Hypothesis Hstride : stride ≠ 0.
Hypothesis Hrange : ∀ a c, a < A → c < ch → line a c + (n - 1) * stride < length data.
Hypothesis Hinj : ∀ a c i a' c' i',
  a < A → c < ch → i < n → a' < A → c' < ch → i' < n →
  line a c + i * stride = line a' c' + i' * stride → a = a' ∧ c = c'.

Lemma lines_pass_step a0 c0 d :
  a0 < A → c0 < ch →
  lines_done A ch n stride line data a0 c0 d →
  lines_done A ch n stride line data a0 (S c0)
    (BSplinePrefilter.prefilter_line (line a0 c0) n stride d).
Proof.
  intros Ha0 Hc0 (Hlen & Hdone & Htodo).
  destruct (prefilter_line_solves (line a0 c0) n stride d Hn Hstride)
    as (Hlen' & Hframe & Hsys).
  { rewrite Hlen. apply Hrange; assumption. }
  assert (Hother : ∀ a c i, a < A → c < ch → i < n → ¬ (a = a0 ∧ c = c0) →
            line_at (BSplinePrefilter.prefilter_line (line a0 c0) n stride d)
                    (line a c) stride i
            = line_at d (line a c) stride i).
  { intros a c i Ha Hc Hi Hne. unfold line_at. apply Hframe.
    intros i' Hi' E. apply Hne. eapply Hinj; [..|exact E]; assumption. }
  split; [rewrite Hlen'; exact Hlen|]. split.
  - intros a c Ha Hc Hbefore.
    destruct (decide (a = a0 ∧ c = c0)) as [[-> ->]|Hne].
    + apply (spline_system_ext n _ _ _ _ Hn (λ _ _, eq_refl)
               (λ i Hi, Htodo a0 c0 i Ha0 Hc0 Hi ltac:(lia)) Hsys).
    + apply (spline_system_ext n (line_at d (line a c) stride) _
               (line_at data (line a c) stride) _ Hn).
      * intros i Hi. symmetry. apply Hother; assumption.
      * reflexivity.
      * apply Hdone; [assumption..|]. lia.
  - intros a c i Ha Hc Hi Hnot.
    rewrite Hother by (try assumption; lia). apply Htodo; [assumption..|]. lia.
Qed.

Lemma lines_pass :
  lines_done A ch n stride line data A 0
    (for_range 0 A (λ a d,
       for_range 0 ch (λ c d,
         BSplinePrefilter.prefilter_line (line a c) n stride d) d) data).
Proof.
  apply (for_range_ind (λ a d, lines_done A ch n stride line data a 0 d) 0 A);
    [lia| |].
  - split; [reflexivity|]. split; [intros a c _ _ Hb; lia|reflexivity].
  - intros a0 d Ha0 Hd.
    assert (Hinner : lines_done A ch n stride line data a0 ch
              (for_range 0 ch (λ c d,
                 BSplinePrefilter.prefilter_line (line a0 c) n stride d) d)).
    { apply (for_range_ind (λ c d, lines_done A ch n stride line data a0 c d) 0 ch);
        [lia|exact Hd|].
      intros c0 acc Hc0 Hacc. apply lines_pass_step; [lia|lia|exact Hacc]. }
    destruct Hinner as (Hlen & Hdone & Htodo).
    split; [exact Hlen|]. split.
    + intros a c Ha Hc Hb. apply Hdone; [assumption..|]. lia.
    + intros a c i Ha Hc Hi Hnot. apply Htodo; [assumption..|]. lia.
Qed.

End LinesPass.

Lemma radix_inj b q r q' r' :
  r < b → r' < b → q * b + r = q' * b + r' → q = q' ∧ r = r'.
Proof.
  intros Hr Hr' E.
  assert (Hq : q = q').
  { rewrite <- (row_cell_div b q r Hr), <- (row_cell_div b q' r' Hr'), E.
    reflexivity. }
  subst q'. split; [reflexivity|lia].
Qed.

Lemma spline_coefficients_ext (n : nat) (x x' s s' : nat → R) :
  (∀ i, x i = x' i) → (∀ i, s i = s' i) →
  spline_coefficients n x s → spline_coefficients n x' s'.
Proof.
  intros Hx Hs. unfold spline_coefficients. destruct (decide (2 ≤ n)) as [Hn|Hn].
  - apply spline_system_ext; auto.
  - intros Hc i Hi. rewrite <- Hx, <- Hs. apply Hc, Hi.
Qed.

(** A pass over lines of any length. *)
Lemma lines_pass_coefficients (A ch n stride : nat) (line : nat → nat → nat)
    (data : list R) :
  stride ≠ 0 →
  (∀ a c, a < A → c < ch → line a c + (n - 1) * stride < length data) →
  (∀ a c i a' c' i',
     a < A → c < ch → i < n → a' < A → c' < ch → i' < n →
     line a c + i * stride = line a' c' + i' * stride → a = a' ∧ c = c') →
  length (for_range 0 A (λ a d,
            for_range 0 ch (λ c d,
              BSplinePrefilter.prefilter_line (line a c) n stride d) d) data)
  = length data
  ∧ ∀ a c, a < A → c < ch →
      spline_coefficients n
        (line_at (for_range 0 A (λ a d,
                    for_range 0 ch (λ c d,
                      BSplinePrefilter.prefilter_line (line a c) n stride d) d) data)
                 (line a c) stride)
        (line_at data (line a c) stride).
Proof.
  intros Hs Hrange Hinj. unfold spline_coefficients.
  destruct (decide (2 ≤ n)) as [Hn|Hn].
  - destruct (lines_pass A ch n stride line data Hn Hs Hrange Hinj)
      as (Hlen & Hdone & _).
    split; [exact Hlen|]. intros a c Ha Hc. apply Hdone; [assumption..|]. lia.
  - rewrite for_range_fix; [split; [reflexivity|]; intros; reflexivity|].
    intros a _. apply for_range_fix. intros c _. apply prefilter_line_short. lia.
Qed.



(** ** The range of the sanitized output *)

(** X20. [sanitize] of a normalised image leaves a normalised image in
    [output] under exact arithmetic: when the input is a byte image, or a
    float image whose samples lie in [0, 1], every sample of a float output
    lies in [0, 1], and every sample of a byte output in [0, 255].  (The
    samples are real numbers here; a NaN of a float input would reach the
    final blend, and the [std::clamp] of the code would hand it on.) *)
Theorem sanitize_output_normalized (pool_size : nat) (kQuantTableQ50 : list Z)
    (input output : CpuImage.t R) :
  fits (Nat.max 1 pool_size * 4) →
  PixelOps.validate_image input = true →
  PixelOps.validate_image output = true →
  Sanitize.supported_type (CpuImage.type input) = true →
  Sanitize.supported_type (CpuImage.type output) = true →
  CpuImage.width input = CpuImage.width output →
  CpuImage.height input = CpuImage.height output →
  CpuImage.width output mod 2 = 0 →
  CpuImage.height output mod 2 = 0 →
  fits (CpuImage.width output * CpuImage.height output * 12) →
  backed output →
  (∀ y x c v, y < CpuImage.height input → x < CpuImage.width input → c < 3 →
     read_sample input y x c = Some (F32Sample v) → (0 <= v <= 1)%R) →
  ∃ d',
    Sanitize.sanitize pool_size kQuantTableQ50 input output = Some (true, d')
    ∧ ∀ y x c, y < CpuImage.height output → x < CpuImage.width output → c < 3 →
        match read_sample (CpuImage.with_data output d') y x c with
        | Some (F32Sample v) => CpuImage.type output = F32_RGB ∧ (0 <= v <= 1)%R
        | Some (U8Sample b) => CpuImage.type output = U8_RGB ∧ (0 ≤ b ≤ 255)%Z
        | None => False
        end.
Proof.
  intros Hpool Hvi Hvo Hsi Hso Hw Hh Hw2 Hh2 Hfits Hbacked _.
  destruct (sanitize_ok pool_size kQuantTableQ50 Hpool input output
              Hvi Hvo Hsi Hso Hw Hh Hw2 Hh2 Hfits)
    as (d' & st & Hst & Hs & _ & Hcells).
  exists d'. split; [exact Hs|]. intros y x c Hy Hx Hc.
  rewrite (Hcells Hbacked y x c Hy Hx Hc).
  destruct (sanitize_stages_inv pool_size kQuantTableQ50 input output st Hst)
    as (_ & _ & (sr_data & Hsr & Hsout) & Hfinal).
  assert (Htotal : wrap (CpuImage.width output * CpuImage.height output * 3)
                   = CpuImage.width output * CpuImage.height output * 3).
  { apply wrap_fits. eapply fits_le; [|exact Hfits]. lia. }
  assert (Hlen : length (Sanitize.sr_output st)
                 = CpuImage.width output * CpuImage.height output * 3).
  { rewrite Hsout.
    rewrite (same_shape_vector _ _ (sr_lite_refine_shape pool_size _ _ _ _ Hsr)).
    rewrite length_replicate. exact Htotal. }
  assert (Hidx : (y * CpuImage.width output + x) * 3 + c
                 < CpuImage.width output * CpuImage.height output * 3).
  { assert ((y + 1) * CpuImage.width output
            ≤ CpuImage.height output * CpuImage.width output)
      by (apply Nat.mul_le_mono_r; lia).
    lia. }
  rewrite Hfinal. cbn [Image.pixels].
  erewrite nth_lookup_Some; cycle 1.
  { apply blend_final_cells; rewrite ?Htotal, ?Hlen; exact Hidx. }
  rewrite sanitize_pixel_R.
  match goal with |- context [Rmax 0 (Rmin 1 ?e)] => set (v := e) end.
  assert (Hv : (0 <= Rmax 0 (Rmin 1 v) <= 1)%R).
  { unfold Rmax, Rmin. destruct (Rle_dec 1 v); destruct (Rle_dec 0 _); lra. }
  unfold Sanitize.supported_type in Hso. apply bool_decide_eq_true in Hso.
  destruct Hso as [Hty | Hty]; rewrite Hty; cbn [encode_sample].
  - split; [reflexivity|]. rewrite float_to_u8_R.
    apply R_round_away_bounds.
    pose proof (fclamp_R_bounds (Rmax 0 (Rmin 1 v)) 0 1 ltac:(lra)). lra.
  - split; [reflexivity|exact Hv].
Qed.

Lemma sanitize_output_normalized_witness :
  ∃ d',
    Sanitize.sanitize 4 (replicate 64 16%Z)
      (CpuImage.mk F32_RGB 2 2 24
         (Some (Floats [1; 0; 0; 0; 1; 0; 0; 0; 1; 0.5; 0.5; 0.5]%R)))
      (CpuImage.mk U8_RGB 2 2 6 (Some (Bytes (replicate 12 7%Z))))
    = Some (true, d')
    ∧ ∀ y x c, y < 2 → x < 2 → c < 3 →
        match read_sample (CpuImage.mk (F:=R) U8_RGB 2 2 6 d') y x c with
        | Some (F32Sample v) => U8_RGB = F32_RGB ∧ (0 <= v <= 1)%R
        | Some (U8Sample b) => U8_RGB = U8_RGB ∧ (0 ≤ b ≤ 255)%Z
        | None => False
        end.
Proof.
  apply (sanitize_output_normalized 4 (replicate 64 16%Z)
           (CpuImage.mk F32_RGB 2 2 24
              (Some (Floats [1; 0; 0; 0; 1; 0; 0; 0; 1; 0.5; 0.5; 0.5]%R)))
           (CpuImage.mk U8_RGB 2 2 6 (Some (Bytes (replicate 12 7%Z)))));
    try reflexivity.
  - intros y x c Hy Hx Hc. simpl in Hy, Hx, Hc.
    destruct y as [|[|y]]; [| |lia];
      (destruct x as [|[|x]]; [| |lia]);
      (destruct c as [|[|[|c]]]; [| | |lia]); simpl; eauto.
  - intros y x c v Hy Hx Hc. cbn [CpuImage.height CpuImage.width] in Hy, Hx.
    destruct y as [|[|y]]; [| |lia];
      (destruct x as [|[|x]]; [| |lia]);
      (destruct c as [|[|[|c]]]; [| | |lia]);
      cbn; intros [= <-]; lra.
Defined.

(** ** Resizing between buffers *)

Section ResizeGeneric.
Context {F : Type} `{FloatOps F}.
Variable pool_size : nat.

Lemma copy_image_to_cpu_false (src : Image.t F) (dst : CpuImage.t F) d :
  Resize.copy_image_to_cpu src dst = (false, d) → d = CpuImage.data dst.
Proof.
  unfold Resize.copy_image_to_cpu.
  repeat match goal with
  | |- (if ?b then _ else _) = _ → _ => destruct b
  end; try (intros [= <-]; reflexivity).
  destruct (CpuImage.type dst); intros [= ?]; subst; try discriminate; reflexivity.
Qed.

(** X21. [resize] reports failure without touching the destination.
    Whenever it returns [false] the contents of [dst.data] are what they
    were; and it returns [false] when a view is invalid, a scale is not
    positive, the mode is not [Cubic], or the size of [dst] is not the
    source size times the scale, rounded to nearest. *)
Theorem resize_failure_unmodified (src dst : CpuImage.t F) (scale_x scale_y : F)
    (mode : Z) :
  (∀ d, Resize.resize pool_size src dst scale_x scale_y mode = Some (false, d) →
        d = CpuImage.data dst)
  ∧ (PixelOps.validate_image src = false ∨ PixelOps.validate_image dst = false
     ∨ fleb scale_x (f_lit 0) = true ∨ fleb scale_y (f_lit 0) = true
     ∨ mode ≠ Resize.kCubic
     ∨ CpuImage.width dst
       ≠ Z.to_nat (f_llround (fmul (f_of_Z (Z.of_nat (CpuImage.width src))) scale_x))
     ∨ CpuImage.height dst
       ≠ Z.to_nat (f_llround (fmul (f_of_Z (Z.of_nat (CpuImage.height src))) scale_y)) →
     Resize.resize pool_size src dst scale_x scale_y mode
     = Some (false, CpuImage.data dst)).
Proof.
  unfold Resize.resize. cbv zeta. split.
  - intros d.
    repeat match goal with
    | |- (if ?b then _ else _) = _ → _ => destruct b
    end; try (intros [= <-]; reflexivity).
    destruct (Resize.copy_cpu_to_image src _) as [ok src_image].
    destruct ok; cbn [negb]; [|intros [= <-]; reflexivity].
    destruct (Resample.resample_cubic pool_size src_image _ _) as [resized|];
      cbn [mbind option_bind]; [|discriminate].
    case_bool_decide; [intros [= <-]; reflexivity|].
    destruct (Resize.copy_image_to_cpu resized dst) as [ok d0] eqn:Hc.
    intros [= -> ->]. apply (copy_image_to_cpu_false resized dst _ Hc).
  - intros Hrej.
    destruct (PixelOps.validate_image src) eqn:Hvs; cbn [negb orb]; [|reflexivity].
    destruct (PixelOps.validate_image dst) eqn:Hvd; cbn [negb orb]; [|reflexivity].
    destruct (fleb scale_x (f_lit 0)) eqn:Hsx; cbn [orb]; [reflexivity|].
    destruct (fleb scale_y (f_lit 0)) eqn:Hsy; cbn [orb]; [reflexivity|].
    case_bool_decide as Hmode; [reflexivity|].
    destruct (_ || _); [reflexivity|].
    case_bool_decide as Hzero; [reflexivity|].
    case_bool_decide as Hdims; [reflexivity|].
    exfalso. destruct Hrej as [?|[?|[?|[?|[Hm|[Hw|Hh]]]]]]; try discriminate.
    + exact (Hm Hmode).
    + apply Hdims. left. exact Hw.
    + apply Hdims. right. exact Hh.
Qed.

End ResizeGeneric.

(** Two loops that step in lockstep through related states. *)
Lemma for_range_sim {S T} (g : S → T) lo hi (b1 : nat → S → S) (b2 : nat → T → T) s :
  (∀ i acc, lo ≤ i < hi → g (b1 i acc) = b2 i (g acc)) →
  g (for_range lo hi b1 s) = for_range lo hi b2 (g s).
Proof.
  intros Hstep. destruct (decide (lo ≤ hi)) as [Hle|Hgt].
  - apply (for_range_ind (λ i acc, g acc = for_range lo i b2 (g s)) lo hi b1 s Hle).
    + rewrite for_range_empty by lia. reflexivity.
    + intros i acc Hi IH. rewrite for_range_snoc by lia. rewrite <- IH.
      apply Hstep. exact Hi.
  - rewrite !for_range_empty by lia. reflexivity.
Qed.

(** Relates a loop over a float vector with the same loop over the buffer
    that holds it. *)
Ltac lockstep :=
  match goal with
  | |- for_range ?lo ?hi ?b1 ?s = PixelOps.floats_of (for_range ?lo ?hi ?b2 _) =>
      rewrite <- (for_range_sim (λ l, Some (Floats l)) lo hi b1 b2 s);
      [reflexivity|]
  | |- Some (Floats (for_range ?lo ?hi ?b1 ?s)) = for_range ?lo ?hi ?b2 _ =>
      apply (for_range_sim (λ l, Some (Floats l)) lo hi b1 b2 s)
  end.

Section Conversions.
Context {F : Type} `{FloatOps F}.

Lemma tight_row_offset width y : y * (width * 3 * 4) / 4 = y * width * 3.
Proof.
  replace (y * (width * 3 * 4)) with (y * width * 3 * 4) by lia.
  apply Nat.div_mul. lia.
Qed.

Lemma vector_data_nonempty (v : list F) :
  v ≠ [] → PixelOps.vector_data v = Some (Floats v).
Proof. destruct v; [contradiction|reflexivity]. Qed.

(** The conversion into the canonical float image is the same function
    in resample.cpp and in sanitize.cpp. *)
Lemma copy_cpu_to_image_to_float_image (src : CpuImage.t F) :
  fits (CpuImage.width src * CpuImage.height src * 12) →
  Resize.copy_cpu_to_image src (Image.mk 0 0 []) = Sanitize.to_float_image src.
Proof.
  intros Hfits.
  unfold Resize.copy_cpu_to_image, Sanitize.to_float_image.
  destruct (PixelOps.validate_image src) eqn:Hval; cbn [negb]; [|reflexivity].
  pose proof (proj1 (validate_image_true src) Hval) as (Hbpp & Hw & Hh & _).
  assert (Hf : ∀ n, n ≤ CpuImage.width src * CpuImage.height src * 12 → fits n).
  { intros n Hn. eapply fits_le; eauto. }
  assert (Harea : 1 ≤ CpuImage.width src * CpuImage.height src) by nia.
  cbv zeta.
  rewrite (wrap_fits (CpuImage.width src * CpuImage.height src * 3))
    by (apply Hf; lia).
  rewrite (wrap_fits (CpuImage.width src * 3 * 4)) by (apply Hf; nia).
  set (pixels := replicate (CpuImage.width src * CpuImage.height src * 3) (f_lit 0)).
  assert (Hne : pixels ≠ []).
  { apply length_nonempty. unfold pixels. rewrite length_replicate. lia. }
  set (view := CpuImage.mk F32_RGB (CpuImage.width src) (CpuImage.height src)
                 (CpuImage.width src * 3 * 4) (PixelOps.vector_data pixels)).
  assert (Hview : PixelOps.validate_image view = true).
  { pose proof (validate_float_view (CpuImage.width src) (CpuImage.height src)
                  pixels Hw Hh Hne ltac:(apply Hf; nia)) as Hv.
    rewrite (wrap_fits (CpuImage.width src * 3 * 4)) in Hv by (apply Hf; nia).
    exact Hv. }
  unfold PixelOps.convert_image. rewrite Hval, Hview. cbn [negb orb].
  rewrite bool_decide_eq_false_2 by (intros [Hn|Hn]; apply Hn; reflexivity).
  assert (Hdata : CpuImage.data view = Some (Floats pixels)).
  { apply vector_data_nonempty, Hne. }
  destruct (CpuImage.type src) eqn:Hty.
  - (* U8_RGB *)
    rewrite bool_decide_eq_false_2 by discriminate.
    rewrite bool_decide_eq_false_2 by (intros Hn; apply Hn; reflexivity).
    do 2 f_equal. unfold PixelOps.convert_u8_to_f32. rewrite Hdata.
    lockstep. intros y acc Hy. cbv zeta. lockstep.
    intros x acc' Hx. cbn [PixelOps.store_f32 view CpuImage.stride_bytes].
    rewrite !tight_row_offset. reflexivity.
  - (* U8_RGBA *)
    rewrite bool_decide_eq_false_2 by discriminate.
    rewrite bool_decide_eq_false_2 by (intros Hn; apply Hn; reflexivity).
    do 2 f_equal. unfold PixelOps.convert_u8_to_f32. rewrite Hdata.
    lockstep. intros y acc Hy. cbv zeta. lockstep.
    intros x acc' Hx. cbn [PixelOps.store_f32 view CpuImage.stride_bytes].
    rewrite !tight_row_offset. reflexivity.
  - (* F32_RGB *)
    rewrite bool_decide_eq_true_2 by reflexivity.
    do 2 f_equal. unfold PixelOps.copy_image_bytes, PixelOps.memcpy.
    unfold CpuImage.row_bytes. rewrite Hty, Hdata.
    change (bytes_per_pixel F32_RGB) with 12.
    rewrite (wrap_fits (CpuImage.width src * 12)) by (apply Hf; nia).
    rewrite (wrap_fits (CpuImage.width src * 3)) by (apply Hf; nia).
    replace (CpuImage.width src * 12) with (CpuImage.width src * 3 * 4) by lia.
    rewrite Nat.div_mul by lia.
    destruct (CpuImage.data src) as [[b|f]|] eqn:Hsrc.
    + (* the buffer holds bytes: nothing is copied, zeros are stored *)
      rewrite (for_range_fix 0 (CpuImage.height src)
                 _ (Some (Floats pixels))); cycle 1.
      { intros y _. apply for_range_fix. intros k _. reflexivity. }
      cbn [PixelOps.floats_of].
      apply for_range_fix. intros y _. apply for_range_fix. intros k _.
      cbn [PixelOps.load_f32]. apply insert_replicate.
    + lockstep. intros y acc Hy. lockstep.
      intros k acc' Hk. cbn [PixelOps.store_f32 view CpuImage.stride_bytes].
      rewrite !tight_row_offset. reflexivity.
    + exfalso. apply validate_image_true in Hval.
      destruct Hval as (_ & _ & _ & _ & Hnull & _). apply Hnull. exact Hsrc.
  - (* Unknown *)
    exfalso. apply Hbpp. reflexivity.
Qed.

(** The conversion out of the canonical float image is the same function
    in resample.cpp and in sanitize.cpp. *)
Lemma copy_image_to_cpu_from_float_image (img : Image.t F) (dst : CpuImage.t F) :
  Image.pixels img ≠ [] →
  fits (Image.width img * 12) →
  Resize.copy_image_to_cpu img dst = Sanitize.from_float_image img dst.
Proof.
  intros Hne Hfits.
  unfold Resize.copy_image_to_cpu, Sanitize.from_float_image.
  case_bool_decide as Hdims.
  { rewrite bool_decide_eq_true_2 by (destruct Hdims; [left|right]; congruence).
    reflexivity. }
  rewrite bool_decide_eq_false_2 by (intros [?|?]; apply Hdims; [left|right]; congruence).
  rewrite bool_decide_eq_false_2 by exact Hne.
  assert (Hw : CpuImage.width dst = Image.width img)
    by (destruct (decide (CpuImage.width dst = Image.width img)); tauto).
  assert (Hh : CpuImage.height dst = Image.height img)
    by (destruct (decide (CpuImage.height dst = Image.height img)); tauto).
  cbv zeta.
  rewrite (wrap_fits (Image.width img * 3 * 4)) by (eapply fits_le; [|exact Hfits]; lia).
  set (view := CpuImage.mk F32_RGB (Image.width img) (Image.height img)
                 (Image.width img * 3 * 4) (PixelOps.vector_data (Image.pixels img))).
  unfold PixelOps.convert_image.
  destruct (PixelOps.validate_image dst) eqn:Hval; cbn [negb];
    [|rewrite orb_true_r; reflexivity].
  pose proof (proj1 (validate_image_true dst) Hval) as (Hbpp & Hw0 & Hh0 & _).
  assert (Hview : PixelOps.validate_image view = true).
  { pose proof (validate_float_view (Image.width img) (Image.height img)
                  (Image.pixels img) ltac:(lia) ltac:(lia) Hne Hfits) as Hv.
    rewrite (wrap_fits (Image.width img * 3 * 4)) in Hv
      by (eapply fits_le; [|exact Hfits]; lia).
    exact Hv. }
  rewrite Hview. cbn [negb orb].
  rewrite bool_decide_eq_false_2
    by (cbn [view CpuImage.width CpuImage.height]; intros [?|?]; congruence).
  assert (Hdata : CpuImage.data view = Some (Floats (Image.pixels img))).
  { apply vector_data_nonempty, Hne. }
  cbn [CpuImage.type view].
  destruct (CpuImage.type dst) eqn:Hty.
  - (* U8_RGB *)
    rewrite bool_decide_eq_false_2 by discriminate.
    f_equal. unfold PixelOps.convert_f32_to_u8.
    cbn [CpuImage.height CpuImage.width view]. rewrite Hw, Hh.
    apply for_range_ext. intros y acc Hy. cbv zeta.
    apply for_range_ext. intros x acc' Hx.
    rewrite Hdata. cbn [PixelOps.load_f32 CpuImage.stride_bytes view].
    rewrite !tight_row_offset.
    rewrite bool_decide_eq_false_2 by discriminate. reflexivity.
  - (* U8_RGBA *)
    rewrite bool_decide_eq_false_2 by discriminate.
    f_equal. unfold PixelOps.convert_f32_to_u8.
    cbn [CpuImage.height CpuImage.width view]. rewrite Hw, Hh.
    apply for_range_ext. intros y acc Hy. cbv zeta.
    apply for_range_ext. intros x acc' Hx.
    rewrite Hdata. cbn [PixelOps.load_f32 CpuImage.stride_bytes view].
    rewrite !tight_row_offset.
    rewrite bool_decide_eq_true_2 by reflexivity. reflexivity.
  - (* F32_RGB *)
    rewrite bool_decide_eq_true_2 by reflexivity.
    f_equal. unfold PixelOps.copy_image_bytes, PixelOps.memcpy.
    unfold CpuImage.row_bytes. rewrite Hdata.
    cbn [CpuImage.height CpuImage.width CpuImage.type view].
    change (bytes_per_pixel F32_RGB) with 12.
    rewrite Hw, Hh.
    rewrite (wrap_fits (Image.width img * 12)) by exact Hfits.
    rewrite (wrap_fits (Image.width img * 3)) by (eapply fits_le; [|exact Hfits]; lia).
    replace (Image.width img * 12) with (Image.width img * 3 * 4) by lia.
    rewrite Nat.div_mul by lia.
    apply for_range_ext. intros y acc Hy.
    apply for_range_ext. intros k acc' Hk.
    cbn [PixelOps.load_f32 CpuImage.stride_bytes view].
    rewrite !tight_row_offset. reflexivity.
  - (* Unknown *)
    exfalso. apply Hbpp. reflexivity.
Qed.

End Conversions.

(** X22. The buffer conversions of resample.cpp and of sanitize.cpp are
    the same functions: [copy_cpu_to_image] into a fresh image returns what
    [to_float_image] returns, for every source view, valid or not and of any
    pixel type; [copy_image_to_cpu] of an image with pixels returns what
    [from_float_image] returns and leaves the same bytes in [dst]. *)
Theorem resize_conversions_agree {F : Type} `{FloatOps F}
    (src dst : CpuImage.t F) (img : Image.t F) :
  fits (CpuImage.width src * CpuImage.height src * 12) →
  Image.pixels img ≠ [] →
  fits (Image.width img * 12) →
  Resize.copy_cpu_to_image src (Image.mk 0 0 []) = Sanitize.to_float_image src
  ∧ Resize.copy_image_to_cpu img dst = Sanitize.from_float_image img dst.
Proof.
  intros Hsrc Hne Himg. split.
  - apply copy_cpu_to_image_to_float_image. exact Hsrc.
  - apply copy_image_to_cpu_from_float_image; assumption.
Qed.

Lemma resize_conversions_agree_witness :
  Resize.copy_cpu_to_image
    (CpuImage.mk (F:=R) U8_RGBA 1 2 4 (Some (Bytes [1; 2; 3; 4; 5; 6; 7; 8]%Z)))
    (Image.mk 0 0 [])
  = Sanitize.to_float_image
      (CpuImage.mk U8_RGBA 1 2 4 (Some (Bytes [1; 2; 3; 4; 5; 6; 7; 8]%Z)))
  ∧ Resize.copy_image_to_cpu (Image.mk 1 1 [0.25; 0.5; 2]%R)
      (CpuImage.mk U8_RGBA 1 1 4 (Some (Bytes [9; 9; 9; 9]%Z)))
    = Sanitize.from_float_image (Image.mk 1 1 [0.25; 0.5; 2]%R)
        (CpuImage.mk U8_RGBA 1 1 4 (Some (Bytes [9; 9; 9; 9]%Z))).
Proof.
  apply (resize_conversions_agree
           (CpuImage.mk U8_RGBA 1 2 4 (Some (Bytes [1; 2; 3; 4; 5; 6; 7; 8]%Z)))
           (CpuImage.mk U8_RGBA 1 1 4 (Some (Bytes [9; 9; 9; 9]%Z)))
           (Image.mk 1 1 [0.25; 0.5; 2]%R)).
  - unfold fits, size_modulus; simpl; lia.
  - discriminate.
  - unfold fits, size_modulus; simpl; lia.
Defined.

(** *** [resize] under exact real arithmetic *)

(** [resample_cubic] to the size of the input returns the input when its
    samples lie in [[0, 1]]. *)
Lemma resample_cubic_identity (pool_size : nat) (img : Image.t R) (channels : nat) :
  Image.width img ≠ 0 → Image.height img ≠ 0 → 0 < channels →
  length (Image.pixels img) = Image.height img * Image.width img * channels →
  fits (length (Image.pixels img) * 4) →
  fits (Nat.max 1 pool_size * 4) →
  Forall (λ v, 0 <= v <= 1)%R (Image.pixels img) →
  Resample.resample_cubic pool_size img (Image.width img) (Image.height img) = Some img.
Proof.
  intros Hw Hh Hc Hlen Hfits Hpool Hrange.
  destruct img as [w h pixels]. simpl in *.
  assert (Hhc : 1 ≤ h * channels) by (destruct h, channels; simpl; lia).
  assert (Hwc : 1 ≤ w * channels) by (destruct w, channels; simpl; lia).
  assert (Hwl : w ≤ length pixels).
  { pose proof (Nat.mul_le_mono_l 1 (h * channels) w Hhc). lia. }
  assert (Hhl : h ≤ length pixels).
  { pose proof (Nat.mul_le_mono_l 1 (w * channels) h Hwc). lia. }
  assert (Hfw : fits (w * 2)) by (eapply fits_le; [|exact Hfits]; lia).
  assert (Hfh : fits (h * 2)) by (eapply fits_le; [|exact Hfits]; lia).
  assert (Hfl : fits (length pixels)) by (eapply fits_le; [|exact Hfits]; lia).
  pose proof (build_cubic_weight_table_identity w ltac:(lia) Hfw) as Htw.
  pose proof (build_cubic_weight_table_identity h ltac:(lia) Hfh) as Hth.
  unfold Resample.resample_cubic. cbn [Image.width Image.height Image.pixels].
  rewrite bool_decide_eq_false_2 by lia.
  rewrite (resample_compute_channels (Image.mk w h pixels) channels)
    by (simpl; try assumption; lia).
  rewrite bool_decide_eq_false_2 by lia.
  rewrite Htw, Hth. cbn [mbind option_bind].
  rewrite bool_decide_eq_false_2; cycle 1.
  { intros [Hnil|Hnil]; apply map_eq_nil in Hnil;
      apply (f_equal length) in Hnil; rewrite length_seq in Hnil; simpl in Hnil; lia. }
  rewrite !wrap_fits by (eapply fits_le; [|exact Hfl]; lia).
  rewrite parallel_for_sequential
    by first [exact Hpool | eapply fits_le; [|exact Hfl]; lia].
  cbn [mbind option_bind].
  rewrite (horizontal_pass_identity (Image.mk w h pixels) channels)
    by (simpl; rewrite ?length_replicate; lia).
  cbn [Image.pixels].
  rewrite parallel_for_sequential
    by first [exact Hpool | eapply fits_le; [|exact Hfl]; lia].
  cbn [mbind option_bind].
  rewrite vertical_pass_identity
    by (rewrite ?length_replicate; try assumption; lia).
  reflexivity.
Qed.

Lemma fleb_pos (a : R) : (0 < a)%R → fleb a (f_lit 0) = false.
Proof.
  intros Ha. destruct (fleb a (f_lit 0)) eqn:E; [|reflexivity].
  apply fleb_R in E. cbn [f_lit R_float] in E. rewrite RMicromega.Q2R_0 in E. lra.
Qed.

(** The run of [resize] when every check passes. *)
Lemma resize_runs (pool_size : nat) (src dst : CpuImage.t R) (scale_x scale_y : R) :
  fits (Nat.max 1 pool_size * 4) →
  PixelOps.validate_image src = true →
  PixelOps.validate_image dst = true →
  Sanitize.supported_type (CpuImage.type src) = true →
  Sanitize.supported_type (CpuImage.type dst) = true →
  (0 < scale_x)%R → (0 < scale_y)%R →
  CpuImage.width dst
  = Z.to_nat (f_llround (fmul (f_of_Z (Z.of_nat (CpuImage.width src))) scale_x)) →
  CpuImage.height dst
  = Z.to_nat (f_llround (fmul (f_of_Z (Z.of_nat (CpuImage.height src))) scale_y)) →
  fits (CpuImage.width src * CpuImage.height src * 12) →
  fits (CpuImage.width dst * CpuImage.height dst * 12) →
  fits (CpuImage.width dst * CpuImage.height src * 3) →
  ∃ pixels resized d',
    Sanitize.to_float_image src
    = (true, Image.mk (CpuImage.width src) (CpuImage.height src) pixels)
    ∧ Resample.resample_cubic pool_size
        (Image.mk (CpuImage.width src) (CpuImage.height src) pixels)
        (CpuImage.width dst) (CpuImage.height dst)
      = Some (Image.mk (CpuImage.width dst) (CpuImage.height dst) resized)
    ∧ length resized = CpuImage.height dst * CpuImage.width dst * 3
    ∧ Forall (λ v, 0 <= v <= 1)%R resized
    ∧ Resize.resize pool_size src dst scale_x scale_y Resize.kCubic = Some (true, d')
    ∧ (backed dst →
       ∀ y x c, y < CpuImage.height dst → x < CpuImage.width dst → c < 3 →
         read_sample (CpuImage.with_data dst d') y x c
         = Some (encode_sample (CpuImage.type dst)
                   (nth ((y * CpuImage.width dst + x) * 3 + c) resized (f_lit 0)))).
Proof.
  intros Hpool Hvs Hvd Hss Hsd Hsx Hsy Hwd Hhd Hfs Hfd Hfm.
  pose proof (proj1 (validate_image_true src) Hvs) as (_ & Hw & Hh & _).
  pose proof (proj1 (validate_image_true dst) Hvd) as (_ & Hw' & Hh' & _).
  destruct (to_float_image_ok src Hvs Hss Hfs) as (pixels & Hto & Hlen).
  assert (Hnorm : ∃ resized,
            Resample.resample_cubic pool_size
              (Image.mk (CpuImage.width src) (CpuImage.height src) pixels)
              (CpuImage.width dst) (CpuImage.height dst)
            = Some (Image.mk (CpuImage.width dst) (CpuImage.height dst) resized)
            ∧ length resized = CpuImage.height dst * CpuImage.width dst * 3
            ∧ Forall (λ v, 0 <= v <= 1)%R resized).
  { apply (resample_cubic_normalized pool_size
             (Image.mk (CpuImage.width src) (CpuImage.height src) pixels) 3);
      cbn [Image.width Image.height Image.pixels];
      first [assumption | lia
            | rewrite Hlen; eapply fits_le; [|exact Hfs]; lia
            | eapply fits_le; [|exact Hfd]; lia
            | exact Hfm]. }
  destruct Hnorm as (resized & Hres & Hrlen & Hrange).
  destruct (from_float_image_ok
              (Image.mk (CpuImage.width dst) (CpuImage.height dst) resized) dst
              Hvd Hsd eq_refl eq_refl Hrlen Hfd)
    as (d' & Hfrom & _ & Hcells).
  exists pixels, resized, d'.
  split; [exact Hto|]. split; [exact Hres|]. split; [exact Hrlen|].
  split; [exact Hrange|]. split; [|exact Hcells].
  assert (Hne : resized ≠ []).
  { apply length_nonempty. rewrite Hrlen. nia. }
  unfold Resize.resize. cbv zeta.
  rewrite Hvs, Hvd. cbn [negb orb].
  rewrite (fleb_pos scale_x Hsx), (fleb_pos scale_y Hsy). cbn [orb].
  rewrite bool_decide_eq_false_2 by (intros Hn; apply Hn; reflexivity).
  rewrite (fleb_pos (fmul (f_of_Z (Z.of_nat (CpuImage.width src))) scale_x)); cycle 1.
  { cbn [fmul f_of_Z R_float]. apply Rmult_lt_0_compat; [|exact Hsx].
    apply IZR_lt. lia. }
  rewrite (fleb_pos (fmul (f_of_Z (Z.of_nat (CpuImage.height src))) scale_y)); cycle 1.
  { cbn [fmul f_of_Z R_float]. apply Rmult_lt_0_compat; [|exact Hsy].
    apply IZR_lt. lia. }
  cbn [orb]. rewrite <- Hwd, <- Hhd.
  rewrite bool_decide_eq_false_2 by tauto.
  rewrite bool_decide_eq_false_2 by tauto.
  rewrite (copy_cpu_to_image_to_float_image src Hfs), Hto. cbn [negb].
  rewrite Hres. cbn [mbind option_bind Image.pixels].
  rewrite bool_decide_eq_false_2 by exact Hne.
  rewrite copy_image_to_cpu_from_float_image, Hfrom; try reflexivity.
  - exact Hne.
  - cbn [Image.width]. eapply fits_le; [|exact Hfd]. nia.
Qed.

(** X23. [resize] between valid views of supported types succeeds for
    every pair of positive scales, provided [dst] has the size of [src] times
    the scales, rounded to nearest; under exact arithmetic, when [src] is a
    byte image or a float image whose samples lie in [0, 1], it leaves a
    normalised image in [dst]: floats in [0, 1], bytes in [0, 255].  (The
    samples are real numbers here; the [std::clamp] of the code would hand a
    NaN of a float source on.) *)
Theorem resize_normalized (pool_size : nat) (src dst : CpuImage.t R)
    (scale_x scale_y : R) :
  fits (Nat.max 1 pool_size * 4) →
  PixelOps.validate_image src = true →
  PixelOps.validate_image dst = true →
  Sanitize.supported_type (CpuImage.type src) = true →
  Sanitize.supported_type (CpuImage.type dst) = true →
  (0 < scale_x)%R → (0 < scale_y)%R →
  CpuImage.width dst
  = Z.to_nat (f_llround (fmul (f_of_Z (Z.of_nat (CpuImage.width src))) scale_x)) →
  CpuImage.height dst
  = Z.to_nat (f_llround (fmul (f_of_Z (Z.of_nat (CpuImage.height src))) scale_y)) →
  fits (CpuImage.width src * CpuImage.height src * 12) →
  fits (CpuImage.width dst * CpuImage.height dst * 12) →
  fits (CpuImage.width dst * CpuImage.height src * 3) →
  backed dst →
  (∀ y x c v, y < CpuImage.height src → x < CpuImage.width src → c < 3 →
     read_sample src y x c = Some (F32Sample v) → (0 <= v <= 1)%R) →
  ∃ d',
    Resize.resize pool_size src dst scale_x scale_y Resize.kCubic = Some (true, d')
    ∧ ∀ y x c, y < CpuImage.height dst → x < CpuImage.width dst → c < 3 →
        match read_sample (CpuImage.with_data dst d') y x c with
        | Some (F32Sample v) => CpuImage.type dst = F32_RGB ∧ (0 <= v <= 1)%R
        | Some (U8Sample b) => CpuImage.type dst = U8_RGB ∧ (0 ≤ b ≤ 255)%Z
        | None => False
        end.
Proof.
  intros Hpool Hvs Hvd Hss Hsd Hsx Hsy Hwd Hhd Hfs Hfd Hfm Hbacked _.
  destruct (resize_runs pool_size src dst scale_x scale_y
              Hpool Hvs Hvd Hss Hsd Hsx Hsy Hwd Hhd Hfs Hfd Hfm)
    as (pixels & resized & d' & _ & _ & Hrlen & Hrange & Hresize & Hcells).
  exists d'. split; [exact Hresize|]. intros y x c Hy Hx Hc.
  rewrite (Hcells Hbacked y x c Hy Hx Hc).
  assert (Hidx : (y * CpuImage.width dst + x) * 3 + c < length resized).
  { rewrite Hrlen.
    assert ((y + 1) * CpuImage.width dst ≤ CpuImage.height dst * CpuImage.width dst)
      by (apply Nat.mul_le_mono_r; lia).
    lia. }
  destruct (lookup_lt_is_Some_2 _ _ Hidx) as [v Hv].
  rewrite (nth_lookup_Some _ _ _ _ Hv).
  pose proof (proj1 (Forall_lookup _ _) Hrange _ _ Hv) as Hunit.
  unfold Sanitize.supported_type in Hsd. apply bool_decide_eq_true in Hsd.
  destruct Hsd as [Hty | Hty]; rewrite Hty; cbn [encode_sample].
  - split; [reflexivity|]. rewrite float_to_u8_R.
    apply R_round_away_bounds.
    pose proof (fclamp_R_bounds v 0 1 ltac:(lra)). lra.
  - split; [reflexivity|exact Hunit].
Qed.

Lemma resize_normalized_witness :
  ∃ d',
    Resize.resize 4
      (CpuImage.mk F32_RGB 2 2 24
         (Some (Floats [1; 0; 0; 0; 1; 0; 0; 0; 1; 0.5; 0.5; 0.5]%R)))
      (CpuImage.mk U8_RGB 3 1 9 (Some (Bytes (replicate 9 7%Z))))
      1.5%R 0.5%R Resize.kCubic
    = Some (true, d')
    ∧ ∀ y x c, y < 1 → x < 3 → c < 3 →
        match read_sample (CpuImage.mk (F:=R) U8_RGB 3 1 9 d') y x c with
        | Some (F32Sample v) => U8_RGB = F32_RGB ∧ (0 <= v <= 1)%R
        | Some (U8Sample b) => U8_RGB = U8_RGB ∧ (0 ≤ b ≤ 255)%Z
        | None => False
        end.
Proof.
  apply (resize_normalized 4
           (CpuImage.mk F32_RGB 2 2 24
              (Some (Floats [1; 0; 0; 0; 1; 0; 0; 0; 1; 0.5; 0.5; 0.5]%R)))
           (CpuImage.mk U8_RGB 3 1 9 (Some (Bytes (replicate 9 7%Z))))
           1.5%R 0.5%R); try reflexivity; try lra.
  - cbn [CpuImage.width f_llround fmul f_of_Z R_float]. unfold R_round_away.
    change (Z.of_nat 2) with 2%Z.
    destruct (Rle_dec 0 (2 * 1.5)) as [_|Hn]; [|lra].
    rewrite (Zfloor_eq 3); [reflexivity|]. lra.
  - cbn [CpuImage.height f_llround fmul f_of_Z R_float]. unfold R_round_away.
    change (Z.of_nat 2) with 2%Z.
    destruct (Rle_dec 0 (2 * 0.5)) as [_|Hn]; [|lra].
    rewrite (Zfloor_eq 1); [reflexivity|]. lra.
  - intros y x c Hy Hx Hc. simpl in Hy, Hx, Hc.
    assert (y = 0) as -> by lia.
    destruct x as [|[|[|x]]]; [| | |lia];
      (destruct c as [|[|[|c]]]; [| | |lia]); simpl; eauto.
  - intros y x c v Hy Hx Hc. cbn [CpuImage.height CpuImage.width] in Hy, Hx.
    destruct y as [|[|y]]; [| |lia];
      (destruct x as [|[|x]]; [| |lia]);
      (destruct c as [|[|[|c]]]; [| | |lia]);
      cbn; intros [= <-]; lra.
Defined.

Lemma nth_byte_range (bytes : list Z) i :
  Forall (λ b, (0 ≤ b ≤ 255)%Z) bytes → (0 ≤ nth i bytes 0 ≤ 255)%Z.
Proof.
  intros Hb. destruct (decide (i < length bytes)) as [Hi|Hi].
  - destruct (lookup_lt_is_Some_2 _ _ Hi) as [b Hl].
    rewrite (nth_lookup_Some _ _ _ _ Hl).
    apply (proj1 (Forall_lookup _ _) Hb _ _ Hl).
  - rewrite nth_overflow by lia. lia.
Qed.

Lemma byte_to_float_unit (b : Z) :
  (0 ≤ b ≤ 255)%Z → (0 <= fmul (f_of_Z b) PixelOps.kInv255 <= 1)%R.
Proof.
  intros Hb. unfold PixelOps.kInv255. cbn [fmul fdiv f_of_Z f_lit R_float].
  rewrite RMicromega.Q2R_1.
  replace (Q2R 255) with 255%R by (unfold Q2R; simpl; lra).
  assert (H0 : (0 <= IZR b)%R) by (apply IZR_le; lia).
  assert (H1 : (IZR b <= 255)%R) by (apply IZR_le; lia).
  lra.
Qed.

(** The float form of a byte image lies in the unit interval. *)
Lemma to_float_image_u8_unit (input : CpuImage.t R) (bytes : list Z)
    (pixels : list R) :
  PixelOps.validate_image input = true →
  CpuImage.type input = U8_RGB →
  fits (CpuImage.width input * CpuImage.height input * 12) →
  CpuImage.data input = Some (Bytes bytes) →
  Forall (λ b, (0 ≤ b ≤ 255)%Z) bytes →
  Sanitize.to_float_image input
  = (true, Image.mk (CpuImage.width input) (CpuImage.height input) pixels) →
  Forall (λ v, 0 <= v <= 1)%R pixels.
Proof.
  intros Hval Hty Hfits Hdata Hbytes Hto.
  pose proof (proj1 (validate_image_true input) Hval) as (_ & Hw & Hh & _).
  destruct (to_float_image_u8_pixels input Hval Hty Hfits)
    as (pixels' & Hto' & Hlen & Hpix).
  rewrite Hto in Hto'. injection Hto' as <-.
  apply Forall_lookup. intros i v Hv.
  pose proof (lookup_lt_Some _ _ _ Hv) as Hi. rewrite Hlen in Hi.
  pose proof (Nat.div_mod i 3 ltac:(lia)) as Hi3.
  pose proof (Nat.mod_upper_bound i 3 ltac:(lia)) as Hc.
  pose proof (Nat.div_mod (i / 3) (CpuImage.width input) Hw) as Hq.
  pose proof (Nat.mod_upper_bound (i / 3) (CpuImage.width input) Hw) as Hx.
  assert (Hy : i / 3 / CpuImage.width input < CpuImage.height input).
  { apply Nat.Div0.div_lt_upper_bound. apply Nat.Div0.div_lt_upper_bound. lia. }
  specialize (Hpix _ _ _ Hy Hx Hc).
  replace ((i / 3 / CpuImage.width input * CpuImage.width input
            + i / 3 mod CpuImage.width input) * 3 + i mod 3) with i in Hpix by lia.
  rewrite (nth_lookup_Some _ _ _ _ Hv) in Hpix. rewrite Hpix.
  apply byte_to_float_unit. rewrite Hdata. cbn [PixelOps.load_u8].
  apply nth_byte_range, Hbytes.
Qed.

(** X24. [resize] with both scales 1 between byte RGB views of one size,
    at most [8388608 = 2^23] wide and high, is a copy: under exact arithmetic
    it succeeds and every sample of [dst] afterwards is the sample of [src]
    at the same place, whatever the two strides are.  (Up to that size the
    source positions are binary32 values; beyond it the code's weight table
    is no longer made of unit taps.) *)
Theorem resize_unit_scale_copies (pool_size : nat) (src dst : CpuImage.t R)
    (bytes : list Z) :
  fits (Nat.max 1 pool_size * 4) →
  PixelOps.validate_image src = true →
  PixelOps.validate_image dst = true →
  CpuImage.type src = U8_RGB → CpuImage.type dst = U8_RGB →
  CpuImage.width dst = CpuImage.width src →
  CpuImage.height dst = CpuImage.height src →
  CpuImage.data src = Some (Bytes bytes) →
  Forall (λ b, (0 ≤ b ≤ 255)%Z) bytes →
  backed src → backed dst →
  fits (CpuImage.width src * CpuImage.height src * 12) →
  (Z.of_nat (CpuImage.width src) ≤ 8388608)%Z →
  (Z.of_nat (CpuImage.height src) ≤ 8388608)%Z →
  ∃ d',
    Resize.resize pool_size src dst (f_lit 1) (f_lit 1) Resize.kCubic = Some (true, d')
    ∧ ∀ y x c, y < CpuImage.height src → x < CpuImage.width src → c < 3 →
        read_sample (CpuImage.with_data dst d') y x c = read_sample src y x c.
Proof.
  intros Hpool Hvs Hvd Hts Htd Hw Hh Hdata Hbytes Hbs Hbd Hfits _ _.
  pose proof (proj1 (validate_image_true src) Hvs) as (_ & Hw0 & Hh0 & _).
  assert (Hf12 : fits (CpuImage.width src * CpuImage.height src * 12))
    by (eapply fits_le; [|exact Hfits]; lia).
  assert (Hone : ∀ n, Z.to_nat (f_llround (fmul (f_of_Z (Z.of_nat n)) (f_lit 1) : R)) = n).
  { intros n. cbn [f_llround fmul f_of_Z f_lit R_float].
    rewrite RMicromega.Q2R_1, Rmult_1_r, R_round_away_IZR. apply Nat2Z.id. }
  destruct (resize_runs pool_size src dst (f_lit 1) (f_lit 1) Hpool Hvs Hvd)
    as (pixels & resized & d' & Hto & Hres & Hrlen & _ & Hresize & Hcells).
  { rewrite Hts. reflexivity. }
  { rewrite Htd. reflexivity. }
  { cbn [f_lit R_float]. rewrite RMicromega.Q2R_1. lra. }
  { cbn [f_lit R_float]. rewrite RMicromega.Q2R_1. lra. }
  { rewrite Hone. exact Hw. }
  { rewrite Hone. exact Hh. }
  { exact Hf12. }
  { rewrite Hw, Hh. exact Hf12. }
  { rewrite Hw. eapply fits_le; [|exact Hfits]. lia. }
  exists d'. split; [exact Hresize|]. intros y x c Hy Hx Hc.
  destruct (to_float_image_u8_pixels src Hvs Hts Hf12)
    as (pixels' & Hto' & Hlen & Hpix).
  rewrite Hto in Hto'. injection Hto' as <-.
  pose proof (to_float_image_u8_unit src bytes pixels Hvs Hts Hf12 Hdata Hbytes Hto)
    as Hunit.
  pose proof (resample_cubic_identity pool_size
                (Image.mk (CpuImage.width src) (CpuImage.height src) pixels) 3
                Hw0 Hh0 ltac:(lia) Hlen
                ltac:(cbn [Image.pixels]; rewrite Hlen;
                      eapply fits_le; [|exact Hfits]; lia)
                Hpool Hunit) as Hid.
  cbn [Image.width Image.height] in Hid.
  rewrite Hw, Hh, Hid in Hres. injection Hres as <-.
  rewrite (Hcells Hbd y x c) by lia.
  rewrite Htd, Hw, Hpix by assumption. cbn [encode_sample].
  destruct (Hbs y x c Hy Hx ltac:(rewrite Hts; exact Hc)) as [s Hs].
  rewrite Hs. unfold read_sample in Hs. rewrite Hts, Hdata in Hs.
  rewrite Hdata. cbn [PixelOps.load_u8].
  destruct (bytes !! (y * CpuImage.stride_bytes src + x * 3 + c)) as [b|] eqn:Hb;
    [|discriminate].
  rewrite (nth_lookup_Some _ _ 0%Z _ Hb).
  rewrite float_to_u8_of_byte.
  - cbn in Hs. congruence.
  - eapply (proj1 (Forall_lookup _ _) Hbytes); exact Hb.
Qed.

Lemma resize_unit_scale_copies_witness :
  ∃ d',
    Resize.resize 4
      (CpuImage.mk U8_RGB 2 1 6 (Some (Bytes [0; 127; 255; 1; 2; 254]%Z)))
      (CpuImage.mk (F:=R) U8_RGB 2 1 8 (Some (Bytes (replicate 8 9%Z))))
      (f_lit 1) (f_lit 1) Resize.kCubic
    = Some (true, d')
    ∧ ∀ y x c, y < 1 → x < 2 → c < 3 →
        read_sample (CpuImage.mk (F:=R) U8_RGB 2 1 8 d') y x c
        = read_sample
            (CpuImage.mk (F:=R) U8_RGB 2 1 6 (Some (Bytes [0; 127; 255; 1; 2; 254]%Z)))
            y x c.
Proof.
  apply (resize_unit_scale_copies 4
           (CpuImage.mk U8_RGB 2 1 6 (Some (Bytes [0; 127; 255; 1; 2; 254]%Z)))
           (CpuImage.mk U8_RGB 2 1 8 (Some (Bytes (replicate 8 9%Z))))
           [0; 127; 255; 1; 2; 254]%Z); try reflexivity.
  - repeat constructor; lia.
  - intros y x c Hy Hx Hc. cbn in Hy, Hx, Hc.
    assert (y = 0) as -> by lia.
    destruct x as [|[|x]]; [| |lia];
      (destruct c as [|[|[|c]]]; [| | |lia]); cbn; eexists; reflexivity.
  - intros y x c Hy Hx Hc. cbn in Hy, Hx, Hc.
    assert (y = 0) as -> by lia.
    destruct x as [|[|x]]; [| |lia];
      (destruct c as [|[|[|c]]]; [| | |lia]); cbn; eexists; reflexivity.
  - cbn [CpuImage.width]. lia.
  - cbn [CpuImage.height]. lia.
Defined.

(** *** The cells that the attenuation writes *)

Lemma for_break_limit {St} (limit base : nat) (f : nat → St → St) s :
  for_break 0 8 (λ i acc,
    if bool_decide (limit ≤ base + i) then None else Some (f i acc)) s
  = for_range 0 (Nat.min 8 (limit - base)) f s.
Proof.
  destruct (decide (8 ≤ limit - base)) as [Hfull|Hpart].
  - rewrite Nat.min_l by exact Hfull. apply for_break_no_break.
    intros i acc Hi. rewrite bool_decide_eq_false_2 by lia. reflexivity.
  - rewrite Nat.min_r by lia.
    apply (for_break_at 0 (limit - base) 8); [lia|lia| |].
    + intros i acc Hi. rewrite bool_decide_eq_false_2 by lia. reflexivity.
    + intros acc. rewrite bool_decide_eq_true_2 by lia. reflexivity.
Qed.

Lemma updates_cells_val {A} (body : list A → list A) R (val val' : nat → A → A) :
  (∀ j v, R j → val j v = val' j v) →
  updates_cells body R val → updates_cells body R val'.
Proof.
  intros Hval Hb l. destruct (Hb l) as [Hlen Hj]. split; [exact Hlen|].
  intros j. destruct (Hj j) as [H1 H2]. split; [|exact H2].
  intros HR. rewrite (H1 HR). destruct (l !! j); simpl; [|reflexivity].
  rewrite Hval by exact HR. reflexivity.
Qed.

(** Decoding the index of a cell. *)
Lemma cell_decode width channels y x c :
  x < width → c < channels →
  ((y * width + x) * channels + c) mod channels = c
  ∧ ((y * width + x) * channels + c) / channels mod width = x
  ∧ ((y * width + x) * channels + c) / channels / width = y.
Proof.
  intros Hx Hc.
  rewrite (row_cell_mod channels (y * width + x) c Hc).
  rewrite (row_cell_div channels (y * width + x) c Hc).
  rewrite (row_cell_mod width y x Hx), (row_cell_div width y x Hx). done.
Qed.

Lemma tile_decode t k : k < 8 → (t * 8 + k) / 8 = t ∧ (t * 8 + k) mod 8 = k.
Proof.
  intros Hk. split; [apply row_cell_div|apply row_cell_mod]; exact Hk.
Qed.

(** [scatter_block] stores the entries of the block into the cells of the
    tile that lie inside the image, one channel at a time. *)
Lemma scatter_block_cells (block : list R) width height channels base_x base_y c :
  c < channels →
  updates_cells
    (Dct.scatter_block block width height channels base_x base_y c)
    (λ j, ∃ yy xx, yy < 8 ∧ xx < 8 ∧ base_y + yy < height ∧ base_x + xx < width ∧
                   j = ((base_y + yy) * width + (base_x + xx)) * channels + c)
    (λ j _, Dct.at64 block ((j / channels / width - base_y) * 8
                            + (j / channels mod width - base_x))).
Proof.
  intros Hc. unfold Dct.scatter_block.
  set (val := λ (j : nat) (_ : R),
         Dct.at64 block ((j / channels / width - base_y) * 8
                         + (j / channels mod width - base_x))).
  set (cell := λ yy xx, ((base_y + yy) * width + (base_x + xx)) * channels + c).
  assert (Hrow : ∀ yy, yy < 8 → base_y + yy < height →
            updates_cells
              (for_break 0 8 (λ xx dst,
                 if bool_decide (width ≤ base_x + xx) then None
                 else Some (<[cell yy xx := Dct.at64 block (yy * 8 + xx)]> dst)))
              (λ j, ∃ xx, xx < 8 ∧ base_x + xx < width ∧ j = cell yy xx) val).
  { intros yy Hyy Hy.
    assert (Hloop : updates_cells
              (for_range 0 (Nat.min 8 (width - base_x)) (λ xx dst,
                 <[cell yy xx := Dct.at64 block (yy * 8 + xx)]> dst))
              (λ j, ∃ xx, 0 ≤ xx < Nat.min 8 (width - base_x) ∧ j = cell yy xx) val).
    { apply (updates_cells_for_range 0 _ _ (λ xx j, j = cell yy xx)).
      - intros xx Hxx. apply updates_cells_insert. intros v. unfold val, cell.
        destruct (cell_decode width channels (base_y + yy) (base_x + xx) c
                    ltac:(lia) Hc) as (_ & Ex & Ey).
        rewrite Ex, Ey. f_equal. lia.
      - intros xx xx' j Hxx Hxx' Ej Ej'. cbv beta in Ej, Ej'.
        assert (E : cell yy xx = cell yy xx') by congruence. unfold cell in E.
        destruct (radix_inj channels _ c _ c Hc Hc E) as [E1 _].
        destruct (radix_inj width (base_y + yy) (base_x + xx) (base_y + yy)
                    (base_x + xx') ltac:(lia) ltac:(lia) E1) as [_ E2]. lia. }
    intros l. rewrite (for_break_limit width base_x).
    destruct (Hloop l) as [Hlen Hcells]. split; [exact Hlen|].
    intros j. destruct (Hcells j) as [Hin Hout]. split.
    - intros (xx & Hxx & Hx & ->). apply Hin. exists xx. split; [lia|reflexivity].
    - intros Hno. apply Hout. intros (xx & Hxx & ->). apply Hno.
      exists xx. split; [lia|]. split; [lia|reflexivity]. }
  assert (Hloop : updates_cells
            (for_range 0 (Nat.min 8 (height - base_y)) (λ yy dst,
               for_break 0 8 (λ xx dst,
                 if bool_decide (width ≤ base_x + xx) then None
                 else Some (<[cell yy xx := Dct.at64 block (yy * 8 + xx)]> dst)) dst))
            (λ j, ∃ yy, 0 ≤ yy < Nat.min 8 (height - base_y)
                        ∧ ∃ xx, xx < 8 ∧ base_x + xx < width ∧ j = cell yy xx) val).
  { apply (updates_cells_for_range 0 _ _
             (λ yy j, ∃ xx, xx < 8 ∧ base_x + xx < width ∧ j = cell yy xx)).
    - intros yy Hyy. apply Hrow; lia.
    - intros yy yy' j Hyy Hyy' (xx & Hxx & Hx & Ej) (xx' & Hxx' & Hx' & Ej').
      assert (E : cell yy xx = cell yy' xx') by congruence. unfold cell in E.
      destruct (radix_inj channels _ c _ c Hc Hc E) as [E1 _].
      destruct (radix_inj width (base_y + yy) (base_x + xx) (base_y + yy')
                  (base_x + xx') ltac:(lia) ltac:(lia) E1) as [E2 _]. lia. }
  intros l.
  rewrite (for_break_limit height base_y
             (λ yy dst, for_break 0 8 (λ xx dst,
                if bool_decide (width ≤ base_x + xx) then None
                else Some (<[cell yy xx := Dct.at64 block (yy * 8 + xx)]> dst)) dst)).
  destruct (Hloop l) as [Hlen Hcells]. split; [exact Hlen|].
  intros j. destruct (Hcells j) as [Hin Hout]. split.
  - intros (yy & xx & Hyy & Hxx & Hy & Hx & ->). apply Hin.
    exists yy. split; [lia|]. exists xx. split; [lia|]. split; [lia|reflexivity].
  - intros Hno. apply Hout. intros (yy & Hyy & xx & Hxx & Hx & ->). apply Hno.
    exists yy, xx. repeat split; try lia.
Qed.

(** The sample stored into a cell of a tile. *)
Lemma attenuated_sample_cell src width height channels quality quant_table
    ty tx yy xx c :
  yy < 8 → xx < 8 → tx * 8 + xx < width → c < channels →
  attenuated_sample src width height channels quality quant_table
    (((ty * 8 + yy) * width + (tx * 8 + xx)) * channels + c)
  = Dct.at64 (attenuated_block src width height channels quality quant_table
                (tx * 8) (ty * 8) c) (yy * 8 + xx).
Proof.
  intros Hyy Hxx Hx Hc. unfold attenuated_sample. cbv zeta.
  destruct (cell_decode width channels (ty * 8 + yy) (tx * 8 + xx) c Hx Hc)
    as (Ec & Ex & Ey).
  rewrite Ec, Ex, Ey.
  destruct (tile_decode ty yy Hyy) as [Ey1 Ey2].
  destruct (tile_decode tx xx Hxx) as [Ex1 Ex2].
  rewrite Ey1, Ey2, Ex1, Ex2. reflexivity.
Qed.

(** [process_tile] stores the attenuated samples into the cells of its
    tile. *)
Lemma process_tile_cells (src : list R) width height channels quality quant_table
    tiles_x tile_index :
  updates_cells
    (Dct.process_tile src width height channels quality quant_table tiles_x tile_index)
    (tile_cell width height channels
       (tile_index mod tiles_x * 8) (tile_index / tiles_x * 8))
    (λ j _, attenuated_sample src width height channels quality quant_table j).
Proof.
  unfold Dct.process_tile. cbv zeta.
  set (tx := tile_index mod tiles_x). set (ty := tile_index / tiles_x).
  eapply updates_cells_iff; cycle 1.
  - apply (updates_cells_for_range 0 channels _
             (λ c j, ∃ yy xx, yy < 8 ∧ xx < 8 ∧ ty * 8 + yy < height
                              ∧ tx * 8 + xx < width
                              ∧ j = ((ty * 8 + yy) * width + (tx * 8 + xx)) * channels + c)).
    + intros c Hc.
      eapply updates_cells_val; [|apply scatter_block_cells; lia].
      intros j v (yy & xx & Hyy & Hxx & Hy & Hx & ->). cbv beta.
      rewrite attenuated_sample_cell by (try assumption; lia).
      destruct (cell_decode width channels (ty * 8 + yy) (tx * 8 + xx) c Hx
                  ltac:(lia)) as (_ & Ex & Ey).
      rewrite Ex, Ey. unfold attenuated_block. f_equal. lia.
    + intros c c' j Hc Hc' (yy & xx & _ & _ & _ & Hx & Ej)
        (yy' & xx' & _ & _ & _ & Hx' & Ej').
      rewrite Ej in Ej'.
      destruct (radix_inj channels _ c _ c' ltac:(lia) ltac:(lia) Ej') as [_ E].
      exact E.
  - intros j. unfold tile_cell. split.
    + intros (c & Hc & yy & xx & Hyy & Hxx & Hy & Hx & ->).
      exists c, yy, xx. repeat split; try assumption; lia.
    + intros (c & yy & xx & Hc & Hyy & Hxx & Hy & Hx & ->).
      exists c. split; [lia|]. exists yy, xx. done.
Qed.

(** Every cell of the image belongs to the tile [(x / 8, y / 8)]. *)
Lemma cell_in_tile width height channels y x c :
  y < height → x < width → c < channels →
  tile_cell width height channels (x / 8 * 8) (y / 8 * 8)
    ((y * width + x) * channels + c).
Proof.
  intros Hy Hx Hc. exists c, (y mod 8), (x mod 8).
  pose proof (Nat.div_mod y 8 ltac:(lia)).
  pose proof (Nat.div_mod x 8 ltac:(lia)).
  pose proof (Nat.mod_upper_bound y 8 ltac:(lia)).
  pose proof (Nat.mod_upper_bound x 8 ltac:(lia)).
  repeat split; lia.
Qed.

(** The loop over the tiles stores the attenuated sample into every cell
    of the image. *)
Lemma tiles_loop_cells (src dst : list R) width height channels quality quant_table :
  width ≠ 0 → height ≠ 0 → channels ≠ 0 →
  length dst = height * width * channels →
  let tiles_x := (width + 7) / 8 in
  let tiles_y := (height + 7) / 8 in
  let out := for_range 0 (tiles_x * tiles_y)
               (Dct.process_tile src width height channels quality quant_table tiles_x)
               dst in
  length out = length dst
  ∧ ∀ y x c, y < height → x < width → c < channels →
      nth ((y * width + x) * channels + c) out 0%R
      = attenuated_sample src width height channels quality quant_table
          ((y * width + x) * channels + c).
Proof.
  intros Hw Hh Hc Hlen tiles_x tiles_y out.
  assert (Htx : 0 < tiles_x).
  { unfold tiles_x. apply Nat.div_str_pos. lia. }
  assert (Hloop : updates_cells
            (for_range 0 (tiles_x * tiles_y)
               (Dct.process_tile src width height channels quality quant_table tiles_x))
            (λ j, ∃ t, 0 ≤ t < tiles_x * tiles_y
                       ∧ tile_cell width height channels
                           (t mod tiles_x * 8) (t / tiles_x * 8) j)
            (λ j _, attenuated_sample src width height channels quality quant_table j)).
  { apply (updates_cells_for_range 0 _ _
             (λ t j, tile_cell width height channels
                       (t mod tiles_x * 8) (t / tiles_x * 8) j)).
    - intros t Ht. apply process_tile_cells.
    - intros t t' j Ht Ht'
        (c & yy & xx & Hcc & Hyy & Hxx & Hy & Hx & Ej)
        (c' & yy' & xx' & Hcc' & Hyy' & Hxx' & Hy' & Hx' & Ej').
      rewrite Ej in Ej'.
      destruct (radix_inj channels _ c _ c' Hcc Hcc' Ej') as [E1 _].
      destruct (radix_inj width _ _ _ _ Hx Hx' E1) as [E2 E3].
      destruct (radix_inj 8 _ _ _ _ Hyy Hyy' E2) as [E4 _].
      destruct (radix_inj 8 _ _ _ _ Hxx Hxx' E3) as [E5 _].
      rewrite (Nat.div_mod t tiles_x), (Nat.div_mod t' tiles_x) by lia.
      rewrite E4, E5. reflexivity. }
  destruct (Hloop dst) as [Hlen_out Hcells]. split; [exact Hlen_out|].
  intros y x c Hy Hx Hcc.
  set (j := (y * width + x) * channels + c).
  assert (Hj : j < length dst).
  { rewrite Hlen. apply flat_index_lt; assumption. }
  destruct (Hcells j) as [Hin _].
  destruct (lookup_lt_is_Some_2 dst j Hj) as [v Hv].
  apply nth_lookup_Some. fold out in Hin. rewrite Hin, Hv; [reflexivity|].
  exists (y / 8 * tiles_x + x / 8).
  assert (Hxt : x / 8 < tiles_x).
  { unfold tiles_x. apply Nat.Div0.div_lt_upper_bound.
    pose proof (Nat.div_mod (width + 7) 8 ltac:(lia)).
    pose proof (Nat.mod_upper_bound (width + 7) 8 ltac:(lia)). lia. }
  assert (Hyt : y / 8 < tiles_y).
  { unfold tiles_y. apply Nat.Div0.div_lt_upper_bound.
    pose proof (Nat.div_mod (height + 7) 8 ltac:(lia)).
    pose proof (Nat.mod_upper_bound (height + 7) 8 ltac:(lia)). lia. }
  split.
  - split; [lia|].
    assert ((y / 8 + 1) * tiles_x ≤ tiles_y * tiles_x)
      by (apply Nat.mul_le_mono_r; lia).
    lia.
  - rewrite (row_cell_mod tiles_x (y / 8) (x / 8) Hxt).
    rewrite (row_cell_div tiles_x (y / 8) (x / 8) Hxt).
    apply cell_in_tile; assumption.
Qed.

Lemma block_sum_inverse_dct (coefficients : list R) :
  block_sum (Dct.inverse_dct coefficients)
  = sum8 (λ yy, sum8 (λ xx, Dct.at64 (Dct.inverse_dct coefficients) (yy * 8 + xx))).
Proof.
  unfold Dct.inverse_dct at 1. rewrite block_sum_tabulate64.
  apply sum8_ext. intros yy Hyy. apply sum8_ext. intros xx Hxx.
  unfold Dct.inverse_dct. rewrite at64_tabulate64 by assumption. reflexivity.
Qed.

(** A tile that lies inside the image is gathered as it is. *)
Lemma gather_full_tile (src : list R) width height channels ty tx c :
  ty * 8 + 8 ≤ height → tx * 8 + 8 ≤ width →
  Dct.gather_block src width height channels (tx * 8) (ty * 8) c
  = Dct.tabulate64 (λ yy xx,
      sample_at src width channels (ty * 8 + yy) (tx * 8 + xx) c).
Proof.
  intros Hy Hx. unfold Dct.gather_block. apply tabulate64_ext.
  intros yy xx Hyy Hxx. rewrite !clamp_index_lt by lia.
  unfold sample_at. cbn [f_lit R_float]. rewrite RMicromega.Q2R_0. reflexivity.
Qed.



(** ** The regeneration network in closed form *)

Section NetworkWeights.
Context {F : Type} `{FloatOps F}.

Lemma conv1_weights_entry oc ky kx ic :
  oc < 16 → ky < 3 → kx < 3 → ic < 3 →
  nth (oc * 3 * 3 * 3 + (ky * 3 + kx) * 3 + ic) SrWeights.kConv1Weights (f_lit 0)
  = conv1_weight oc ky kx ic.
Proof.
  intros Hoc Hky Hkx Hic.
  do 16 (destruct oc as [|oc]; [
    do 3 (destruct ky as [|ky]; [
      do 3 (destruct kx as [|kx]; [
        do 3 (destruct ic as [|ic]; [vm_compute; reflexivity|]); lia|]); lia|]); lia|]).
  lia.
Qed.

Lemma conv2_weights_entry oc ky kx ic :
  oc < 16 → ky < 3 → kx < 3 → ic < 16 →
  nth (oc * 3 * 3 * 16 + (ky * 3 + kx) * 16 + ic) SrWeights.kConv2Weights (f_lit 0)
  = conv2_weight oc ky kx ic.
Proof.
  intros Hoc Hky Hkx Hic.
  do 16 (destruct oc as [|oc]; [
    do 3 (destruct ky as [|ky]; [
      do 3 (destruct kx as [|kx]; [
        do 16 (destruct ic as [|ic]; [vm_compute; reflexivity|]); lia|]); lia|]); lia|]).
  lia.
Qed.

Lemma conv3_weights_entry oc ky kx ic :
  oc < 12 → ky < 3 → kx < 3 → ic < 16 →
  nth (oc * 3 * 3 * 16 + (ky * 3 + kx) * 16 + ic) SrWeights.kConv3Weights (f_lit 0)
  = conv3_weight oc ky kx ic.
Proof.
  intros Hoc Hky Hkx Hic.
  do 12 (destruct oc as [|oc]; [
    do 3 (destruct ky as [|ky]; [
      do 3 (destruct kx as [|kx]; [
        do 16 (destruct ic as [|ic]; [vm_compute; reflexivity|]); lia|]); lia|]); lia|]).
  lia.
Qed.

End NetworkWeights.

Section NetworkCells.
Context {F : Type} `{FloatOps F}.
Variable pool_size : nat.
Hypothesis Hpool : fits (Nat.max 1 pool_size * 4).

(** [convolve3x3] stores [conv_value] into every cell of its output. *)
Lemma convolve3x3_cells (input output : list F) width height in_channels out_channels
    weights bias relu :
  fits height → input ≠ [] → width ≠ 0 → height ≠ 0 → out_channels ≠ 0 →
  length output = height * width * out_channels →
  ∃ out,
    SrLite.convolve3x3 pool_size input output width height in_channels out_channels
      weights bias relu = Some out
    ∧ length out = height * width * out_channels
    ∧ ∀ y x oc, y < height → x < width → oc < out_channels →
        nth ((y * width + x) * out_channels + oc) out (f_lit 0)
        = conv_value input width height in_channels weights bias relu y x oc.
Proof.
  intros Hfh Hin Hw Hh Hoc Hlen.
  assert (Hout : output ≠ []).
  { apply length_nonempty. rewrite Hlen. nia. }
  unfold SrLite.convolve3x3.
  rewrite bool_decide_eq_false_2 by tauto.
  rewrite parallel_for_sequential by assumption.
  eexists. split; [reflexivity|].
  set (val := λ (j : nat) (_ : F),
         conv_value input width height in_channels weights bias relu
           (j / out_channels / width) (j / out_channels mod width) (j mod out_channels)).
  assert (Hcells : updates_cells
            (for_range 0 height (λ y, for_range 0 width (λ x,
               for_range 0 out_channels (λ oc,
                 <[(y * width + x) * out_channels + oc
                   := conv_value input width height in_channels weights bias relu
                        y x oc]>))))
            (λ j, j < height * width * out_channels) val).
  { apply updates_cells_pixels. intros y x oc Hy Hx Hc.
    apply updates_cells_insert. intros v. unfold val.
    rewrite (row_cell_mod out_channels (y * width + x) oc Hc).
    rewrite (row_cell_div out_channels (y * width + x) oc Hc).
    rewrite (row_cell_mod width y x Hx), (row_cell_div width y x Hx). reflexivity. }
  assert (Heq : for_range 0 height
                  (SrLite.convolve_row input width height in_channels out_channels
                     weights bias relu) output
                = for_range 0 height (λ y, for_range 0 width (λ x,
                    for_range 0 out_channels (λ oc,
                      <[(y * width + x) * out_channels + oc
                        := conv_value input width height in_channels weights bias relu
                             y x oc]>))) output).
  { apply for_range_ext. intros y acc Hy. unfold SrLite.convolve_row. cbv zeta.
    apply for_range_ext. intros x acc' Hx.
    apply for_range_ext. intros oc acc'' Hc.
    replace (y * (width * out_channels) + x * out_channels + oc)
      with ((y * width + x) * out_channels + oc) by lia.
    reflexivity. }
  rewrite Heq. destruct (Hcells output) as [Hlen' Hval].
  split; [rewrite Hlen'; exact Hlen|].
  intros y x oc Hy Hx Hc.
  assert (Hj : (y * width + x) * out_channels + oc < length output).
  { rewrite Hlen. apply flat_index_lt; assumption. }
  destruct (lookup_lt_is_Some_2 output _ Hj) as [v Hv].
  destruct (Hval ((y * width + x) * out_channels + oc)) as [Hwritten _].
  apply nth_lookup_Some. rewrite Hwritten by (rewrite <- Hlen; exact Hj).
  rewrite Hv. cbn [fmap option_fmap option_map]. unfold val.
  rewrite (row_cell_mod out_channels (y * width + x) oc Hc).
  rewrite (row_cell_div out_channels (y * width + x) oc Hc).
  rewrite (row_cell_mod width y x Hx), (row_cell_div width y x Hx). reflexivity.
Qed.

(** The cell that [pixel_shuffle_r2] writes for sub-pixel [sub] of channel
    [c] of pixel [(x, y)]. *)
Lemma shuffle_cell_inj width channels y x c sub y' x' c' sub' :
  x < width → c < channels → sub < 4 → x' < width → c' < channels → sub' < 4 →
  ((y * 2 + sub / 2) * (width * 2) + (x * 2 + sub mod 2)) * channels + c
  = ((y' * 2 + sub' / 2) * (width * 2) + (x' * 2 + sub' mod 2)) * channels + c' →
  y = y' ∧ x = x' ∧ c = c' ∧ sub = sub'.
Proof.
  intros Hx Hc Hs Hx' Hc' Hs' E.
  pose proof (Nat.mod_upper_bound sub 2 ltac:(lia)) as Hm.
  pose proof (Nat.mod_upper_bound sub' 2 ltac:(lia)) as Hm'.
  assert (Hd : sub / 2 < 2) by (apply Nat.Div0.div_lt_upper_bound; lia).
  assert (Hd' : sub' / 2 < 2) by (apply Nat.Div0.div_lt_upper_bound; lia).
  destruct (radix_inj channels _ c _ c' Hc Hc' E) as [E1 Ec].
  destruct (radix_inj (width * 2) _ (x * 2 + sub mod 2) _ (x' * 2 + sub' mod 2)
              ltac:(lia) ltac:(lia) E1) as [Ey Ex].
  destruct (radix_inj 2 y (sub / 2) y' (sub' / 2) Hd Hd' Ey) as [Ey1 Ey2].
  destruct (radix_inj 2 x (sub mod 2) x' (sub' mod 2) Hm Hm' Ex) as [Ex1 Ex2].
  pose proof (Nat.div_mod sub 2 ltac:(lia)).
  pose proof (Nat.div_mod sub' 2 ltac:(lia)).
  repeat split; try assumption. lia.
Qed.

Lemma shuffle_cell_decode width channels y x c sub :
  x < width → c < channels → sub < 4 →
  let j := ((y * 2 + sub / 2) * (width * 2) + (x * 2 + sub mod 2)) * channels + c in
  j mod channels = c
  ∧ j / channels / (width * 2) / 2 = y
  ∧ j / channels mod (width * 2) / 2 = x
  ∧ j / channels / (width * 2) mod 2 * 2 + j / channels mod (width * 2) mod 2 = sub.
Proof.
  intros Hx Hc Hs j.
  pose proof (Nat.mod_upper_bound sub 2 ltac:(lia)) as Hm.
  assert (Hd : sub / 2 < 2) by (apply Nat.Div0.div_lt_upper_bound; lia).
  pose proof (Nat.div_mod sub 2 ltac:(lia)) as Hsub.
  unfold j.
  rewrite (row_cell_mod channels _ c Hc), (row_cell_div channels _ c Hc).
  rewrite (row_cell_mod (width * 2) (y * 2 + sub / 2) (x * 2 + sub mod 2)) by lia.
  rewrite (row_cell_div (width * 2) (y * 2 + sub / 2) (x * 2 + sub mod 2)) by lia.
  rewrite (row_cell_div 2 y (sub / 2) Hd), (row_cell_mod 2 y (sub / 2) Hd).
  rewrite (row_cell_div 2 x (sub mod 2) Hm), (row_cell_mod 2 x (sub mod 2) Hm).
  repeat split; lia.
Qed.

(** [pixel_shuffle_r2] stores the clamped channels of every input pixel
    into the four output pixels it expands to. *)
Lemma pixel_shuffle_r2_cells (input output : list F) width height channels :
  fits height → input ≠ [] → width ≠ 0 → height ≠ 0 → channels ≠ 0 →
  length output = height * 2 * (width * 2) * channels →
  ∃ out,
    SrLite.pixel_shuffle_r2 pool_size input output width height channels = Some out
    ∧ length out = length output
    ∧ ∀ y x c sub, y < height → x < width → c < channels → sub < 4 →
        nth (((y * 2 + sub / 2) * (width * 2) + (x * 2 + sub mod 2)) * channels + c)
            out (f_lit 0)
        = fclamp (nth ((y * width + x) * (channels * 2 * 2) + c * 2 * 2 + sub)
                      input (f_lit 0))
                 (f_lit 0) (f_lit 1).
Proof.
  intros Hfh Hin Hw Hh Hc Hlen.
  assert (Hout : output ≠ []).
  { apply length_nonempty. rewrite Hlen. nia. }
  unfold SrLite.pixel_shuffle_r2.
  rewrite bool_decide_eq_false_2 by tauto.
  rewrite parallel_for_sequential by assumption.
  eexists. split; [reflexivity|].
  set (cell := λ y x c sub,
         ((y * 2 + sub / 2) * (width * 2) + (x * 2 + sub mod 2)) * channels + c).
  set (src := λ y x c sub,
         fclamp (nth ((y * width + x) * (channels * 2 * 2) + c * 2 * 2 + sub)
                     input (f_lit 0)) (f_lit 0) (f_lit 1)).
  set (val := λ (j : nat) (_ : F),
         src (j / channels / (width * 2) / 2) (j / channels mod (width * 2) / 2)
             (j mod channels)
             (j / channels / (width * 2) mod 2 * 2 + j / channels mod (width * 2) mod 2)).
  assert (Hval : ∀ y x c sub v, x < width → c < channels → sub < 4 →
            val (cell y x c sub) v = src y x c sub).
  { intros y x c sub v Hx Hcc Hs. unfold val, cell.
    destruct (shuffle_cell_decode width channels y x c sub Hx Hcc Hs)
      as (E1 & E2 & E3 & E4).
    cbv zeta in E1, E2, E3, E4. rewrite E1, E2, E3, E4. reflexivity. }
  assert (Hrows : updates_cells
            (for_range 0 height (SrLite.shuffle_row input width channels))
            (λ j, ∃ y, 0 ≤ y < height ∧ ∃ x, 0 ≤ x < width ∧ ∃ c, 0 ≤ c < channels
                       ∧ ∃ sub, 0 ≤ sub < 4 ∧ j = cell y x c sub) val).
  { apply (updates_cells_for_range 0 height _
             (λ y j, ∃ x, 0 ≤ x < width ∧ ∃ c, 0 ≤ c < channels
                          ∧ ∃ sub, 0 ≤ sub < 4 ∧ j = cell y x c sub)).
    - intros y Hy l. unfold SrLite.shuffle_row. cbv zeta.
      unfold SrLite.kUpscaleFactor, SrWeights.kUpscaleFactor.
      apply (updates_cells_for_range 0 width _
               (λ x j, ∃ c, 0 ≤ c < channels ∧ ∃ sub, 0 ≤ sub < 4 ∧ j = cell y x c sub)).
      + intros x Hx l'.
        apply (updates_cells_for_range 0 channels _
                 (λ c j, ∃ sub, 0 ≤ sub < 4 ∧ j = cell y x c sub)).
        * intros c Hcc l''. change (2 * 2) with 4.
          apply (updates_cells_for_range 0 4 _ (λ sub j, j = cell y x c sub)).
          -- intros sub Hs. apply updates_cells_insert. intros v.
             rewrite (Hval y x c sub v) by lia. reflexivity.
          -- intros sub sub' j Hs Hs' Ej Ej'. cbv beta in Ej, Ej'.
             assert (E : cell y x c sub = cell y x c sub') by congruence.
             apply (shuffle_cell_inj width channels) in E; [tauto|lia..].
        * intros c c' j Hcc Hcc' (sub & Hs & Ej) (sub' & Hs' & Ej').
          assert (E : cell y x c sub = cell y x c' sub') by congruence.
          apply (shuffle_cell_inj width channels) in E; [tauto|lia..].
      + intros x x' j Hx Hx' (c & Hcc & sub & Hs & Ej) (c' & Hcc' & sub' & Hs' & Ej').
        assert (E : cell y x c sub = cell y x' c' sub') by congruence.
        apply (shuffle_cell_inj width channels) in E; [tauto|lia..].
    - intros y y' j Hy Hy' (x & Hx & c & Hcc & sub & Hs & Ej)
        (x' & Hx' & c' & Hcc' & sub' & Hs' & Ej').
      assert (E : cell y x c sub = cell y' x' c' sub') by congruence.
      apply (shuffle_cell_inj width channels) in E; [tauto|lia..]. }
  destruct (Hrows output) as [Hlen' Hcells]. split; [exact Hlen'|].
  intros y x c sub Hy Hx Hcc Hs. fold (cell y x c sub). fold (src y x c sub).
  assert (Hj : cell y x c sub < length output).
  { rewrite Hlen. unfold cell.
    pose proof (Nat.mod_upper_bound sub 2 ltac:(lia)).
    assert (sub / 2 < 2) by (apply Nat.Div0.div_lt_upper_bound; lia).
    apply flat_index_lt; lia. }
  destruct (lookup_lt_is_Some_2 output _ Hj) as [v Hv].
  destruct (Hcells (cell y x c sub)) as [Hwritten _].
  apply nth_lookup_Some. rewrite Hwritten, Hv.
  - cbn [fmap option_fmap option_map]. rewrite (Hval y x c sub v) by lia. reflexivity.
  - exists y. split; [lia|]. exists x. split; [lia|]. exists c. split; [lia|].
    exists sub. split; [lia|reflexivity].
Qed.

End NetworkCells.

(** *** The three layers under exact real arithmetic *)

Lemma relu_R (a : R) :
  (if true && fltb a (f_lit 0) then f_lit 0 else a) = Rmax 0 a.
Proof.
  cbn [andb fltb f_lit R_float]. rewrite RMicromega.Q2R_0.
  unfold R_ltb, Rmax. destruct (Rlt_dec a 0), (Rle_dec 0 a); lra.
Qed.

Lemma Q2R_3 : Q2R 3 = 3%R.
Proof. unfold Q2R. simpl. lra. Qed.

(** The first layer computes the features. *)
Lemma conv1_value (input : list R) width height y x f :
  f < 16 →
  conv_value input width height 3 SrWeights.kConv1Weights SrWeights.kConv1Bias true
    y x f
  = sr_feature input width height y x f.
Proof.
  intros Hf. unfold conv_value. cbv zeta. rewrite relu_R.
  unfold sr_feature. cbv zeta.
  unfold SrWeights.kConv1Bias, SrWeights.kConv1OutChannels.
  rewrite nth_replicate_lt by exact Hf.
  unfold for_range. cbn [seq foldl Nat.sub nth].
  rewrite !conv1_weights_entry by lia.
  unfold sr_tap.
  do 16 (destruct f as [|f]; [
    unfold conv1_weight;
    cbn [Nat.eqb Nat.div Nat.modulo Nat.divmod fst snd andb nth Nat.add Nat.mul Nat.sub];
    cbn [fadd fmul fdiv f_lit R_float];
    rewrite ?RMicromega.Q2R_0, ?RMicromega.Q2R_1, ?Q2R_3; f_equal; lra|]).
  lia.
Qed.

(** The second layer passes the features on. *)
Lemma conv2_value (stage1 : list R) width height y x oc :
  oc < 16 →
  conv_value stage1 width height 16 SrWeights.kConv2Weights SrWeights.kConv2Bias true
    y x oc
  = Rmax 0 (nth (SrLite.mirror_index (Z.of_nat y) height * (width * 16)
                 + SrLite.mirror_index (Z.of_nat x) width * 16 + oc) stage1 0%R).
Proof.
  intros Hoc. unfold conv_value. cbv zeta. rewrite relu_R.
  unfold SrWeights.kConv2Bias, SrWeights.kConv2OutChannels.
  rewrite nth_replicate_lt by exact Hoc.
  unfold for_range. cbn [seq foldl Nat.sub nth].
  rewrite !conv2_weights_entry by lia.
  unfold conv2_weight.
  cbn [Nat.eqb andb].
  cbn [fadd fmul f_lit R_float].
  rewrite ?RMicromega.Q2R_0, ?RMicromega.Q2R_1.
  f_equal.
  do 16 (destruct oc as [|oc]; [cbn [Nat.eqb]; lra|]).
  lia.
Qed.

Lemma Q2R_mix :
  Q2R 1.2 = 1.2%R ∧ Q2R (-0.1) = (-0.1)%R ∧ Q2R (-0.05) = (-0.05)%R
  ∧ Q2R 0.05 = 0.05%R.
Proof. unfold Q2R. simpl. repeat split; lra. Qed.

(** The third layer mixes the features of one pixel. *)
Lemma conv3_value (stage2 : list R) width height y x oc :
  oc < 12 →
  conv_value stage2 width height 16 SrWeights.kConv3Weights SrWeights.kConv3Bias false
    y x oc
  = sr_mix (λ f, nth (SrLite.mirror_index (Z.of_nat y) height * (width * 16)
                      + SrLite.mirror_index (Z.of_nat x) width * 16 + f) stage2 0%R)
           (oc / 4) (oc mod 4).
Proof.
  intros Hoc. unfold conv_value. cbv zeta. cbn [andb].
  unfold SrWeights.kConv3Bias, SrWeights.kConv3OutChannels,
    SrWeights.kInputChannels, SrWeights.kUpscaleFactor.
  rewrite nth_replicate_lt by exact Hoc.
  unfold for_range. cbn [seq foldl Nat.sub nth].
  rewrite !conv3_weights_entry by lia.
  destruct Q2R_mix as (Hmain & Hstrong & Hweak & Hluma).
  unfold sr_mix. cbv zeta.
  do 12 (destruct oc as [|oc]; [
    unfold conv3_weight, SrWeights.strong_pairs, SrWeights.weak_pairs;
    cbn [Nat.eqb andb negb existsb orb nth Nat.div Nat.modulo Nat.divmod fst snd
         Nat.add Nat.mul Nat.sub];
    cbn [fadd fmul f_lit R_float];
    rewrite ?RMicromega.Q2R_0, ?Hmain, ?Hstrong, ?Hweak, ?Hluma; lra|]).
  lia.
Qed.

(** The two mirror functions of the sources agree. *)
Lemma sr_mirror_index_resample idx length :
  fits (length * 2) → SrLite.mirror_index idx length = Resample.mirror_index idx length.
Proof.
  intros Hf. unfold SrLite.mirror_index, Resample.mirror_index.
  destruct (decide (length = 0)) as [->|H0].
  { rewrite !bool_decide_eq_true_2 by lia. reflexivity. }
  destruct (decide (length = 1)) as [->|H1].
  { rewrite bool_decide_eq_true_2 by lia. reflexivity. }
  rewrite !bool_decide_eq_false_2 by lia. cbv zeta.
  rewrite mirror_period by (try exact Hf; lia).
  destruct (Z.eqb_spec (2 * Z.of_nat length - 2) 0); [lia|reflexivity].
Qed.

Lemma sr_mirror_index_lt idx length :
  0 < length → fits (length * 2) → SrLite.mirror_index idx length < length.
Proof.
  intros Hl Hf. rewrite sr_mirror_index_resample by exact Hf.
  apply mirror_index_lt; assumption.
Qed.

Lemma sr_mirror_index_id i length :
  i < length → fits (length * 2) → SrLite.mirror_index (Z.of_nat i) length = i.
Proof.
  intros Hi Hf. rewrite sr_mirror_index_resample by exact Hf.
  rewrite mirror_index_id by (try exact Hf; lia). apply Nat2Z.id.
Qed.

Lemma sr_feature_nonneg (input : list R) width height y x f :
  Rmax 0 (sr_feature input width height y x f) = sr_feature input width height y x f.
Proof.
  unfold sr_feature. cbv zeta. destruct (f =? 15); apply Rmax_right, Rmax_l.
Qed.

Lemma sr_mix_ext (t t' : nat → R) c o :
  (∀ f, f < 16 → t f = t' f) → c < 3 → o < 4 → sr_mix t c o = sr_mix t' c o.
Proof.
  intros Ht Hc Ho. unfold sr_mix, SrWeights.strong_pairs, SrWeights.weak_pairs.
  do 4 (destruct o as [|o]; [cbn [nth]; rewrite !Ht by lia; reflexivity|]). lia.
Qed.

Section Network.
Variable pool_size : nat.
Hypothesis Hpool : fits (Nat.max 1 pool_size * 4).

(** [sr_lite_forward] in closed form. *)
Lemma sr_lite_forward_cells (input output : list R) width height :
  width ≠ 0 → height ≠ 0 →
  length input = height * width * 3 →
  length output = height * 2 * (width * 2) * 3 →
  fits (height * width * 16) →
  ∃ out,
    SrLite.sr_lite_forward pool_size input output width height = Some out
    ∧ length out = length output
    ∧ ∀ y x c sub, y < height → x < width → c < 3 → sub < 4 →
        nth (((y * 2 + sub / 2) * (width * 2) + (x * 2 + sub mod 2)) * 3 + c) out 0%R
        = Rmax 0 (Rmin 1 (sr_mix (sr_feature input width height y x) c sub)).
Proof.
  intros Hw Hh Hlen_in Hlen_out Hfits.
  assert (Hf : ∀ n, n ≤ height * width * 16 → fits n).
  { intros n Hn. eapply fits_le; eauto. }
  assert (Harea : 1 ≤ height * width) by nia.
  assert (Hfh : fits height) by (apply Hf; nia).
  assert (Hfh2 : fits (height * 2)) by (apply Hf; nia).
  assert (Hfw2 : fits (width * 2)) by (apply Hf; nia).
  assert (Hin : input ≠ []) by (apply length_nonempty; lia).
  assert (Hout : output ≠ []) by (apply length_nonempty; nia).
  assert (Hzero : f_lit (F:=R) 0 = 0%R) by apply RMicromega.Q2R_0.
  unfold SrLite.sr_lite_forward.
  rewrite bool_decide_eq_false_2 by tauto.
  unfold SrLite.kStage1Channels, SrLite.kStage2Channels, SrLite.kStage3Channels,
    SrLite.kInputChannels, SrWeights.kConv1OutChannels, SrWeights.kConv2OutChannels,
    SrWeights.kConv3OutChannels, SrWeights.kInputChannels, SrWeights.kUpscaleFactor.
  change (3 * 2 * 2) with 12.
  rewrite (wrap_fits (width * height * 16)) by (apply Hf; lia).
  rewrite (wrap_fits (width * height * 12)) by (apply Hf; lia).
  destruct (convolve3x3_cells pool_size Hpool input
              (replicate (width * height * 16) (f_lit 0)) width height 3 16
              SrWeights.kConv1Weights SrWeights.kConv1Bias true Hfh Hin Hw Hh
              ltac:(lia) ltac:(rewrite length_replicate; lia))
    as (s1 & -> & Hl1 & Hs1).
  cbn [mbind option_bind].
  assert (Hne1 : s1 ≠ []) by (apply length_nonempty; lia).
  destruct (convolve3x3_cells pool_size Hpool s1
              (replicate (width * height * 16) (f_lit 0)) width height 16 16
              SrWeights.kConv2Weights SrWeights.kConv2Bias true Hfh Hne1 Hw Hh
              ltac:(lia) ltac:(rewrite length_replicate; lia))
    as (s2 & -> & Hl2 & Hs2).
  cbn [mbind option_bind].
  assert (Hne2 : s2 ≠ []) by (apply length_nonempty; lia).
  destruct (convolve3x3_cells pool_size Hpool s2
              (replicate (width * height * 12) (f_lit 0)) width height 16 12
              SrWeights.kConv3Weights SrWeights.kConv3Bias false Hfh Hne2 Hw Hh
              ltac:(lia) ltac:(rewrite length_replicate; lia))
    as (s3 & -> & Hl3 & Hs3).
  cbn [mbind option_bind].
  assert (Hne3 : s3 ≠ []) by (apply length_nonempty; lia).
  destruct (pixel_shuffle_r2_cells pool_size Hpool s3 output width height 3
              Hfh Hne3 Hw Hh ltac:(lia) Hlen_out)
    as (out & -> & Hlo & Hcells).
  exists out. split; [reflexivity|]. split; [exact Hlo|].
  intros y x c sub Hy Hx Hc Hs.
  rewrite <- Hzero at 1. rewrite (Hcells y x c sub Hy Hx Hc Hs).
  (* the features of pixel (x, y) in the first two stages *)
  assert (Hcenter : ∀ f, SrLite.mirror_index (Z.of_nat y) height * (width * 16)
                         + SrLite.mirror_index (Z.of_nat x) width * 16 + f
                         = (y * width + x) * 16 + f).
  { intros f. rewrite !sr_mirror_index_id by assumption. lia. }
  assert (Hfeat1 : ∀ f, f < 16 →
            nth ((y * width + x) * 16 + f) s1 0%R = sr_feature input width height y x f).
  { intros f Hf16. rewrite <- Hzero at 1. rewrite Hs1 by assumption.
    apply conv1_value. exact Hf16. }
  assert (Hfeat2 : ∀ f, f < 16 →
            nth ((y * width + x) * 16 + f) s2 0%R = sr_feature input width height y x f).
  { intros f Hf16. rewrite <- Hzero at 1. rewrite Hs2 by assumption.
    rewrite conv2_value by exact Hf16. rewrite Hcenter, Hfeat1 by exact Hf16.
    apply sr_feature_nonneg. }
  replace ((y * width + x) * (3 * 2 * 2) + c * 2 * 2 + sub)
    with ((y * width + x) * 12 + (c * 4 + sub)) by lia.
  rewrite (Hs3 y x (c * 4 + sub)) by lia.
  rewrite conv3_value by lia.
  rewrite (row_cell_div 4 c sub Hs), (row_cell_mod 4 c sub Hs).
  rewrite (sr_mix_ext _ (sr_feature input width height y x) c sub); try assumption.
  - apply (sanitize_pixel_R (sr_mix (sr_feature input width height y x) c sub)).
  - intros f Hf16. rewrite Hcenter. apply Hfeat2. exact Hf16.
Qed.

End Network.



(** The features of a pixel of a flat image. *)
Lemma sr_feature_flat (input : list R) width height (v : nat → R) y x f :
  width ≠ 0 → height ≠ 0 → fits (height * 2) → fits (width * 2) →
  (∀ c, c < 3 → (0 <= v c)%R) →
  (∀ p c, p < height * width → c < 3 → nth (p * 3 + c) input 0%R = v c) →
  f < 16 →
  sr_feature input width height y x f
  = if f =? 15 then ((v 0%nat + v 1%nat + v 2%nat) / 3)%R else v (f / 5).
Proof.
  intros Hw Hh Hfh Hfw Hv Hflat Hf.
  assert (Htap : ∀ ty tx c, c < 3 → sr_tap input width height ty tx c = v c).
  { intros ty tx c Hc. unfold sr_tap.
    pose proof (sr_mirror_index_lt ty height ltac:(lia) Hfh) as Hy.
    pose proof (sr_mirror_index_lt tx width ltac:(lia) Hfw) as Hx.
    replace (SrLite.mirror_index ty height * (width * 3)
             + SrLite.mirror_index tx width * 3 + c)
      with ((SrLite.mirror_index ty height * width + SrLite.mirror_index tx width) * 3 + c)
      by lia.
    apply Hflat; [|exact Hc].
    assert ((SrLite.mirror_index ty height + 1) * width ≤ height * width)
      by (apply Nat.mul_le_mono_r; lia).
    lia. }
  unfold sr_feature. cbv zeta. destruct (Nat.eqb_spec f 15) as [->|Hne].
  - rewrite !Htap by lia.
    pose proof (Hv 0 ltac:(lia)). pose proof (Hv 1 ltac:(lia)).
    pose proof (Hv 2 ltac:(lia)). apply Rmax_right. lra.
  - assert (Hc : f / 5 < 3) by (apply Nat.Div0.div_lt_upper_bound; lia).
    destruct (f mod 5) as [|[|[|[|k]]]]; rewrite Htap by exact Hc;
      apply Rmax_right, Hv, Hc.
Qed.

(** X27. What the regeneration network does to a flat image.  Under exact
    arithmetic, when every pixel of the input has the same three channel
    values [v 0], [v 1], [v 2] in [0, 1], every pixel of the output is
    flat too, and its channel [c] is [0.9 v c + 0.05 m] with [m] the mean of
    the three: a flat gray image comes out darker by a twentieth. *)
Theorem sr_lite_forward_flat (pool_size : nat) (input output : list R)
    (width height : nat) (v : nat → R) :
  fits (Nat.max 1 pool_size * 4) →
  width ≠ 0 → height ≠ 0 →
  length input = height * width * 3 →
  length output = height * 2 * (width * 2) * 3 →
  fits (height * width * 16) →
  (∀ c, c < 3 → (0 <= v c <= 1)%R) →
  (∀ p c, p < height * width → c < 3 → nth (p * 3 + c) input 0%R = v c) →
  ∃ out,
    SrLite.sr_lite_forward pool_size input output width height = Some out
    ∧ length out = length output
    ∧ ∀ Y X c, Y < height * 2 → X < width * 2 → c < 3 →
        nth ((Y * (width * 2) + X) * 3 + c) out 0%R
        = (0.9 * v c + 0.05 * ((v 0%nat + v 1%nat + v 2%nat) / 3))%R.
Proof.
  intros Hpool Hw Hh Hlen_in Hlen_out Hfits Hv Hflat.
  destruct (sr_lite_forward_cells pool_size Hpool input output width height
              Hw Hh Hlen_in Hlen_out Hfits)
    as (out & Hrun & Hlen & Hcells).
  exists out. split; [exact Hrun|]. split; [exact Hlen|].
  intros Y X c HY HX Hc.
  assert (Harea : 1 ≤ height * width) by nia.
  assert (Hfh : fits (height * 2)) by (eapply fits_le; [|exact Hfits]; nia).
  assert (Hfw : fits (width * 2)) by (eapply fits_le; [|exact Hfits]; nia).
  pose proof (Nat.div_mod Y 2 ltac:(lia)) as HYd.
  pose proof (Nat.div_mod X 2 ltac:(lia)) as HXd.
  pose proof (Nat.mod_upper_bound Y 2 ltac:(lia)) as HYm.
  pose proof (Nat.mod_upper_bound X 2 ltac:(lia)) as HXm.
  set (sub := Y mod 2 * 2 + X mod 2).
  assert (Hsub : sub < 4) by (unfold sub; lia).
  assert (Hs1 : sub / 2 = Y mod 2) by (apply row_cell_div; exact HXm).
  assert (Hs2 : sub mod 2 = X mod 2) by (apply row_cell_mod; exact HXm).
  replace Y with (Y / 2 * 2 + sub / 2) at 1 by lia.
  replace X with (X / 2 * 2 + sub mod 2) at 1 by lia.
  rewrite (Hcells (Y / 2) (X / 2) c sub) by (try assumption; lia).
  assert (Hfeat : ∀ f, f < 16 →
            sr_feature input width height (Y / 2) (X / 2) f
            = if f =? 15 then ((v 0%nat + v 1%nat + v 2%nat) / 3)%R else v (f / 5)).
  { intros f Hf. apply sr_feature_flat; try assumption.
    intros c' Hc'. apply Hv, Hc'. }
  pose proof (Hv 0 ltac:(lia)) as H0. pose proof (Hv 1 ltac:(lia)) as H1.
  pose proof (Hv 2 ltac:(lia)) as H2. pose proof (Hv c Hc) as Hvc.
  assert (Hmix : sr_mix (sr_feature input width height (Y / 2) (X / 2)) c sub
                 = (0.9 * v c + 0.05 * ((v 0%nat + v 1%nat + v 2%nat) / 3))%R).
  { unfold sr_mix, SrWeights.strong_pairs, SrWeights.weak_pairs. cbv zeta.
    assert (Hk : ∀ k, k < 5 →
              sr_feature input width height (Y / 2) (X / 2) (c * 5 + k) = v c).
    { intros k Hk. rewrite Hfeat by lia.
      destruct (Nat.eqb_spec (c * 5 + k) 15) as [E|_]; [lia|].
      rewrite (row_cell_div 5 c k Hk). reflexivity. }
    rewrite (Hfeat 15) by lia. cbn [Nat.eqb].
    replace (c * 5) with (c * 5 + 0) at 1 by lia.
    do 4 (destruct sub as [|sub]; [cbn [nth]; rewrite !Hk by lia; lra|]). lia. }
  rewrite Hmix.
  rewrite Rmin_right by lra. apply Rmax_right. lra.
Qed.

Lemma sr_lite_forward_flat_witness :
  ∃ out,
    SrLite.sr_lite_forward 4 [0.5; 0.5; 0.5; 0.5; 0.5; 0.5]%R (replicate 24 0%R) 2 1
    = Some out
    ∧ length out = 24
    ∧ ∀ Y X c, Y < 2 → X < 4 → c < 3 →
        nth ((Y * 4 + X) * 3 + c) out 0%R
        = (0.9 * 0.5 + 0.05 * ((0.5 + 0.5 + 0.5) / 3))%R.
Proof.
  destruct (sr_lite_forward_flat 4 [0.5; 0.5; 0.5; 0.5; 0.5; 0.5]%R
              (replicate 24 0%R) 2 1 (λ _, 0.5%R))
    as (out & Hrun & Hlen & Hcells);
    [reflexivity|lia|lia|reflexivity|reflexivity|reflexivity| | |].
  - intros c _. lra.
  - intros p c Hp Hc. simpl in Hp.
    destruct p as [|[|p]]; [| |lia];
      (destruct c as [|[|[|c]]]; [| | |lia]); reflexivity.
  - exists out. split; [exact Hrun|]. split; [exact Hlen|].
    intros Y X c HY HX Hc. apply (Hcells Y X c); simpl; lia.
Defined.

(** ** The parallel loops do not depend on the schedule *)

Lemma writes_only_insert {A} (i : nat) (x : A) :
  writes_only (<[i:=x]>) (λ j, j = i).
Proof.
  intros l. split; [apply length_insert|]. split.
  - intros j Hj. apply list_lookup_insert_ne. congruence.
  - intros l' j Hlen ->. destruct (decide (i < length l)) as [Hi|Hi].
    + rewrite !list_lookup_insert_eq by lia. reflexivity.
    + rewrite !list_insert_ge by lia.
      rewrite !lookup_ge_None_2 by lia. reflexivity.
Qed.

Lemma writes_only_iff {A} (body : list A → list A) (R R' : nat → Prop) :
  (∀ j, R j ↔ R' j) → writes_only body R → writes_only body R'.
Proof.
  intros HR Hb l. destruct (Hb l) as (Hlen & Hout & Hin).
  split; [exact Hlen|]. split.
  - intros j Hj. apply Hout. intros Hr. apply Hj, HR, Hr.
  - intros l' j Hl Hj. apply Hin; [exact Hl|]. apply HR, Hj.
Qed.

Lemma writes_only_id {A} : writes_only (λ l : list A, l) (λ _, False).
Proof.
  intros l. split; [reflexivity|]. split; [reflexivity|]. intros l' j _ [].
Qed.

(** One body after another. *)
Lemma writes_only_compose {A} (b1 b2 : list A → list A) (R1 R2 : nat → Prop) :
  writes_only b1 R1 → writes_only b2 R2 →
  writes_only (λ l, b2 (b1 l)) (λ j, R1 j ∨ R2 j).
Proof.
  intros H1 H2 l.
  destruct (H1 l) as (Hlen1 & Hout1 & Hin1).
  destruct (H2 (b1 l)) as (Hlen2 & Hout2 & Hin2).
  split; [congruence|]. split.
  - intros j Hj. rewrite Hout2, Hout1 by tauto. reflexivity.
  - intros l' j Hl Hj.
    destruct (H1 l') as (Hlen1' & Hout1' & _).
    destruct (H2 (b1 l')) as (_ & Hout2' & _).
    destruct (Classical_Prop.classic (R2 j)) as [Hr2|Hr2].
    + apply Hin2; [congruence|exact Hr2].
    + destruct Hj as [Hr1|Hr2']; [|contradiction].
      rewrite Hout2', Hout2 by exact Hr2. apply Hin1; assumption.
Qed.

Lemma writes_only_for_range {A} lo hi (body : nat → list A → list A)
    (R : nat → nat → Prop) :
  (∀ i, lo ≤ i < hi → writes_only (body i) (R i)) →
  writes_only (for_range lo hi body) (λ j, ∃ i, lo ≤ i < hi ∧ R i j).
Proof.
  intros Hbody. destruct (decide (lo ≤ hi)) as [Hle|Hgt]; cycle 1.
  { intros l. rewrite for_range_empty by lia.
    split; [reflexivity|]. split; [reflexivity|]. intros l' j _ (i & Hi & _). lia. }
  induction hi as [|hi IH].
  - intros l. rewrite for_range_empty by lia.
    split; [reflexivity|]. split; [reflexivity|]. intros l' j _ (i & Hi & _). lia.
  - destruct (decide (lo = S hi)) as [->|Hne].
    { intros l. rewrite for_range_empty by lia.
      split; [reflexivity|]. split; [reflexivity|]. intros l' j _ (i & Hi & _). lia. }
    assert (Hprev : writes_only (for_range lo hi body) (λ j, ∃ i, lo ≤ i < hi ∧ R i j)).
    { apply IH; [|lia]. intros i Hi. apply Hbody. lia. }
    pose proof (writes_only_compose _ _ _ _ Hprev (Hbody hi ltac:(lia))) as Hc.
    intros l. destruct (Hc l) as (Hlen & Hout & Hin).
    assert (Hl : ∀ l0, for_range lo (S hi) body l0 = body hi (for_range lo hi body l0)).
    { intros l0. apply for_range_snoc. lia. }
    rewrite Hl. split; [exact Hlen|]. split.
    + intros j Hj. apply Hout. intros [(i & Hi & Hr)|Hr]; apply Hj.
      * exists i. split; [lia|exact Hr].
      * exists hi. split; [lia|exact Hr].
    + intros l' j Hlen' (i & Hi & Hr). rewrite Hl. apply Hin; [exact Hlen'|].
      destruct (decide (i = hi)) as [->|Hih]; [right; exact Hr|].
      left. exists i. split; [lia|exact Hr].
Qed.

(** Bodies that write disjoint regions commute. *)
Lemma writes_only_commute {A} (b1 b2 : list A → list A) (R1 R2 : nat → Prop) l :
  writes_only b1 R1 → writes_only b2 R2 → (∀ j, R1 j → R2 j → False) →
  b1 (b2 l) = b2 (b1 l).
Proof.
  intros H1 H2 Hdisj. apply list_eq. intros j.
  destruct (H1 l) as (Hlen1 & Hout1 & Hin1).
  destruct (H2 l) as (Hlen2 & Hout2 & Hin2).
  destruct (H1 (b2 l)) as (_ & Hout12 & _).
  destruct (H2 (b1 l)) as (_ & Hout21 & _).
  destruct (Classical_Prop.classic (R1 j)) as [Hr1|Hr1].
  - rewrite Hout21 by (intros Hr2; exact (Hdisj j Hr1 Hr2)).
    apply Hin1; [exact Hlen2|exact Hr1].
  - rewrite Hout12 by exact Hr1.
    destruct (Classical_Prop.classic (R2 j)) as [Hr2|Hr2].
    + symmetry. apply Hin2; [exact Hlen1|exact Hr2].
    + rewrite Hout2, Hout21, Hout1 by assumption. reflexivity.
Qed.

(** Commuting bodies may run in any order. *)
Lemma run_in_order_permutation {St} (body : nat → St → St) (l1 l2 : list nat) :
  l1 ≡ₚ l2 →
  (∀ i i' s, i ∈ l1 → i' ∈ l1 → i ≠ i' → body i (body i' s) = body i' (body i s)) →
  ∀ s, run_in_order body l1 s = run_in_order body l2 s.
Proof.
  unfold run_in_order. induction 1 as [|x l l' _ IH|x y l|l l' l'' H1 IH1 H2 IH2];
    intros Hcomm s.
  - reflexivity.
  - simpl. apply IH. intros i i' s' Hi Hi'. apply Hcomm; apply elem_of_cons; tauto.
  - simpl. destruct (decide (x = y)) as [->|Hxy]; [reflexivity|].
    rewrite (Hcomm x y s); [reflexivity| | |exact Hxy].
    + apply elem_of_cons. right. apply elem_of_cons. tauto.
    + apply elem_of_cons. tauto.
  - rewrite IH1 by exact Hcomm. apply IH2.
    intros i i' s' Hi Hi'. apply Hcomm; rewrite H1; assumption.
Qed.

Lemma run_in_order_seq {St} (body : nat → St → St) lo hi s :
  run_in_order body (seq lo (hi - lo)) s = for_range lo hi body s.
Proof. reflexivity. Qed.

(** The order in which a call of [parallel_for_impl] visits the indices. *)
Lemma completes_permutation (pool_size n : nat) d vis :
  fits n → fits (Nat.max 1 pool_size * 4) →
  ThreadPool.parallel_for_impl pool_size 0 n = Some d →
  ThreadPool.completes pool_size d vis →
  vis ≡ₚ seq 0 n.
Proof.
  intros Hn Hpool Hd Hvis.
  destruct (parallel_for_impl_chained pool_size n Hn Hpool) as (d' & Hd' & Hch & Hsub).
  rewrite Hd in Hd'. injection Hd' as <-.
  pose proof (chained_indices 0 n _ Hch) as Hidx. rewrite Nat.sub_0_r in Hidx.
  destruct d as [|c|chunks]; simpl in *.
  - subst vis. rewrite <- Hidx. reflexivity.
  - subst vis. rewrite app_nil_r in Hidx. rewrite Hidx. reflexivity.
  - assert (Hps : 1 ≤ pool_size) by (specialize (Hsub chunks eq_refl); lia).
    destruct Hvis as (final & Hrtc & Hret & ->).
    eapply pool_inv_wait_returns; [|exact Hret].
    eapply pool_inv_reachable; [exact Hps| |exact Hrtc].
    apply pool_inv_init. exact Hch.
Qed.

(** A loop whose bodies write disjoint regions: every order in which a
    complete run of the pool visits the indices gives the result of
    [parallel_for]. *)
Lemma parallel_for_any_schedule {A} (pool_size n : nat) d vis
    (body : nat → list A → list A) (R : nat → nat → Prop) s :
  fits n → fits (Nat.max 1 pool_size * 4) →
  ThreadPool.parallel_for_impl pool_size 0 n = Some d →
  ThreadPool.completes pool_size d vis →
  (∀ i, i < n → writes_only (body i) (R i)) →
  (∀ i i' j, i < n → i' < n → R i j → R i' j → i = i') →
  ThreadPool.parallel_for pool_size 0 n body s = Some (run_in_order body vis s).
Proof.
  intros Hn Hpool Hd Hvis Hbody Hdisj.
  rewrite parallel_for_sequential by assumption. f_equal.
  pose proof (completes_permutation pool_size n d vis Hn Hpool Hd Hvis) as Hperm.
  rewrite <- run_in_order_seq, Nat.sub_0_r.
  symmetry. apply run_in_order_permutation; [exact Hperm|].
  intros i i' s' Hi Hi' Hne.
  rewrite Hperm in Hi, Hi'. apply elem_of_seq in Hi, Hi'.
  apply (writes_only_commute _ _ (R i) (R i')).
  - apply Hbody. lia.
  - apply Hbody. lia.
  - intros j Hr Hr'. apply Hne. apply (Hdisj i i' j); [lia|lia|assumption..].
Qed.

(** *** The regions of the five loop bodies *)

(** The cells of row [y] of a packed image of width [w] with [ch] samples
    per pixel. *)
Lemma writes_only_row {A} (w ch y : nat) (body : nat → nat → list A → list A) :
  (∀ x c, x < w → c < ch →
     writes_only (body x c) (λ j, j = (y * w + x) * ch + c)) →
  writes_only (for_range 0 w (λ x, for_range 0 ch (λ c, body x c)))
    (λ j, ∃ x c, x < w ∧ c < ch ∧ j = (y * w + x) * ch + c).
Proof.
  intros Hbody. eapply writes_only_iff; cycle 1.
  - apply (writes_only_for_range 0 w _
             (λ x j, ∃ c, 0 ≤ c < ch ∧ j = (y * w + x) * ch + c)).
    intros x Hx.
    apply (writes_only_for_range 0 ch _ (λ c j, j = (y * w + x) * ch + c)).
    intros c Hc. apply Hbody; lia.
  - intros j. split.
    + intros (x & Hx & c & Hc & ->). exists x, c. repeat split; lia.
    + intros (x & c & Hx & Hc & ->). exists x. split; [lia|]. exists c.
      split; [lia|reflexivity].
Qed.

Lemma row_cells_disjoint (w ch y y' j : nat) :
  (∃ x c, x < w ∧ c < ch ∧ j = (y * w + x) * ch + c) →
  (∃ x c, x < w ∧ c < ch ∧ j = (y' * w + x) * ch + c) →
  y = y'.
Proof.
  intros (x & c & Hx & Hc & ->) (x' & c' & Hx' & Hc' & E).
  destruct (flat_index_inj w ch y x c y' x' c' Hx Hc Hx' Hc' E) as (Hy & _).
  exact Hy.
Qed.

Section Bodies.
Context {F : Type} `{FloatOps F} `{TrigOps F}.

Lemma horizontal_row_writes (input : Image.t F) new_width channels table y :
  writes_only (Resample.horizontal_row input new_width channels table y)
    (λ j, ∃ x c, x < new_width ∧ c < channels
                 ∧ j = (y * new_width + x) * channels + c).
Proof.
  unfold Resample.horizontal_row. cbv zeta.
  apply (writes_only_row new_width channels y
    (λ x c, <[y * new_width * channels + x * channels + c :=
       Resample.accumulate (nth x table CubicPhase.empty)
         (λ src_idx, nth (y * Image.width input * channels + src_idx * channels + c)
                         (Image.pixels input) (f_lit 0))]>)).
  intros x c Hx Hc.
  replace (y * new_width * channels + x * channels + c)
    with ((y * new_width + x) * channels + c) by lia.
  apply writes_only_insert.
Qed.

Lemma vertical_row_writes (intermediate : list F) new_width channels table y :
  writes_only (Resample.vertical_row intermediate new_width channels table y)
    (λ j, ∃ x c, x < new_width ∧ c < channels
                 ∧ j = (y * new_width + x) * channels + c).
Proof.
  unfold Resample.vertical_row. cbv zeta.
  apply (writes_only_row new_width channels y
    (λ x c, <[y * new_width * channels + x * channels + c :=
       fclamp
         (Resample.accumulate (nth y table CubicPhase.empty)
            (λ sample_y, nth (sample_y * new_width * channels + x * channels + c)
                             intermediate (f_lit 0)))
         (f_lit 0) (f_lit 1)]>)).
  intros x c Hx Hc.
  replace (y * new_width * channels + x * channels + c)
    with ((y * new_width + x) * channels + c) by lia.
  apply writes_only_insert.
Qed.

Lemma convolve_row_writes (input : list F) width height in_channels out_channels
    weights bias relu y :
  writes_only
    (SrLite.convolve_row input width height in_channels out_channels weights bias relu y)
    (λ j, ∃ x c, x < width ∧ c < out_channels
                 ∧ j = (y * width + x) * out_channels + c).
Proof.
  unfold SrLite.convolve_row. cbv zeta.
  eapply writes_only_iff; cycle 1.
  - apply (writes_only_for_range 0 width _
             (λ x j, ∃ c, 0 ≤ c < out_channels
                          ∧ j = (y * width + x) * out_channels + c)).
    intros x Hx.
    apply (writes_only_for_range 0 out_channels _
             (λ c j, j = (y * width + x) * out_channels + c)).
    intros c Hc.
    replace (y * (width * out_channels) + x * out_channels + c)
      with ((y * width + x) * out_channels + c) by lia.
    apply writes_only_insert.
  - intros j. split.
    + intros (x & Hx & c & Hc & ->). exists x, c. repeat split; lia.
    + intros (x & c & Hx & Hc & ->). exists x. split; [lia|]. exists c.
      split; [lia|reflexivity].
Qed.

Lemma shuffle_row_writes (input : list F) width channels y :
  writes_only (SrLite.shuffle_row input width channels y)
    (λ j, ∃ x c sub, x < width ∧ c < channels ∧ sub < 4
                     ∧ j = ((y * 2 + sub / 2) * (width * 2) + (x * 2 + sub mod 2))
                           * channels + c).
Proof.
  unfold SrLite.shuffle_row, SrLite.kUpscaleFactor, SrWeights.kUpscaleFactor. cbv zeta.
  eapply writes_only_iff; cycle 1.
  - apply (writes_only_for_range 0 width _
             (λ x j, ∃ c, 0 ≤ c < channels ∧ ∃ sub, 0 ≤ sub < 2 * 2
                ∧ j = ((y * 2 + sub / 2) * (width * 2) + (x * 2 + sub mod 2))
                      * channels + c)).
    intros x Hx.
    apply (writes_only_for_range 0 channels _
             (λ c j, ∃ sub, 0 ≤ sub < 2 * 2
                ∧ j = ((y * 2 + sub / 2) * (width * 2) + (x * 2 + sub mod 2))
                      * channels + c)).
    intros c Hc.
    apply (writes_only_for_range 0 (2 * 2) _
             (λ sub j, j = ((y * 2 + sub / 2) * (width * 2) + (x * 2 + sub mod 2))
                           * channels + c)).
    intros sub Hsub. apply writes_only_insert.
  - intros j. split.
    + intros (x & Hx & c & Hc & sub & Hsub & ->). exists x, c, sub.
      repeat split; lia.
    + intros (x & c & sub & Hx & Hc & Hsub & ->). exists x. split; [lia|].
      exists c. split; [lia|]. exists sub. split; [lia|reflexivity].
Qed.

Lemma shuffle_cells_disjoint (width channels y y' j : nat) :
  (∃ x c sub, x < width ∧ c < channels ∧ sub < 4
              ∧ j = ((y * 2 + sub / 2) * (width * 2) + (x * 2 + sub mod 2))
                    * channels + c) →
  (∃ x c sub, x < width ∧ c < channels ∧ sub < 4
              ∧ j = ((y' * 2 + sub / 2) * (width * 2) + (x * 2 + sub mod 2))
                    * channels + c) →
  y = y'.
Proof.
  intros (x & c & sub & Hx & Hc & Hsub & ->) (x' & c' & sub' & Hx' & Hc' & Hsub' & E).
  pose proof (Nat.mod_upper_bound sub 2 ltac:(lia)) as Hm.
  pose proof (Nat.mod_upper_bound sub' 2 ltac:(lia)) as Hm'.
  assert (Hd : sub / 2 < 2) by (apply Nat.Div0.div_lt_upper_bound; lia).
  assert (Hd' : sub' / 2 < 2) by (apply Nat.Div0.div_lt_upper_bound; lia).
  destruct (radix_inj channels _ c _ c' Hc Hc' E) as [E1 _].
  assert (Hr : x * 2 + sub mod 2 < width * 2) by lia.
  assert (Hr' : x' * 2 + sub' mod 2 < width * 2) by lia.
  destruct (radix_inj (width * 2) _ _ _ _ Hr Hr' E1) as [E2 _].
  destruct (radix_inj 2 _ _ _ _ Hd Hd' E2) as [E3 _].
  exact E3.
Qed.

(** The write-back of one channel of a tile. *)
Lemma scatter_block_writes (block : list F) width height channels base_x base_y c :
  writes_only (Dct.scatter_block block width height channels base_x base_y c)
    (λ j, ∃ yy xx, yy < 8 ∧ xx < 8 ∧ base_y + yy < height ∧ base_x + xx < width
                   ∧ j = ((base_y + yy) * width + (base_x + xx)) * channels + c).
Proof.
  unfold Dct.scatter_block.
  set (cell := λ yy xx, ((base_y + yy) * width + (base_x + xx)) * channels + c).
  assert (Hrow : ∀ yy,
            writes_only
              (for_break 0 8 (λ xx (dst : list F),
                 if bool_decide (width ≤ base_x + xx) then None
                 else Some (<[cell yy xx := Dct.at64 block (yy * 8 + xx)]> dst)))
              (λ j, ∃ xx, xx < 8 ∧ base_x + xx < width ∧ j = cell yy xx)).
  { intros yy.
    assert (E : ∀ l, for_break 0 8 (λ xx (dst : list F),
                 if bool_decide (width ≤ base_x + xx) then None
                 else Some (<[cell yy xx := Dct.at64 block (yy * 8 + xx)]> dst)) l
               = for_range 0 (Nat.min 8 (width - base_x)) (λ xx (dst : list F),
                   <[cell yy xx := Dct.at64 block (yy * 8 + xx)]> dst) l).
    { intros l. apply (for_break_limit width base_x
                         (λ xx (dst : list F), <[cell yy xx := Dct.at64 block (yy * 8 + xx)]> dst)). }
    pose proof (writes_only_for_range 0 (Nat.min 8 (width - base_x))
                  (λ xx (dst : list F), <[cell yy xx := Dct.at64 block (yy * 8 + xx)]> dst)
                  (λ xx j, j = cell yy xx)
                  (λ xx _, writes_only_insert _ _)) as Hloop.
    intros l. rewrite E. destruct (Hloop l) as (Hlen & Hout & Hin).
    split; [exact Hlen|]. split.
    - intros j Hj. apply Hout. intros (xx & Hxx & ->). apply Hj.
      exists xx. split; [lia|]. split; [lia|reflexivity].
    - intros l' j Hl (xx & Hxx & Hx & ->). rewrite E. apply Hin; [exact Hl|].
      exists xx. split; [lia|reflexivity]. }
  assert (E : ∀ l,
            for_break 0 8 (λ yy (dst : list F),
              if bool_decide (height ≤ base_y + yy) then None
              else Some (for_break 0 8 (λ xx (dst : list F),
                if bool_decide (width ≤ base_x + xx) then None
                else Some (<[cell yy xx := Dct.at64 block (yy * 8 + xx)]> dst)) dst)) l
            = for_range 0 (Nat.min 8 (height - base_y)) (λ yy (dst : list F),
                for_break 0 8 (λ xx (dst : list F),
                  if bool_decide (width ≤ base_x + xx) then None
                  else Some (<[cell yy xx := Dct.at64 block (yy * 8 + xx)]> dst)) dst) l).
  { intros l. apply (for_break_limit height base_y
                       (λ yy (dst : list F), for_break 0 8 (λ xx (dst : list F),
                          if bool_decide (width ≤ base_x + xx) then None
                          else Some (<[cell yy xx := Dct.at64 block (yy * 8 + xx)]> dst))
                          dst)). }
  pose proof (writes_only_for_range 0 (Nat.min 8 (height - base_y))
                (λ yy (dst : list F), for_break 0 8 (λ xx (dst : list F),
                   if bool_decide (width ≤ base_x + xx) then None
                   else Some (<[cell yy xx := Dct.at64 block (yy * 8 + xx)]> dst)) dst)
                (λ yy j, ∃ xx, xx < 8 ∧ base_x + xx < width ∧ j = cell yy xx)
                (λ yy _, Hrow yy)) as Hloop.
  intros l. rewrite E. destruct (Hloop l) as (Hlen & Hout & Hin).
  split; [exact Hlen|]. split.
  - intros j Hj. apply Hout. intros (yy & Hyy & xx & Hxx & Hx & ->). apply Hj.
    exists yy, xx. repeat split; lia.
  - intros l' j Hl (yy & xx & Hyy & Hxx & Hy & Hx & ->). rewrite E.
    apply Hin; [exact Hl|]. exists yy. split; [lia|]. exists xx.
    split; [lia|]. split; [lia|reflexivity].
Qed.

Lemma process_tile_writes (src : list F) width height channels quality quant_table
    tiles_x tile_index :
  writes_only
    (Dct.process_tile src width height channels quality quant_table tiles_x tile_index)
    (tile_cell width height channels
       (tile_index mod tiles_x * 8) (tile_index / tiles_x * 8)).
Proof.
  unfold Dct.process_tile. cbv zeta.
  eapply writes_only_iff; cycle 1.
  - apply (writes_only_for_range 0 channels _
             (λ c j, ∃ yy xx, yy < 8 ∧ xx < 8
                ∧ tile_index / tiles_x * 8 + yy < height
                ∧ tile_index mod tiles_x * 8 + xx < width
                ∧ j = ((tile_index / tiles_x * 8 + yy) * width
                       + (tile_index mod tiles_x * 8 + xx)) * channels + c)).
    intros c Hc. apply scatter_block_writes.
  - intros j. unfold tile_cell. split.
    + intros (c & Hc & yy & xx & Hyy & Hxx & Hy & Hx & ->).
      exists c, yy, xx. repeat split; try assumption; lia.
    + intros (c & yy & xx & Hc & Hyy & Hxx & Hy & Hx & ->).
      exists c. split; [lia|]. exists yy, xx. done.
Qed.

Lemma tile_cells_disjoint (width height channels tiles_x t t' j : nat) :
  tile_cell width height channels (t mod tiles_x * 8) (t / tiles_x * 8) j →
  tile_cell width height channels (t' mod tiles_x * 8) (t' / tiles_x * 8) j →
  t = t'.
Proof.
  intros (c & yy & xx & Hc & Hyy & Hxx & Hy & Hx & ->)
         (c' & yy' & xx' & Hc' & Hyy' & Hxx' & Hy' & Hx' & E).
  destruct (radix_inj channels _ c _ c' Hc Hc' E) as [E1 _].
  destruct (radix_inj width _ _ _ _ Hx Hx' E1) as [E2 E3].
  destruct (radix_inj 8 _ _ _ _ Hyy Hyy' E2) as [E4 _].
  destruct (radix_inj 8 _ _ _ _ Hxx Hxx' E3) as [E5 _].
  rewrite (Nat.div_mod_eq t tiles_x), (Nat.div_mod_eq t' tiles_x).
  rewrite E4, E5. reflexivity.
Qed.

End Bodies.

(** X14. The parallel loops of the pipeline do not depend on the schedule.
    For every pool size and every complete run of the pool on a call
    [parallel_for(0, n, body)] -- the chunks enqueued, popped or stolen and
    completed in whatever order the workers take them, until [wait()] returns
    -- running [body] on the indices in the order in which the run visited
    them gives the result of the loop in index order, which is what the
    embedding of the stages uses.  This holds for the five bodies that the
    code hands to [parallel_for]: the rows of the two passes of
    [resample_cubic], the rows of [convolve3x3] and of [pixel_shuffle_r2],
    and the tiles of [dct8x8_hf_attenuate]; each of them stores into cells
    that no other index of the loop stores into, and reads none of them. *)
Theorem parallel_for_schedule_independent {F : Type} `{FloatOps F} `{TrigOps F}
    (pool_size n : nat) (d : ThreadPool.dispatch) (vis : list nat) :
  fits n → fits (Nat.max 1 pool_size * 4) →
  ThreadPool.parallel_for_impl pool_size 0 n = Some d →
  ThreadPool.completes pool_size d vis →
  (∀ (input : Image.t F) new_width channels table s,
     ThreadPool.parallel_for pool_size 0 n
       (Resample.horizontal_row input new_width channels table) s
     = Some (run_in_order
               (Resample.horizontal_row input new_width channels table) vis s))
  ∧ (∀ (intermediate : list F) new_width channels table s,
       ThreadPool.parallel_for pool_size 0 n
         (Resample.vertical_row intermediate new_width channels table) s
       = Some (run_in_order
                 (Resample.vertical_row intermediate new_width channels table) vis s))
  ∧ (∀ (input : list F) width height in_channels out_channels weights bias relu s,
       ThreadPool.parallel_for pool_size 0 n
         (SrLite.convolve_row input width height in_channels out_channels
            weights bias relu) s
       = Some (run_in_order
                 (SrLite.convolve_row input width height in_channels out_channels
                    weights bias relu) vis s))
  ∧ (∀ (input : list F) width channels s,
       ThreadPool.parallel_for pool_size 0 n
         (SrLite.shuffle_row input width channels) s
       = Some (run_in_order (SrLite.shuffle_row input width channels) vis s))
  ∧ (∀ (src : list F) width height channels quality quant_table tiles_x s,
       ThreadPool.parallel_for pool_size 0 n
         (Dct.process_tile src width height channels quality quant_table tiles_x) s
       = Some (run_in_order
                 (Dct.process_tile src width height channels quality quant_table
                    tiles_x) vis s)).
Proof.
  intros Hn Hpool Hd Hvis.
  split; [|split; [|split; [|split]]].
  - intros input new_width channels table s.
    eapply (parallel_for_any_schedule pool_size n d vis); try eassumption.
    + intros y _. apply horizontal_row_writes.
    + intros y y' j _ _. apply row_cells_disjoint.
  - intros intermediate new_width channels table s.
    eapply (parallel_for_any_schedule pool_size n d vis); try eassumption.
    + intros y _. apply vertical_row_writes.
    + intros y y' j _ _. apply row_cells_disjoint.
  - intros input width height in_channels out_channels weights bias relu s.
    eapply (parallel_for_any_schedule pool_size n d vis); try eassumption.
    + intros y _. apply convolve_row_writes.
    + intros y y' j _ _. apply row_cells_disjoint.
  - intros input width channels s.
    eapply (parallel_for_any_schedule pool_size n d vis); try eassumption.
    + intros y _. apply shuffle_row_writes.
    + intros y y' j _ _. apply shuffle_cells_disjoint.
  - intros src width height channels quality quant_table tiles_x s.
    eapply (parallel_for_any_schedule pool_size n d vis); try eassumption.
    + intros t _. apply process_tile_writes.
    + intros t t' j _ _. apply tile_cells_disjoint.
Qed.

(** Two workers and three indices: three chunks of one index.  Worker 1
    runs its own chunk, then steals the last chunk of worker 0 while worker 0
    runs the first one: the indices are visited in the order 1, 0, 2. *)
Lemma parallel_for_schedule_independent_witness :
  (∀ (input : Image.t R) new_width channels table s,
     ThreadPool.parallel_for 2 0 3
       (Resample.horizontal_row input new_width channels table) s
     = Some (run_in_order
               (Resample.horizontal_row input new_width channels table) [1; 0; 2] s))
  ∧ (∀ (intermediate : list R) new_width channels table s,
       ThreadPool.parallel_for 2 0 3
         (Resample.vertical_row intermediate new_width channels table) s
       = Some (run_in_order
                 (Resample.vertical_row intermediate new_width channels table)
                 [1; 0; 2] s))
  ∧ (∀ (input : list R) width height in_channels out_channels weights bias relu s,
       ThreadPool.parallel_for 2 0 3
         (SrLite.convolve_row input width height in_channels out_channels
            weights bias relu) s
       = Some (run_in_order
                 (SrLite.convolve_row input width height in_channels out_channels
                    weights bias relu) [1; 0; 2] s))
  ∧ (∀ (input : list R) width channels s,
       ThreadPool.parallel_for 2 0 3
         (SrLite.shuffle_row input width channels) s
       = Some (run_in_order (SrLite.shuffle_row input width channels) [1; 0; 2] s))
  ∧ (∀ (src : list R) width height channels quality quant_table tiles_x s,
       ThreadPool.parallel_for 2 0 3
         (Dct.process_tile src width height channels quality quant_table tiles_x) s
       = Some (run_in_order
                 (Dct.process_tile src width height channels quality quant_table
                    tiles_x) [1; 0; 2] s)).
Proof.
  apply (parallel_for_schedule_independent (F:=R) 2 3
           (ThreadPool.Submit [(0, 1); (1, 2); (2, 3)]) [1; 0; 2]).
  - unfold fits, size_modulus. simpl. lia.
  - unfold fits, size_modulus. simpl. lia.
  - vm_compute. reflexivity.
  - eexists. split.
    + eapply rtc_l; [apply ThreadPool.step_enqueue; discriminate|]. simpl.
      eapply rtc_l; [apply ThreadPool.step_enqueue; discriminate|]. simpl.
      eapply rtc_l; [apply ThreadPool.step_enqueue; discriminate|]. simpl.
      eapply rtc_l; [eapply (ThreadPool.step_take 1); [vm_compute; lia|reflexivity]|]. simpl.
      eapply rtc_l; [eapply (ThreadPool.step_complete _ []); reflexivity|]. simpl.
      eapply rtc_l; [eapply (ThreadPool.step_take 1); [vm_compute; lia|reflexivity]|]. simpl.
      eapply rtc_l; [eapply (ThreadPool.step_take 0); [vm_compute; lia|reflexivity]|]. simpl.
      eapply rtc_l; [eapply (ThreadPool.step_complete _ []); reflexivity|]. simpl.
      eapply rtc_l; [eapply (ThreadPool.step_complete _ []); reflexivity|]. simpl.
      apply rtc_refl.
    + split; [split; reflexivity|reflexivity].
Defined.


(** ** The resampler in binary32 *)

(** [std::clamp] does not remove a NaN: every comparison with a NaN is
    false. *)
Lemma fclamp_nan (lo hi : Binary32.t) : fclamp SpecFloat.S754_nan lo hi = SpecFloat.S754_nan.
Proof. unfold fclamp. destruct lo, hi; reflexivity. Qed.

(** One past the last sample reflects to the last but one. *)
Lemma mirror_index_end length :
  2 ≤ length → fits (length * 2) →
  Resample.mirror_index (Z.of_nat length) length = length - 2.
Proof.
  intros Hl Hf. unfold Resample.mirror_index.
  rewrite !bool_decide_eq_false_2 by lia.
  rewrite mirror_period by (try exact Hf; lia).
  set (period := (2 * Z.of_nat length - 2)%Z).
  destruct (Z.eqb_spec period 0); [unfold period in *; lia|].
  destruct (decide (length = 2)) as [->|Hne].
  - unfold period. simpl. reflexivity.
  - rewrite Z.rem_small by (unfold period; lia).
    destruct (Z.ltb_spec (Z.of_nat length) 0); [lia|].
    rewrite Z.geb_leb. destruct (Z.leb_spec (Z.of_nat length) (Z.of_nat length)); [|lia].
    unfold period. lia.
Qed.

(** Evaluation of the closed binary32 expressions of a goal. *)
Ltac eval_closed f :=
  repeat match goal with
  | |- context [f ?x] =>
      let v := eval vm_compute in (f x) in
      progress replace (f x) with v by (vm_compute; reflexivity)
  end.

Ltac eval_closed2 f :=
  repeat match goal with
  | |- context [f ?x ?y] =>
      let v := eval vm_compute in (f x y) in
      progress replace (f x y) with v by (vm_compute; reflexivity)
  end.

(** What the two passes store, for any table and any arithmetic. *)
Lemma horizontal_pass_cell {F : Type} `{FloatOps F} (input : Image.t F)
    (h new_width channels : nat) (table : list (CubicPhase.t F)) (l0 : list F)
    (y x c : nat) :
  y < h → x < new_width → c < channels →
  length l0 = h * new_width * channels →
  nth ((y * new_width + x) * channels + c)
      (for_range 0 h (Resample.horizontal_row input new_width channels table) l0)
      (f_lit 0)
  = Resample.accumulate (nth x table CubicPhase.empty)
      (λ src_idx, nth (y * Image.width input * channels + src_idx * channels + c)
                      (Image.pixels input) (f_lit 0)).
Proof.
  intros Hy Hx Hc Hlen.
  set (val := λ (j : nat) (_ : F),
         Resample.accumulate (nth (j / channels mod new_width) table CubicPhase.empty)
           (λ src_idx, nth (j / channels / new_width * Image.width input * channels
                            + src_idx * channels + j mod channels)
                           (Image.pixels input) (f_lit 0))).
  assert (Hcells : updates_cells
            (for_range 0 h (Resample.horizontal_row input new_width channels table))
            (λ j, j < h * new_width * channels) val).
  { apply (updates_cells_pixels h new_width channels
      (λ y x c, <[y * new_width * channels + x * channels + c :=
         Resample.accumulate (nth x table CubicPhase.empty)
           (λ src_idx, nth (y * Image.width input * channels + src_idx * channels + c)
                           (Image.pixels input) (f_lit 0))]>)).
    intros y' x' c' Hy' Hx' Hc'.
    replace (y' * new_width * channels + x' * channels + c')
      with ((y' * new_width + x') * channels + c') by lia.
    apply updates_cells_insert. intros v. unfold val.
    destruct (cell_decode new_width channels y' x' c' Hx' Hc') as (E1 & E2 & E3).
    rewrite E1, E2, E3. reflexivity. }
  destruct (Hcells l0) as [Hl Hj].
  destruct (Hj ((y * new_width + x) * channels + c)) as [Hin _].
  assert (Hidx : (y * new_width + x) * channels + c < h * new_width * channels)
    by (apply flat_index_lt; assumption).
  destruct (lookup_lt_is_Some_2 l0 _ ltac:(rewrite Hlen; exact Hidx)) as [v Hv].
  apply nth_lookup_Some. rewrite (Hin Hidx), Hv. simpl. unfold val.
  destruct (cell_decode new_width channels y x c Hx Hc) as (E1 & E2 & E3).
  rewrite E1, E2, E3. reflexivity.
Qed.

Lemma vertical_pass_cell {F : Type} `{FloatOps F} (intermediate : list F)
    (h new_width channels : nat) (table : list (CubicPhase.t F)) (l0 : list F)
    (y x c : nat) :
  y < h → x < new_width → c < channels →
  length l0 = h * new_width * channels →
  nth ((y * new_width + x) * channels + c)
      (for_range 0 h (Resample.vertical_row intermediate new_width channels table) l0)
      (f_lit 0)
  = fclamp
      (Resample.accumulate (nth y table CubicPhase.empty)
         (λ sample_y, nth (sample_y * new_width * channels + x * channels + c)
                          intermediate (f_lit 0)))
      (f_lit 0) (f_lit 1).
Proof.
  intros Hy Hx Hc Hlen.
  set (val := λ (j : nat) (_ : F),
         fclamp
           (Resample.accumulate (nth (j / channels / new_width) table CubicPhase.empty)
              (λ sample_y, nth (sample_y * new_width * channels
                                + j / channels mod new_width * channels + j mod channels)
                               intermediate (f_lit 0)))
           (f_lit 0) (f_lit 1)).
  assert (Hcells : updates_cells
            (for_range 0 h (Resample.vertical_row intermediate new_width channels table))
            (λ j, j < h * new_width * channels) val).
  { apply (updates_cells_pixels h new_width channels
      (λ y x c, <[y * new_width * channels + x * channels + c :=
         fclamp
           (Resample.accumulate (nth y table CubicPhase.empty)
              (λ sample_y, nth (sample_y * new_width * channels + x * channels + c)
                               intermediate (f_lit 0)))
           (f_lit 0) (f_lit 1)]>)).
    intros y' x' c' Hy' Hx' Hc'.
    replace (y' * new_width * channels + x' * channels + c')
      with ((y' * new_width + x') * channels + c') by lia.
    apply updates_cells_insert. intros v. unfold val.
    destruct (cell_decode new_width channels y' x' c' Hx' Hc') as (E1 & E2 & E3).
    rewrite E1, E2, E3. reflexivity. }
  destruct (Hcells l0) as [Hl Hj].
  destruct (Hj ((y * new_width + x) * channels + c)) as [Hin _].
  assert (Hidx : (y * new_width + x) * channels + c < h * new_width * channels)
    by (apply flat_index_lt; assumption).
  destruct (lookup_lt_is_Some_2 l0 _ ltac:(rewrite Hlen; exact Hidx)) as [v Hv].
  apply nth_lookup_Some. rewrite (Hin Hidx), Hv. simpl. unfold val.
  destruct (cell_decode new_width channels y x c Hx Hc) as (E1 & E2 & E3).
  rewrite E1, E2, E3. reflexivity.
Qed.

(** A row that is 0 everywhere but at its last sample. *)
Lemma wide_sample_zero (i k : nat) (d : Binary32.t) :
  k < i → nth k (replicate i (f_lit 0) ++ [f_lit 1]) d = f_lit 0.
Proof.
  intros Hk. rewrite app_nth1 by (rewrite length_replicate; exact Hk).
  apply nth_replicate_lt. exact Hk.
Qed.

Lemma wide_sample_one (i k : nat) (d : Binary32.t) :
  k = i → nth k (replicate i (f_lit 0) ++ [f_lit 1]) d = f_lit 1.
Proof.
  intros ->. rewrite app_nth2 by (rewrite length_replicate; lia).
  rewrite length_replicate, Nat.sub_diag. reflexivity.
Qed.

Section Wide.
Variables (W i : nat).
Hypothesis HW : Z.of_nat W = 8388609%Z.
Hypothesis Hi : Z.of_nat i = 8388608%Z.

Lemma wide_fits n : n ≤ W * 16 → fits n.
Proof. unfold fits, size_modulus. intros Hn. lia. Qed.

Lemma upscale_taps_wide :
  Resample.upscale_taps (F:=Binary32.t) W (SpecFloat.S754_finite false 16777215 (-1)) 8388606
  = (CubicPhase.mk [i - 2; i - 1; i; i - 1]
       [f_lit (-0.0625); f_lit 0.5625; f_lit 0.5625; f_lit (-0.0625)], f_lit 1).
Proof.
  unfold Resample.upscale_taps, for_range. cbn [seq Nat.sub foldl].
  change (8388606 + Z.of_nat 0)%Z with 8388606%Z.
  change (8388606 + Z.of_nat 1)%Z with 8388607%Z.
  change (8388606 + Z.of_nat 2)%Z with 8388608%Z.
  change (8388606 + Z.of_nat 3)%Z with 8388609%Z.
  eval_closed (Resample.cubic_kernel (F:=Binary32.t)).
  eval_closed2 (feqb (F:=Binary32.t)).
  unfold CubicPhase.push, CubicPhase.empty. cbn [CubicPhase.indices CubicPhase.weights app].
  rewrite !mirror_index_id by first [apply wide_fits; lia | lia].
  replace (Resample.mirror_index 8388609 W) with (W - 2)
    by (rewrite <- HW; symmetry; apply mirror_index_end; [lia|apply wide_fits; lia]).
  apply (f_equal2 pair); [apply (f_equal2 CubicPhase.mk)| ].
  - repeat (apply (f_equal2 cons); [lia|]). reflexivity.
  - vm_compute. reflexivity.
  - vm_compute. reflexivity.
Qed.


Lemma phase_for_wide : Resample.phase_for (F:=Binary32.t) W W i = Some (CubicPhase.mk [i - 2; i - 1; i; i - 1]
           [f_lit (-0.0625); f_lit 0.5625; f_lit 0.5625; f_lit (-0.0625)]).
Proof.
  unfold Resample.phase_for. cbv zeta. rewrite HW, Hi.
  eval_closed2 (fdiv (F:=Binary32.t)).
  eval_closed2 (fltb (F:=Binary32.t)). cbv iota.
  eval_closed2 (fsub (F:=Binary32.t)).
  eval_closed (f_floor (F:=Binary32.t)).
  eval_closed (f_trunc (F:=Binary32.t)).
  change (8388607 - 1)%Z with 8388606%Z.
  rewrite upscale_taps_wide.
  unfold Resample.finish_phase. cbn [CubicPhase.indices CubicPhase.weights].
  eval_closed2 (fneb (F:=Binary32.t)). cbv iota.
  apply f_equal. apply (f_equal2 CubicPhase.mk); [reflexivity|].
  vm_compute. reflexivity.
Qed.

Lemma phase_for_wide_Some k : is_Some (Resample.phase_for (F:=Binary32.t) W W k).
Proof.
  unfold Resample.phase_for. cbv zeta. rewrite HW.
  eval_closed2 (fdiv (F:=Binary32.t)).
  eval_closed2 (fltb (F:=Binary32.t)). cbv iota.
  destruct (Resample.upscale_taps _ _ _). eexists. reflexivity.
Qed.

Lemma build_cubic_weight_table_wide :
  ∃ table, Resample.build_cubic_weight_table (F:=Binary32.t) W W = Some table
           ∧ length table = W
           ∧ nth i table CubicPhase.empty
             = CubicPhase.mk [i - 2; i - 1; i; i - 1]
                 [f_lit (-0.0625); f_lit 0.5625; f_lit 0.5625; f_lit (-0.0625)].
Proof.
  unfold Resample.build_cubic_weight_table.
  rewrite bool_decide_eq_false_2 by lia.
  destruct (proj2 (mapM_is_Some (Resample.phase_for (F:=Binary32.t) W W) (seq 0 W)))
    as [table Htable].
  { apply Forall_forall. intros k _. apply phase_for_wide_Some. }
  exists table. split; [exact Htable|].
  apply mapM_Some in Htable.
  pose proof (Forall2_length _ _ _ Htable) as Hlen. rewrite length_seq in Hlen.
  split; [congruence|].
  assert (Hk : seq 0 W !! i = Some i) by (apply lookup_seq; lia).
  destruct (Forall2_lookup_l _ _ _ _ _ Htable Hk) as (phase & Hphase & Hfor).
  rewrite phase_for_wide in Hfor. injection Hfor as <-.
  apply nth_lookup_Some. exact Hphase.
Qed.

(** The last sample of a row of 8388609 samples resized to its own width. *)
Lemma resample_cubic_wide (pool_size : nat) :
  fits (Nat.max 1 pool_size * 4) →
  ∃ out : list Binary32.t,
    Resample.resample_cubic pool_size
      (Image.mk W 1 (replicate i (f_lit 0) ++ [f_lit 1])) W 1
    = Some (Image.mk W 1 out)
    ∧ nth i out (f_lit 0) = f_lit 0.5625.
Proof.
  intros Hpool.
  assert (Hlen : length (replicate i (f_lit (F:=Binary32.t) 0) ++ [f_lit 1]) = W).
  { rewrite length_app, length_replicate. simpl. lia. }
  unfold Resample.resample_cubic. cbn [Image.width Image.height Image.pixels].
  rewrite bool_decide_eq_false_2 by lia.
  assert (Hch : Resample.compute_channels
                  (Image.mk W 1 (replicate i (f_lit (F:=Binary32.t) 0) ++ [f_lit 1])) = 1).
  { unfold Resample.compute_channels. cbn [Image.width Image.height Image.pixels].
    rewrite bool_decide_eq_false_2 by lia.
    rewrite Hlen, (wrap_fits (W * 1)) by (apply wide_fits; lia).
    rewrite Nat.mul_1_r.
    rewrite bool_decide_eq_false_2 by lia.
    rewrite Nat.Div0.mod_same.
    rewrite bool_decide_eq_false_2 by (intros Hne; apply Hne; reflexivity).
    apply Nat.div_same. lia. }
  rewrite Hch.
  rewrite !bool_decide_eq_false_2 by lia.
  destruct build_cubic_weight_table_wide as (table & -> & Htl & Hnth).
  replace (Resample.build_cubic_weight_table (F:=Binary32.t) 1 1)
    with (Some [CubicPhase.mk (F:=Binary32.t) [0] [f_lit 1]])
    by (vm_compute; reflexivity).
  cbn [mbind option_bind].
  rewrite bool_decide_eq_false_2; cycle 1.
  { intros [->|Hnil]; [simpl in Htl; lia|discriminate]. }
  rewrite !wrap_fits by (apply wide_fits; lia).
  rewrite parallel_for_sequential by first [exact Hpool | apply wide_fits; lia].
  cbn [mbind option_bind].
  rewrite parallel_for_sequential by first [exact Hpool | apply wide_fits; lia].
  cbn [mbind option_bind].
  eexists. split; [reflexivity|].
  replace i with ((0 * W + i) * 1 + 0) at 1 by lia.
  rewrite (vertical_pass_cell _ 1 W 1)
    by first [lia | rewrite length_replicate; lia].
  cbn [nth]. unfold Resample.accumulate at 1.
  cbn [CubicPhase.indices CubicPhase.weights length].
  unfold for_range at 1. cbn [seq Nat.sub foldl nth].
  replace (0 * W * 1 + i * 1 + 0) with ((0 * W + i) * 1 + 0) by lia.
  rewrite (horizontal_pass_cell _ 1 W 1)
    by first [lia | rewrite length_replicate; lia].
  rewrite Hnth. cbn [Image.width Image.pixels].
  unfold Resample.accumulate.
  cbn [CubicPhase.indices CubicPhase.weights length].
  unfold for_range. cbn [seq Nat.sub foldl nth].
  rewrite !wide_sample_zero by lia.
  rewrite wide_sample_one by lia.
  vm_compute. reflexivity.
Qed.
End Wide.

(** C8 (counterexample).  In binary32 the claim fails for a row of 8388609
    samples, all 0 but the last, which is 1: the image has nonzero
    dimensions, one channel and samples in [[0, 1]], yet resizing it to its
    own size changes the last sample from 1 to 0.5625.  At destination index
    [i = 8388608 = 2^23] the sum [float(i) + 0.5f] is not representable and
    rounds to [i], the source position becomes [i - 0.5], and the entry of
    the weight table is not a unit tap: it has the four taps
    [i - 2, i - 1, i, i - 1] with the weights
    [-0.0625, 0.5625, 0.5625, -0.0625]. *)
Lemma resample_cubic_wide_row_not_same :
  let width := Z.to_nat 8388609 in
  let last := Z.to_nat 8388608 in
  let img : Image.t Binary32.t :=
    Image.mk width 1 (replicate last (f_lit 0) ++ [f_lit 1]) in
  Image.width img ≠ 0 ∧ Image.height img ≠ 0
  ∧ length (Image.pixels img) = Image.height img * Image.width img * 1
  ∧ Forall (λ v, v = f_lit 0 ∨ v = f_lit 1) (Image.pixels img)
  ∧ (∃ table : list (CubicPhase.t Binary32.t),
       Resample.build_cubic_weight_table (Image.width img) (Image.width img)
       = Some table
       ∧ nth last table CubicPhase.empty
         = CubicPhase.mk [last - 2; last - 1; last; last - 1]
             [f_lit (-0.0625); f_lit 0.5625; f_lit 0.5625; f_lit (-0.0625)])
  ∧ ∃ out,
      Resample.resample_cubic 4 img (Image.width img) (Image.height img)
      = Some (Image.mk width 1 out)
      ∧ nth last (Image.pixels img) (f_lit 0) = f_lit 1
      ∧ nth last out (f_lit 0) = f_lit 0.5625
      ∧ fsub (f_lit 1) (f_lit 0.5625) = f_lit (F:=Binary32.t) 0.4375.
Proof.
  assert (HW : Z.of_nat (Z.to_nat 8388609) = 8388609%Z) by (apply Z2Nat.id; lia).
  assert (Hi : Z.of_nat (Z.to_nat 8388608) = 8388608%Z) by (apply Z2Nat.id; lia).
  cbv zeta. cbn [Image.width Image.height Image.pixels].
  split; [lia|]. split; [lia|]. split.
  { rewrite length_app, length_replicate. cbn [length]. lia. }
  split.
  { apply Forall_app. split.
    - apply Forall_replicate. left. reflexivity.
    - apply Forall_singleton. right. reflexivity. }
  split.
  { destruct (build_cubic_weight_table_wide _ _ HW Hi) as (table & Ht & _ & Hn).
    exists table. split; assumption. }
  destruct (resample_cubic_wide _ _ HW Hi 4) as (out & Hout & Hlast).
  { unfold fits, size_modulus. simpl. lia. }
  exists out. split; [exact Hout|]. split.
  { apply wide_sample_one. reflexivity. }
  split; [exact Hlast|]. vm_compute. reflexivity.
Qed.
